(** * Schema generation of the SpatialGDK editor module

    A shallow embedding of
    [SpatialGDKEditor/Private/SchemaGenerator/SpatialGDKEditorSchemaGenerator.cpp]
    and of the part of [CookAndGenerateSchemaCommandlet.cpp] that drives it.

    The file-level globals of the generator become one record,
    [GeneratorState], threaded through every function.  Engine containers
    are rendered as follows: a [TMap] is an association list with unique
    keys kept in insertion order ([TMap_Add] overwrites in place, a new key
    goes to the end), a [TSet] is a duplicate-free list, a [TArray] is a
    list.  [FString] is [string], compared as the engine compares it:
    [operator==] and [operator<] ignore case, and so do the keys of the
    maps and sets of strings.  A [Worker_ComponentId] is a [Z] that the
    code keeps below [2^32].  [UE_LOG] lines of level Display and above
    are appended to the [Log] field as structured entries. *)

From Stdlib Require Import ZArith List String Ascii Bool Arith Lia.
From Stdlib Require Import Permutation Sorted DecimalString DecimalNat.
Import ListNotations.

Local Open Scope string_scope.
Local Open Scope list_scope.
Local Open Scope Z_scope.

(** ** Strings *)

Notation "'FString'" := string (only parsing).

Definition FString_IsEmpty (s : FString) : bool :=
  match s with EmptyString => true | String _ _ => false end.

(** [FChar::IsDigit]. *)
Definition FChar_IsDigit (c : ascii) : bool :=
  ((48 <=? nat_of_ascii c) && (nat_of_ascii c <=? 57))%nat.

(** [FChar::IsDigit(Name[0])], on a name known to be non-empty. *)
Definition FString_StartsWithDigit (s : FString) : bool :=
  match s with EmptyString => false | String c _ => FChar_IsDigit c end.

(** [FChar::ToLower] on the ASCII letters, the case folding of
    [FCString::Stricmp], [Strnicmp] and [Stristr]. *)
Definition FChar_ToLower (c : ascii) : ascii :=
  if ((65 <=? nat_of_ascii c) && (nat_of_ascii c <=? 90))%nat
  then ascii_of_nat (nat_of_ascii c + 32)
  else c.

(** [FString::ToLower]: every character folded. *)
Fixpoint FString_ToLower (s : FString) : FString :=
  match s with
  | EmptyString => EmptyString
  | String c r => String (FChar_ToLower c) (FString_ToLower r)
  end.

(** [FCString::Stricmp]: the first difference of the two strings after
    case folding decides. *)
Fixpoint FCString_Stricmp (a b : FString) : comparison :=
  match a, b with
  | EmptyString, EmptyString => Eq
  | EmptyString, String _ _ => Lt
  | String _ _, EmptyString => Gt
  | String x a', String y b' =>
      match
        Nat.compare (nat_of_ascii (FChar_ToLower x)) (nat_of_ascii (FChar_ToLower y))
      with
      | Eq => FCString_Stricmp a' b'
      | Lt => Lt
      | Gt => Gt
      end
  end.

(** [FString::operator==] ([Stricmp == 0]): it ignores case, and with it
    the keys of every [TMap<FString, ...>] and [TSet<FString>].  [FName]
    compares the same way. *)
Definition FString_eqb (a b : FString) : bool :=
  match FCString_Stricmp a b with Eq => true | _ => false end.

(** [FString::operator<] ([Stricmp < 0]). *)
Definition FString_lt (a b : FString) : bool :=
  match FCString_Stricmp a b with Lt => true | _ => false end.

(** Whether the first characters of [s] are those of [p], compared by
    [eqc]. *)
Fixpoint FCString_HasPrefix (eqc : ascii -> ascii -> bool) (s p : FString) : bool :=
  match p, s with
  | EmptyString, _ => true
  | String _ _, EmptyString => false
  | String a p', String b s' => eqc a b && FCString_HasPrefix eqc s' p'
  end.

Definition FChar_eqb_IgnoreCase (a b : ascii) : bool :=
  Ascii.eqb (FChar_ToLower a) (FChar_ToLower b).

(** [FString::StartsWith(Prefix, ESearchCase::CaseSensitive)]: false for
    an empty prefix. *)
Definition FString_StartsWith_CaseSensitive (s p : FString) : bool :=
  negb (FString_IsEmpty p) && FCString_HasPrefix Ascii.eqb s p.

(** [FString::StartsWith(Prefix)]: the search case defaults to
    [ESearchCase::IgnoreCase]; false for an empty prefix. *)
Definition FString_StartsWith (s p : FString) : bool :=
  negb (FString_IsEmpty p) && FCString_HasPrefix FChar_eqb_IgnoreCase s p.

(** The text [FString::Printf(TEXT("%d"), n)] gives for a non-negative [n]. *)
Definition FString_FromInt (n : nat) : FString :=
  NilEmpty.string_of_uint (Nat.to_uint n).

(** The text of an unsigned component id, as [Writer.Printf("{0}", Id)]. *)
Definition FString_FromId (z : Z) : FString :=
  FString_FromInt (Z.to_nat z).

(** ** Containers *)

Section Containers.
Context {K V : Type} (eqb : K -> K -> bool).

Fixpoint TMap_Find (k : K) (m : list (K * V)) : option V :=
  match m with
  | [] => None
  | (k', v) :: r => if eqb k k' then Some v else TMap_Find k r
  end.

Definition TMap_Contains (k : K) (m : list (K * V)) : bool :=
  match TMap_Find k m with Some _ => true | None => false end.

(** [TMap::FindRef]: the stored value, or a default-constructed one. *)
Definition TMap_FindRef (d : V) (k : K) (m : list (K * V)) : V :=
  match TMap_Find k m with Some v => v | None => d end.

Fixpoint TMap_Add (k : K) (v : V) (m : list (K * V)) : list (K * V) :=
  match m with
  | [] => [(k, v)]
  | (k', v') :: r =>
      if eqb k k' then (k, v) :: r else (k', v') :: TMap_Add k v r
  end.

Fixpoint TMap_Remove (k : K) (m : list (K * V)) : list (K * V) :=
  match m with
  | [] => []
  | (k', v') :: r =>
      if eqb k k' then TMap_Remove k r else (k', v') :: TMap_Remove k r
  end.

(** [TMap::FindOrAdd(k)] followed by a change [f] of the value found: the
    stored key stays; a new key is added with the changed default value. *)
Fixpoint TMap_FindOrAdd (k : K) (d : V) (f : V -> V) (m : list (K * V))
  : list (K * V) :=
  match m with
  | [] => [(k, f d)]
  | (k', v') :: r =>
      if eqb k k' then (k', f v') :: r else (k', v') :: TMap_FindOrAdd k d f r
  end.

Definition TMap_Keys (m : list (K * V)) : list K := map fst m.

Definition TMap_Values (m : list (K * V)) : list V := map snd m.

(** [TSet::Contains] and [TSet::Add] (also [TArray::Contains]). *)
Fixpoint TSet_Contains (k : K) (s : list K) : bool :=
  match s with
  | [] => false
  | k' :: r => eqb k k' || TSet_Contains k r
  end.

Definition TSet_Add (k : K) (s : list K) : list K :=
  if TSet_Contains k s then s else s ++ [k].

(** [TSet::Add] for keys that can be equal without being the same (strings
    that differ in case): the element that was there is replaced by the
    new one, in its place ([TSet::Emplace]). *)
Fixpoint TSet_Emplace (k : K) (s : list K) : list K :=
  match s with
  | [] => [k]
  | k' :: r => if eqb k k' then k :: r else k' :: TSet_Emplace k r
  end.

(** [TMultiMap::GetKeys]: each key once, in order of first occurrence. *)
Fixpoint TMultiMap_GetKeys (m : list (K * V)) (seen : list K) : list K :=
  match m with
  | [] => []
  | (k, _) :: r =>
      if TSet_Contains k seen then TMultiMap_GetKeys r seen
      else k :: TMultiMap_GetKeys r (seen ++ [k])
  end.

(** [TMultiMap::MultiFind] (without [bMaintainOrder]): every value stored
    under the key, the one added last first. *)
Fixpoint TMultiMap_MultiFind (k : K) (m : list (K * V)) : list V :=
  match m with
  | [] => []
  | (k', v) :: r =>
      if eqb k k' then TMultiMap_MultiFind k r ++ [v]
      else TMultiMap_MultiFind k r
  end.

(** [TMultiMap::Num(Key)]: how many values the key has. *)
Definition TMultiMap_Num (k : K) (m : list (K * V)) : nat :=
  List.length (TMultiMap_MultiFind k m).

(** [TMultiMap::FindRef]: the first value the key iteration meets, or a
    default-constructed one. *)
Definition TMultiMap_FindRef (d : V) (k : K) (m : list (K * V)) : V :=
  match TMultiMap_MultiFind k m with
  | v :: _ => v
  | [] => d
  end.

End Containers.

(** Sorting by [operator<] on a key ([TSet::Sort], [TMap::KeySort]), as an
    insertion sort.  The engine's sort is not stable: it fixes the result
    only when no two keys compare equal (are the same but for case), and
    then the sorted sequence does not depend on the algorithm. *)
Section Sorting.
Context {A : Type} (key : A -> FString).

Fixpoint Sort_insert (x : A) (l : list A) : list A :=
  match l with
  | [] => [x]
  | y :: r =>
      if FString_lt (key y) (key x) then y :: Sort_insert x r
      else x :: l
  end.

Fixpoint Sort_by (l : list A) : list A :=
  match l with
  | [] => []
  | x :: r => Sort_insert x (Sort_by r)
  end.

End Sorting.

(** In a sorted sequence no element has a key below the key of an element
    before it. *)
Definition InKeyOrder {A : Type} (key : A -> FString) (l : list A) : Prop :=
  StronglySorted (fun a b => FString_lt (key b) (key a) = false) l.

(** ** Component ids *)

Notation "'Worker_ComponentId'" := Z (only parsing).

(** [SpatialConstants::INVALID_COMPONENT_ID]: the "unassigned" sentinel. *)
Definition INVALID_COMPONENT_ID : Worker_ComponentId := 0.

(** Largest value of the unsigned 32-bit id type. *)
Definition MAX_COMPONENT_ID : Worker_ComponentId := 2 ^ 32 - 1.

Inductive ESchemaComponentType : Type :=
| SCHEMA_Data
| SCHEMA_OwnerOnly
| SCHEMA_Handover.

Definition ESchemaComponentType_eqb (a b : ESchemaComponentType) : bool :=
  match a, b with
  | SCHEMA_Data, SCHEMA_Data => true
  | SCHEMA_OwnerOnly, SCHEMA_OwnerOnly => true
  | SCHEMA_Handover, SCHEMA_Handover => true
  | _, _ => false
  end.

(** The order [ForAllSchemaComponentTypes] calls its callback in. *)
Definition AllSchemaComponentTypes : list ESchemaComponentType :=
  [SCHEMA_Data; SCHEMA_OwnerOnly; SCHEMA_Handover].

(** Failures that stop the process rather than return: the id space is
    exhausted, a [check] fails, a file cannot be written. *)
Inductive Fatal : Type :=
| IdSpaceExhausted
| CheckFailed
| FilesystemError (Path : FString).

Definition Result (A : Type) : Type := (Fatal + A)%type.

Definition Ok {A : Type} (a : A) : Result A := inr a.

Definition bind {A B : Type} (m : Result A) (f : A -> Result B) : Result B :=
  match m with
  | inl e => inl e
  | inr a => f a
  end.

Notation "'let*' x ':=' m 'in' k" := (bind m (fun x => k))
  (at level 10, x pattern, m at level 100, k at level 200).

(** [TMap::operator[]] ([FindChecked]): a missing key fails [check]. *)
Definition TMap_FindChecked {K V : Type} (eqb : K -> K -> bool) (k : K)
  (m : list (K * V)) : Result V :=
  match TMap_Find eqb k m with
  | Some v => Ok v
  | None => inl CheckFailed
  end.

(** Modelled from the spec: [FComponentIdGenerator]
    (Utils/ComponentIdGenerator.h) is not among the sources.  The spec
    (4.2): it is constructed from a starting counter value; [next] returns
    the current counter value then increments it; [peek] returns the
    current value without mutating it; exhausting the id space fails the
    system (a fatal condition, not a recoverable one).  The counter is a
    32-bit unsigned id, so the id space is exhausted when the increment
    would leave it. *)
Record FComponentIdGenerator : Type := mkGenerator {
  CurrentId : Worker_ComponentId
}.

Definition FComponentIdGenerator_Next (g : FComponentIdGenerator)
  : Result (Worker_ComponentId * FComponentIdGenerator) :=
  if CurrentId g <? MAX_COMPONENT_ID
  then Ok (CurrentId g, mkGenerator (CurrentId g + 1))
  else inl IdSpaceExhausted.

Definition FComponentIdGenerator_Peek (g : FComponentIdGenerator)
  : Worker_ComponentId * FComponentIdGenerator :=
  (CurrentId g, g).

(** [n] successive calls of [Next], with the values they returned. *)
Fixpoint FComponentIdGenerator_NextN (n : nat) (g : FComponentIdGenerator)
  : Result (list Worker_ComponentId * FComponentIdGenerator) :=
  match n with
  | O => Ok ([], g)
  | S n' =>
      let* (id, g1) := FComponentIdGenerator_Next g in
      let* (ids, g2) := FComponentIdGenerator_NextN n' g1 in
      Ok (id :: ids, g2)
  end.

(** ** Reflection data

    What the generator reads from the engine's reflection system.  The
    type tree built by [CreateUnrealTypeInfo] is kept with the class it is
    built from; [GetFlatRepData], [GetFlatHandoverData], [GetAllSubobjects]
    and [VisitAllObjects] (TypeStructure, not among the sources) read it
    back. *)

Inductive EReplicatedPropertyGroup : Type :=
| REP_MultiClient
| REP_SingleClient.

Definition GetAllReplicatedPropertyGroups : list EReplicatedPropertyGroup :=
  [REP_MultiClient; REP_SingleClient].

Record FUnrealProperty : Type := mkProperty {
  Property_Name : FString;
  Property_PathName : FString
}.

(** A subobject node of the type tree: [TypeInfo->Name],
    [TypeInfo->Object->GetPathName()] and the path of its class. *)
Record FSubobject : Type := mkSubobject {
  Subobject_Name : FString;
  Subobject_ObjectPathName : FString;
  Subobject_ClassPath : FString
}.

#[local] Unset Elimination Schemes.
Inductive UClass : Type := mkUClass {
  UClass_IsValid : bool;
  UClass_IsEditorOnly : bool;
  UClass_SpatialType : bool;
  UClass_NotSpatialType : bool;
  UClass_LayoutChanging : bool;
  UClass_IsActor : bool;
  UClass_Name : FString;
  UClass_PathName : FString;
  UClass_RepData : EReplicatedPropertyGroup -> list FUnrealProperty;
  UClass_HandoverData : list FUnrealProperty;
  UClass_Subobjects : list (Z * FSubobject);
  UClass_ObjectGraph : list UClass
}.
#[local] Set Elimination Schemes.

(** Identity of a [UClass*]: live objects have pairwise different paths. *)
Definition UClass_eqb (a b : UClass) : bool :=
  String.eqb (UClass_PathName a) (UClass_PathName b).

Record FUnrealType : Type := mkUnrealType {
  TypeInfo_Type : UClass
}.

Definition CreateUnrealTypeInfo (Class : UClass) : FUnrealType :=
  mkUnrealType Class.

Definition GetFlatRepData (TypeInfo : FUnrealType)
  : EReplicatedPropertyGroup -> list FUnrealProperty :=
  UClass_RepData (TypeInfo_Type TypeInfo).

Definition GetFlatHandoverData (TypeInfo : FUnrealType) : list FUnrealProperty :=
  UClass_HandoverData (TypeInfo_Type TypeInfo).

Definition GetAllSubobjects (TypeInfo : FUnrealType) : list (Z * FSubobject) :=
  UClass_Subobjects (TypeInfo_Type TypeInfo).

(** The classes of the nodes [VisitAllObjects] calls its visitor on. *)
Definition VisitAllObjects (TypeInfo : FUnrealType) : list UClass :=
  UClass_ObjectGraph (TypeInfo_Type TypeInfo).

(** ** Schema database records (Utils/SchemaDatabase.h), with the fields
    the generator uses. *)

Record FSchemaComponents : Type := mkComponents {
  Component_Data : Worker_ComponentId;
  Component_OwnerOnly : Worker_ComponentId;
  Component_Handover : Worker_ComponentId
}.

(** [SchemaComponents[Type]]. *)
Definition SchemaComponents_at (c : FSchemaComponents) (t : ESchemaComponentType)
  : Worker_ComponentId :=
  match t with
  | SCHEMA_Data => Component_Data c
  | SCHEMA_OwnerOnly => Component_OwnerOnly c
  | SCHEMA_Handover => Component_Handover c
  end.

Definition NoComponents : FSchemaComponents := mkComponents 0 0 0.

Record FActorSpecificSubobjectSchemaData : Type := mkActorSubobject {
  ActorSubobject_ClassPath : FString;
  ActorSubobject_Name : FString;
  ActorSubobject_SchemaComponents : FSchemaComponents
}.

Record FActorSchemaData : Type := mkActorSchemaData {
  Actor_GeneratedSchemaName : FString;
  Actor_SchemaComponents : FSchemaComponents;
  Actor_SubobjectData : list (Z * FActorSpecificSubobjectSchemaData)
}.

Record FDynamicSubobjectSchemaData : Type := mkDynamicSubobject {
  Dynamic_SchemaComponents : FSchemaComponents
}.

Record FSubobjectSchemaData : Type := mkSubobjectSchemaData {
  Subobject_GeneratedSchemaName : FString;
  Subobject_DynamicSubobjectComponents : list FDynamicSubobjectSchemaData
}.

(** ** Log lines *)

Inductive LogEntry : Type :=
| Error_EmptyName (Category Identifier : FString)
| Error_LeadingDigits (Category Name Identifier : FString)
| Error_NameCollision (Category Name Existing Colliding : FString)
| Display_ClassNameCollision (Name : FString) (Classes : list FString)
| Display_SchemaPath (Path : FString)
| Error_InvalidSchemaPath (Path : FString)
| Error_CommandletDatabaseReadOnly
| Error_CommandletCompilerFailed
| Error_CommandletSaveFailed
| Error_DatabaseReadOnly
| Error_DatabaseLoadFailed
| Warning_DescriptorNotRead
| Warning_DescriptorNotOpened
| Display_SchemaHash (Hash : Z)
| Error_CompiledDirNotDeleted
| Error_CompiledDirNotCreated
| Error_CompiledASTDirNotCreated
| Error_SchemaCompilerFailed
| Error_SchemaDirNotCleaned (Path : FString)
| Error_SchemaDirNotCreated (Path : FString)
| Dialog_DatabaseNotSaved.

Definition LogEntry_IsError (e : LogEntry) : bool :=
  match e with
  | Error_EmptyName _ _ => true
  | Error_LeadingDigits _ _ _ => true
  | Error_NameCollision _ _ _ _ => true
  | _ => false
  end.

(** ** The generator's globals *)

Section SchemaGenerator.

(** The key type of [NetCullDistanceToComponentId]; the generator only
    stores, iterates and prints these keys. *)
Variable float : Type.

(** Collaborators that are not among the sources: the name sanitizers of
    Utils/DataTypeUtilities ([UnrealNameToSchemaName] with its optional
    second argument, [UnrealNameToSchemaComponentName], [SchemaFieldName]),
    [FSoftObjectPath(ClassPath).GetAssetName()], and the constant
    [SpatialConstants::STARTING_GENERATED_COMPONENT_ID]. *)
Variable UnrealNameToSchemaName : FString -> bool -> FString.
Variable UnrealNameToSchemaComponentName : FString -> FString.
Variable SchemaFieldName : FUnrealProperty -> FString.
Variable GetAssetName : FString -> FString.
Variable STARTING_GENERATED_COMPONENT_ID : Worker_ComponentId.

Record GeneratorState : Type := mkState {
  SchemaGeneratedClasses : list UClass;
  ActorClassPathToSchema : list (FString * FActorSchemaData);
  SubobjectClassPathToSchema : list (FString * FSubobjectSchemaData);
  NextAvailableComponentId : Worker_ComponentId;
  SchemaComponentTypeToComponents
    : list (ESchemaComponentType * list Worker_ComponentId);
  LevelPathToComponentId : list (FString * Worker_ComponentId);
  ClassPathToSchemaName : list (FString * FString);
  SchemaNameToClassPath : list (FString * FString);
  PotentialSchemaNameCollisions : list (FString * list FString);
  NetCullDistanceToComponentId : list (float * Worker_ComponentId);
  Log : list LogEntry
}.

Definition set_SchemaGeneratedClasses (v : list UClass) (s : GeneratorState) :=
  mkState v (ActorClassPathToSchema s) (SubobjectClassPathToSchema s)
    (NextAvailableComponentId s) (SchemaComponentTypeToComponents s)
    (LevelPathToComponentId s) (ClassPathToSchemaName s)
    (SchemaNameToClassPath s) (PotentialSchemaNameCollisions s)
    (NetCullDistanceToComponentId s) (Log s).

Definition set_ActorClassPathToSchema (v : list (FString * FActorSchemaData))
  (s : GeneratorState) :=
  mkState (SchemaGeneratedClasses s) v (SubobjectClassPathToSchema s)
    (NextAvailableComponentId s) (SchemaComponentTypeToComponents s)
    (LevelPathToComponentId s) (ClassPathToSchemaName s)
    (SchemaNameToClassPath s) (PotentialSchemaNameCollisions s)
    (NetCullDistanceToComponentId s) (Log s).

Definition set_SubobjectClassPathToSchema
  (v : list (FString * FSubobjectSchemaData)) (s : GeneratorState) :=
  mkState (SchemaGeneratedClasses s) (ActorClassPathToSchema s) v
    (NextAvailableComponentId s) (SchemaComponentTypeToComponents s)
    (LevelPathToComponentId s) (ClassPathToSchemaName s)
    (SchemaNameToClassPath s) (PotentialSchemaNameCollisions s)
    (NetCullDistanceToComponentId s) (Log s).

Definition set_NextAvailableComponentId (v : Worker_ComponentId)
  (s : GeneratorState) :=
  mkState (SchemaGeneratedClasses s) (ActorClassPathToSchema s)
    (SubobjectClassPathToSchema s) v (SchemaComponentTypeToComponents s)
    (LevelPathToComponentId s) (ClassPathToSchemaName s)
    (SchemaNameToClassPath s) (PotentialSchemaNameCollisions s)
    (NetCullDistanceToComponentId s) (Log s).

Definition set_SchemaComponentTypeToComponents
  (v : list (ESchemaComponentType * list Worker_ComponentId))
  (s : GeneratorState) :=
  mkState (SchemaGeneratedClasses s) (ActorClassPathToSchema s)
    (SubobjectClassPathToSchema s) (NextAvailableComponentId s) v
    (LevelPathToComponentId s) (ClassPathToSchemaName s)
    (SchemaNameToClassPath s) (PotentialSchemaNameCollisions s)
    (NetCullDistanceToComponentId s) (Log s).

Definition set_LevelPathToComponentId (v : list (FString * Worker_ComponentId))
  (s : GeneratorState) :=
  mkState (SchemaGeneratedClasses s) (ActorClassPathToSchema s)
    (SubobjectClassPathToSchema s) (NextAvailableComponentId s)
    (SchemaComponentTypeToComponents s) v (ClassPathToSchemaName s)
    (SchemaNameToClassPath s) (PotentialSchemaNameCollisions s)
    (NetCullDistanceToComponentId s) (Log s).

Definition set_ClassPathToSchemaName (v : list (FString * FString))
  (s : GeneratorState) :=
  mkState (SchemaGeneratedClasses s) (ActorClassPathToSchema s)
    (SubobjectClassPathToSchema s) (NextAvailableComponentId s)
    (SchemaComponentTypeToComponents s) (LevelPathToComponentId s) v
    (SchemaNameToClassPath s) (PotentialSchemaNameCollisions s)
    (NetCullDistanceToComponentId s) (Log s).

Definition set_SchemaNameToClassPath (v : list (FString * FString))
  (s : GeneratorState) :=
  mkState (SchemaGeneratedClasses s) (ActorClassPathToSchema s)
    (SubobjectClassPathToSchema s) (NextAvailableComponentId s)
    (SchemaComponentTypeToComponents s) (LevelPathToComponentId s)
    (ClassPathToSchemaName s) v (PotentialSchemaNameCollisions s)
    (NetCullDistanceToComponentId s) (Log s).

Definition set_PotentialSchemaNameCollisions
  (v : list (FString * list FString)) (s : GeneratorState) :=
  mkState (SchemaGeneratedClasses s) (ActorClassPathToSchema s)
    (SubobjectClassPathToSchema s) (NextAvailableComponentId s)
    (SchemaComponentTypeToComponents s) (LevelPathToComponentId s)
    (ClassPathToSchemaName s) (SchemaNameToClassPath s) v
    (NetCullDistanceToComponentId s) (Log s).

Definition set_NetCullDistanceToComponentId
  (v : list (float * Worker_ComponentId)) (s : GeneratorState) :=
  mkState (SchemaGeneratedClasses s) (ActorClassPathToSchema s)
    (SubobjectClassPathToSchema s) (NextAvailableComponentId s)
    (SchemaComponentTypeToComponents s) (LevelPathToComponentId s)
    (ClassPathToSchemaName s) (SchemaNameToClassPath s)
    (PotentialSchemaNameCollisions s) v (Log s).

(** [UE_LOG]. *)
Definition UE_LOG (e : LogEntry) (s : GeneratorState) :=
  mkState (SchemaGeneratedClasses s) (ActorClassPathToSchema s)
    (SubobjectClassPathToSchema s) (NextAvailableComponentId s)
    (SchemaComponentTypeToComponents s) (LevelPathToComponentId s)
    (ClassPathToSchemaName s) (SchemaNameToClassPath s)
    (PotentialSchemaNameCollisions s) (NetCullDistanceToComponentId s)
    (Log s ++ [e]).

(** The globals as their initialisers leave them. *)
Definition InitialGeneratorState : GeneratorState :=
  mkState [] [] [] STARTING_GENERATED_COMPONENT_ID [] [] [] [] [] [] [].

(** ** Identifier validation *)

Definition AddPotentialNameCollision
  (DesiredSchemaName ClassPath GeneratedSchemaName : FString)
  (st : GeneratorState) : GeneratorState :=
  let Entry := (ClassPath ++ "(" ++ GeneratedSchemaName ++ ")")%string in
  set_PotentialSchemaNameCollisions
    (TMap_FindOrAdd FString_eqb DesiredSchemaName [] (TSet_Emplace FString_eqb Entry)
       (PotentialSchemaNameCollisions st))
    st.

Definition CheckSchemaNameValidity (Name Identifier Category : FString)
  (st : GeneratorState) : bool * GeneratorState :=
  if FString_IsEmpty Name
  then (false, UE_LOG (Error_EmptyName Category Identifier) st)
  else if FString_StartsWithDigit Name
  then (false, UE_LOG (Error_LeadingDigits Category Name Identifier) st)
  else (true, st).

(** One of the three loops of [CheckIdentifierNameValidity]: they differ in
    the category named in the messages and in how a name and a path are
    read off an item.  [Names] is the loop's local map from schema name to
    the item first seen with it. *)
Fixpoint CheckNamesInScope (Category CollisionCategory : FString)
  (Items : list (FString * FString)) (Names : list (FString * FString))
  (bOutSuccess : bool) (st : GeneratorState) : bool * GeneratorState :=
  match Items with
  | [] => (bOutSuccess, st)
  | (NextName, PathName) :: Rest =>
      let (bValid, st1) := CheckSchemaNameValidity NextName PathName Category st in
      let bOutSuccess1 := if bValid then bOutSuccess else false in
      match TMap_Find FString_eqb NextName Names with
      | Some Existing =>
          CheckNamesInScope Category CollisionCategory Rest Names false
            (UE_LOG (Error_NameCollision CollisionCategory NextName Existing PathName) st1)
      | None =>
          CheckNamesInScope Category CollisionCategory Rest
            (TMap_Add FString_eqb NextName PathName Names) bOutSuccess1 st1
      end
  end.

Definition ReplicatedDataNames (TypeInfo : FUnrealType)
  (Group : EReplicatedPropertyGroup) : list (FString * FString) :=
  map (fun RepProp => (SchemaFieldName RepProp, Property_PathName RepProp))
      (GetFlatRepData TypeInfo Group).

Definition HandoverDataNames (TypeInfo : FUnrealType) : list (FString * FString) :=
  map (fun HandoverProp =>
         (SchemaFieldName HandoverProp, Property_PathName HandoverProp))
      (GetFlatHandoverData TypeInfo).

Definition SubobjectNames (TypeInfo : FUnrealType) : list (FString * FString) :=
  map (fun It =>
         (UnrealNameToSchemaComponentName (Subobject_Name (snd It)),
          Subobject_ObjectPathName (snd It)))
      (GetAllSubobjects TypeInfo).

Definition CheckIdentifierNameValidity (TypeInfo : FUnrealType)
  (bOutSuccess : bool) (st : GeneratorState) : bool * GeneratorState :=
  (* Check Replicated data: a fresh name map for every group. *)
  let (b1, st1) :=
    fold_left
      (fun acc Group =>
         CheckNamesInScope "Replicated property" "Replicated property"
           (ReplicatedDataNames TypeInfo Group) [] (fst acc) (snd acc))
      GetAllReplicatedPropertyGroups (bOutSuccess, st) in
  (* Check Handover data. *)
  let (b2, st2) :=
    CheckNamesInScope "Handover property" "Handover data"
      (HandoverDataNames TypeInfo) [] b1 st1 in
  (* Check subobject name validity. *)
  CheckNamesInScope "Subobject" "Subobject" (SubobjectNames TypeInfo) [] b2 st2.

(** The [while] loop of [ValidateIdentifierNames] that looks for a schema
    name no class holds yet.  Each round tries one more suffix; a map with
    [n] keys cannot hold more than [n] of the candidate names, so
    [n + 2] rounds are enough (lemma [FindUnusedSchemaName_unused]). *)
Fixpoint FindUnusedSchemaName (Fuel : nat) (Names : list (FString * FString))
  (ClassName SchemaName : FString) (Suffix : nat) : FString :=
  match Fuel with
  | O => SchemaName
  | S Fuel' =>
      if TMap_Contains FString_eqb SchemaName Names
      then FindUnusedSchemaName Fuel' Names ClassName
             (UnrealNameToSchemaName ClassName false
              ++ FString_FromInt (S Suffix))%string
             (S Suffix)
      else SchemaName
  end.

(** The body of the first loop of [ValidateIdentifierNames]. *)
Definition ValidateClassName (TypeInfo : FUnrealType) (bSuccess : bool)
  (st : GeneratorState) : bool * GeneratorState :=
  let Class := TypeInfo_Type TypeInfo in
  let ClassName := UClass_Name Class in
  let ClassPath := UClass_PathName Class in
  let SchemaName := UnrealNameToSchemaName ClassName true in
  let (bValid, st1) := CheckSchemaNameValidity SchemaName ClassPath "Class" st in
  let bSuccess1 := if bValid then bSuccess else false in
  let DesiredSchemaName := SchemaName in
  if TMap_Contains FString_eqb ClassPath (ClassPathToSchemaName st1)
  then (bSuccess1, st1)
  else
    let SchemaName1 :=
      FindUnusedSchemaName (S (S (List.length (SchemaNameToClassPath st1))))
        (SchemaNameToClassPath st1) ClassName SchemaName 0 in
    let st2 :=
      set_ClassPathToSchemaName
        (TMap_Add FString_eqb ClassPath SchemaName1 (ClassPathToSchemaName st1)) st1 in
    let st3 :=
      set_SchemaNameToClassPath
        (TMap_Add FString_eqb SchemaName1 ClassPath (SchemaNameToClassPath st2)) st2 in
    let st4 :=
      if FString_eqb DesiredSchemaName SchemaName1 then st3
      else AddPotentialNameCollision DesiredSchemaName ClassPath SchemaName1 st3 in
    (bSuccess1, AddPotentialNameCollision SchemaName1 ClassPath SchemaName1 st4).

Definition ValidateClassNames (TypeInfos : list FUnrealType) (bSuccess : bool)
  (st : GeneratorState) : bool * GeneratorState :=
  fold_left (fun acc TypeInfo => ValidateClassName TypeInfo (fst acc) (snd acc))
    TypeInfos (bSuccess, st).

Definition LogClassNameCollisions (st : GeneratorState) : GeneratorState :=
  fold_left
    (fun s Collision =>
       if (1 <? List.length (snd Collision))%nat
       then UE_LOG (Display_ClassNameCollision (fst Collision) (snd Collision)) s
       else s)
    (PotentialSchemaNameCollisions st) st.

Definition CheckAllIdentifierNames (TypeInfos : list FUnrealType)
  (bSuccess : bool) (st : GeneratorState) : bool * GeneratorState :=
  fold_left
    (fun acc TypeInfo => CheckIdentifierNameValidity TypeInfo (fst acc) (snd acc))
    TypeInfos (bSuccess, st).

Definition ValidateIdentifierNames (TypeInfos : list FUnrealType)
  (st : GeneratorState) : bool * GeneratorState :=
  let bSuccess := true in
  (* Check the class names for duplicates or invalid schema names. *)
  let (bSuccess1, st1) := ValidateClassNames TypeInfos bSuccess st in
  let st2 := LogClassNameCollisions st1 in
  (* Check for invalid/duplicate names in the generated type info. *)
  CheckAllIdentifierNames TypeInfos bSuccess1 st2.

Definition ResolveClassPathToSchemaName (ClassPath SchemaName : FString)
  (st : GeneratorState) : GeneratorState :=
  if FString_IsEmpty SchemaName then st
  else
    let st1 :=
      set_ClassPathToSchemaName
        (TMap_Add FString_eqb ClassPath SchemaName (ClassPathToSchemaName st)) st in
    let st2 :=
      set_SchemaNameToClassPath
        (TMap_Add FString_eqb SchemaName ClassPath (SchemaNameToClassPath st1)) st1 in
    let DesiredSchemaName := UnrealNameToSchemaName (GetAssetName ClassPath) false in
    let st3 :=
      if FString_eqb DesiredSchemaName SchemaName then st2
      else AddPotentialNameCollision DesiredSchemaName ClassPath SchemaName st2 in
    AddPotentialNameCollision SchemaName ClassPath SchemaName st3.

Definition ResetUsedNames (st : GeneratorState) : GeneratorState :=
  let st0 :=
    set_PotentialSchemaNameCollisions []
      (set_SchemaNameToClassPath [] (set_ClassPathToSchemaName [] st)) in
  let st1 :=
    fold_left
      (fun s Entry =>
         ResolveClassPathToSchemaName (fst Entry)
           (Actor_GeneratedSchemaName (snd Entry)) s)
      (ActorClassPathToSchema st0) st0 in
  fold_left
    (fun s Entry =>
       ResolveClassPathToSchemaName (fst Entry)
         (Subobject_GeneratedSchemaName (snd Entry)) s)
    (SubobjectClassPathToSchema st1) st1.

(** ** Which classes get schema *)

(** [GetDefault<UProjectPackagingSettings>()->DirectoriesToNeverCook]. *)
Variable DirectoriesToNeverCook : list FString.

Definition IsTransientClassName (Name : FString) : bool :=
  FString_StartsWith_CaseSensitive Name "SKEL_"
  || FString_StartsWith_CaseSensitive Name "REINST_"
  || FString_StartsWith_CaseSensitive Name "TRASHCLASS_"
  || FString_StartsWith_CaseSensitive Name "HOTRELOADED_"
  || FString_StartsWith_CaseSensitive Name "PROTO_BP_"
  || FString_StartsWith_CaseSensitive Name "PLACEHOLDER-CLASS_"
  || FString_StartsWith_CaseSensitive Name "ORPHANED_DATA_ONLY_".

Definition IsSupportedClass (SupportedClass : UClass) : bool :=
  if negb (UClass_IsValid SupportedClass) then false
  else if UClass_IsEditorOnly SupportedClass then false
  else if negb (UClass_SpatialType SupportedClass) then false
  else if UClass_LayoutChanging SupportedClass then false
  else if IsTransientClassName (UClass_Name SupportedClass) then false
  else if existsb
            (fun Directory =>
               FString_StartsWith (UClass_PathName SupportedClass) Directory)
            DirectoriesToNeverCook
  then false
  else true.

Definition GetAllSupportedClasses (AllClasses : list UClass) : list UClass :=
  fold_left
    (fun Classes ClassIt =>
       if IsSupportedClass ClassIt then TSet_Add UClass_eqb ClassIt Classes
       else Classes)
    AllClasses [].


(** ** The persisted database and the outside world *)

Record USchemaDatabase : Type := mkDatabase {
  DB_NextAvailableComponentId : Worker_ComponentId;
  DB_ActorClassPathToSchema : list (FString * FActorSchemaData);
  DB_SubobjectClassPathToSchema : list (FString * FSubobjectSchemaData);
  DB_LevelPathToComponentId : list (FString * Worker_ComponentId);
  DB_NetCullDistanceToComponentId : list (float * Worker_ComponentId);
  DB_ComponentIdToClassPath : list (Worker_ComponentId * FString);
  DB_DataComponentIds : list Worker_ComponentId;
  DB_OwnerOnlyComponentIds : list Worker_ComponentId;
  DB_HandoverComponentIds : list Worker_ComponentId;
  DB_NetCullDistanceComponentIds : list Worker_ComponentId;
  DB_LevelComponentIds : list Worker_ComponentId;
  DB_SchemaDescriptorHash : Z
}.

(** The schema database package on disk: [StatData.bIsReadOnly], and what
    [FSoftObjectPath::TryLoad] cast to [USchemaDatabase] gives ([None]: a
    null pointer). *)
Record FDatabaseFile : Type := mkDatabaseFile {
  DatabaseFile_bIsReadOnly : bool;
  DatabaseFile_Asset : option USchemaDatabase
}.

(** What a run can change outside the process: the generated schema files
    (text kept as lines with their nesting depth) and the database package
    ([None]: [StatData.bIsValid] is false, there is no file). *)
Record World : Type := mkWorld {
  World_SchemaFiles : list (FString * list (nat * FString));
  World_DatabaseFile : option FDatabaseFile
}.

(** What the outside answers during one run: results of file-system
    calls, the settings, the command line, the exit code of the schema
    compiler, the level assets and the loaded classes. *)
Record Env : Type := mkEnv {
  Env_WriteToFile : FString -> bool;
  Env_DirectoryExists : FString -> bool;
  Env_DeleteDirectoryRecursively : FString -> bool;
  Env_CreateDirectoryTree : FString -> bool;
  Env_CollapseRelativeDirectories : FString -> option FString;
  Env_GeneratedSchemaOutputFolder : FString;
  Env_CommandLineSwitches : list FString;
  Env_SchemaCompilerExitCode : Z;
  Env_DescriptorFile : option (option (list Z));
  Env_SavePackage : bool;
  Env_LevelNamesToPaths : list (FString * FString);
  Env_AllClasses : list UClass
}.

(** [CityHash32] (engine). *)
Variable CityHash32 : list Z -> Z.

(** How a distance key is printed: [static_cast<uint64>(Key)] with [%lld],
    and the key itself with [{0}]. *)
Variable NCDKeyAsInteger : float -> FString.
Variable NCDKeyAsText : float -> FString.

(** Modelled from the spec: [FCodeWriter] (Utils/CodeWriter.h) is not
    among the sources.  The spec (2, item 7, and 6): the writer renders
    the assigned structures into schema text files through the file
    system, an external collaborator.  The text is a sequence of lines,
    each at the nesting depth it was printed at.  The spec (7): an
    unwritable output path is a [FilesystemError], fatal and reported with
    the offending path, and it fails fast; so a write the file system
    refuses stops the run. *)
Record FCodeWriter : Type := mkWriter {
  Writer_Output : list (nat * FString);
  Writer_Scope : nat
}.

Definition Writer_New : FCodeWriter := mkWriter [] 0.

Definition Writer_Print (Line : FString) (w : FCodeWriter) : FCodeWriter :=
  mkWriter (Writer_Output w ++ [(Writer_Scope w, Line)]) (Writer_Scope w).

Definition Writer_PrintNewLine (w : FCodeWriter) : FCodeWriter :=
  Writer_Print "" w.

Definition Writer_Indent (w : FCodeWriter) : FCodeWriter :=
  mkWriter (Writer_Output w) (S (Writer_Scope w)).

Definition Writer_Outdent (w : FCodeWriter) : FCodeWriter :=
  mkWriter (Writer_Output w) (pred (Writer_Scope w)).

Definition Writer_WriteToFile (FileName : FString) (w : FCodeWriter)
  (env : Env) (world : World) : Result World :=
  if Env_WriteToFile env FileName
  then Ok (mkWorld
             (TMap_Add String.eqb FileName (Writer_Output w) (World_SchemaFiles world))
             (World_DatabaseFile world))
  else inl (FilesystemError FileName).

(** ** Sublevels and net cull distances *)

Definition WriteLevelComponent (Writer : FCodeWriter) (LevelName : FString)
  (ComponentId : Worker_ComponentId) (ClassPath : FString) : FCodeWriter :=
  let w1 := Writer_PrintNewLine Writer in
  let w2 := Writer_Print ("// " ++ ClassPath)%string w1 in
  let w3 :=
    Writer_Print
      ("component " ++ UnrealNameToSchemaComponentName LevelName ++ " {")%string w2 in
  let w4 := Writer_Indent w3 in
  let w5 := Writer_Print ("id = " ++ FString_FromId ComponentId ++ ";")%string w4 in
  Writer_Print "}" (Writer_Outdent w5).

(** The lookup both branches of [GenerateSchemaForSublevels] make for a
    level path: the stored id, or a new one when none (or zero) is stored. *)
Definition LevelComponentId (LevelPath : FString)
  (IdGenerator : FComponentIdGenerator) (st : GeneratorState)
  : Result (Worker_ComponentId * FComponentIdGenerator * GeneratorState) :=
  let ComponentId :=
    TMap_FindRef FString_eqb 0 LevelPath (LevelPathToComponentId st) in
  if ComponentId =? 0
  then
    let* (NewId, g) := FComponentIdGenerator_Next IdGenerator in
    Ok (NewId, g,
        set_LevelPathToComponentId
          (TMap_Add FString_eqb LevelPath NewId (LevelPathToComponentId st)) st)
  else Ok (ComponentId, IdGenerator, st).

(** The [for (int i = 0; ...)] loop over the paths of one duplicated
    level name. *)
Fixpoint WriteNumberedLevelComponents (LevelNameString : FString)
  (LevelPaths : list FString) (i : nat) (Writer : FCodeWriter)
  (IdGenerator : FComponentIdGenerator) (st : GeneratorState)
  : Result (FCodeWriter * FComponentIdGenerator * GeneratorState) :=
  match LevelPaths with
  | [] => Ok (Writer, IdGenerator, st)
  | LevelPath :: Rest =>
      let* (ComponentId, g, st1) := LevelComponentId LevelPath IdGenerator st in
      let w :=
        WriteLevelComponent Writer
          (LevelNameString ++ "Ind" ++ FString_FromInt i)%string
          ComponentId LevelPath in
      WriteNumberedLevelComponents LevelNameString Rest (S i) w g st1
  end.

Fixpoint WriteLevelComponents (Keys : list FString)
  (LevelNamesToPaths : list (FString * FString)) (Writer : FCodeWriter)
  (IdGenerator : FComponentIdGenerator) (st : GeneratorState)
  : Result (FCodeWriter * FComponentIdGenerator * GeneratorState) :=
  match Keys with
  | [] => Ok (Writer, IdGenerator, st)
  | LevelName :: Rest =>
      let* (w, g, st1) :=
        if (1 <? TMultiMap_Num FString_eqb LevelName LevelNamesToPaths)%nat
        then
          (* Write multiple numbered components. *)
          let LevelPaths :=
            TMultiMap_MultiFind FString_eqb LevelName LevelNamesToPaths in
          WriteNumberedLevelComponents LevelName LevelPaths 0 Writer IdGenerator st
        else
          (* Write a single component. *)
          let LevelPath :=
            TMultiMap_FindRef FString_eqb "None" LevelName LevelNamesToPaths in
          let* (ComponentId, g, st1) := LevelComponentId LevelPath IdGenerator st in
          Ok (WriteLevelComponent Writer LevelName ComponentId LevelPath, g, st1) in
      WriteLevelComponents Rest LevelNamesToPaths w g st1
  end.

Definition SublevelsHeader : FCodeWriter :=
  Writer_Print "package unreal.sublevels;"
    (Writer_Print "// Note that this file has been generated automatically"
       (Writer_Print "// Copyright (c) Improbable Worlds Ltd, All Rights Reserved"
          Writer_New)).

Definition GenerateSchemaForSublevels (SchemaOutputPath : FString)
  (LevelNamesToPaths : list (FString * FString)) (env : Env)
  (st : GeneratorState) (world : World) : Result (GeneratorState * World) :=
  let IdGenerator := mkGenerator (NextAvailableComponentId st) in
  let Keys := TMultiMap_GetKeys FString_eqb LevelNamesToPaths [] in
  let* (Writer, g, st1) :=
    WriteLevelComponents Keys LevelNamesToPaths SublevelsHeader IdGenerator st in
  let st2 := set_NextAvailableComponentId (fst (FComponentIdGenerator_Peek g)) st1 in
  let* world1 :=
    Writer_WriteToFile (SchemaOutputPath ++ "Sublevels/sublevels.schema")%string
      Writer env world in
  Ok (st2, world1).

Definition NCDHeader : FCodeWriter :=
  Writer_Print "package unreal.ncdcomponents;"
    (Writer_Print "// Note that this file has been generated automatically"
       (Writer_Print "// Copyright (c) Improbable Worlds Ltd, All Rights Reserved"
          Writer_New)).

(** The loop of [GenerateSchemaForNCDs] over the entries of
    [NetCullDistanceToComponentId], which it updates in place. *)
Fixpoint WriteNCDComponents (Entries : list (float * Worker_ComponentId))
  (Writer : FCodeWriter) (IdGenerator : FComponentIdGenerator)
  : Result (list (float * Worker_ComponentId) * FCodeWriter * FComponentIdGenerator) :=
  match Entries with
  | [] => Ok ([], Writer, IdGenerator)
  | (Key, Value) :: Rest =>
      let ComponentName := ("NetCullDistanceSquared" ++ NCDKeyAsInteger Key)%string in
      let* (Value1, g) :=
        if Value =? 0 then FComponentIdGenerator_Next IdGenerator
        else Ok (Value, IdGenerator) in
      let w1 := Writer_PrintNewLine Writer in
      let w2 := Writer_Print ("// distance " ++ NCDKeyAsText Key)%string w1 in
      let w3 :=
        Writer_Print
          ("component " ++ UnrealNameToSchemaComponentName ComponentName ++ " {")%string
          w2 in
      let w4 := Writer_Indent w3 in
      let w5 := Writer_Print ("id = " ++ FString_FromId Value1 ++ ";")%string w4 in
      let w6 := Writer_Print "}" (Writer_Outdent w5) in
      let* (Rest1, w, g1) := WriteNCDComponents Rest w6 g in
      Ok ((Key, Value1) :: Rest1, w, g1)
  end.

Definition GenerateSchemaForNCDs (SchemaOutputPath : FString) (env : Env)
  (st : GeneratorState) (world : World) : Result (GeneratorState * World) :=
  let IdGenerator := mkGenerator (NextAvailableComponentId st) in
  let* (Entries, Writer, g) :=
    WriteNCDComponents (NetCullDistanceToComponentId st) NCDHeader IdGenerator in
  let st1 := set_NetCullDistanceToComponentId Entries st in
  let st2 := set_NextAvailableComponentId (fst (FComponentIdGenerator_Peek g)) st1 in
  let* world1 :=
    Writer_WriteToFile
      (SchemaOutputPath ++ "NetCullDistance/ncdcomponents.schema")%string
      Writer env world in
  Ok (st2, world1).


(** ** Saving and loading the database *)

Definition AddAllSchemaComponents (Components : FSchemaComponents)
  (ClassPath : FString) (m : list (Worker_ComponentId * FString))
  : list (Worker_ComponentId * FString) :=
  fold_left
    (fun acc ComponentType =>
       TMap_Add Z.eqb (SchemaComponents_at Components ComponentType) ClassPath acc)
    AllSchemaComponentTypes m.

Definition CreateComponentIdToClassPathMap (st : GeneratorState)
  : list (Worker_ComponentId * FString) :=
  let m1 :=
    fold_left
      (fun acc ActorSchemaData =>
         let acc1 :=
           AddAllSchemaComponents
             (Actor_SchemaComponents (snd ActorSchemaData))
             (fst ActorSchemaData) acc in
         fold_left
           (fun acc2 SubobjectSchemaData =>
              AddAllSchemaComponents
                (ActorSubobject_SchemaComponents (snd SubobjectSchemaData))
                (ActorSubobject_ClassPath (snd SubobjectSchemaData)) acc2)
           (Actor_SubobjectData (snd ActorSchemaData)) acc1)
      (ActorClassPathToSchema st) [] in
  let m2 :=
    fold_left
      (fun acc SubobjectSchemaData =>
         fold_left
           (fun acc2 DynamicSubobjectData =>
              AddAllSchemaComponents
                (Dynamic_SchemaComponents DynamicSubobjectData)
                (fst SubobjectSchemaData) acc2)
           (Subobject_DynamicSubobjectComponents (snd SubobjectSchemaData)) acc)
      (SubobjectClassPathToSchema st) m1 in
  TMap_Remove Z.eqb INVALID_COMPONENT_ID m2.

(** [SchemaComponentTypeToComponents[Type]]. *)
Definition ComponentsOfType (ComponentType : ESchemaComponentType)
  (st : GeneratorState) : Result (list Worker_ComponentId) :=
  TMap_FindChecked ESchemaComponentType_eqb ComponentType
    (SchemaComponentTypeToComponents st).

Definition SaveSchemaDatabase (env : Env) (st : GeneratorState) (world : World)
  : Result (bool * GeneratorState * World) :=
  let st1 :=
    set_ActorClassPathToSchema (Sort_by fst (ActorClassPathToSchema st)) st in
  let st2 :=
    set_SubobjectClassPathToSchema
      (Sort_by fst (SubobjectClassPathToSchema st1)) st1 in
  let st3 :=
    set_LevelPathToComponentId (Sort_by fst (LevelPathToComponentId st2)) st2 in
  let* DataComponentIds := ComponentsOfType SCHEMA_Data st3 in
  let* OwnerOnlyComponentIds := ComponentsOfType SCHEMA_OwnerOnly st3 in
  let* HandoverComponentIds := ComponentsOfType SCHEMA_Handover st3 in
  (* Generate hash *)
  let (SchemaDescriptorHash, st4) :=
    match Env_DescriptorFile env with
    | Some (Some Bytes) =>
        (CityHash32 Bytes, UE_LOG (Display_SchemaHash (CityHash32 Bytes)) st3)
    | Some None => (0, UE_LOG Warning_DescriptorNotRead st3)
    | None => (0, UE_LOG Warning_DescriptorNotOpened st3)
    end in
  let SchemaDatabase :=
    mkDatabase
      (NextAvailableComponentId st3)
      (ActorClassPathToSchema st3)
      (SubobjectClassPathToSchema st3)
      (LevelPathToComponentId st3)
      (NetCullDistanceToComponentId st3)
      (CreateComponentIdToClassPathMap st3)
      DataComponentIds
      OwnerOnlyComponentIds
      HandoverComponentIds
      (TMap_Values (NetCullDistanceToComponentId st3))
      (TMap_Values (LevelPathToComponentId st3))
      SchemaDescriptorHash in
  let bSuccess := Env_SavePackage env in
  if negb bSuccess
  then Ok (false, UE_LOG Dialog_DatabaseNotSaved st4, world)
  else
    Ok (true, st4,
        mkWorld (World_SchemaFiles world)
          (Some (mkDatabaseFile false (Some SchemaDatabase)))).

Definition IsAssetReadOnly (world : World) : bool :=
  match World_DatabaseFile world with
  | Some File => DatabaseFile_bIsReadOnly File
  | None => false
  end.

(** [TSet<Worker_ComponentId>(Array)]. *)
Definition TSet_FromArray (Ids : list Worker_ComponentId) : list Worker_ComponentId :=
  fold_left (fun s Id => TSet_Add Z.eqb Id s) Ids [].

Definition LoadGeneratorStateFromSchemaDatabase (world : World)
  (st : GeneratorState) : bool * GeneratorState :=
  if IsAssetReadOnly world
  then (false, UE_LOG Error_DatabaseReadOnly st)
  else
    match World_DatabaseFile world with
    | Some File =>
        match DatabaseFile_Asset File with
        | None => (false, UE_LOG Error_DatabaseLoadFailed st)
        | Some SchemaDatabase =>
            let st1 :=
              mkState
                (SchemaGeneratedClasses st)
                (DB_ActorClassPathToSchema SchemaDatabase)
                (DB_SubobjectClassPathToSchema SchemaDatabase)
                (DB_NextAvailableComponentId SchemaDatabase)
                [(SCHEMA_Data, TSet_FromArray (DB_DataComponentIds SchemaDatabase));
                 (SCHEMA_OwnerOnly,
                  TSet_FromArray (DB_OwnerOnlyComponentIds SchemaDatabase));
                 (SCHEMA_Handover,
                  TSet_FromArray (DB_HandoverComponentIds SchemaDatabase))]
                (DB_LevelPathToComponentId SchemaDatabase)
                (ClassPathToSchemaName st)
                (SchemaNameToClassPath st)
                (PotentialSchemaNameCollisions st)
                (DB_NetCullDistanceToComponentId SchemaDatabase)
                (Log st) in
            (* Component Id generation was updated to be non-destructive,
               if we detect an old schema database, delete it. *)
            if (0 <? List.length (ActorClassPathToSchema st1))%nat
               && (NextAvailableComponentId st1 =? STARTING_GENERATED_COMPONENT_ID)
            then (false, st1)
            else (true, st1)
        end
    | None => (false, st)
    end.

(** [DeleteDirectoryRecursively], when it succeeds, leaves no file whose
    name begins with the path of the directory. *)
Definition RefreshSchemaFiles (SchemaOutputPath : FString) (env : Env)
  (st : GeneratorState) (world : World) : bool * GeneratorState * World :=
  let Deleted :=
    mkWorld
      (filter
         (fun File => negb (FCString_HasPrefix Ascii.eqb (fst File) SchemaOutputPath))
         (World_SchemaFiles world))
      (World_DatabaseFile world) in
  if Env_DirectoryExists env SchemaOutputPath
  then
    if negb (Env_DeleteDirectoryRecursively env SchemaOutputPath)
    then (false, UE_LOG (Error_SchemaDirNotCleaned SchemaOutputPath) st, world)
    else if negb (Env_CreateDirectoryTree env SchemaOutputPath)
    then (false, UE_LOG (Error_SchemaDirNotCreated SchemaOutputPath) st, Deleted)
    else (true, st, Deleted)
  else if negb (Env_CreateDirectoryTree env SchemaOutputPath)
  then (false, UE_LOG (Error_SchemaDirNotCreated SchemaOutputPath) st, world)
  else (true, st, world).

Definition ResetSchemaGeneratorState (st : GeneratorState) : GeneratorState :=
  mkState
    []
    []
    []
    STARTING_GENERATED_COMPONENT_ID
    (map (fun ComponentType => (ComponentType, [])) AllSchemaComponentTypes)
    []
    (ClassPathToSchemaName st)
    (SchemaNameToClassPath st)
    (PotentialSchemaNameCollisions st)
    []
    (Log st).

Definition ResetSchemaGeneratorStateAndCleanupFolders (env : Env)
  (st : GeneratorState) (world : World) : GeneratorState * World :=
  let st1 := ResetSchemaGeneratorState st in
  let '(_, st2, world1) :=
    RefreshSchemaFiles (Env_GeneratedSchemaOutputFolder env) env st1 world in
  (st2, world1).

(** ** The schema compiler *)

(** [FString::Contains(SubStr)]: the search case defaults to
    [ESearchCase::IgnoreCase]; an empty substring is not found. *)
Fixpoint FCString_Stristr (s sub : FString) : bool :=
  FCString_HasPrefix FChar_eqb_IgnoreCase s sub
  || match s with
     | EmptyString => false
     | String _ s' => FCString_Stristr s' sub
     end.

Definition FString_Contains (s sub : FString) : bool :=
  negb (FString_IsEmpty sub) && FCString_Stristr s sub.

(** The right-hand side of [FString::Split] at the first ["="]. *)
Definition FString_SplitRight (s : FString) : FString :=
  match String.index 0 "=" s with
  | Some i => String.substring (S i) (String.length s - S i) s
  | None => ""
  end.

Definition CompiledSchemaDir : FString := "build/assembly/schema".

Definition CompiledSchemaASTDir : FString := "build/assembly/schema/ast".

Definition RunSchemaCompiler (env : Env) (st : GeneratorState)
  : bool * GeneratorState :=
  if Env_DirectoryExists env CompiledSchemaDir
     && negb (Env_DeleteDirectoryRecursively env CompiledSchemaDir)
  then (false, UE_LOG Error_CompiledDirNotDeleted st)
  else if negb (Env_CreateDirectoryTree env CompiledSchemaDir)
  then (false, UE_LOG Error_CompiledDirNotCreated st)
  else
    let AdditionalSchemaCompilerArgs :=
      match
        find (fun ClSwitch => FString_StartsWith ClSwitch "AdditionalSchemaCompilerArgs")
          (Env_CommandLineSwitches env)
      with
      | Some ClSwitch => FString_SplitRight ClSwitch
      | None => ""
      end in
    if (FString_Contains AdditionalSchemaCompilerArgs "ast_proto_out"
        || FString_Contains AdditionalSchemaCompilerArgs "ast_json_out")
       && negb (Env_CreateDirectoryTree env CompiledSchemaASTDir)
    then (false, UE_LOG Error_CompiledASTDirNotCreated st)
    else if Env_SchemaCompilerExitCode env =? 0
    then (true, st)
    else (false, UE_LOG Error_SchemaCompilerFailed st).


(** ** Assigning component ids to classes *)

(** [GetDefault<USpatialGDKSettings>()->MaxDynamicallyAttachedSubobjectsPerClass]. *)
Variable MaxDynamicallyAttachedSubobjectsPerClass : nat.

(** The text [GenerateRPCEndpointsSchema] writes (SchemaGenerator.cpp). *)
Variable RPCEndpointsSchema : list (nat * FString).

(** Modelled from the spec: [GenerateActorSchema] and
    [GenerateSubobjectSchema] (SchemaGenerator.cpp) are not among the
    sources; the definitions from here to [GenerateSubobjectSchema] stand
    for them.  The spec (4.4, steps 2, 3 and 5; 3, invariants): if the
    class was already present in the database, reuse its stored
    ComponentIds, otherwise mint new ones per category via the
    ComponentIdGenerator; zero is the sentinel "unassigned", and every
    (ClassPath, Category) of a record has a non-zero ComponentId once
    generation succeeds, so a stored zero is minted anew.  Static
    subobjects of an actor get per-category ids in the actor's record with
    the same reuse-or-mint policy; a class reached as a subobject has a
    record of its own, keyed by its class path, holding per-category id
    sets for dynamically attached subobjects.  The record carries the
    schema name that name resolution gave the class.  The spec (6): the
    emitted text has the shape
    [component <Name> { id = <ComponentId>; <fields> }]. *)
Definition ReuseOrMintComponentId (Existing : Worker_ComponentId)
  (IdGenerator : FComponentIdGenerator)
  : Result (Worker_ComponentId * FComponentIdGenerator) :=
  if Existing =? INVALID_COMPONENT_ID
  then FComponentIdGenerator_Next IdGenerator
  else Ok (Existing, IdGenerator).

Definition AssignSchemaComponents (Existing : FSchemaComponents)
  (IdGenerator : FComponentIdGenerator)
  : Result (FSchemaComponents * FComponentIdGenerator) :=
  let* (DataId, g1) :=
    ReuseOrMintComponentId (Component_Data Existing) IdGenerator in
  let* (OwnerOnlyId, g2) :=
    ReuseOrMintComponentId (Component_OwnerOnly Existing) g1 in
  let* (HandoverId, g3) :=
    ReuseOrMintComponentId (Component_Handover Existing) g2 in
  Ok (mkComponents DataId OwnerOnlyId HandoverId, g3).

(** The ids registered for a category; none when the category has no set. *)
Definition RegisteredComponents (ComponentType : ESchemaComponentType)
  (st : GeneratorState) : list Worker_ComponentId :=
  TMap_FindRef ESchemaComponentType_eqb [] ComponentType
    (SchemaComponentTypeToComponents st).

(** Each id is added to the id set of its category, for the three
    categories (a category that has no set yet gets one). *)
Definition RegisterSchemaComponents (Components : FSchemaComponents)
  (st : GeneratorState) : GeneratorState :=
  fold_left
    (fun s ComponentType =>
       set_SchemaComponentTypeToComponents
         (TMap_Add ESchemaComponentType_eqb ComponentType
            (TSet_Add Z.eqb (SchemaComponents_at Components ComponentType)
               (RegisteredComponents ComponentType s))
            (SchemaComponentTypeToComponents s))
         s)
    AllSchemaComponentTypes st.

Definition WriteComponent (Name : FString) (ComponentId : Worker_ComponentId)
  (Fields : list FString) (Writer : FCodeWriter) : FCodeWriter :=
  let w1 := Writer_PrintNewLine Writer in
  let w2 := Writer_Print ("component " ++ Name ++ " {")%string w1 in
  let w3 := Writer_Indent w2 in
  let w4 := Writer_Print ("id = " ++ FString_FromId ComponentId ++ ";")%string w3 in
  let w5 := fold_left (fun w Field => Writer_Print Field w) Fields w4 in
  Writer_Print "}" (Writer_Outdent w5).

Definition WriteSchemaComponents (Name : FString) (Components : FSchemaComponents)
  (DataFields OwnerOnlyFields HandoverFields : list FString)
  (Writer : FCodeWriter) : FCodeWriter :=
  let w1 := WriteComponent Name (Component_Data Components) DataFields Writer in
  let w2 :=
    WriteComponent (Name ++ "OwnerOnly")%string
      (Component_OwnerOnly Components) OwnerOnlyFields w1 in
  WriteComponent (Name ++ "Handover")%string
    (Component_Handover Components) HandoverFields w2.

Fixpoint AssignActorSubobjects (Subobjects : list (Z * FSubobject))
  (Existing : list (Z * FActorSpecificSubobjectSchemaData))
  (IdGenerator : FComponentIdGenerator)
  : Result (list (Z * FActorSpecificSubobjectSchemaData) * FComponentIdGenerator) :=
  match Subobjects with
  | [] => Ok ([], IdGenerator)
  | (Offset, Subobject) :: Rest =>
      let ExistingComponents :=
        match TMap_Find Z.eqb Offset Existing with
        | Some Data => ActorSubobject_SchemaComponents Data
        | None => NoComponents
        end in
      let* (Components, g1) := AssignSchemaComponents ExistingComponents IdGenerator in
      let* (RestData, g2) := AssignActorSubobjects Rest Existing g1 in
      Ok ((Offset,
           mkActorSubobject (Subobject_ClassPath Subobject)
             (Subobject_Name Subobject) Components) :: RestData, g2)
  end.

Definition GenerateActorSchema (IdGenerator : FComponentIdGenerator)
  (Class : UClass) (TypeInfo : FUnrealType) (SchemaPath : FString) (env : Env)
  (st : GeneratorState) (world : World)
  : Result (FComponentIdGenerator * GeneratorState * World) :=
  let ClassPath := UClass_PathName Class in
  let SchemaData := TMap_Find FString_eqb ClassPath (ActorClassPathToSchema st) in
  let SchemaName := TMap_FindRef FString_eqb "" ClassPath (ClassPathToSchemaName st) in
  let* (Components, g1) :=
    AssignSchemaComponents
      (match SchemaData with
       | Some Data => Actor_SchemaComponents Data
       | None => NoComponents
       end) IdGenerator in
  let* (SubobjectData, g2) :=
    AssignActorSubobjects (GetAllSubobjects TypeInfo)
      (match SchemaData with
       | Some Data => Actor_SubobjectData Data
       | None => []
       end) g1 in
  let st1 :=
    fold_left (fun s Entry =>
                 RegisterSchemaComponents (ActorSubobject_SchemaComponents (snd Entry)) s)
      SubobjectData (RegisterSchemaComponents Components st) in
  let st2 :=
    set_ActorClassPathToSchema
      (TMap_Add FString_eqb ClassPath
         (mkActorSchemaData SchemaName Components SubobjectData)
         (ActorClassPathToSchema st1)) st1 in
  let w1 :=
    WriteSchemaComponents SchemaName Components
      (map SchemaFieldName (GetFlatRepData TypeInfo REP_MultiClient))
      (map SchemaFieldName (GetFlatRepData TypeInfo REP_SingleClient))
      (map SchemaFieldName (GetFlatHandoverData TypeInfo)) Writer_New in
  let w2 :=
    fold_left
      (fun w Entry =>
         WriteSchemaComponents
           (SchemaName
            ++ UnrealNameToSchemaComponentName (ActorSubobject_Name (snd Entry)))%string
           (ActorSubobject_SchemaComponents (snd Entry)) [] [] [] w)
      SubobjectData w1 in
  let* world1 :=
    Writer_WriteToFile (SchemaPath ++ SchemaName ++ ".schema")%string w2 env world in
  Ok (g2, st2, world1).

Fixpoint AssignDynamicSubobjects (Count : nat)
  (Existing : list FDynamicSubobjectSchemaData)
  (IdGenerator : FComponentIdGenerator)
  : Result (list FDynamicSubobjectSchemaData * FComponentIdGenerator) :=
  match Count with
  | O => Ok ([], IdGenerator)
  | S Count' =>
      let ExistingComponents :=
        match Existing with
        | Data :: _ => Dynamic_SchemaComponents Data
        | [] => NoComponents
        end in
      let* (Components, g1) := AssignSchemaComponents ExistingComponents IdGenerator in
      let* (RestData, g2) := AssignDynamicSubobjects Count' (tl Existing) g1 in
      Ok (mkDynamicSubobject Components :: RestData, g2)
  end.

Definition GenerateSubobjectSchema (IdGenerator : FComponentIdGenerator)
  (Class : UClass) (TypeInfo : FUnrealType) (SchemaPath : FString) (env : Env)
  (st : GeneratorState) (world : World)
  : Result (FComponentIdGenerator * GeneratorState * World) :=
  let ClassPath := UClass_PathName Class in
  let SchemaData := TMap_Find FString_eqb ClassPath (SubobjectClassPathToSchema st) in
  let SchemaName := TMap_FindRef FString_eqb "" ClassPath (ClassPathToSchemaName st) in
  let* (DynamicData, g1) :=
    AssignDynamicSubobjects MaxDynamicallyAttachedSubobjectsPerClass
      (match SchemaData with
       | Some Data => Subobject_DynamicSubobjectComponents Data
       | None => []
       end) IdGenerator in
  let st1 :=
    fold_left (fun s Data => RegisterSchemaComponents (Dynamic_SchemaComponents Data) s)
      DynamicData st in
  let st2 :=
    set_SubobjectClassPathToSchema
      (TMap_Add FString_eqb ClassPath
         (mkSubobjectSchemaData SchemaName DynamicData)
         (SubobjectClassPathToSchema st1)) st1 in
  let w1 :=
    fst (fold_left
           (fun acc Data =>
              (WriteSchemaComponents
                 (SchemaName ++ "Dynamic" ++ FString_FromInt (snd acc))%string
                 (Dynamic_SchemaComponents Data)
                 (map SchemaFieldName (GetFlatRepData TypeInfo REP_MultiClient))
                 (map SchemaFieldName (GetFlatRepData TypeInfo REP_SingleClient))
                 (map SchemaFieldName (GetFlatHandoverData TypeInfo)) (fst acc),
               S (snd acc)))
           DynamicData (Writer_New, 1%nat)) in
  let* world1 :=
    Writer_WriteToFile (SchemaPath ++ SchemaName ++ ".schema")%string w1 env world in
  Ok (g1, st2, world1).

(** ** Generation over a set of classes *)

Definition GenerateCompleteSchemaFromClass (SchemaPath : FString)
  (IdGenerator : FComponentIdGenerator) (TypeInfo : FUnrealType) (env : Env)
  (st : GeneratorState) (world : World)
  : Result (FComponentIdGenerator * GeneratorState * World) :=
  let Class := TypeInfo_Type TypeInfo in
  if UClass_IsActor Class
  then GenerateActorSchema IdGenerator Class TypeInfo SchemaPath env st world
  else GenerateSubobjectSchema IdGenerator Class TypeInfo
         (SchemaPath ++ "Subobjects/")%string env st world.

Fixpoint GenerateSchemaFromClasses (TypeInfos : list FUnrealType)
  (CombinedSchemaPath : FString) (IdGenerator : FComponentIdGenerator)
  (env : Env) (st : GeneratorState) (world : World)
  : Result (FComponentIdGenerator * GeneratorState * World) :=
  match TypeInfos with
  | [] => Ok (IdGenerator, st, world)
  | TypeInfo :: Rest =>
      let* (g, st1, world1) :=
        GenerateCompleteSchemaFromClass CombinedSchemaPath IdGenerator TypeInfo
          env st world in
      GenerateSchemaFromClasses Rest CombinedSchemaPath g env st1 world1
  end.

(** The visitor [SpatialGDKGenerateSchemaForClasses] passes to
    [VisitAllObjects], over the classes of the visited nodes. *)
Fixpoint VisitNestedClasses (Nested : list UClass) (TypeInfos : list FUnrealType)
  (st : GeneratorState) : list FUnrealType * GeneratorState :=
  match Nested with
  | [] => (TypeInfos, st)
  | NestedClass :: Rest =>
      if negb (TSet_Contains UClass_eqb NestedClass (SchemaGeneratedClasses st))
         && IsSupportedClass NestedClass
      then
        VisitNestedClasses Rest (TypeInfos ++ [CreateUnrealTypeInfo NestedClass])
          (set_SchemaGeneratedClasses (SchemaGeneratedClasses st ++ [NestedClass]) st)
      else VisitNestedClasses Rest TypeInfos st
  end.

(** The loop that generates the type info structs for all classes. *)
Fixpoint CollectTypeInfos (Classes : list UClass) (TypeInfos : list FUnrealType)
  (st : GeneratorState) : list FUnrealType * GeneratorState :=
  match Classes with
  | [] => (TypeInfos, st)
  | Class :: Rest =>
      if TSet_Contains UClass_eqb Class (SchemaGeneratedClasses st)
      then CollectTypeInfos Rest TypeInfos st
      else
        let st1 :=
          set_SchemaGeneratedClasses (SchemaGeneratedClasses st ++ [Class]) st in
        let TypeInfo := CreateUnrealTypeInfo Class in
        let (TypeInfos1, st2) :=
          VisitNestedClasses (VisitAllObjects TypeInfo) (TypeInfos ++ [TypeInfo]) st1 in
        CollectTypeInfos Rest TypeInfos1 st2
  end.

Definition SpatialGDKGenerateSchemaForClasses (Classes : list UClass)
  (SchemaOutputPath : FString) (env : Env) (st : GeneratorState) (world : World)
  : Result (bool * GeneratorState * World) :=
  let st1 := ResetUsedNames st in
  let Sorted := Sort_by UClass_PathName Classes in
  (* Generate Type Info structs for all classes *)
  let (TypeInfos, st2) := CollectTypeInfos Sorted [] st1 in
  let (bValid, st3) := ValidateIdentifierNames TypeInfos st2 in
  if negb bValid then Ok (false, st3, world)
  else
    let SchemaOutputPath1 :=
      if FString_IsEmpty SchemaOutputPath
      then Env_GeneratedSchemaOutputFolder env
      else SchemaOutputPath in
    let st4 := UE_LOG (Display_SchemaPath SchemaOutputPath1) st3 in
    (* Check schema path is valid. *)
    match Env_CollapseRelativeDirectories env SchemaOutputPath1 with
    | None => Ok (false, UE_LOG (Error_InvalidSchemaPath SchemaOutputPath1) st4, world)
    | Some SchemaOutputPath2 =>
        let IdGenerator := mkGenerator (NextAvailableComponentId st4) in
        let* (g, st5, world1) :=
          GenerateSchemaFromClasses TypeInfos SchemaOutputPath2 IdGenerator
            env st4 world in
        Ok (true,
            set_NextAvailableComponentId (fst (FComponentIdGenerator_Peek g)) st5,
            world1)
    end.

Definition GenerateSchemaForRPCEndpoints (SchemaOutputPath : FString) (env : Env)
  (world : World) : Result World :=
  Writer_WriteToFile (SchemaOutputPath ++ "rpc_endpoints.schema")%string
    (mkWriter RPCEndpointsSchema 0) env world.

Definition SpatialGDKGenerateSchema (env : Env) (st : GeneratorState) (world : World)
  : Result (bool * GeneratorState * World) :=
  let st0 := set_SchemaGeneratedClasses [] st in
  let Folder := Env_GeneratedSchemaOutputFolder env in
  (* Generate Schema for classes loaded in memory. *)
  let* (bClasses, st1, world1) :=
    SpatialGDKGenerateSchemaForClasses (GetAllSupportedClasses (Env_AllClasses env))
      Folder env st0 world in
  if negb bClasses then Ok (false, st1, world1)
  else
    let* (st2, world2) :=
      GenerateSchemaForSublevels Folder (Env_LevelNamesToPaths env) env st1 world1 in
    let* world3 := GenerateSchemaForRPCEndpoints Folder env world2 in
    let* (st3, world4) := GenerateSchemaForNCDs Folder env st2 world3 in
    let (bCompiled, st4) := RunSchemaCompiler env st3 in
    if negb bCompiled then Ok (false, st4, world4)
    else
      (* This requires RunSchemaCompiler to run first *)
      let* (bSaved, st5, world5) := SaveSchemaDatabase env st4 world4 in
      if negb bSaved then Ok (false, st5, world5)
      else Ok (true, st5, world5).

(** The step of [UCookAndGenerateSchemaCommandlet::Main] that loads the
    generator state, and resets it when the load is refused. *)
Definition CookAndGenerateSchema_LoadState (env : Env) (st : GeneratorState)
  (world : World) : GeneratorState * World :=
  let (bLoaded, st1) := LoadGeneratorStateFromSchemaDatabase world st in
  if negb bLoaded
  then ResetSchemaGeneratorStateAndCleanupFolders env st1 world
  else (st1, world).



(** ** What the steps of one run answer

    Names for the outcome of each step of [SpatialGDKGenerateSchema], used
    to state what its result depends on. *)

Definition RunTypeInfos (env : Env) (st : GeneratorState)
  : list FUnrealType * GeneratorState :=
  CollectTypeInfos
    (Sort_by UClass_PathName (GetAllSupportedClasses (Env_AllClasses env))) []
    (ResetUsedNames (set_SchemaGeneratedClasses [] st)).



Definition SchemaCompilerSucceeds (env : Env) : bool :=
  fst (RunSchemaCompiler env InitialGeneratorState).


(** ** What it means for violations to be reported

    [NamesReported] reads a log against the properties or subobjects of
    one class that share a name scope, given how the schema name and the
    path of one are read: every empty name, every name with a leading
    digit, and every name that an earlier item already has (case ignored)
    has its error line; the collision line names the first item that has
    the name. *)

Definition NamesReported {X : Type} (NameOf PathOf : X -> FString)
  (Category CollisionCategory : FString) (Items : list X) (log : list LogEntry)
  : Prop :=
  forall Before Item After,
    Items = Before ++ Item :: After ->
    (NameOf Item = "" -> In (Error_EmptyName Category (PathOf Item)) log)
    /\ (FString_StartsWithDigit (NameOf Item) = true ->
        In (Error_LeadingDigits Category (NameOf Item) (PathOf Item)) log)
    /\ (forall Earlier First Later,
          Before = Earlier ++ First :: Later ->
          FString_eqb (NameOf Item) (NameOf First) = true ->
          (forall Other, In Other Earlier ->
                         FString_eqb (NameOf Item) (NameOf Other) = false) ->
          In (Error_NameCollision CollisionCategory (NameOf Item) (PathOf First)
                (PathOf Item)) log).

Definition ClassNameReported (TypeInfo : FUnrealType) (log : list LogEntry) : Prop :=
  let Class := TypeInfo_Type TypeInfo in
  let SchemaName := UnrealNameToSchemaName (UClass_Name Class) true in
  (SchemaName = "" -> In (Error_EmptyName "Class" (UClass_PathName Class)) log)
  /\ (FString_StartsWithDigit SchemaName = true ->
      In (Error_LeadingDigits "Class" SchemaName (UClass_PathName Class)) log).

Definition TypeInfoReported (TypeInfo : FUnrealType) (log : list LogEntry) : Prop :=
  let Class := TypeInfo_Type TypeInfo in
  (forall Group,
     NamesReported SchemaFieldName Property_PathName
       "Replicated property" "Replicated property" (UClass_RepData Class Group) log)
  /\ NamesReported SchemaFieldName Property_PathName
       "Handover property" "Handover data" (UClass_HandoverData Class) log
  /\ NamesReported
       (fun It => UnrealNameToSchemaComponentName (Subobject_Name (snd It)))
       (fun It => Subobject_ObjectPathName (snd It))
       "Subobject" "Subobject" (UClass_Subobjects Class) log.


(** ** The components of the sublevel and distance files

    [LevelDisplayNames] lists, in the order [GenerateSchemaForSublevels]
    writes them, the name each level component is written under together
    with the level path it stands for: a level name held by several paths
    gives one entry per path, named [<LevelName>Ind<i>]; a level name held
    by one path gives one entry under the level name itself. *)

Fixpoint NumberedLevelNames (LevelNameString : FString) (LevelPaths : list FString)
  (i : nat) : list (FString * FString) :=
  match LevelPaths with
  | [] => []
  | LevelPath :: Rest =>
      ((LevelNameString ++ "Ind" ++ FString_FromInt i)%string, LevelPath)
      :: NumberedLevelNames LevelNameString Rest (S i)
  end.

Definition LevelDisplayNames (LevelNamesToPaths : list (FString * FString))
  : list (FString * FString) :=
  flat_map
    (fun LevelName =>
       if (1 <? TMultiMap_Num FString_eqb LevelName LevelNamesToPaths)%nat
       then
         NumberedLevelNames LevelName
           (TMultiMap_MultiFind FString_eqb LevelName LevelNamesToPaths) 0
       else
         [(LevelName,
           TMultiMap_FindRef FString_eqb "None" LevelName LevelNamesToPaths)])
    (TMultiMap_GetKeys FString_eqb LevelNamesToPaths []).

(** The text of the sublevel file for given component names and ids. *)
Definition SublevelsText (Components : list (FString * FString))
  (Ids : FString -> Worker_ComponentId) (Writer : FCodeWriter) : FCodeWriter :=
  fold_left
    (fun w Component =>
       WriteLevelComponent w (fst Component) (Ids (snd Component)) (snd Component))
    Components Writer.

(** One pass over named level paths: the two loops of
    [GenerateSchemaForSublevels] do this to [LevelDisplayNames]. *)
Fixpoint WriteNamedLevelComponents (Components : list (FString * FString))
  (Writer : FCodeWriter) (IdGenerator : FComponentIdGenerator) (st : GeneratorState)
  : Result (FCodeWriter * FComponentIdGenerator * GeneratorState) :=
  match Components with
  | [] => Ok (Writer, IdGenerator, st)
  | (Name, LevelPath) :: Rest =>
      let* (ComponentId, g, st1) := LevelComponentId LevelPath IdGenerator st in
      WriteNamedLevelComponents Rest
        (WriteLevelComponent Writer Name ComponentId LevelPath) g st1
  end.

(** What the sublevel step is to do, said without the containers of the
    code.  [FString_Distinct]: each string once whatever its case, the
    spelling and place of its first occurrence.  [LevelPathsNamed]: the
    paths a level name was added with, the one added last first.
    [SublevelComponents]: for each level name in turn, one component per
    path; a name with one path is written as it is, a name with several
    paths as [<LevelName>Ind<i>], [i] counting its paths from the one
    added last. *)
Fixpoint FString_Distinct (Strings : list FString) : list FString :=
  match Strings with
  | [] => []
  | First :: Rest =>
      First :: filter (fun Other => negb (FString_eqb Other First))
                 (FString_Distinct Rest)
  end.

Definition LevelPathsNamed (LevelName : FString)
  (LevelNamesToPaths : list (FString * FString)) : list FString :=
  rev (map snd
         (filter (fun Level => FString_eqb LevelName (fst Level)) LevelNamesToPaths)).

Definition SublevelComponents (LevelNamesToPaths : list (FString * FString))
  : list (FString * FString) :=
  flat_map
    (fun LevelName =>
       match LevelPathsNamed LevelName LevelNamesToPaths with
       | [LevelPath] => [(LevelName, LevelPath)]
       | LevelPaths =>
           map (fun Numbered =>
                  ((LevelName ++ "Ind" ++ FString_FromInt (fst Numbered))%string,
                   snd Numbered))
             (combine (seq 0 (List.length LevelPaths)) LevelPaths)
       end)
    (FString_Distinct (map fst LevelNamesToPaths)).

(** The level paths of [Components] that have no id in the map [Ids],
    each once, in the order of [Components]: the paths an id is minted
    for. *)
Definition UnassignedPaths (Components : list (FString * FString))
  (Ids : list (FString * Worker_ComponentId)) : list FString :=
  FString_Distinct
    (filter (fun LevelPath => TMap_FindRef FString_eqb 0 LevelPath Ids =? 0)
       (map snd Components)).

(** The lines of the sublevel file, each with its nesting depth, for
    given components and ids. *)
Definition SublevelsFile (Components : list (FString * FString))
  (Ids : FString -> Worker_ComponentId) : list (nat * FString) :=
  [(0%nat, "// Copyright (c) Improbable Worlds Ltd, All Rights Reserved");
   (0%nat, "// Note that this file has been generated automatically");
   (0%nat, "package unreal.sublevels;")]
  ++ flat_map
       (fun Component =>
          [(0%nat, "");
           (0%nat, "// " ++ snd Component);
           (0%nat,
            "component " ++ UnrealNameToSchemaComponentName (fst Component) ++ " {");
           (1%nat, "id = " ++ FString_FromId (Ids (snd Component)) ++ ";");
           (0%nat, "}")]%string)
       Components.

(** The lines of the distance file for given entries. *)
Definition NCDFile (Entries : list (float * Worker_ComponentId))
  : list (nat * FString) :=
  [(0%nat, "// Copyright (c) Improbable Worlds Ltd, All Rights Reserved");
   (0%nat, "// Note that this file has been generated automatically");
   (0%nat, "package unreal.ncdcomponents;")]
  ++ flat_map
       (fun Entry =>
          [(0%nat, "");
           (0%nat, "// distance " ++ NCDKeyAsText (fst Entry));
           (0%nat,
            "component "
            ++ UnrealNameToSchemaComponentName
                 ("NetCullDistanceSquared" ++ NCDKeyAsInteger (fst Entry))
            ++ " {");
           (1%nat, "id = " ++ FString_FromId (snd Entry) ++ ";");
           (0%nat, "}")]%string)
       Entries.

(** How many entries have no id yet. *)
Definition UnassignedCount (Entries : list (float * Worker_ComponentId)) : nat :=
  List.length (filter (fun Entry => snd Entry =? 0) Entries).


(** The text of the distance file for given entries. *)
Definition NCDText (Entries : list (float * Worker_ComponentId))
  (Writer : FCodeWriter) : FCodeWriter :=
  fold_left
    (fun w Entry =>
       let ComponentName :=
         ("NetCullDistanceSquared" ++ NCDKeyAsInteger (fst Entry))%string in
       let w1 := Writer_PrintNewLine w in
       let w2 := Writer_Print ("// distance " ++ NCDKeyAsText (fst Entry))%string w1 in
       let w3 :=
         Writer_Print
           ("component " ++ UnrealNameToSchemaComponentName ComponentName ++ " {")%string
           w2 in
       let w4 := Writer_Indent w3 in
       let w5 := Writer_Print ("id = " ++ FString_FromId (snd Entry) ++ ";")%string w4 in
       Writer_Print "}" (Writer_Outdent w5))
    Entries Writer.


(** ** Reading the generator state

    [SameDatabase]: two states agree on everything that is saved.
    [NamesPersist]: whatever the name tables of the first state hold, the
    tables of the second hold too. *)

Definition SameDatabase (st st' : GeneratorState) : Prop :=
  ActorClassPathToSchema st' = ActorClassPathToSchema st
  /\ SubobjectClassPathToSchema st' = SubobjectClassPathToSchema st
  /\ NextAvailableComponentId st' = NextAvailableComponentId st
  /\ SchemaComponentTypeToComponents st' = SchemaComponentTypeToComponents st
  /\ LevelPathToComponentId st' = LevelPathToComponentId st
  /\ NetCullDistanceToComponentId st' = NetCullDistanceToComponentId st.

Definition NamesPersist (st st' : GeneratorState) : Prop :=
  (forall p n,
     TMap_Find FString_eqb p (ClassPathToSchemaName st) = Some n ->
     TMap_Find FString_eqb p (ClassPathToSchemaName st') = Some n)
  /\ (forall n p,
        TMap_Find FString_eqb n (SchemaNameToClassPath st) = Some p ->
        TMap_Find FString_eqb n (SchemaNameToClassPath st') = Some p)
  /\ (forall k e,
        TSet_Contains FString_eqb e
          (TMap_FindRef FString_eqb [] k (PotentialSchemaNameCollisions st)) = true ->
        TSet_Contains FString_eqb e
          (TMap_FindRef FString_eqb [] k (PotentialSchemaNameCollisions st')) = true).

(** The entry [AddPotentialNameCollision] records for a class. *)
Definition CollisionEntry (ClassPath GeneratedSchemaName : FString) : FString :=
  (ClassPath ++ "(" ++ GeneratedSchemaName ++ ")")%string.


(** [SameButLog]: two states differ at most in their log. *)
Definition SameButLog (st st' : GeneratorState) : Prop :=
  ClassPathToSchemaName st' = ClassPathToSchemaName st
  /\ SchemaNameToClassPath st' = SchemaNameToClassPath st
  /\ PotentialSchemaNameCollisions st' = PotentialSchemaNameCollisions st
  /\ SchemaGeneratedClasses st' = SchemaGeneratedClasses st
  /\ SameDatabase st st'.


(** ** The component ids of a class *)

Definition ComponentIdsOf (Components : FSchemaComponents) : list Worker_ComponentId :=
  map (SchemaComponents_at Components) AllSchemaComponentTypes.

Definition ActorRecordIds (Data : FActorSchemaData) : list Worker_ComponentId :=
  ComponentIdsOf (Actor_SchemaComponents Data)
  ++ flat_map (fun Entry => ComponentIdsOf (ActorSubobject_SchemaComponents (snd Entry)))
       (Actor_SubobjectData Data).

Definition SubobjectRecordIds (Data : FSubobjectSchemaData) : list Worker_ComponentId :=
  flat_map (fun Dynamic => ComponentIdsOf (Dynamic_SchemaComponents Dynamic))
    (Subobject_DynamicSubobjectComponents Data).

(** Every id the state records for a class path. *)
Definition ClassComponentIds (st : GeneratorState) (ClassPath : FString)
  : list Worker_ComponentId :=
  match TMap_Find FString_eqb ClassPath (ActorClassPathToSchema st) with
  | Some Data => ActorRecordIds Data
  | None => []
  end
  ++ match TMap_Find FString_eqb ClassPath (SubobjectClassPathToSchema st) with
     | Some Data => SubobjectRecordIds Data
     | None => []
     end.

(** Every id a database holds. *)
Definition DatabaseComponentIds (SchemaDatabase : USchemaDatabase)
  : list Worker_ComponentId :=
  flat_map (fun Entry => ActorRecordIds (snd Entry))
    (DB_ActorClassPathToSchema SchemaDatabase)
  ++ flat_map (fun Entry => SubobjectRecordIds (snd Entry))
       (DB_SubobjectClassPathToSchema SchemaDatabase)
  ++ map snd (DB_LevelPathToComponentId SchemaDatabase)
  ++ map snd (DB_NetCullDistanceToComponentId SchemaDatabase).

(** Whether a class path has a record. *)
Definition HasSchema (st : GeneratorState) (ClassPath : FString) : bool :=
  TMap_Contains FString_eqb ClassPath (ActorClassPathToSchema st)
  || TMap_Contains FString_eqb ClassPath (SubobjectClassPathToSchema st).


(** [SameOutsideClasses]: two states differ at most in the class records,
    the per-type id sets and the log. *)
Definition SameOutsideClasses (st st' : GeneratorState) : Prop :=
  ClassPathToSchemaName st' = ClassPathToSchemaName st
  /\ SchemaNameToClassPath st' = SchemaNameToClassPath st
  /\ PotentialSchemaNameCollisions st' = PotentialSchemaNameCollisions st
  /\ SchemaGeneratedClasses st' = SchemaGeneratedClasses st
  /\ NextAvailableComponentId st' = NextAvailableComponentId st
  /\ LevelPathToComponentId st' = LevelPathToComponentId st
  /\ NetCullDistanceToComponentId st' = NetCullDistanceToComponentId st.

(** [ComponentsKept Old New]: every id that was set stays.
    [ActorRecordKept]: the ids of the actor that were set stay, and so do
    those of each static subobject, found by its offset, that the new
    record has too.  [SubobjectRecordKept]: the ids of each slot for
    dynamic subobjects that were set stay, slot by slot. *)
Definition ComponentsKept (Old New : FSchemaComponents) : Prop :=
  forall ComponentType,
    SchemaComponents_at Old ComponentType <> 0 ->
    SchemaComponents_at New ComponentType = SchemaComponents_at Old ComponentType.

Definition ActorRecordKept (Old New : FActorSchemaData) : Prop :=
  ComponentsKept (Actor_SchemaComponents Old) (Actor_SchemaComponents New)
  /\ forall Offset OldData NewData,
       TMap_Find Z.eqb Offset (Actor_SubobjectData Old) = Some OldData ->
       TMap_Find Z.eqb Offset (Actor_SubobjectData New) = Some NewData ->
       ComponentsKept (ActorSubobject_SchemaComponents OldData)
         (ActorSubobject_SchemaComponents NewData).

Definition SubobjectRecordKept (Old New : FSubobjectSchemaData) : Prop :=
  forall Slot OldData NewData,
    nth_error (Subobject_DynamicSubobjectComponents Old) Slot = Some OldData ->
    nth_error (Subobject_DynamicSubobjectComponents New) Slot = Some NewData ->
    ComponentsKept (Dynamic_SchemaComponents OldData)
      (Dynamic_SchemaComponents NewData).

(** [ClassPathsApart Classes]: among the classes of a run and the classes
    of their object graphs, two class paths that are the same but for
    case are the same (the engine compares object names without case, so
    that no two objects of one outer differ in the case of their names
    only). *)
Definition ClassPathsApart (Classes : list UClass) : Prop :=
  forall Class1 Class2,
    In Class1 (Classes ++ flat_map UClass_ObjectGraph Classes) ->
    In Class2 (Classes ++ flat_map UClass_ObjectGraph Classes) ->
    FString_eqb (UClass_PathName Class1) (UClass_PathName Class2) = true ->
    UClass_PathName Class1 = UClass_PathName Class2.

(** The record a class is left with: an actor has an entry for each of its
    static subobjects, a subobject class a slot for each dynamic
    subobject the settings allow. *)
Definition ClassRecordShape (Class : UClass) (st : GeneratorState) : Prop :=
  if UClass_IsActor Class
  then exists r,
         TMap_Find FString_eqb (UClass_PathName Class) (ActorClassPathToSchema st)
         = Some r
         /\ map fst (Actor_SubobjectData r) = map fst (UClass_Subobjects Class)
  else exists r,
         TMap_Find FString_eqb (UClass_PathName Class) (SubobjectClassPathToSchema st)
         = Some r
         /\ List.length (Subobject_DynamicSubobjectComponents r)
            = MaxDynamicallyAttachedSubobjectsPerClass.

(** What generating the schema of one class, with path [P], does: the
    counter does not go back; only the records of [P] change; every id
    recorded for [P] was recorded for it before or is a new one; the ids
    of its records that were set stay; and [P] has a record. *)
Definition ClassStep (P : FString) (g : FComponentIdGenerator) (st : GeneratorState)
  (g' : FComponentIdGenerator) (st' : GeneratorState) : Prop :=
  CurrentId g <= CurrentId g'
  /\ SameOutsideClasses st st'
  /\ (forall q, FString_eqb q P = false ->
                TMap_Find FString_eqb q (ActorClassPathToSchema st')
                = TMap_Find FString_eqb q (ActorClassPathToSchema st)
                /\ TMap_Find FString_eqb q (SubobjectClassPathToSchema st')
                   = TMap_Find FString_eqb q (SubobjectClassPathToSchema st))
  /\ (forall id, In id (ClassComponentIds st' P) ->
                 In id (ClassComponentIds st P)
                 \/ CurrentId g <= id < CurrentId g')
  /\ (forall r, TMap_Find FString_eqb P (ActorClassPathToSchema st) = Some r ->
                exists r',
                  TMap_Find FString_eqb P (ActorClassPathToSchema st') = Some r'
                  /\ ActorRecordKept r r')
  /\ (forall r, TMap_Find FString_eqb P (SubobjectClassPathToSchema st) = Some r ->
                exists r',
                  TMap_Find FString_eqb P (SubobjectClassPathToSchema st') = Some r'
                  /\ SubobjectRecordKept r r')
  /\ HasSchema st' P = true.

(** [RespectsLog f]: run from two states that differ at most in their
    logs, [f] returns the same value and leaves states that differ at most
    in their logs. *)
Definition RespectsLog {X : Type} (f : GeneratorState -> X * GeneratorState) : Prop :=
  forall s1 s2,
    SameButLog s1 s2 ->
    fst (f s1) = fst (f s2) /\ SameButLog (snd (f s1)) (snd (f s2)).

(** [SameOutcome]: two runs fail alike, or return the same value and the
    same files, and states that differ at most in their logs. *)
Definition SameOutcome {X : Type} (r1 r2 : Result (X * GeneratorState * World)) : Prop :=
  match r1, r2 with
  | inl e1, inl e2 => e1 = e2
  | inr (x1, s1, w1), inr (x2, s2, w2) => x1 = x2 /\ SameButLog s1 s2 /\ w1 = w2
  | _, _ => False
  end.
(** ** The class path of a component id

    [ComponentClassPathPairs] lists, in the order
    [CreateComponentIdToClassPathMap] meets them, every component id a
    record of the database holds with the class path the map is given for
    it: an actor's own ids with the actor's path, the ids of its static
    subobjects with the subobject's class path, the ids of dynamic
    subobject slots with the path of the subobject class. *)

(** [TMap::Add] of each pair in turn. *)
Definition TMap_AddAll {K V : Type} (eqb : K -> K -> bool)
  (Pairs : list (K * V)) (m : list (K * V)) : list (K * V) :=
  fold_left (fun acc Pair => TMap_Add eqb (fst Pair) (snd Pair) acc) Pairs m.

Definition SchemaComponentsClassPaths (Components : FSchemaComponents)
  (ClassPath : FString) : list (Worker_ComponentId * FString) :=
  map (fun ComponentType => (SchemaComponents_at Components ComponentType, ClassPath))
    AllSchemaComponentTypes.

Definition ComponentClassPathPairs (st : GeneratorState)
  : list (Worker_ComponentId * FString) :=
  flat_map
    (fun ActorSchemaData =>
       SchemaComponentsClassPaths
         (Actor_SchemaComponents (snd ActorSchemaData)) (fst ActorSchemaData)
       ++ flat_map
            (fun SubobjectSchemaData =>
               SchemaComponentsClassPaths
                 (ActorSubobject_SchemaComponents (snd SubobjectSchemaData))
                 (ActorSubobject_ClassPath (snd SubobjectSchemaData)))
            (Actor_SubobjectData (snd ActorSchemaData)))
    (ActorClassPathToSchema st)
  ++ flat_map
       (fun SubobjectSchemaData =>
          flat_map
            (fun DynamicSubobjectData =>
               SchemaComponentsClassPaths
                 (Dynamic_SchemaComponents DynamicSubobjectData)
                 (fst SubobjectSchemaData))
            (Subobject_DynamicSubobjectComponents (snd SubobjectSchemaData)))
       (SubobjectClassPathToSchema st).

(** ** Schema names in use

    [SchemaNamesInUse]: the name of every class path is a key of
    [SchemaNameToClassPath], which is where [ValidateIdentifierNames]
    looks for taken names.  [SchemaNamesDistinct]: no two class paths have
    the same schema name; paths and names are the same when they are the
    same but for case. *)

Definition SchemaNamesInUse (st : GeneratorState) : Prop :=
  forall ClassPath SchemaName,
    TMap_Find FString_eqb ClassPath (ClassPathToSchemaName st) = Some SchemaName ->
    TMap_Contains FString_eqb SchemaName (SchemaNameToClassPath st) = true.

Definition SchemaNamesDistinct (st : GeneratorState) : Prop :=
  forall ClassPath1 ClassPath2 SchemaName1 SchemaName2,
    TMap_Find FString_eqb ClassPath1 (ClassPathToSchemaName st) = Some SchemaName1 ->
    TMap_Find FString_eqb ClassPath2 (ClassPathToSchemaName st) = Some SchemaName2 ->
    FString_eqb SchemaName1 SchemaName2 = true ->
    FString_eqb ClassPath1 ClassPath2 = true.

(** [NamedRecords]: the class paths of the database records with the
    schema name each record carries, actors first, in the order
    [ResetUsedNames] goes through them; a record without a name is passed
    over. *)
Definition NamedRecords (st : GeneratorState) : list (FString * FString) :=
  filter (fun Record => negb (FString_IsEmpty (snd Record)))
    (map (fun Entry => (fst Entry, Actor_GeneratedSchemaName (snd Entry)))
       (ActorClassPathToSchema st)
     ++ map (fun Entry => (fst Entry, Subobject_GeneratedSchemaName (snd Entry)))
          (SubobjectClassPathToSchema st)).

(** [SameButNames]: two states differ at most in the three name tables. *)
Definition SameButNames (s s' : GeneratorState) : Prop :=
  SchemaGeneratedClasses s' = SchemaGeneratedClasses s
  /\ SameDatabase s s'
  /\ Log s' = Log s.

(** ** Well-formed names

    What [ValidateIdentifierNames] asks of a run: a schema name is not
    empty and does not start with a digit; the names of the replicated
    properties of one group, of the handover properties, and of the
    subobjects of a class are pairwise different, also when case is
    ignored. *)

Definition NameWellFormed (Name : FString) : Prop :=
  Name <> "" /\ FString_StartsWithDigit Name = false.

Definition NamesWellFormed {X : Type} (NameOf : X -> FString) (Items : list X)
  : Prop :=
  (forall Item, In Item Items -> NameWellFormed (NameOf Item))
  /\ ForallOrdPairs
       (fun Item1 Item2 => FString_eqb (NameOf Item1) (NameOf Item2) = false) Items.

Definition SubobjectSchemaName (It : Z * FSubobject) : FString :=
  UnrealNameToSchemaComponentName (Subobject_Name (snd It)).

Definition TypeInfoWellFormed (TypeInfo : FUnrealType) : Prop :=
  let Class := TypeInfo_Type TypeInfo in
  NameWellFormed (UnrealNameToSchemaName (UClass_Name Class) true)
  /\ (forall Group, NamesWellFormed SchemaFieldName (UClass_RepData Class Group))
  /\ NamesWellFormed SchemaFieldName (UClass_HandoverData Class)
  /\ NamesWellFormed SubobjectSchemaName (UClass_Subobjects Class).

(** ** The object listener of the commandlet

    [FObjectListener] (CookAndGenerateSchemaCommandlet.cpp): the set it is
    given to fill ([VisitedClasses], the commandlet's [ReferencedClasses])
    and its own set of classes found unsupported.  A [FSoftClassPath] is
    the class path. *)

Record FObjectListener : Type := mkListener {
  VisitedClasses : list FString;
  UnsupportedClasses : list FString
}.

(** [NotifyUObjectCreated], given the class of the created object. *)
Definition NotifyUObjectCreated (ObjectClass : UClass) (Listener : FObjectListener)
  : FObjectListener :=
  let SoftClass := UClass_PathName ObjectClass in
  if TSet_Contains String.eqb SoftClass (UnsupportedClasses Listener)
  then Listener
  else if negb (TSet_Contains String.eqb SoftClass (VisitedClasses Listener))
  then
    if IsSupportedClass ObjectClass
    then mkListener (TSet_Add String.eqb SoftClass (VisitedClasses Listener))
           (UnsupportedClasses Listener)
    else mkListener (VisitedClasses Listener)
           (TSet_Add String.eqb SoftClass (UnsupportedClasses Listener))
  else Listener.

(** The listener after the objects of a list were created, in order. *)
Definition NotifyUObjectsCreated (ObjectClasses : list UClass)
  (Listener : FObjectListener) : FObjectListener :=
  fold_left (fun L ObjectClass => NotifyUObjectCreated ObjectClass L)
    ObjectClasses Listener.

(** ** The commandlet

    [UCookAndGenerateSchemaCommandlet::Main].  What the engine does during
    one run of the commandlet is given by a [FCookRun]: the classes of the
    objects created while the listener listens (before the classes in
    memory are added to [ReferencedClasses], and during the cook), the
    result of [Super::Main], the order [TSet::Sort] with
    [FNameLexicalLess] puts the referenced classes in, what
    [TryLoadClass] gives for a soft class path ([None]: a null pointer),
    the result of the two [CopyDirectoryTree] calls with the files each
    wrote, and the time the generation took as the log prints it. *)

Record FCookRun : Type := mkCookRun {
  Cook_ObjectsBeforeCook : list UClass;
  Cook_ObjectsDuringCook : list UClass;
  Cook_Result : Z;
  Cook_Sort : list FString -> list FString;
  Cook_TryLoadClass : FString -> option UClass;
  Cook_CopyGDKSchema : bool * list (FString * list (nat * FString));
  Cook_CopyStandardLibrary : bool * list (FString * list (nat * FString));
  Cook_GenerationSeconds : FString
}.

(** [Log] has entries for the three errors of the commandlet.  Its other
    lines of level Display and above, and the two errors of
    [CopyWellKnownSchemaFiles], are returned in a list of their own. *)
Inductive FCommandletLogLine : Type :=
| Display_CookAndGenerateSchemaStarted
| Display_TryLoadSchemaDatabase
| Error_GDKSchemaNotCopied (Directory : FString)
| Error_StandardLibrarySchemaNotCopied (Directory : FString)
| Display_FindingSupportedClasses
| Display_StartingCookCommand
| Display_CookCommandCompleted
| Display_DiscoveredClasses (Count : nat)
| Warning_FailedToReload (SoftPath : FString)
| Display_StartSchemaGeneration
| Display_SchemaGenerationFinished (Seconds : FString).

(** [IPlatformFile::CopyDirectoryTree]: the files it wrote are there
    afterwards, whatever it returns. *)
Definition CopyDirectoryTree (Copy : bool * list (FString * list (nat * FString)))
  (world : World) : bool * World :=
  (fst Copy,
   mkWorld (TMap_AddAll String.eqb (snd Copy) (World_SchemaFiles world))
     (World_DatabaseFile world)).

Definition CopyWellKnownSchemaFiles (cook : FCookRun)
  (GDKSchemaCopyDir CoreSDKSchemaCopyDir : FString) (env : Env)
  (st : GeneratorState) (world : World)
  : list FCommandletLogLine * GeneratorState * World :=
  let '(_, st1, world1) := RefreshSchemaFiles GDKSchemaCopyDir env st world in
  let (bGDKCopied, world2) := CopyDirectoryTree (Cook_CopyGDKSchema cook) world1 in
  let lines1 :=
    if negb bGDKCopied then [Error_GDKSchemaNotCopied GDKSchemaCopyDir] else [] in
  let '(_, st2, world3) := RefreshSchemaFiles CoreSDKSchemaCopyDir env st1 world2 in
  let (bCoreSDKCopied, world4) :=
    CopyDirectoryTree (Cook_CopyStandardLibrary cook) world3 in
  let lines2 :=
    if negb bCoreSDKCopied
    then [Error_StandardLibrarySchemaNotCopied CoreSDKSchemaCopyDir] else [] in
  (lines1 ++ lines2, st2, world4).

Definition BatchSize : nat := 100.

(** The loop of [Main] over the sorted [ReferencedClasses]; [Classes] is
    the batch being filled.  It returns the batch left over. *)
Fixpoint GenerateSchemaInBatches (cook : FCookRun) (ReferencedClasses : list FString)
  (Classes : list UClass) (env : Env) (st : GeneratorState) (world : World)
  : Result (list UClass * list FCommandletLogLine * GeneratorState * World) :=
  match ReferencedClasses with
  | [] => Ok (Classes, [], st, world)
  | SoftPath :: Rest =>
      match Cook_TryLoadClass cook SoftPath with
      | Some LoadedClass =>
          let Classes1 := TSet_Add UClass_eqb LoadedClass Classes in
          if (BatchSize <=? List.length Classes1)%nat
          then
            let* (_, st1, world1) :=
              SpatialGDKGenerateSchemaForClasses Classes1 "" env st world in
            GenerateSchemaInBatches cook Rest [] env st1 world1
          else GenerateSchemaInBatches cook Rest Classes1 env st world
      | None =>
          let* (Classes1, lines, st1, world1) :=
            GenerateSchemaInBatches cook Rest Classes env st world in
          Ok (Classes1, Warning_FailedToReload SoftPath :: lines, st1, world1)
      end
  end.

(** [SpatialOSDirectory]-relative, as [CompiledSchemaDir]. *)
Definition GDKSchemaCopyDir : FString := "schema/unreal/gdk".

Definition CoreSDKSchemaCopyDir : FString :=
  "build/dependencies/schema/standard_library".

Definition UCookAndGenerateSchemaCommandlet_Main (cook : FCookRun) (env : Env)
  (st : GeneratorState) (world : World)
  : Result (Z * list FCommandletLogLine * GeneratorState * World) :=
  let lines0 :=
    [Display_CookAndGenerateSchemaStarted; Display_TryLoadSchemaDatabase] in
  if IsAssetReadOnly world
  then Ok (0, lines0, UE_LOG Error_CommandletDatabaseReadOnly st, world)
  else
    let '(lines1, st1, world1) :=
      CopyWellKnownSchemaFiles cook GDKSchemaCopyDir CoreSDKSchemaCopyDir
        env st world in
    let '(_, st2, world2) :=
      RefreshSchemaFiles (Env_GeneratedSchemaOutputFolder env) env st1 world1 in
    let (st3, world3) := CookAndGenerateSchema_LoadState env st2 world2 in
    let Listener1 :=
      NotifyUObjectsCreated (Cook_ObjectsBeforeCook cook) (mkListener [] []) in
    let ReferencedClasses1 :=
      fold_left
        (fun Referenced SupportedClass =>
           TSet_Add String.eqb (UClass_PathName SupportedClass) Referenced)
        (GetAllSupportedClasses (Env_AllClasses env))
        (VisitedClasses Listener1) in
    let Listener2 :=
      NotifyUObjectsCreated (Cook_ObjectsDuringCook cook)
        (mkListener ReferencedClasses1 (UnsupportedClasses Listener1)) in
    let CookResult := Cook_Result cook in
    (* Sort classes here so that batching does not have an effect on ordering. *)
    let ReferencedClasses := Cook_Sort cook (VisitedClasses Listener2) in
    let* (Classes, lines2, st4, world4) :=
      GenerateSchemaInBatches cook ReferencedClasses [] env st3 world3 in
    let* (_, st5, world5) :=
      SpatialGDKGenerateSchemaForClasses Classes "" env st4 world4 in
    let Folder := Env_GeneratedSchemaOutputFolder env in
    let* (st6, world6) :=
      GenerateSchemaForSublevels Folder (Env_LevelNamesToPaths env) env st5 world5 in
    let* world7 := GenerateSchemaForRPCEndpoints Folder env world6 in
    let* (st7, world8) := GenerateSchemaForNCDs Folder env st6 world7 in
    let lines3 :=
      lines0 ++ lines1
      ++ [Display_FindingSupportedClasses; Display_StartingCookCommand;
          Display_CookCommandCompleted;
          Display_DiscoveredClasses (List.length (VisitedClasses Listener2));
          Display_StartSchemaGeneration]
      ++ lines2
      ++ [Display_SchemaGenerationFinished (Cook_GenerationSeconds cook)] in
    let (bCompiled, st8) := RunSchemaCompiler env st7 in
    if negb bCompiled
    then Ok (0, lines3, UE_LOG Error_CommandletCompilerFailed st8, world8)
    else
      let* (bSaved, st9, world9) := SaveSchemaDatabase env st8 world8 in
      if negb bSaved
      then Ok (0, lines3, UE_LOG Error_CommandletSaveFailed st9, world9)
      else Ok (CookResult, lines3, st9, world9).

(** The batches the loop of [Main] hands to
    [SpatialGDKGenerateSchemaForClasses], in order, and the batch it leaves
    for the call after the loop. *)
Fixpoint CookBatches (cook : FCookRun) (ReferencedClasses : list FString)
  (Classes : list UClass) : list (list UClass) * list UClass :=
  match ReferencedClasses with
  | [] => ([], Classes)
  | SoftPath :: Rest =>
      match Cook_TryLoadClass cook SoftPath with
      | Some LoadedClass =>
          let Classes1 := TSet_Add UClass_eqb LoadedClass Classes in
          if (BatchSize <=? List.length Classes1)%nat
          then (Classes1 :: fst (CookBatches cook Rest []),
                snd (CookBatches cook Rest []))
          else CookBatches cook Rest Classes1
      | None => CookBatches cook Rest Classes
      end
  end.

(** One call of [SpatialGDKGenerateSchemaForClasses] per batch, the
    result of each call dropped as [Main] drops it. *)
Fixpoint GenerateSchemaForBatches (Batches : list (list UClass)) (env : Env)
  (st : GeneratorState) (world : World) : Result (GeneratorState * World) :=
  match Batches with
  | [] => Ok (st, world)
  | Classes :: Rest =>
      let* (_, st1, world1) :=
        SpatialGDKGenerateSchemaForClasses Classes "" env st world in
      GenerateSchemaForBatches Rest env st1 world1
  end.

(** The classes the sorted soft class paths reload to. *)
Definition ReloadedClasses (cook : FCookRun) (ReferencedClasses : list FString)
  : list UClass :=
  flat_map
    (fun SoftPath =>
       match Cook_TryLoadClass cook SoftPath with
       | Some LoadedClass => [LoadedClass]
       | None => []
       end)
    ReferencedClasses.

(** ** Looking for, and deleting, what an earlier run left *)

Definition GeneratedSchemaFolderExists (env : Env) : bool :=
  Env_DirectoryExists env (Env_GeneratedSchemaOutputFolder env).

Definition GeneratedSchemaDatabaseExists (world : World) : bool :=
  match World_DatabaseFile world with
  | Some _ => true
  | None => false
  end.

(** The two error lines of [DeleteSchemaDatabase]. *)
Inductive FDeleteLogLine : Type :=
| Error_DatabaseReadOnlyNotDeleted
| Error_DatabaseNotDeleted.

(** [DeleteSchemaDatabase], called with the path of the database package
    (the one package [World] has), given what [IPlatformFile::DeleteFile]
    answers if it is called; a file it deletes is gone.  The lines it logs
    are returned. *)
Definition DeleteSchemaDatabase (bDeleteFile : bool) (world : World)
  : bool * list FDeleteLogLine * World :=
  match World_DatabaseFile world with
  | Some _ =>
      if IsAssetReadOnly world
      then (false, [Error_DatabaseReadOnlyNotDeleted], world)
      else if negb bDeleteFile
      then (false, [Error_DatabaseNotDeleted], world)
      else (true, [], mkWorld (World_SchemaFiles world) None)
  | None => (true, [], world)
  end.

(** ** Level and distance ids that do not clash

    [LevelIdsBelowCounter], [NCDIdsBelowCounter]: every id in the map is
    below [NextAvailableComponentId], the next id to be handed out.
    [LevelIdsApart], [NCDIdsApart]: no two entries of the map have the
    same valid id. *)

Definition LevelIdsBelowCounter (st : GeneratorState) : Prop :=
  forall LevelPath ComponentId,
    TMap_Find FString_eqb LevelPath (LevelPathToComponentId st) = Some ComponentId ->
    ComponentId < NextAvailableComponentId st.

Definition LevelIdsApart (st : GeneratorState) : Prop :=
  forall LevelPath1 LevelPath2 ComponentId,
    TMap_Find FString_eqb LevelPath1 (LevelPathToComponentId st) = Some ComponentId ->
    TMap_Find FString_eqb LevelPath2 (LevelPathToComponentId st) = Some ComponentId ->
    ComponentId <> INVALID_COMPONENT_ID ->
    FString_eqb LevelPath1 LevelPath2 = true.

Definition NCDIdsBelowCounter (st : GeneratorState) : Prop :=
  forall Entry,
    In Entry (NetCullDistanceToComponentId st) ->
    snd Entry < NextAvailableComponentId st.

Definition NCDIdsApart (st : GeneratorState) : Prop :=
  forall i j Key1 Key2 ComponentId,
    nth_error (NetCullDistanceToComponentId st) i = Some (Key1, ComponentId) ->
    nth_error (NetCullDistanceToComponentId st) j = Some (Key2, ComponentId) ->
    ComponentId <> INVALID_COMPONENT_ID ->
    i = j.

(** A step that started with flag [b] in state [st] and ended in [r]
    logged exactly [new], and cleared the flag iff [new] has an error. *)
Definition LogStep (b : bool) (st : GeneratorState) (r : bool * GeneratorState)
  (new : list LogEntry) : Prop :=
  Log (snd r) = Log st ++ new
  /\ fst r = b && negb (existsb LogEntry_IsError new).

(** A property of logs that adding lines before and after does not undo. *)
Definition Monotone {A : Type} (P : A -> list LogEntry -> Prop) : Prop :=
  forall a log before after, P a log -> P a (before ++ log ++ after).

(** * Properties *)

(** Splits a goal into its conjuncts, leaving equivalences whole. *)
Ltac conj_split := repeat match goal with |- _ /\ _ => split end.

(** ** Strings and containers *)

Lemma FString_FromInt_inj (n m : nat) :
  FString_FromInt n = FString_FromInt m -> n = m.
Proof.
  unfold FString_FromInt. intros H.
  apply (f_equal NilEmpty.uint_of_string) in H.
  rewrite !NilEmpty.usu in H.
  injection H as H. now apply DecimalNat.Unsigned.to_uint_inj.
Qed.

Lemma append_inv_head (p a b : string) :
  (p ++ a)%string = (p ++ b)%string -> a = b.
Proof.
  induction p as [|c p IH]; simpl; intros H; [exact H|].
  injection H as H. now apply IH.
Qed.

Lemma append_assoc (a b c : string) :
  ((a ++ b) ++ c)%string = (a ++ (b ++ c))%string.
Proof. induction a as [|x a IH]; simpl; [reflexivity | now rewrite IH]. Qed.

Lemma cons_eq_app_cons {A : Type} (x y : A) (l before after : list A) :
  x :: l = before ++ y :: after ->
  (before = [] /\ x = y /\ l = after)
  \/ (exists before', before = x :: before' /\ l = before' ++ y :: after).
Proof.
  destruct before as [|z before]; simpl; intros H; injection H as -> ->.
  - left. auto.
  - right. now exists before.
Qed.

Lemma FString_IsEmpty_true (s : FString) : FString_IsEmpty s = true <-> s = "".
Proof. destruct s; simpl; split; congruence. Qed.

Section KeyLemmas.
Context {K V : Type} (eqb : K -> K -> bool).
Hypothesis eqb_spec : forall a b, reflect (a = b) (eqb a b).

Lemma eqb_refl' (a : K) : eqb a a = true.
Proof. destruct (eqb_spec a a); congruence. Qed.

Lemma eqb_neq' (a b : K) : a <> b -> eqb a b = false.
Proof. destruct (eqb_spec a b); congruence. Qed.

Lemma TMap_Find_Add_eq (k : K) (v : V) (m : list (K * V)) :
  TMap_Find eqb k (TMap_Add eqb k v m) = Some v.
Proof.
  induction m as [|[k' v'] m IH]; simpl.
  - now rewrite eqb_refl'.
  - destruct (eqb_spec k k') as [->|N]; simpl.
    + now rewrite eqb_refl'.
    + now rewrite (eqb_neq' _ _ N).
Qed.

Lemma TMap_Find_Add_neq (k k0 : K) (v : V) (m : list (K * V)) :
  k0 <> k -> TMap_Find eqb k0 (TMap_Add eqb k v m) = TMap_Find eqb k0 m.
Proof.
  intros N. induction m as [|[k' v'] m IH]; simpl.
  - now rewrite (eqb_neq' _ _ N).
  - destruct (eqb_spec k k') as [->|N']; simpl.
    + now rewrite (eqb_neq' _ _ N).
    + now rewrite IH.
Qed.

Lemma TMap_Find_In (k : K) (v : V) (m : list (K * V)) :
  TMap_Find eqb k m = Some v -> In (k, v) m.
Proof.
  induction m as [|[k' v'] m IH]; simpl; [discriminate|].
  destruct (eqb_spec k k') as [->|N]; intros H.
  - injection H as ->. now left.
  - right. now apply IH.
Qed.

Lemma TMap_Find_None_keys (k : K) (m : list (K * V)) :
  TMap_Find eqb k m = None <-> ~ In k (TMap_Keys m).
Proof.
  induction m as [|[k' v'] m IH]; simpl; [tauto|].
  destruct (eqb_spec k k') as [->|N].
  - split; [discriminate | intros H; exfalso; apply H; now left].
  - rewrite IH. split; intros H; [intros [E|I]; [congruence | tauto] | tauto].
Qed.

Lemma TMap_Contains_keys (k : K) (m : list (K * V)) :
  TMap_Contains eqb k m = true <-> In k (TMap_Keys m).
Proof.
  unfold TMap_Contains.
  destruct (TMap_Find eqb k m) eqn:E.
  - split; [intros _ | reflexivity].
    apply TMap_Find_In in E. unfold TMap_Keys.
    change k with (fst (k, v)). now apply in_map.
  - apply TMap_Find_None_keys in E. split; [discriminate | tauto].
Qed.

Lemma TMap_Keys_Add (k : K) (v : V) (m : list (K * V)) :
  TMap_Keys (TMap_Add eqb k v m)
  = if TMap_Contains eqb k m then TMap_Keys m else TMap_Keys m ++ [k].
Proof.
  unfold TMap_Contains.
  induction m as [|[k' v'] m IH]; simpl; [reflexivity|].
  destruct (eqb_spec k k') as [->|N]; simpl; [reflexivity|].
  rewrite IH. now destruct (TMap_Find eqb k m).
Qed.

Lemma TMap_Add_length (k : K) (v : V) (m : list (K * V)) :
  (List.length m <= List.length (TMap_Add eqb k v m))%nat.
Proof.
  induction m as [|[k' v'] m IH]; simpl; [lia|].
  destruct (eqb k k'); simpl; lia.
Qed.

Lemma TSet_Contains_In (k : K) (s : list K) :
  TSet_Contains eqb k s = true <-> In k s.
Proof.
  induction s as [|k' s IH]; simpl; [split; [discriminate | tauto]|].
  rewrite orb_true_iff, IH.
  destruct (eqb_spec k k') as [->|N]; split; intros H; auto.
  - destruct H as [H|H]; [discriminate | now right].
  - destruct H as [H|H]; [congruence | now right].
Qed.

Lemma TSet_Add_In (k x : K) (s : list K) :
  In x (TSet_Add eqb k s) <-> x = k \/ In x s.
Proof.
  unfold TSet_Add. destruct (TSet_Contains eqb k s) eqn:E.
  - apply TSet_Contains_In in E. split; [tauto | intros [->|H]; assumption].
  - rewrite in_app_iff. simpl. split; intros H; [|destruct H as [->|H]]; intuition.
Qed.

End KeyLemmas.

Lemma String_eqb_reflect (a b : string) : reflect (a = b) (String.eqb a b).
Proof. apply String.eqb_spec. Qed.

Lemma Z_eqb_reflect (a b : Z) : reflect (a = b) (Z.eqb a b).
Proof. apply Z.eqb_spec. Qed.

Lemma ESchemaComponentType_eqb_reflect (a b : ESchemaComponentType) :
  reflect (a = b) (ESchemaComponentType_eqb a b).
Proof. destruct a, b; simpl; constructor; congruence. Qed.


(** ** Comparing strings as the engine does *)


Lemma nat_of_ascii_inj (a b : ascii) : nat_of_ascii a = nat_of_ascii b -> a = b.
Proof.
  intros H. rewrite <- (ascii_nat_embedding a), <- (ascii_nat_embedding b).
  now rewrite H.
Qed.

Lemma FCString_Stricmp_Eq (a : FString) :
  forall b, FCString_Stricmp a b = Eq <-> FString_ToLower a = FString_ToLower b.
Proof.
  induction a as [|x a IH]; intros [|y b]; simpl; try (split; congruence).
  destruct (Nat.compare_spec (nat_of_ascii (FChar_ToLower x))
              (nat_of_ascii (FChar_ToLower y))) as [E|L|L].
  - apply nat_of_ascii_inj in E. rewrite IH, E. split; congruence.
  - split; [discriminate|]. intros H. injection H as H _. rewrite H in L. lia.
  - split; [discriminate|]. intros H. injection H as H _. rewrite H in L. lia.
Qed.

Lemma FString_eqb_ToLower (a b : FString) :
  FString_eqb a b = true <-> FString_ToLower a = FString_ToLower b.
Proof.
  unfold FString_eqb. rewrite <- FCString_Stricmp_Eq.
  destruct (FCString_Stricmp a b); split; congruence.
Qed.

Lemma FString_eqb_refl (a : FString) : FString_eqb a a = true.
Proof. now apply FString_eqb_ToLower. Qed.

Lemma FString_eqb_sym (a b : FString) : FString_eqb a b = FString_eqb b a.
Proof.
  destruct (FString_eqb a b) eqn:E1, (FString_eqb b a) eqn:E2; try reflexivity.
  - apply FString_eqb_ToLower in E1. symmetry in E1.
    apply FString_eqb_ToLower in E1. congruence.
  - apply FString_eqb_ToLower in E2. symmetry in E2.
    apply FString_eqb_ToLower in E2. congruence.
Qed.

Lemma FString_eqb_trans (a b c : FString) :
  FString_eqb a b = true -> FString_eqb b c = true -> FString_eqb a c = true.
Proof. rewrite !FString_eqb_ToLower. congruence. Qed.

Lemma FString_eqb_eq (a b : FString) : a = b -> FString_eqb a b = true.
Proof. intros ->. apply FString_eqb_refl. Qed.

Lemma FString_eqb_false_neq (a b : FString) : FString_eqb a b = false -> a <> b.
Proof. intros H ->. rewrite FString_eqb_refl in H. discriminate. Qed.

Lemma FString_ToLower_app (a b : FString) :
  FString_ToLower (a ++ b) = (FString_ToLower a ++ FString_ToLower b)%string.
Proof. induction a as [|x a IH]; simpl; [reflexivity | now rewrite IH]. Qed.

Lemma FString_eqb_app (a a' b b' : FString) :
  FString_eqb a a' = true -> FString_eqb b b' = true ->
  FString_eqb (a ++ b) (a' ++ b') = true.
Proof. rewrite !FString_eqb_ToLower, !FString_ToLower_app. congruence. Qed.

(** The decimal text of a number has no letters. *)
Lemma FString_ToLower_uint (d : Decimal.uint) :
  FString_ToLower (NilEmpty.string_of_uint d) = NilEmpty.string_of_uint d.
Proof. induction d; simpl; try reflexivity; now rewrite IHd. Qed.

Lemma FString_ToLower_FromInt (n : nat) :
  FString_ToLower (FString_FromInt n) = FString_FromInt n.
Proof. apply FString_ToLower_uint. Qed.

Lemma FString_eqb_suffix_inj (a b : FString) (i j : nat) :
  FString_eqb a b = true ->
  FString_eqb (a ++ FString_FromInt i) (b ++ FString_FromInt j) = true -> i = j.
Proof.
  rewrite !FString_eqb_ToLower, !FString_ToLower_app, !FString_ToLower_FromInt.
  intros -> H. apply append_inv_head in H. now apply FString_FromInt_inj.
Qed.

Lemma FCString_Stricmp_antisym (a : FString) :
  forall b, FCString_Stricmp b a = CompOpp (FCString_Stricmp a b).
Proof.
  induction a as [|x a IH]; intros [|y b]; simpl; try reflexivity.
  rewrite (Nat.compare_antisym (nat_of_ascii (FChar_ToLower x))).
  destruct (nat_of_ascii (FChar_ToLower x) ?= nat_of_ascii (FChar_ToLower y))%nat;
    simpl; [apply IH | reflexivity | reflexivity].
Qed.

Lemma FCString_Stricmp_Lt_trans (a : FString) :
  forall b c,
    FCString_Stricmp a b = Lt -> FCString_Stricmp b c = Lt ->
    FCString_Stricmp a c = Lt.
Proof.
  induction a as [|x a IH]; intros [|y b] [|z c]; simpl; try congruence.
  destruct (Nat.compare_spec (nat_of_ascii (FChar_ToLower x))
              (nat_of_ascii (FChar_ToLower y))) as [E1|L1|L1];
    destruct (Nat.compare_spec (nat_of_ascii (FChar_ToLower y))
                (nat_of_ascii (FChar_ToLower z))) as [E2|L2|L2];
    try discriminate; intros H1 H2.
  - rewrite E1, E2, Nat.compare_refl. now apply (IH b c).
  - rewrite E1. now apply Nat.compare_lt_iff in L2 as ->.
  - rewrite <- E2. now apply Nat.compare_lt_iff in L1 as ->.
  - assert (L : (nat_of_ascii (FChar_ToLower x) < nat_of_ascii (FChar_ToLower z))%nat)
      by lia.
    now apply Nat.compare_lt_iff in L as ->.
Qed.

Lemma FCString_Stricmp_Eq_l (a a' b : FString) :
  FCString_Stricmp a a' = Eq -> FCString_Stricmp a b = FCString_Stricmp a' b.
Proof.
  revert a' b. induction a as [|x a IH]; intros [|x' a'] [|y b]; simpl;
    try congruence.
  destruct (Nat.compare_spec (nat_of_ascii (FChar_ToLower x))
              (nat_of_ascii (FChar_ToLower x'))) as [E|L|L]; try discriminate.
  intros H. rewrite E.
  destruct (nat_of_ascii (FChar_ToLower x') ?= nat_of_ascii (FChar_ToLower y))%nat;
    [now apply IH | reflexivity | reflexivity].
Qed.

Lemma FCString_Stricmp_Eq_r (a b b' : FString) :
  FCString_Stricmp b b' = Eq -> FCString_Stricmp a b = FCString_Stricmp a b'.
Proof.
  intros H.
  rewrite (FCString_Stricmp_antisym b a), (FCString_Stricmp_antisym b' a).
  f_equal. now apply FCString_Stricmp_Eq_l.
Qed.

Lemma FString_eqb_Stricmp (a b : FString) :
  FString_eqb a b = true <-> FCString_Stricmp a b = Eq.
Proof. unfold FString_eqb. destruct (FCString_Stricmp a b); split; congruence. Qed.

Lemma FString_lt_Stricmp (a b : FString) :
  FString_lt a b = true <-> FCString_Stricmp a b = Lt.
Proof. unfold FString_lt. destruct (FCString_Stricmp a b); split; congruence. Qed.


Lemma FString_lt_asym (a b : FString) :
  FString_lt a b = true -> FString_lt b a = false.
Proof.
  unfold FString_lt. rewrite (FCString_Stricmp_antisym a b).
  destruct (FCString_Stricmp a b); simpl; congruence.
Qed.

Lemma FString_lt_trans (a b c : FString) :
  FString_lt a b = true -> FString_lt b c = true -> FString_lt a c = true.
Proof.
  rewrite !FString_lt_Stricmp. apply FCString_Stricmp_Lt_trans.
Qed.

Lemma FString_lt_total (a b : FString) :
  FString_eqb a b = false -> FString_lt a b = true \/ FString_lt b a = true.
Proof.
  unfold FString_eqb, FString_lt. rewrite (FCString_Stricmp_antisym a b).
  destruct (FCString_Stricmp a b); simpl; auto; discriminate.
Qed.

Lemma FString_lt_not_eqb (a b : FString) :
  FString_lt a b = true -> FString_eqb a b = false.
Proof.
  unfold FString_eqb, FString_lt. destruct (FCString_Stricmp a b); congruence.
Qed.

Lemma FString_lt_eqb_l (a a' b : FString) :
  FString_eqb a a' = true -> FString_lt a b = FString_lt a' b.
Proof.
  intros H. unfold FString_lt.
  now rewrite (FCString_Stricmp_Eq_l a a' b (proj1 (FString_eqb_Stricmp _ _) H)).
Qed.

Lemma FString_lt_eqb_r (a b b' : FString) :
  FString_eqb b b' = true -> FString_lt a b = FString_lt a b'.
Proof.
  intros H. unfold FString_lt.
  now rewrite (FCString_Stricmp_Eq_r a b b' (proj1 (FString_eqb_Stricmp _ _) H)).
Qed.

(** ** Maps and sets whose keys are compared by an equivalence *)

Section KeyEquivLemmas.
Context {K V : Type} (eqb : K -> K -> bool).
Hypothesis eqb_refl : forall a, eqb a a = true.
Hypothesis eqb_sym : forall a b, eqb a b = eqb b a.
Hypothesis eqb_trans : forall a b c, eqb a b = true -> eqb b c = true -> eqb a c = true.

Lemma eqv_congr_l (a b c : K) : eqb a b = true -> eqb a c = eqb b c.
Proof.
  intros H. destruct (eqb a c) eqn:E1, (eqb b c) eqn:E2; try reflexivity.
  - rewrite eqb_sym in H. now rewrite (eqb_trans b a c H E1) in E2.
  - now rewrite (eqb_trans a b c H E2) in E1.
Qed.

Lemma eqv_congr_r (a b c : K) : eqb a b = true -> eqb c a = eqb c b.
Proof. intros H. rewrite (eqb_sym c a), (eqb_sym c b). now apply eqv_congr_l. Qed.

Lemma TMap_Find_eqv (a b : K) (m : list (K * V)) :
  eqb a b = true -> TMap_Find eqb a m = TMap_Find eqb b m.
Proof.
  intros H. induction m as [|[k v] m IH]; simpl; [reflexivity|].
  now rewrite (eqv_congr_l a b k H), IH.
Qed.

Lemma TMap_Contains_eqv (a b : K) (m : list (K * V)) :
  eqb a b = true -> TMap_Contains eqb a m = TMap_Contains eqb b m.
Proof. intros H. unfold TMap_Contains. now rewrite (TMap_Find_eqv a b m H). Qed.

Lemma TMap_FindRef_eqv (d : V) (a b : K) (m : list (K * V)) :
  eqb a b = true -> TMap_FindRef eqb d a m = TMap_FindRef eqb d b m.
Proof. intros H. unfold TMap_FindRef. now rewrite (TMap_Find_eqv a b m H). Qed.

Lemma TMap_Find_Add_same (q k : K) (v : V) (m : list (K * V)) :
  eqb q k = true -> TMap_Find eqb q (TMap_Add eqb k v m) = Some v.
Proof.
  intros H. induction m as [|[k' v'] m IH]; simpl.
  - now rewrite H.
  - destruct (eqb k k') eqn:E; simpl.
    + now rewrite H.
    + rewrite (eqv_congr_l q k k' H), E. exact IH.
Qed.

Lemma TMap_Find_Add_other (q k : K) (v : V) (m : list (K * V)) :
  eqb q k = false -> TMap_Find eqb q (TMap_Add eqb k v m) = TMap_Find eqb q m.
Proof.
  intros H. induction m as [|[k' v'] m IH]; simpl.
  - now rewrite H.
  - destruct (eqb k k') eqn:E; simpl.
    + rewrite H. now rewrite <- (eqv_congr_r k k' q E), H.
    + now rewrite IH.
Qed.

Lemma TMap_Contains_Add_same (q k : K) (v : V) (m : list (K * V)) :
  eqb q k = true -> TMap_Contains eqb q (TMap_Add eqb k v m) = true.
Proof. intros H. unfold TMap_Contains. now rewrite TMap_Find_Add_same. Qed.

Lemma TMap_Contains_Add_other (q k : K) (v : V) (m : list (K * V)) :
  eqb q k = false ->
  TMap_Contains eqb q (TMap_Add eqb k v m) = TMap_Contains eqb q m.
Proof. intros H. unfold TMap_Contains. now rewrite TMap_Find_Add_other. Qed.

Lemma TMap_FindRef_Add_same (d : V) (q k : K) (v : V) (m : list (K * V)) :
  eqb q k = true -> TMap_FindRef eqb d q (TMap_Add eqb k v m) = v.
Proof. intros H. unfold TMap_FindRef. now rewrite TMap_Find_Add_same. Qed.

Lemma TMap_FindRef_Add_other (d : V) (q k : K) (v : V) (m : list (K * V)) :
  eqb q k = false ->
  TMap_FindRef eqb d q (TMap_Add eqb k v m) = TMap_FindRef eqb d q m.
Proof. intros H. unfold TMap_FindRef. now rewrite TMap_Find_Add_other. Qed.

Lemma TMap_Find_Some_In (k : K) (v : V) (m : list (K * V)) :
  TMap_Find eqb k m = Some v -> exists k', In (k', v) m /\ eqb k k' = true.
Proof.
  induction m as [|[k' v'] m IH]; simpl; [discriminate|].
  destruct (eqb k k') eqn:E; intros H.
  - injection H as ->. exists k'. auto.
  - destruct (IH H) as (k0 & Hin & Hk). exists k0. auto.
Qed.

Lemma TMap_Find_None_In (k k' : K) (v : V) (m : list (K * V)) :
  TMap_Find eqb k m = None -> In (k', v) m -> eqb k k' = false.
Proof.
  induction m as [|[k0 v0] m IH]; simpl; [tauto|].
  destruct (eqb k k0) eqn:E; [discriminate|].
  intros H [Hin|Hin]; [congruence | now apply IH].
Qed.

Lemma TMap_In_Contains (k k' : K) (v : V) (m : list (K * V)) :
  In (k', v) m -> eqb k k' = true -> TMap_Contains eqb k m = true.
Proof.
  intros Hin Hk. unfold TMap_Contains.
  destruct (TMap_Find eqb k m) eqn:E; [reflexivity|].
  now rewrite (TMap_Find_None_In k k' v m E Hin) in Hk.
Qed.

Lemma TMap_Add_new (k : K) (v : V) (m : list (K * V)) :
  TMap_Contains eqb k m = false -> TMap_Add eqb k v m = m ++ [(k, v)].
Proof.
  unfold TMap_Contains. induction m as [|[k' v'] m IH]; simpl; [reflexivity|].
  destruct (eqb k k'); [discriminate|]. intros H. now rewrite IH.
Qed.

Lemma TMap_Add_length_eqv (k : K) (v : V) (m : list (K * V)) :
  List.length (TMap_Add eqb k v m)
  = if TMap_Contains eqb k m then List.length m else S (List.length m).
Proof.
  unfold TMap_Contains. induction m as [|[k' v'] m IH]; simpl; [reflexivity|].
  destruct (eqb k k'); simpl; [reflexivity|].
  rewrite IH. now destruct (TMap_Find eqb k m).
Qed.

Lemma TSet_Contains_eqv (a b : K) (s : list K) :
  eqb a b = true -> TSet_Contains eqb a s = TSet_Contains eqb b s.
Proof.
  intros H. induction s as [|k s IH]; simpl; [reflexivity|].
  now rewrite (eqv_congr_l a b k H), IH.
Qed.

Lemma TSet_Contains_Emplace (x k : K) (s : list K) :
  TSet_Contains eqb x (TSet_Emplace eqb k s)
  = eqb x k || TSet_Contains eqb x s.
Proof.
  induction s as [|k' s IH]; simpl; [reflexivity|].
  destruct (eqb k k') eqn:E; simpl.
  - rewrite (eqv_congr_r k k' x E). now destruct (eqb x k').
  - rewrite IH. destruct (eqb x k), (eqb x k'); reflexivity.
Qed.

Lemma TSet_Contains_exists_eqv (x : K) (s : list K) :
  TSet_Contains eqb x s = true <-> exists k, In k s /\ eqb x k = true.
Proof.
  induction s as [|k s IH]; simpl.
  - split; [discriminate | intros (k & [] & _)].
  - rewrite orb_true_iff, IH. split.
    + intros [H|(k0 & Hin & Hk)]; [exists k; auto | exists k0; auto].
    + intros (k0 & [<-|Hin] & Hk); [now left | right; now exists k0].
Qed.

Lemma TSet_Emplace_length (k : K) (s : list K) :
  List.length (TSet_Emplace eqb k s)
  = if TSet_Contains eqb k s then List.length s else S (List.length s).
Proof.
  induction s as [|k' s IH]; simpl; [reflexivity|].
  destruct (eqb k k'); simpl; [reflexivity|].
  rewrite IH. now destruct (TSet_Contains eqb k s).
Qed.

Lemma TMap_FindRef_FindOrAdd (d : V) (f : V -> V) (q k : K) (m : list (K * V)) :
  TMap_FindRef eqb d q (TMap_FindOrAdd eqb k d f m)
  = if eqb q k then f (TMap_FindRef eqb d k m) else TMap_FindRef eqb d q m.
Proof.
  unfold TMap_FindRef. induction m as [|[k' v'] m IH]; simpl.
  - now destruct (eqb q k).
  - destruct (eqb k k') eqn:E; simpl.
    + rewrite (eqv_congr_r k k' q E). now destruct (eqb q k').
    + destruct (eqb q k') eqn:E'.
      * destruct (eqb q k) eqn:E''; [|reflexivity].
        rewrite eqb_sym in E''. now rewrite (eqb_trans k q k' E'' E') in E.
      * exact IH.
Qed.

End KeyEquivLemmas.

(** The instances for strings. *)
Lemma FString_Find_eqv {V : Type} (a b : FString) (m : list (FString * V)) :
  FString_eqb a b = true -> TMap_Find FString_eqb a m = TMap_Find FString_eqb b m.
Proof. apply (TMap_Find_eqv FString_eqb FString_eqb_sym FString_eqb_trans). Qed.

Lemma FString_Contains_eqv {V : Type} (a b : FString) (m : list (FString * V)) :
  FString_eqb a b = true ->
  TMap_Contains FString_eqb a m = TMap_Contains FString_eqb b m.
Proof. apply (TMap_Contains_eqv FString_eqb FString_eqb_sym FString_eqb_trans). Qed.

Lemma FString_FindRef_eqv {V : Type} (d : V) (a b : FString) (m : list (FString * V)) :
  FString_eqb a b = true ->
  TMap_FindRef FString_eqb d a m = TMap_FindRef FString_eqb d b m.
Proof. apply (TMap_FindRef_eqv FString_eqb FString_eqb_sym FString_eqb_trans). Qed.

Lemma FString_Find_Add_same {V : Type} (q k : FString) (v : V) (m : list (FString * V)) :
  FString_eqb q k = true ->
  TMap_Find FString_eqb q (TMap_Add FString_eqb k v m) = Some v.
Proof. apply (TMap_Find_Add_same FString_eqb FString_eqb_sym FString_eqb_trans). Qed.

Lemma FString_Find_Add_other {V : Type} (q k : FString) (v : V) (m : list (FString * V)) :
  FString_eqb q k = false ->
  TMap_Find FString_eqb q (TMap_Add FString_eqb k v m) = TMap_Find FString_eqb q m.
Proof. apply (TMap_Find_Add_other FString_eqb FString_eqb_sym FString_eqb_trans). Qed.

Lemma FString_Contains_Add_same {V : Type} (q k : FString) (v : V)
  (m : list (FString * V)) :
  FString_eqb q k = true ->
  TMap_Contains FString_eqb q (TMap_Add FString_eqb k v m) = true.
Proof. apply (TMap_Contains_Add_same FString_eqb FString_eqb_sym FString_eqb_trans). Qed.

Lemma FString_Contains_Add_other {V : Type} (q k : FString) (v : V)
  (m : list (FString * V)) :
  FString_eqb q k = false ->
  TMap_Contains FString_eqb q (TMap_Add FString_eqb k v m)
  = TMap_Contains FString_eqb q m.
Proof. apply (TMap_Contains_Add_other FString_eqb FString_eqb_sym FString_eqb_trans). Qed.

Lemma FString_FindRef_Add_same {V : Type} (d : V) (q k : FString) (v : V)
  (m : list (FString * V)) :
  FString_eqb q k = true ->
  TMap_FindRef FString_eqb d q (TMap_Add FString_eqb k v m) = v.
Proof. apply (TMap_FindRef_Add_same FString_eqb FString_eqb_sym FString_eqb_trans). Qed.

Lemma FString_FindRef_Add_other {V : Type} (d : V) (q k : FString) (v : V)
  (m : list (FString * V)) :
  FString_eqb q k = false ->
  TMap_FindRef FString_eqb d q (TMap_Add FString_eqb k v m)
  = TMap_FindRef FString_eqb d q m.
Proof. apply (TMap_FindRef_Add_other FString_eqb FString_eqb_sym FString_eqb_trans). Qed.

Lemma FString_FindRef_FindOrAdd {V : Type} (d : V) (f : V -> V) (q k : FString)
  (m : list (FString * V)) :
  TMap_FindRef FString_eqb d q (TMap_FindOrAdd FString_eqb k d f m)
  = if FString_eqb q k then f (TMap_FindRef FString_eqb d k m)
    else TMap_FindRef FString_eqb d q m.
Proof. apply (TMap_FindRef_FindOrAdd FString_eqb FString_eqb_sym FString_eqb_trans). Qed.

Lemma FString_Contains_Emplace (x k : FString) (s : list FString) :
  TSet_Contains FString_eqb x (TSet_Emplace FString_eqb k s)
  = FString_eqb x k || TSet_Contains FString_eqb x s.
Proof. apply (TSet_Contains_Emplace FString_eqb FString_eqb_sym FString_eqb_trans). Qed.

Lemma FString_eqb_congr_l (a b c : FString) :
  FString_eqb a b = true -> FString_eqb a c = FString_eqb b c.
Proof. apply (eqv_congr_l FString_eqb FString_eqb_sym FString_eqb_trans). Qed.

Lemma FString_eqb_congr_r (a b c : FString) :
  FString_eqb a b = true -> FString_eqb c a = FString_eqb c b.
Proof. apply (eqv_congr_r FString_eqb FString_eqb_sym FString_eqb_trans). Qed.

Lemma FString_Contains_set_eqv (a b : FString) (s : list FString) :
  FString_eqb a b = true ->
  TSet_Contains FString_eqb a s = TSet_Contains FString_eqb b s.
Proof. apply (TSet_Contains_eqv FString_eqb FString_eqb_sym FString_eqb_trans). Qed.

(** ** Sorting *)

Lemma Sort_insert_Permutation {A : Type} (key : A -> FString) (x : A) (l : list A) :
  Permutation (Sort_insert key x l) (x :: l).
Proof.
  induction l as [|y l IH]; simpl; [reflexivity|].
  destruct (FString_lt (key y) (key x)); [|reflexivity].
  rewrite IH. apply perm_swap.
Qed.

Lemma Sort_by_Permutation {A : Type} (key : A -> FString) (l : list A) :
  Permutation (Sort_by key l) l.
Proof.
  induction l as [|x l IH]; simpl; [reflexivity|].
  rewrite Sort_insert_Permutation. now constructor.
Qed.

Lemma FString_lt_cotrans (a b c : FString) :
  FString_lt a c = true -> FString_lt a b = true \/ FString_lt b c = true.
Proof.
  intros H. destruct (FString_eqb b a) eqn:E.
  - right. now rewrite (FString_lt_eqb_l b a c E).
  - destruct (FString_lt_total b a E) as [L|L]; [|now left].
    right. now apply (FString_lt_trans b a c).
Qed.


Lemma Sort_insert_InKeyOrder {A : Type} (key : A -> FString) (x : A) (l : list A) :
  InKeyOrder key l -> InKeyOrder key (Sort_insert key x l).
Proof.
  unfold InKeyOrder. induction 1 as [|y l HS IH HF]; cbn.
  - constructor; constructor.
  - destruct (FString_lt (key y) (key x)) eqn:L.
    + constructor; [exact IH|].
      apply Forall_forall. intros z Hz.
      eapply Permutation_in in Hz; [|apply Sort_insert_Permutation].
      destruct Hz as [<-|Hz]; [now apply FString_lt_asym|].
      rewrite Forall_forall in HF. now apply HF.
    + constructor; [now constructor|].
      constructor; [exact L|].
      rewrite Forall_forall in HF |- *. intros z Hz.
      destruct (FString_lt (key z) (key x)) eqn:Lz; [|reflexivity].
      destruct (FString_lt_cotrans (key z) (key y) (key x) Lz) as [C|C].
      * now rewrite (HF z Hz) in C.
      * congruence.
Qed.

Lemma Sort_by_InKeyOrder {A : Type} (key : A -> FString) (l : list A) :
  InKeyOrder key (Sort_by key l).
Proof.
  induction l as [|x l IH]; cbn; [constructor|].
  now apply Sort_insert_InKeyOrder.
Qed.
(** ** The id generator *)

Lemma Next_inv (g g' : FComponentIdGenerator) (id : Worker_ComponentId) :
  FComponentIdGenerator_Next g = Ok (id, g') ->
  id = CurrentId g /\ CurrentId g' = CurrentId g + 1 /\ CurrentId g < MAX_COMPONENT_ID.
Proof.
  unfold FComponentIdGenerator_Next, Ok.
  destruct (CurrentId g <? MAX_COMPONENT_ID) eqn:E; [|discriminate].
  intros H. injection H as <- <-. apply Z.ltb_lt in E. simpl. auto.
Qed.

Lemma Next_total (g : FComponentIdGenerator) :
  CurrentId g < MAX_COMPONENT_ID ->
  FComponentIdGenerator_Next g = Ok (CurrentId g, mkGenerator (CurrentId g + 1)).
Proof.
  intros H. unfold FComponentIdGenerator_Next.
  apply Z.ltb_lt in H. now rewrite H.
Qed.

Lemma NextN_inv (n : nat) :
  forall g ids g',
    FComponentIdGenerator_NextN n g = Ok (ids, g') ->
    ids = map (fun i => CurrentId g + Z.of_nat i) (seq 0 n)
    /\ CurrentId g' = CurrentId g + Z.of_nat n.
Proof.
  induction n as [|n IH]; intros g ids g' H.
  - injection H as <- <-. simpl. split; [reflexivity | lia].
  - simpl in H.
    destruct (FComponentIdGenerator_Next g) as [e|[id g1]] eqn:E1; [discriminate|].
    simpl in H.
    destruct (FComponentIdGenerator_NextN n g1) as [e|[ids1 g2]] eqn:E2; [discriminate|].
    simpl in H. injection H as <- <-.
    apply Next_inv in E1. destruct E1 as (-> & E1 & _).
    apply IH in E2. destruct E2 as (-> & E2).
    split.
    + simpl. rewrite Z.add_0_r. f_equal.
      rewrite <- seq_shift, map_map.
      apply map_ext. intros i. rewrite E1. lia.
    + rewrite E2, E1. lia.
Qed.

Lemma NextN_total (n : nat) :
  forall g,
    CurrentId g + Z.of_nat n <= MAX_COMPONENT_ID ->
    exists ids g', FComponentIdGenerator_NextN n g = Ok (ids, g').
Proof.
  induction n as [|n IH]; intros g H.
  - now exists [], g.
  - simpl. rewrite Next_total by lia. simpl.
    destruct (IH (mkGenerator (CurrentId g + 1))) as (ids & g' & E).
    + simpl. lia.
    + rewrite E. simpl. now exists (CurrentId g :: ids), g'.
Qed.

Lemma NoDup_map_offset (N : Z) (l : list nat) :
  NoDup l -> NoDup (map (fun i => N + Z.of_nat i) l).
Proof.
  intros H. apply Finite.Injective_map_NoDup; [|exact H].
  intros a b E. lia.
Qed.

(** C2.  A generator seeded at [N] answers [n] calls of [Next] whenever
    [N + n] stays within the id space; the values a sequence of calls
    returns never repeat and are all at least [N]; and [Peek] gives the
    value the following [Next] returns and leaves the generator as it
    was. *)
Theorem C2_generator_values_unique_and_bounded :
  forall (N : Worker_ComponentId) (n : nat),
    (N + Z.of_nat n <= MAX_COMPONENT_ID ->
     exists ids g', FComponentIdGenerator_NextN n (mkGenerator N) = Ok (ids, g'))
    /\
    (forall ids g',
       FComponentIdGenerator_NextN n (mkGenerator N) = Ok (ids, g') ->
       NoDup ids
       /\ Forall (fun id => N <= id) ids
       /\ List.length ids = n
       /\ snd (FComponentIdGenerator_Peek g') = g'
       /\ fst (FComponentIdGenerator_Peek g') = N + Z.of_nat n
       /\ forall id g'',
            FComponentIdGenerator_Next g' = Ok (id, g'') ->
            fst (FComponentIdGenerator_Peek g') = id
            /\ ~ In id ids /\ N <= id).
Proof.
  intros N n. split.
  - intros H. now apply NextN_total.
  - intros ids g' H. apply NextN_inv in H. simpl in H. destruct H as (-> & Hg).
    repeat split.
    + apply NoDup_map_offset, seq_NoDup.
    + apply Forall_forall. intros id Hin. apply in_map_iff in Hin.
      destruct Hin as (i & <- & _). lia.
    + now rewrite length_map, length_seq.
    + simpl. exact Hg.
    + simpl. apply Next_inv in H. destruct H as (-> & _). reflexivity.
    + apply Next_inv in H. destruct H as (-> & _ & _). rewrite Hg.
      intros Hin. apply in_map_iff in Hin. destruct Hin as (i & E & Hi).
      apply in_seq in Hi. lia.
    + apply Next_inv in H. destruct H as (-> & _ & _). lia.
Qed.


(** ** Loading and saving *)

Lemma RefreshSchemaFiles_state (Path : FString) (env : Env)
  (st : GeneratorState) (world : World) :
  let st' := snd (fst (RefreshSchemaFiles Path env st world)) in
  SchemaGeneratedClasses st' = SchemaGeneratedClasses st
  /\ ActorClassPathToSchema st' = ActorClassPathToSchema st
  /\ SubobjectClassPathToSchema st' = SubobjectClassPathToSchema st
  /\ NextAvailableComponentId st' = NextAvailableComponentId st
  /\ LevelPathToComponentId st' = LevelPathToComponentId st
  /\ NetCullDistanceToComponentId st' = NetCullDistanceToComponentId st.
Proof.
  unfold RefreshSchemaFiles.
  destruct (Env_DirectoryExists env Path),
    (Env_DeleteDirectoryRecursively env Path),
    (Env_CreateDirectoryTree env Path); simpl; auto 10.
Qed.

(** C5.  A database file that holds at least one actor record while its
    NextAvailableComponentId still equals the starting constant is refused
    by the load, whatever else is true of the file; the commandlet then
    continues from the reset generator state. *)
Theorem C5_stale_database_rejected :
  forall (env : Env) (world : World) (st : GeneratorState)
         (File : FDatabaseFile) (SchemaDatabase : USchemaDatabase),
    World_DatabaseFile world = Some File ->
    DatabaseFile_Asset File = Some SchemaDatabase ->
    DB_ActorClassPathToSchema SchemaDatabase <> [] ->
    DB_NextAvailableComponentId SchemaDatabase = STARTING_GENERATED_COMPONENT_ID ->
    fst (LoadGeneratorStateFromSchemaDatabase world st) = false
    /\ SchemaGeneratedClasses (fst (CookAndGenerateSchema_LoadState env st world)) = []
    /\ ActorClassPathToSchema (fst (CookAndGenerateSchema_LoadState env st world)) = []
    /\ SubobjectClassPathToSchema (fst (CookAndGenerateSchema_LoadState env st world)) = []
    /\ LevelPathToComponentId (fst (CookAndGenerateSchema_LoadState env st world)) = []
    /\ NetCullDistanceToComponentId (fst (CookAndGenerateSchema_LoadState env st world)) = []
    /\ NextAvailableComponentId (fst (CookAndGenerateSchema_LoadState env st world))
       = STARTING_GENERATED_COMPONENT_ID.
Proof.
  intros env world st File SchemaDatabase HF HA HN HS.
  assert (HL : fst (LoadGeneratorStateFromSchemaDatabase world st) = false).
  { unfold LoadGeneratorStateFromSchemaDatabase, IsAssetReadOnly.
    rewrite HF. destruct (DatabaseFile_bIsReadOnly File); [reflexivity|].
    rewrite HA. cbn [ActorClassPathToSchema NextAvailableComponentId].
    rewrite HS, Z.eqb_refl.
    destruct (DB_ActorClassPathToSchema SchemaDatabase); [congruence | reflexivity]. }
  split; [exact HL|].
  unfold CookAndGenerateSchema_LoadState.
  destruct (LoadGeneratorStateFromSchemaDatabase world st) as [b st1].
  simpl in HL. subst b. cbn [negb].
  unfold ResetSchemaGeneratorStateAndCleanupFolders.
  pose proof (RefreshSchemaFiles_state (Env_GeneratedSchemaOutputFolder env) env
                (ResetSchemaGeneratorState st1) world) as HR.
  destruct (RefreshSchemaFiles (Env_GeneratedSchemaOutputFolder env) env
              (ResetSchemaGeneratorState st1) world) as [[b st2] world1].
  simpl in HR. simpl. intuition congruence.
Qed.

Lemma SaveSchemaDatabase_inv (env : Env) (st : GeneratorState) (world : World)
  (b : bool) (st' : GeneratorState) (world' : World) :
  SaveSchemaDatabase env st world = Ok (b, st', world') ->
  exists Data OwnerOnly Handover,
    TMap_Find ESchemaComponentType_eqb SCHEMA_Data
      (SchemaComponentTypeToComponents st) = Some Data
    /\ TMap_Find ESchemaComponentType_eqb SCHEMA_OwnerOnly
         (SchemaComponentTypeToComponents st) = Some OwnerOnly
    /\ TMap_Find ESchemaComponentType_eqb SCHEMA_Handover
         (SchemaComponentTypeToComponents st) = Some Handover
    /\ b = Env_SavePackage env.
Proof.
  unfold SaveSchemaDatabase, ComponentsOfType, TMap_FindChecked.
  cbn [SchemaComponentTypeToComponents set_LevelPathToComponentId
       set_SubobjectClassPathToSchema set_ActorClassPathToSchema].
  destruct (TMap_Find ESchemaComponentType_eqb SCHEMA_Data
              (SchemaComponentTypeToComponents st)) as [Data|]; [|discriminate].
  destruct (TMap_Find ESchemaComponentType_eqb SCHEMA_OwnerOnly
              (SchemaComponentTypeToComponents st)) as [OwnerOnly|]; [|discriminate].
  destruct (TMap_Find ESchemaComponentType_eqb SCHEMA_Handover
              (SchemaComponentTypeToComponents st)) as [Handover|]; [|discriminate].
  cbn [bind Ok]. intros H. exists Data, OwnerOnly, Handover.
  repeat split; try reflexivity.
  destruct (Env_DescriptorFile env) as [[Bytes|]|], (Env_SavePackage env);
    cbn in H; injection H as <- _ _; reflexivity.
Qed.

(** C10.  When the compiled [schema.descriptor] cannot be opened, or
    cannot be fully read, [SaveSchemaDatabase] logs a warning and goes on:
    from a state that has the three id sets the save reads, if the package
    write succeeds it returns true, and the database it wrote carries the
    generator state (the counter, the distance map, the id sets, and the
    class and level maps in key order) with SchemaDescriptorHash 0. *)
Theorem C10_unreadable_descriptor_saves_hash_zero :
  forall (env : Env) (st : GeneratorState) (world : World)
         (Data OwnerOnly Handover : list Worker_ComponentId),
    TMap_Find ESchemaComponentType_eqb SCHEMA_Data
      (SchemaComponentTypeToComponents st) = Some Data ->
    TMap_Find ESchemaComponentType_eqb SCHEMA_OwnerOnly
      (SchemaComponentTypeToComponents st) = Some OwnerOnly ->
    TMap_Find ESchemaComponentType_eqb SCHEMA_Handover
      (SchemaComponentTypeToComponents st) = Some Handover ->
    Env_DescriptorFile env = None \/ Env_DescriptorFile env = Some None ->
    Env_SavePackage env = true ->
    exists st' SchemaDatabase,
      SaveSchemaDatabase env st world
      = Ok (true, st',
            mkWorld (World_SchemaFiles world)
              (Some (mkDatabaseFile false (Some SchemaDatabase))))
      /\ DB_SchemaDescriptorHash SchemaDatabase = 0
      /\ DB_NextAvailableComponentId SchemaDatabase = NextAvailableComponentId st
      /\ Permutation (DB_ActorClassPathToSchema SchemaDatabase)
           (ActorClassPathToSchema st)
      /\ InKeyOrder fst (DB_ActorClassPathToSchema SchemaDatabase)
      /\ Permutation (DB_SubobjectClassPathToSchema SchemaDatabase)
           (SubobjectClassPathToSchema st)
      /\ InKeyOrder fst (DB_SubobjectClassPathToSchema SchemaDatabase)
      /\ Permutation (DB_LevelPathToComponentId SchemaDatabase)
           (LevelPathToComponentId st)
      /\ InKeyOrder fst (DB_LevelPathToComponentId SchemaDatabase)
      /\ DB_NetCullDistanceToComponentId SchemaDatabase
         = NetCullDistanceToComponentId st
      /\ DB_DataComponentIds SchemaDatabase = Data
      /\ DB_OwnerOnlyComponentIds SchemaDatabase = OwnerOnly
      /\ DB_HandoverComponentIds SchemaDatabase = Handover
      /\ (In Warning_DescriptorNotOpened (Log st')
          \/ In Warning_DescriptorNotRead (Log st')).
Proof.
  intros env st world Data OwnerOnly Handover HD1 HD2 HD3 HD HS.
  unfold SaveSchemaDatabase, ComponentsOfType, TMap_FindChecked.
  cbn [SchemaComponentTypeToComponents set_LevelPathToComponentId
       set_SubobjectClassPathToSchema set_ActorClassPathToSchema].
  rewrite HD1, HD2, HD3, HS. cbn [bind Ok negb].
  destruct HD as [HD|HD]; rewrite HD; eexists; eexists;
    (split; [reflexivity|]); cbn;
    repeat split; try reflexivity;
    try apply Sort_by_Permutation; try apply Sort_by_InKeyOrder.
  - left. apply in_app_iff. right. now left.
  - right. apply in_app_iff. right. now left.
Qed.
(** ** What a run persists *)

Ltac bind_inv H :=
  match type of H with
  | bind ?m _ = _ =>
      let E := fresh "E" in
      destruct m eqn:E; [discriminate H | cbn [bind] in H]
  end.

Lemma Writer_WriteToFile_inv (FileName : FString) (w : FCodeWriter)
  (env : Env) (world world' : World) :
  Writer_WriteToFile FileName w env world = Ok world' ->
  Env_WriteToFile env FileName = true
  /\ world'
     = mkWorld
         (TMap_Add String.eqb FileName (Writer_Output w) (World_SchemaFiles world))
         (World_DatabaseFile world).
Proof.
  unfold Writer_WriteToFile. destruct (Env_WriteToFile env FileName); [|discriminate].
  intros H. injection H as <-. auto.
Qed.

Lemma Writer_WriteToFile_database (FileName : FString) (w : FCodeWriter)
  (env : Env) (world world' : World) :
  Writer_WriteToFile FileName w env world = Ok world' ->
  World_DatabaseFile world' = World_DatabaseFile world.
Proof. intros H. apply Writer_WriteToFile_inv in H. now destruct H as (_ & ->). Qed.

Lemma Writer_WriteToFile_fatal (FileName : FString) (w : FCodeWriter)
  (env : Env) (world : World) (e : Fatal) :
  Writer_WriteToFile FileName w env world = inl e ->
  e = FilesystemError FileName /\ Env_WriteToFile env FileName = false.
Proof.
  unfold Writer_WriteToFile. destruct (Env_WriteToFile env FileName); [discriminate|].
  intros H. injection H as <-. auto.
Qed.

Lemma GenerateCompleteSchemaFromClass_database (SchemaPath : FString)
  (g : FComponentIdGenerator) (TypeInfo : FUnrealType) (env : Env)
  (st : GeneratorState) (world : World) g' st' world' :
  GenerateCompleteSchemaFromClass SchemaPath g TypeInfo env st world
  = Ok (g', st', world') ->
  World_DatabaseFile world' = World_DatabaseFile world.
Proof.
  unfold GenerateCompleteSchemaFromClass, GenerateActorSchema,
    GenerateSubobjectSchema.
  destruct (UClass_IsActor (TypeInfo_Type TypeInfo)); intros H.
  - bind_inv H. destruct p. bind_inv H. destruct p. bind_inv H.
    injection H as _ _ <-. now apply Writer_WriteToFile_database in E1.
  - bind_inv H. destruct p. bind_inv H.
    injection H as _ _ <-. now apply Writer_WriteToFile_database in E0.
Qed.

Lemma GenerateSchemaFromClasses_database (TypeInfos : list FUnrealType)
  (SchemaPath : FString) (env : Env) :
  forall g st world g' st' world',
    GenerateSchemaFromClasses TypeInfos SchemaPath g env st world
    = Ok (g', st', world') ->
    World_DatabaseFile world' = World_DatabaseFile world.
Proof.
  induction TypeInfos as [|T Ts IH]; intros g st world g' st' world' H.
  - now injection H as _ _ <-.
  - simpl in H. bind_inv H. destruct p as [[g1 st1] world1].
    apply GenerateCompleteSchemaFromClass_database in E.
    apply IH in H. congruence.
Qed.

Lemma SpatialGDKGenerateSchemaForClasses_database (Classes : list UClass)
  (SchemaOutputPath : FString) (env : Env) (st : GeneratorState) (world : World)
  b st' world' :
  SpatialGDKGenerateSchemaForClasses Classes SchemaOutputPath env st world
  = Ok (b, st', world') ->
  World_DatabaseFile world' = World_DatabaseFile world.
Proof.
  unfold SpatialGDKGenerateSchemaForClasses.
  destruct (CollectTypeInfos _ _ _) as [TypeInfos st2].
  destruct (ValidateIdentifierNames TypeInfos st2) as [bValid st3].
  destruct bValid; cbn [negb]; intros H.
  - destruct (Env_CollapseRelativeDirectories env _).
    + bind_inv H. destruct p as [[g1 st5] world1].
      injection H as _ _ <-.
      now apply GenerateSchemaFromClasses_database in E.
    + now injection H as _ _ <-.
  - now injection H as _ _ <-.
Qed.

Lemma GenerateSchemaForSublevels_database (Path : FString)
  (Levels : list (FString * FString)) (env : Env) (st : GeneratorState)
  (world : World) st' world' :
  GenerateSchemaForSublevels Path Levels env st world = Ok (st', world') ->
  World_DatabaseFile world' = World_DatabaseFile world.
Proof.
  unfold GenerateSchemaForSublevels. intros H.
  bind_inv H. destruct p as [[w g] st1]. bind_inv H.
  injection H as _ <-. now apply Writer_WriteToFile_database in E0.
Qed.


Lemma GenerateSchemaForNCDs_database (Path : FString) (env : Env)
  (st : GeneratorState) (world : World) st' world' :
  GenerateSchemaForNCDs Path env st world = Ok (st', world') ->
  World_DatabaseFile world' = World_DatabaseFile world.
Proof.
  unfold GenerateSchemaForNCDs. intros H.
  bind_inv H. destruct p as [[w g] st1]. bind_inv H.
  injection H as _ <-. now apply Writer_WriteToFile_database in E0.
Qed.


Lemma RunSchemaCompiler_result (env : Env) (st : GeneratorState) :
  fst (RunSchemaCompiler env st) = SchemaCompilerSucceeds env.
Proof.
  unfold SchemaCompilerSucceeds, RunSchemaCompiler.
  repeat match goal with
         | |- context [if ?c then _ else _] => destruct c; try reflexivity
         end.
Qed.



(** ** Identifier validation reports every violation *)

Lemma LogStep_compose b st r1 new1 r2 new2 :
  LogStep b st r1 new1 -> LogStep (fst r1) (snd r1) r2 new2 ->
  LogStep b st r2 (new1 ++ new2).
Proof.
  intros [L1 B1] [L2 B2]. split.
  - now rewrite L2, L1, <- app_assoc.
  - rewrite B2, B1, existsb_app, negb_orb. now rewrite andb_assoc.
Qed.

Lemma Monotone_left {A} (P : A -> list LogEntry -> Prop) a log after :
  Monotone P -> P a log -> P a (log ++ after).
Proof. intros M H. apply (M a log [] after H). Qed.

Lemma Monotone_right {A} (P : A -> list LogEntry -> Prop) a log before :
  Monotone P -> P a log -> P a (before ++ log).
Proof.
  intros M H. pose proof (M a log before [] H) as H'.
  now rewrite app_nil_r in H'.
Qed.

Lemma fold_LogStep {A : Type} (f : A -> bool -> GeneratorState -> bool * GeneratorState)
  (P : A -> list LogEntry -> Prop) :
  Monotone P ->
  (forall a b st, exists new, LogStep b st (f a b st) new /\ P a new) ->
  forall l b st,
    exists new,
      LogStep b st (fold_left (fun acc a => f a (fst acc) (snd acc)) l (b, st)) new
      /\ forall a, In a l -> P a new.
Proof.
  intros M Hf. induction l as [|a l IH]; intros b st.
  - exists []. split; [|intros a []].
    split; simpl; [now rewrite app_nil_r | now rewrite andb_true_r].
  - simpl. destruct (Hf a b st) as (new1 & S1 & P1).
    destruct (f a b st) as [b1 st1] eqn:E.
    destruct (IH b1 st1) as (new2 & S2 & P2).
    exists (new1 ++ new2). split.
    + exact (LogStep_compose _ _ _ _ _ _ S1 S2).
    + intros x [<-|Hx].
      * now apply Monotone_left.
      * apply Monotone_right; auto.
Qed.

Lemma CheckSchemaNameValidity_LogStep (Name Identifier Category : FString)
  (b : bool) (st : GeneratorState) :
  exists new,
    LogStep b st
      (if fst (CheckSchemaNameValidity Name Identifier Category st) then b else false,
       snd (CheckSchemaNameValidity Name Identifier Category st)) new
    /\ (Name = "" -> In (Error_EmptyName Category Identifier) new)
    /\ (FString_StartsWithDigit Name = true ->
        In (Error_LeadingDigits Category Name Identifier) new).
Proof.
  unfold CheckSchemaNameValidity, LogStep.
  destruct Name as [|c Name]; cbn [FString_IsEmpty].
  - exists [Error_EmptyName Category Identifier]. simpl.
    rewrite andb_false_r. repeat split; auto; discriminate.
  - destruct (FString_StartsWithDigit (String c Name)) eqn:D.
    + exists [Error_LeadingDigits Category (String c Name) Identifier]. simpl.
      rewrite andb_false_r. repeat split; auto. discriminate.
    + exists []. simpl. rewrite app_nil_r, andb_true_r.
      repeat split; [discriminate | discriminate].
Qed.

Lemma CheckNamesInScope_LogStep (Category CollisionCategory : FString)
  (Items : list (FString * FString)) :
  forall Names b st,
    exists new,
      LogStep b st (CheckNamesInScope Category CollisionCategory Items Names b st) new
      /\ forall Before Name PathName After,
           Items = Before ++ (Name, PathName) :: After ->
           (Name = "" -> In (Error_EmptyName Category PathName) new)
           /\ (FString_StartsWithDigit Name = true ->
               In (Error_LeadingDigits Category Name PathName) new)
           /\ (forall Existing,
                 TMap_Find FString_eqb Name Names = Some Existing ->
                 In (Error_NameCollision CollisionCategory Name Existing PathName) new)
           /\ (TMap_Find FString_eqb Name Names = None ->
               forall Earlier First Later,
                 Before = Earlier ++ First :: Later ->
                 FString_eqb Name (fst First) = true ->
                 (forall Other, In Other Earlier ->
                                FString_eqb Name (fst Other) = false) ->
                 In (Error_NameCollision CollisionCategory Name (snd First) PathName)
                    new).
Proof.
  induction Items as [|[n p] Items IH]; intros Names b st.
  - exists []. split.
    + split; simpl; [now rewrite app_nil_r | now rewrite andb_true_r].
    + intros [|] ? ? ? H; discriminate.
  - cbn [CheckNamesInScope].
    destruct (CheckSchemaNameValidity_LogStep n p Category b st) as (new1 & S1 & E1 & D1).
    destruct (CheckSchemaNameValidity n p Category st) as [bValid st1].
    cbn [fst snd] in S1.
    destruct (TMap_Find FString_eqb n Names) as [Existing|] eqn:F.
    + set (st2 := UE_LOG (Error_NameCollision CollisionCategory n Existing p) st1).
      destruct (IH Names false st2) as (new2 & S2 & R2).
      set (e := Error_NameCollision CollisionCategory n Existing p) in *.
      exists (new1 ++ e :: new2). split.
      * destruct S1 as [L1 B1], S2 as [L2 B2]. cbn [fst snd] in L1, B1. split.
        -- rewrite L2. subst st2. cbn [UE_LOG Log]. rewrite L1, <- !app_assoc.
           reflexivity.
        -- rewrite B2. rewrite existsb_app. simpl.
           rewrite orb_true_r. simpl. now rewrite andb_false_r.
      * intros Before Name PathName After HI.
        apply cons_eq_app_cons in HI.
        destruct HI as [(-> & HI1 & <-)|(Before' & -> & ->)].
        -- injection HI1 as <- <-. split; [|split; [|split]].
           ++ intros H. apply in_app_iff. left. auto.
           ++ intros H. apply in_app_iff. left. auto.
           ++ intros Ex HEx. rewrite F in HEx. injection HEx as <-.
              apply in_app_iff. right. now left.
           ++ intros _ [|? ?] ? ? HB; discriminate HB.
        -- destruct (R2 _ _ _ _ eq_refl) as (RE & RD & RC & RF).
           split; [|split; [|split]].
           ++ intros H. apply in_app_iff. right. right. auto.
           ++ intros H. apply in_app_iff. right. right. auto.
           ++ intros Ex HEx. apply in_app_iff. right. right. auto.
           ++ intros HN Earlier First Later HB HF HO.
              apply cons_eq_app_cons in HB.
              destruct HB as [(-> & <- & <-)|(Earlier' & -> & ->)].
              ** cbn [fst] in HF.
                 rewrite (FString_Find_eqv Name n Names HF), F in HN. discriminate.
              ** apply in_app_iff. right. right.
                 apply (RF HN Earlier' First Later eq_refl HF).
                 intros Other HOther. apply HO. now right.
    + destruct (IH (TMap_Add FString_eqb n p Names)
                  (if bValid then b else false) st1) as (new2 & S2 & R2).
      exists (new1 ++ new2). split.
      * exact (LogStep_compose _ _ _ _ _ _ S1 S2).
      * intros Before Name PathName After HI.
        apply cons_eq_app_cons in HI.
        destruct HI as [(-> & HI1 & <-)|(Before' & -> & ->)].
        -- injection HI1 as <- <-. split; [|split; [|split]].
           ++ intros H. apply in_app_iff. left. auto.
           ++ intros H. apply in_app_iff. left. auto.
           ++ intros Ex HEx. rewrite F in HEx. discriminate.
           ++ intros _ [|? ?] ? ? HB; discriminate HB.
        -- destruct (R2 _ _ _ _ eq_refl) as (RE & RD & RC & RF).
           split; [|split; [|split]].
           ++ intros H. apply in_app_iff. right. auto.
           ++ intros H. apply in_app_iff. right. auto.
           ++ intros Ex HEx. apply in_app_iff. right. apply RC.
              destruct (FString_eqb Name n) eqn:EN.
              ** rewrite (FString_Find_eqv Name n Names EN), F in HEx. discriminate.
              ** now rewrite (FString_Find_Add_other Name n p Names EN).
           ++ intros HN Earlier First Later HB HF HO.
              apply in_app_iff. right.
              apply cons_eq_app_cons in HB.
              destruct HB as [(-> & <- & <-)|(Earlier' & -> & ->)].
              ** cbn [fst snd] in *. apply RC.
                 now apply FString_Find_Add_same.
              ** assert (EN : FString_eqb Name n = false)
                   by (apply (HO (n, p)); now left).
                 apply (fun X => RF X Earlier' First Later eq_refl HF).
                 --- now rewrite (FString_Find_Add_other Name n p Names EN).
                 --- intros Other HOther. apply HO. now right.
Qed.

Lemma NamesReported_Monotone {X : Type} (NameOf PathOf : X -> FString)
  (Category CollisionCategory : FString) :
  Monotone (NamesReported NameOf PathOf Category CollisionCategory).
Proof.
  intros Items log before after H Before Item After HI.
  destruct (H _ _ _ HI) as (A & B & C).
  split; [|split].
  - intros Y. apply in_app_iff. right. apply in_app_iff. left. auto.
  - intros Y. apply in_app_iff. right. apply in_app_iff. left. auto.
  - intros Earlier First Later HB HF HO.
    apply in_app_iff. right. apply in_app_iff. left. eauto.
Qed.

Lemma map_eq_app_cons {X Y : Type} (f : X -> Y) (l : list X) :
  forall before y after,
    map f l = before ++ y :: after ->
    exists before' x after',
      l = before' ++ x :: after'
      /\ before = map f before' /\ y = f x /\ after = map f after'.
Proof.
  induction l as [|a l IH]; intros [|b before] y after H; try discriminate.
  - injection H as <- <-. now exists [], a, l.
  - injection H as <- H. destruct (IH _ _ _ H) as (b' & x & a' & -> & -> & -> & ->).
    now exists (a :: b'), x, a'.
Qed.

Lemma CheckNamesInScope_reported {X : Type} (NameOf PathOf : X -> FString)
  (Category CollisionCategory : FString) (Items : list X) b st :
  exists new,
    LogStep b st
      (CheckNamesInScope Category CollisionCategory
         (map (fun Item => (NameOf Item, PathOf Item)) Items) [] b st) new
    /\ NamesReported NameOf PathOf Category CollisionCategory Items new.
Proof.
  destruct (CheckNamesInScope_LogStep Category CollisionCategory
              (map (fun Item => (NameOf Item, PathOf Item)) Items) [] b st)
    as (new & S & R).
  exists new. split; [exact S|].
  intros Before Item After HI.
  destruct (R (map (fun Item => (NameOf Item, PathOf Item)) Before)
              (NameOf Item) (PathOf Item)
              (map (fun Item => (NameOf Item, PathOf Item)) After))
    as (A & B & _ & C).
  { rewrite HI, map_app. reflexivity. }
  split; [exact A|]. split; [exact B|].
  intros Earlier First Later HB HF HO.
  apply (C eq_refl (map (fun Item => (NameOf Item, PathOf Item)) Earlier)
           (NameOf First, PathOf First)
           (map (fun Item => (NameOf Item, PathOf Item)) Later)).
  - rewrite HB, map_app. reflexivity.
  - exact HF.
  - intros Other HOther. apply in_map_iff in HOther.
    destruct HOther as (O & <- & HIn). cbn [fst]. now apply HO.
Qed.

Lemma CheckIdentifierNameValidity_LogStep (TypeInfo : FUnrealType) b st :
  exists new,
    LogStep b st (CheckIdentifierNameValidity TypeInfo b st) new
    /\ TypeInfoReported TypeInfo new.
Proof.
  unfold CheckIdentifierNameValidity, TypeInfoReported.
  cbn [fold_left GetAllReplicatedPropertyGroups fst snd].
  unfold ReplicatedDataNames, HandoverDataNames, SubobjectNames,
    GetFlatRepData, GetFlatHandoverData, GetAllSubobjects.
  set (Class := TypeInfo_Type TypeInfo).
  destruct (CheckNamesInScope_reported SchemaFieldName Property_PathName
              "Replicated property" "Replicated property"
              (UClass_RepData Class REP_MultiClient) b st) as (n1 & S1 & R1).
  destruct (CheckNamesInScope "Replicated property" "Replicated property"
              _ [] b st) as [b1 st1].
  cbn [fst snd].
  destruct (CheckNamesInScope_reported SchemaFieldName Property_PathName
              "Replicated property" "Replicated property"
              (UClass_RepData Class REP_SingleClient) b1 st1) as (n2 & S2 & R2).
  destruct (CheckNamesInScope "Replicated property" "Replicated property"
              _ [] b1 st1) as [b2 st2].
  destruct (CheckNamesInScope_reported SchemaFieldName Property_PathName
              "Handover property" "Handover data"
              (UClass_HandoverData Class) b2 st2) as (n3 & S3 & R3).
  destruct (CheckNamesInScope "Handover property" "Handover data"
              _ [] b2 st2) as [b3 st3].
  destruct (CheckNamesInScope_reported
              (fun It => UnrealNameToSchemaComponentName (Subobject_Name (snd It)))
              (fun It => Subobject_ObjectPathName (snd It))
              "Subobject" "Subobject"
              (UClass_Subobjects Class) b3 st3) as (n4 & S4 & R4).
  exists (n1 ++ n2 ++ n3 ++ n4). split.
  - eapply LogStep_compose; [exact S1|].
    eapply LogStep_compose; [exact S2|].
    eapply LogStep_compose; [exact S3|exact S4].
  - split; [|split].
    + intros [|].
      * now apply Monotone_left; [apply NamesReported_Monotone|].
      * apply (NamesReported_Monotone _ _ _ _ _ n2 n1 (n3 ++ n4) R2).
    + rewrite !app_assoc, <- (app_assoc _ n3 n4).
      apply (NamesReported_Monotone _ _ _ _ _ n3 (n1 ++ n2) n4 R3).
    + rewrite !app_assoc.
      apply Monotone_right; [apply NamesReported_Monotone | exact R4].
Qed.

Lemma AddPotentialNameCollision_Log (d c g : FString) (st : GeneratorState) :
  Log (AddPotentialNameCollision d c g st) = Log st.
Proof. reflexivity. Qed.

Lemma ValidateClassName_Log (TypeInfo : FUnrealType) b st :
  Log (snd (ValidateClassName TypeInfo b st))
  = Log (snd (CheckSchemaNameValidity
                (UnrealNameToSchemaName (UClass_Name (TypeInfo_Type TypeInfo)) true)
                (UClass_PathName (TypeInfo_Type TypeInfo)) "Class" st))
  /\ fst (ValidateClassName TypeInfo b st)
     = if fst (CheckSchemaNameValidity
                 (UnrealNameToSchemaName (UClass_Name (TypeInfo_Type TypeInfo)) true)
                 (UClass_PathName (TypeInfo_Type TypeInfo)) "Class" st)
       then b else false.
Proof.
  unfold ValidateClassName.
  destruct (CheckSchemaNameValidity _ _ _ st) as [bValid st1]. cbn [fst snd].
  destruct (TMap_Contains FString_eqb _ (ClassPathToSchemaName st1)); cbn [fst snd].
  - split; reflexivity.
  - split; [|reflexivity].
    rewrite AddPotentialNameCollision_Log.
    match goal with |- context [if ?c then _ else _] => destruct c end;
      reflexivity.
Qed.

Lemma ValidateClassName_LogStep (TypeInfo : FUnrealType) b st :
  exists new,
    LogStep b st (ValidateClassName TypeInfo b st) new
    /\ ClassNameReported TypeInfo new.
Proof.
  destruct (CheckSchemaNameValidity_LogStep
              (UnrealNameToSchemaName (UClass_Name (TypeInfo_Type TypeInfo)) true)
              (UClass_PathName (TypeInfo_Type TypeInfo)) "Class" b st)
    as (new & [L B] & E & D).
  destruct (ValidateClassName_Log TypeInfo b st) as [L' B'].
  exists new. split; [split|split]; cbn [fst snd] in *; try assumption; congruence.
Qed.

Lemma ClassNameReported_Monotone : Monotone ClassNameReported.
Proof.
  intros T log before after [A B]. split; intros X;
    apply in_app_iff; right; apply in_app_iff; left; auto.
Qed.

Lemma TypeInfoReported_Monotone : Monotone TypeInfoReported.
Proof.
  intros T log before after (A & B & C). unfold TypeInfoReported. split; [|split].
  - intros G. now apply NamesReported_Monotone.
  - now apply NamesReported_Monotone.
  - now apply NamesReported_Monotone.
Qed.

Lemma LogClassNameCollisions_LogStep b st :
  exists new,
    LogStep b st (b, LogClassNameCollisions st) new
    /\ existsb LogEntry_IsError new = false.
Proof.
  unfold LogClassNameCollisions.
  generalize (PotentialSchemaNameCollisions st) as l.
  intros l. revert st. induction l as [|c l IH]; intros st.
  - exists []. split; [|reflexivity].
    split; simpl; [now rewrite app_nil_r | now rewrite andb_true_r].
  - simpl. destruct (1 <? List.length (snd c))%nat.
    + destruct (IH (UE_LOG (Display_ClassNameCollision (fst c) (snd c)) st))
        as (new & [L B] & N).
      exists (Display_ClassNameCollision (fst c) (snd c) :: new). split.
      * split; cbn [fst snd] in *.
        -- rewrite L. simpl. now rewrite <- app_assoc.
        -- simpl. rewrite N. now rewrite andb_true_r.
      * simpl. exact N.
    + apply IH.
Qed.

Lemma ValidateIdentifierNames_LogStep (TypeInfos : list FUnrealType)
  (st : GeneratorState) :
  exists classes collisions members,
    LogStep true st (ValidateIdentifierNames TypeInfos st)
      (classes ++ collisions ++ members)
    /\ (forall TypeInfo, In TypeInfo TypeInfos -> ClassNameReported TypeInfo classes)
    /\ existsb LogEntry_IsError collisions = false
    /\ (forall TypeInfo, In TypeInfo TypeInfos -> TypeInfoReported TypeInfo members).
Proof.
  unfold ValidateIdentifierNames, ValidateClassNames, CheckAllIdentifierNames.
  destruct (fold_LogStep ValidateClassName ClassNameReported
              ClassNameReported_Monotone ValidateClassName_LogStep
              TypeInfos true st) as (n1 & S1 & R1).
  destruct (fold_left _ TypeInfos (true, st)) as [b1 st1].
  destruct (LogClassNameCollisions_LogStep b1 st1) as (n2 & S2 & N2).
  destruct (fold_LogStep CheckIdentifierNameValidity TypeInfoReported
              TypeInfoReported_Monotone CheckIdentifierNameValidity_LogStep
              TypeInfos b1 (LogClassNameCollisions st1)) as (n3 & S3 & R3).
  exists n1, n2, n3.
  split; [exact (LogStep_compose _ _ _ _ _ _ S1 (LogStep_compose _ _ _ _ _ _ S2 S3))|].
  split; [exact R1|]. split; [exact N2 | exact R3].
Qed.

(** C8.  Identifier validation looks at every class of the run: whatever
    it found earlier, each class name, and the schema name of each
    replicated property of each group, of each handover property and of
    each subobject of the class, that is empty, starts with a digit, or is
    (case ignored) the name of an earlier property of the same group, an
    earlier handover property or an earlier subobject of the class, has
    its error line in the log; the collision line names the first item
    that has the name.  The result is false exactly when the run logged an
    error. *)
Theorem C8_validation_reports_every_violation :
  forall (TypeInfos : list FUnrealType) (st : GeneratorState),
  exists new,
    Log (snd (ValidateIdentifierNames TypeInfos st)) = Log st ++ new
    /\ fst (ValidateIdentifierNames TypeInfos st)
       = negb (existsb LogEntry_IsError new)
    /\ forall TypeInfo,
         In TypeInfo TypeInfos ->
         ClassNameReported TypeInfo new /\ TypeInfoReported TypeInfo new.
Proof.
  intros TypeInfos st.
  destruct (ValidateIdentifierNames_LogStep TypeInfos st)
    as (classes & collisions & members & [L B] & RC & _ & RM).
  exists (classes ++ collisions ++ members).
  split; [exact L|]. split; [exact B|].
  intros T HT. split.
  - apply Monotone_left; [apply ClassNameReported_Monotone | auto].
  - rewrite app_assoc.
    apply Monotone_right; [apply TypeInfoReported_Monotone | auto].
Qed.


(** ** Which classes a run validates *)

Lemma TSet_Contains_exists {K : Type} (eqb : K -> K -> bool) (k : K) (s : list K) :
  TSet_Contains eqb k s = true <-> exists k', In k' s /\ eqb k k' = true.
Proof.
  induction s as [|x s IH]; simpl.
  - split; [discriminate | intros (? & [] & _)].
  - rewrite orb_true_iff, IH. split.
    + intros [H|(k' & H1 & H2)]; [exists x | exists k']; auto.
    + intros (k' & [<-|H1] & H2); [now left | right; now exists k'].
Qed.

Lemma UClass_eqb_refl (c : UClass) : UClass_eqb c c = true.
Proof. apply String.eqb_refl. Qed.

Lemma UClass_eqb_path (a b : UClass) :
  UClass_eqb a b = true <-> UClass_PathName a = UClass_PathName b.
Proof. apply String.eqb_eq. Qed.

Lemma TSet_Contains_app {K : Type} (eqb : K -> K -> bool) (k : K) (a b : list K) :
  TSet_Contains eqb k (a ++ b) = TSet_Contains eqb k a || TSet_Contains eqb k b.
Proof.
  induction a as [|x a IH]; simpl; [reflexivity|].
  now rewrite IH, orb_assoc.
Qed.

Lemma TSet_Contains_app_false (c x : UClass) (s : list UClass) :
  TSet_Contains UClass_eqb x (s ++ [c]) = false ->
  TSet_Contains UClass_eqb x s = false
  /\ UClass_PathName c <> UClass_PathName x.
Proof.
  rewrite TSet_Contains_app. simpl. rewrite orb_false_r.
  intros H. apply orb_false_iff in H. destruct H as [H1 H2]. split; [exact H1|].
  intros E. symmetry in E. apply UClass_eqb_path in E. congruence.
Qed.

(** The visitor adds classes no class of which was generated before, each
    path once. *)
Lemma VisitNestedClasses_added (Nested : list UClass) :
  forall TypeInfos st,
  exists added,
    VisitNestedClasses Nested TypeInfos st
    = (TypeInfos ++ map CreateUnrealTypeInfo added,
       set_SchemaGeneratedClasses (SchemaGeneratedClasses st ++ added) st)
    /\ incl added Nested
    /\ NoDup (map UClass_PathName added)
    /\ forall c, In c added ->
                 TSet_Contains UClass_eqb c (SchemaGeneratedClasses st) = false.
Proof.
  induction Nested as [|c Nested IH]; intros Ts st.
  - exists []. simpl. rewrite !app_nil_r. conj_split.
    + now destruct st.
    + intros ? [].
    + constructor.
    + intros ? [].
  - simpl.
    destruct (TSet_Contains UClass_eqb c (SchemaGeneratedClasses st)) eqn:C;
      cbn [negb andb].
    + destruct (IH Ts st) as (added & E & I & N & F).
      exists added. conj_split; auto. intros x H; right; auto.
    + destruct (IsSupportedClass c).
      * destruct (IH (Ts ++ [CreateUnrealTypeInfo c])
                    (set_SchemaGeneratedClasses (SchemaGeneratedClasses st ++ [c]) st))
          as (added & E & I & N & F).
        cbn [SchemaGeneratedClasses set_SchemaGeneratedClasses] in F.
        exists (c :: added). rewrite E. simpl. rewrite <- !app_assoc. simpl.
        conj_split.
        -- reflexivity.
        -- intros x [<-|H]; [now left | right; auto].
        -- constructor; [|exact N]. intros H. apply in_map_iff in H.
           destruct H as (x & Ex & Hx). apply F in Hx.
           apply TSet_Contains_app_false in Hx. destruct Hx as [_ Hx]. congruence.
        -- intros x [<-|H]; [exact C|].
           apply F in H. now apply TSet_Contains_app_false in H.
      * destruct (IH Ts st) as (added & E & I & N & F).
        exists added. conj_split; auto. intros x H; right; auto.
Qed.

Lemma TSet_Contains_app_nil_false (x : UClass) (s a : list UClass) :
  TSet_Contains UClass_eqb x (s ++ a) = false ->
  TSet_Contains UClass_eqb x s = false
  /\ forall c, In c a -> UClass_PathName c <> UClass_PathName x.
Proof.
  rewrite TSet_Contains_app. intros H. apply orb_false_iff in H.
  destruct H as [H1 H2]. split; [exact H1|].
  intros c Hc E. symmetry in E. apply UClass_eqb_path in E.
  assert (TSet_Contains UClass_eqb x a = true)
    by (apply TSet_Contains_exists; now exists c).
  congruence.
Qed.

(** The classes a run generates type infos for: classes not generated
    before, each path once, taken from the class set and the object graphs
    of its classes; every class of the set is among the generated ones
    afterwards, and a first class that was not generated before comes
    first. *)
Lemma CollectTypeInfos_added (Classes : list UClass) :
  forall TypeInfos st,
  exists added,
    CollectTypeInfos Classes TypeInfos st
    = (TypeInfos ++ map CreateUnrealTypeInfo added,
       set_SchemaGeneratedClasses (SchemaGeneratedClasses st ++ added) st)
    /\ incl added (Classes ++ flat_map UClass_ObjectGraph Classes)
    /\ (forall c, In c Classes ->
                  TSet_Contains UClass_eqb c (SchemaGeneratedClasses st ++ added) = true)
    /\ NoDup (map UClass_PathName added)
    /\ (forall c, In c added ->
                  TSet_Contains UClass_eqb c (SchemaGeneratedClasses st) = false)
    /\ (forall c Rest,
          Classes = c :: Rest ->
          TSet_Contains UClass_eqb c (SchemaGeneratedClasses st) = false ->
          exists added',
            added = c :: added'
            /\ incl added' (UClass_ObjectGraph c ++ Rest ++ flat_map UClass_ObjectGraph Rest)).
Proof.
  induction Classes as [|c Classes IH]; intros Ts st.
  - exists []. simpl. rewrite !app_nil_r. conj_split.
    + now destruct st.
    + intros ? [].
    + intros ? [].
    + constructor.
    + intros ? [].
    + intros ? ? H. discriminate H.
  - simpl. destruct (TSet_Contains UClass_eqb c (SchemaGeneratedClasses st)) eqn:C.
    + destruct (IH Ts st) as (added & E & I & K & N & F & _).
      exists added. conj_split; auto.
      * intros x H. apply I in H. apply in_app_iff in H. right.
        apply in_app_iff. destruct H; [now left|].
        right. apply in_app_iff. now right.
      * intros x [<-|H]; [|auto].
        apply TSet_Contains_exists in C. destruct C as (k' & H1 & H2).
        apply TSet_Contains_exists. exists k'. split; [|exact H2].
        apply in_app_iff. now left.
      * intros c0 Rest H0 H1. injection H0 as <- <-. congruence.
    + set (st1 := set_SchemaGeneratedClasses (SchemaGeneratedClasses st ++ [c]) st).
      unfold VisitAllObjects, CreateUnrealTypeInfo at 1. cbn [TypeInfo_Type].
      destruct (VisitNestedClasses_added (UClass_ObjectGraph c)
                  (Ts ++ [CreateUnrealTypeInfo c]) st1) as (added1 & E1 & I1 & N1 & F1).
      fold (CreateUnrealTypeInfo c). rewrite E1.
      destruct (IH ((Ts ++ [CreateUnrealTypeInfo c]) ++ map CreateUnrealTypeInfo added1)
                  (set_SchemaGeneratedClasses (SchemaGeneratedClasses st1 ++ added1) st1))
        as (added2 & E2 & I2 & K2 & N2 & F2 & _).
      exists (c :: added1 ++ added2). rewrite E2.
      subst st1. cbn [SchemaGeneratedClasses set_SchemaGeneratedClasses] in *.
      conj_split.
      * f_equal.
        -- simpl. rewrite map_app, <- !app_assoc. reflexivity.
        -- unfold set_SchemaGeneratedClasses. cbn. rewrite <- !app_assoc. reflexivity.
      * intros x [<-|H]; [now left|]. right.
        apply in_app_iff in H. apply in_app_iff. destruct H as [H|H].
        -- right. simpl. apply in_app_iff. left. now apply I1.
        -- apply I2 in H. apply in_app_iff in H. destruct H; [now left|].
           right. simpl. apply in_app_iff. now right.
      * intros x [<-|H].
        -- apply TSet_Contains_exists. exists c. split; [|apply UClass_eqb_refl].
           apply in_app_iff. right. now left.
        -- specialize (K2 x H). rewrite <- !app_assoc in K2. exact K2.
      * simpl. constructor.
        -- intros H. apply in_map_iff in H. destruct H as (x & Ex & Hx).
           apply in_app_iff in Hx. destruct Hx as [Hx|Hx].
           ++ apply F1 in Hx. apply TSet_Contains_app_false in Hx.
              destruct Hx as [_ Hx]. congruence.
           ++ apply F2 in Hx. apply TSet_Contains_app_nil_false in Hx.
              destruct Hx as [Hx _]. apply TSet_Contains_app_false in Hx.
              destruct Hx as [_ Hx]. congruence.
        -- rewrite map_app. apply NoDup_app; [exact N1 | exact N2 |].
           intros p H1 H2. apply in_map_iff in H1, H2.
           destruct H1 as (x & <- & Hx), H2 as (y & Ey & Hy).
           apply F2 in Hy. apply TSet_Contains_app_nil_false in Hy.
           destruct Hy as [_ Hy]. exact (Hy x Hx (eq_sym Ey)).
      * intros x [<-|H]; [exact C|]. apply in_app_iff in H. destruct H as [H|H].
        -- apply F1 in H. now apply TSet_Contains_app_false in H.
        -- apply F2 in H. apply TSet_Contains_app_nil_false in H.
           destruct H as [H _]. now apply TSet_Contains_app_false in H.
      * intros c0 Rest H0 _. injection H0 as <- <-.
        exists (added1 ++ added2). split; [reflexivity|].
        intros x H. apply in_app_iff in H. apply in_app_iff. destruct H as [H|H].
        -- left. now apply I1.
        -- right. now apply I2.
Qed.

Lemma ResolveClassPathToSchemaName_SchemaGeneratedClasses ClassPath SchemaName st :
  SchemaGeneratedClasses (ResolveClassPathToSchemaName ClassPath SchemaName st)
  = SchemaGeneratedClasses st.
Proof.
  unfold ResolveClassPathToSchemaName.
  destruct (FString_IsEmpty SchemaName); [reflexivity|].
  match goal with |- context [if ?c then _ else _] => destruct c end; reflexivity.
Qed.

Lemma ResetUsedNames_SchemaGeneratedClasses st :
  SchemaGeneratedClasses (ResetUsedNames st) = SchemaGeneratedClasses st.
Proof.
  unfold ResetUsedNames.
  set (st0 := set_PotentialSchemaNameCollisions [] _).
  assert (H0 : SchemaGeneratedClasses st0 = SchemaGeneratedClasses st) by reflexivity.
  clearbody st0.
  assert (HA : forall l s,
             SchemaGeneratedClasses
               (fold_left
                  (fun s (Entry : FString * FActorSchemaData) =>
                     ResolveClassPathToSchemaName (fst Entry)
                       (Actor_GeneratedSchemaName (snd Entry)) s) l s)
             = SchemaGeneratedClasses s).
  { induction l as [|e l IH]; intros s; simpl; [reflexivity|].
    now rewrite IH, ResolveClassPathToSchemaName_SchemaGeneratedClasses. }
  assert (HS : forall l s,
             SchemaGeneratedClasses
               (fold_left
                  (fun s (Entry : FString * FSubobjectSchemaData) =>
                     ResolveClassPathToSchemaName (fst Entry)
                       (Subobject_GeneratedSchemaName (snd Entry)) s) l s)
             = SchemaGeneratedClasses s).
  { induction l as [|e l IH]; intros s; simpl; [reflexivity|].
    now rewrite IH, ResolveClassPathToSchemaName_SchemaGeneratedClasses. }
  now rewrite HS, HA.
Qed.

(** A run generates the type info of every class of its class set that
    was not generated before in the session, provided no other class
    object of the run shares its path. *)
Lemma CollectTypeInfos_complete (Classes : list UClass) (st : GeneratorState)
  (Class : UClass) :
  In Class Classes ->
  TSet_Contains UClass_eqb Class (SchemaGeneratedClasses st) = false ->
  (forall Other,
     In Other (Classes ++ flat_map UClass_ObjectGraph Classes) ->
     UClass_PathName Other = UClass_PathName Class -> Other = Class) ->
  In (CreateUnrealTypeInfo Class)
     (fst (CollectTypeInfos (Sort_by UClass_PathName Classes) []
             (ResetUsedNames st))).
Proof.
  intros HIn HNew HId.
  set (Sorted := Sort_by UClass_PathName Classes).
  assert (HP : Permutation Sorted Classes) by apply Sort_by_Permutation.
  destruct (CollectTypeInfos_added Sorted [] (ResetUsedNames st))
    as (added & E & I & K & _).
  rewrite E. cbn [fst]. simpl.
  rewrite ResetUsedNames_SchemaGeneratedClasses in K.
  assert (HS : In Class Sorted)
    by (eapply Permutation_in; [symmetry; exact HP | exact HIn]).
  specialize (K Class HS). rewrite TSet_Contains_app, HNew in K. cbn [orb] in K.
  apply TSet_Contains_exists in K. destruct K as (c & Hc & He).
  apply UClass_eqb_path in He.
  assert (c = Class).
  { apply HId; [|now symmetry].
    apply I in Hc. apply in_app_iff in Hc. apply in_app_iff.
    destruct Hc as [Hc|Hc].
    - left. eapply Permutation_in; eauto.
    - right. apply in_flat_map in Hc. destruct Hc as (x & Hx & Hc).
      apply in_flat_map. exists x. split; [|exact Hc].
      eapply Permutation_in; eauto. }
  subst c. now apply in_map.
Qed.

(** Every supported class of a run of [SpatialGDKGenerateSchema] has its
    type info validated, provided no other class object of the run shares
    its path. *)
Lemma RunTypeInfos_complete (env : Env) (st : GeneratorState) (Class : UClass) :
  In Class (GetAllSupportedClasses (Env_AllClasses env)) ->
  (forall Other,
     In Other (GetAllSupportedClasses (Env_AllClasses env)
               ++ flat_map UClass_ObjectGraph (GetAllSupportedClasses (Env_AllClasses env))) ->
     UClass_PathName Other = UClass_PathName Class -> Other = Class) ->
  In (CreateUnrealTypeInfo Class) (fst (RunTypeInfos env st)).
Proof.
  intros HIn HId. unfold RunTypeInfos.
  now apply CollectTypeInfos_complete.
Qed.



(** ** A property collision inside one group aborts the run *)

Lemma existsb_IsError_In (e : LogEntry) (log : list LogEntry) :
  In e log -> LogEntry_IsError e = true -> existsb LogEntry_IsError log = true.
Proof. intros H E. apply existsb_exists. now exists e. Qed.

(** C4 (amended).  When a class of the class set, not generated earlier
    in the session, has two replicated properties in the same replication
    group whose schema field names are the same (case ignored),
    [SpatialGDKGenerateSchemaForClasses] logs the collision, returns false
    and leaves the outside world as it was: no schema file is written for
    any class. *)
Theorem C4_property_collision_in_one_group_aborts_run :
  forall (Classes : list UClass) (SchemaOutputPath : FString) (env : Env)
         (st : GeneratorState) (world : World) (Class : UClass)
         (Group : EReplicatedPropertyGroup)
         (Before : list FUnrealProperty) (P1 : FUnrealProperty)
         (Between : list FUnrealProperty) (P2 : FUnrealProperty)
         (After : list FUnrealProperty),
    In Class Classes ->
    TSet_Contains UClass_eqb Class (SchemaGeneratedClasses st) = false ->
    (forall Other,
       In Other (Classes ++ flat_map UClass_ObjectGraph Classes) ->
       UClass_PathName Other = UClass_PathName Class -> Other = Class) ->
    UClass_RepData Class Group = Before ++ P1 :: Between ++ P2 :: After ->
    FString_eqb (SchemaFieldName P2) (SchemaFieldName P1) = true ->
    exists st',
      SpatialGDKGenerateSchemaForClasses Classes SchemaOutputPath env st world
      = Ok (false, st', world)
      /\ exists Existing,
           In (Error_NameCollision "Replicated property" (SchemaFieldName P2)
                 Existing (Property_PathName P2)) (Log st').
Proof.
  intros Classes Path env st world Class Group Before P1 Between P2 After
    HIn HNew HId HRep HName.
  pose proof (CollectTypeInfos_complete Classes st Class HIn HNew HId) as HT.
  unfold SpatialGDKGenerateSchemaForClasses.
  destruct (CollectTypeInfos _ _ _) as [TypeInfos st2]. cbn [fst] in HT.
  destruct (ValidateIdentifierNames_LogStep TypeInfos st2)
    as (classes & collisions & members & [L B] & _ & _ & RM).
  destruct (RM _ HT) as (RG & _ & _).
  cbn [CreateUnrealTypeInfo TypeInfo_Type] in RG.
  (* the first property of the group that has the name of P2 *)
  assert (HFirst : exists Earlier First Later,
             Before ++ P1 :: Between = Earlier ++ First :: Later
             /\ FString_eqb (SchemaFieldName P2) (SchemaFieldName First) = true
             /\ forall Other, In Other Earlier ->
                   FString_eqb (SchemaFieldName P2) (SchemaFieldName Other) = false).
  { assert (HEx : exists x, In x (Before ++ P1 :: Between)
                            /\ FString_eqb (SchemaFieldName P2) (SchemaFieldName x)
                               = true)
      by (exists P1; split; [apply in_app_iff; right; now left | exact HName]).
    clear -HEx. induction (Before ++ P1 :: Between) as [|y l IH].
    - destruct HEx as (x & [] & _).
    - destruct (FString_eqb (SchemaFieldName P2) (SchemaFieldName y)) eqn:Ey.
      + exists [], y, l. split; [reflexivity|]. split; [exact Ey | intros ? []].
      + destruct IH as (Earlier & First & Later & -> & HF & HO).
        * destruct HEx as (x & [<-|Hx] & Hx'); [congruence | now exists x].
        * exists (y :: Earlier), First, Later. split; [reflexivity|].
          split; [exact HF|]. intros Other [<-|HOther]; auto. }
  destruct HFirst as (Earlier & First & Later & HB & HF & HO).
  destruct (RG Group (Before ++ P1 :: Between) P2 After) as (_ & _ & RC).
  { rewrite HRep, <- app_assoc. reflexivity. }
  pose proof (RC Earlier First Later HB HF HO) as HLog.
  assert (HE : existsb LogEntry_IsError (classes ++ collisions ++ members) = true).
  { apply (existsb_IsError_In _ _
             (proj2 (in_app_iff _ _ _) (or_intror (proj2 (in_app_iff _ _ _) (or_intror HLog))))).
    reflexivity. }
  destruct (ValidateIdentifierNames TypeInfos st2) as [bValid st3].
  cbn [fst snd] in L, B. rewrite HE in B. cbn in B. subst bValid.
  cbn [negb bind Ok].
  exists st3. split; [reflexivity|].
  exists (Property_PathName First). rewrite L.
  apply in_app_iff. right. apply in_app_iff. right. apply in_app_iff. now right.
Qed.
(** ** Sublevels and net cull distances *)

Lemma bind_assoc {A B C : Type} (m : Result A) (f : A -> Result B)
  (g : B -> Result C) :
  bind (bind m f) g = bind m (fun a => bind (f a) g).
Proof. now destruct m. Qed.

(** Strings taken once each *)

Lemma filter_filter {A : Type} (f g : A -> bool) (l : list A) :
  filter f (filter g l) = filter (fun x => f x && g x) l.
Proof.
  induction l as [|x l IH]; simpl; [reflexivity|].
  destruct (g x); simpl; rewrite ?andb_true_r, ?andb_false_r.
  - destruct (f x); now rewrite IH.
  - exact IH.
Qed.

Lemma filter_comm {A : Type} (f g : A -> bool) (l : list A) :
  filter f (filter g l) = filter g (filter f l).
Proof.
  rewrite !filter_filter. apply filter_ext. intros x. apply andb_comm.
Qed.

Lemma TSet_Contains_filter (f : FString -> bool) (q : FString) (l : list FString) :
  (forall a b, FString_eqb a b = true -> f a = f b) ->
  TSet_Contains FString_eqb q (filter f l) = TSet_Contains FString_eqb q l && f q.
Proof.
  intros Hf. induction l as [|x l IH]; simpl; [reflexivity|].
  destruct (FString_eqb q x) eqn:E.
  - rewrite (Hf q x E). destruct (f x) eqn:F; simpl.
    + now rewrite E.
    + rewrite IH, (Hf q x E), F. apply andb_false_r.
  - destruct (f x); simpl; [rewrite E|]; exact IH.
Qed.

Lemma FString_neqb_respects (x a b : FString) :
  FString_eqb a b = true ->
  negb (FString_eqb a x) = negb (FString_eqb b x).
Proof.
  intros H. f_equal.
  apply (eqv_congr_l FString_eqb FString_eqb_sym FString_eqb_trans a b x H).
Qed.

Lemma FString_Distinct_incl (l : list FString) : incl (FString_Distinct l) l.
Proof.
  induction l as [|x l IH]; simpl; [easy|].
  intros q [<-|H]; [now left | right].
  apply filter_In in H. now apply IH.
Qed.

Lemma FString_Distinct_Contains (q : FString) (l : list FString) :
  TSet_Contains FString_eqb q (FString_Distinct l) = TSet_Contains FString_eqb q l.
Proof.
  induction l as [|x l IH]; simpl; [reflexivity|].
  rewrite TSet_Contains_filter by (intros a b; apply FString_neqb_respects).
  rewrite IH. destruct (FString_eqb q x); simpl; [reflexivity | apply andb_true_r].
Qed.

Lemma ForallOrdPairs_filter {A : Type} (R : A -> A -> Prop) (f : A -> bool)
  (l : list A) :
  ForallOrdPairs R l -> ForallOrdPairs R (filter f l).
Proof.
  induction 1 as [|x l HF HP IH]; simpl; [constructor|].
  destruct (f x); [|exact IH].
  constructor; [|exact IH].
  rewrite Forall_forall in HF |- *. intros y Hy. apply filter_In in Hy.
  now apply HF.
Qed.

Lemma FString_Distinct_apart (l : list FString) :
  ForallOrdPairs (fun p q => FString_eqb p q = false) (FString_Distinct l).
Proof.
  induction l as [|x l IH]; simpl; constructor.
  - apply Forall_forall. intros y Hy. apply filter_In in Hy.
    destruct Hy as [_ Hy]. rewrite FString_eqb_sym.
    now destruct (FString_eqb y x).
  - now apply ForallOrdPairs_filter.
Qed.

Lemma FString_Distinct_filter (f : FString -> bool) (l : list FString) :
  (forall a b, FString_eqb a b = true -> f a = f b) ->
  FString_Distinct (filter f l) = filter f (FString_Distinct l).
Proof.
  intros Hf. induction l as [|x l IH]; simpl; [reflexivity|].
  destruct (f x) eqn:F; simpl.
  - rewrite IH. f_equal. apply filter_comm.
  - rewrite IH, filter_filter. apply filter_ext_in. intros y _.
    destruct (f y) eqn:Fy; [|reflexivity]. simpl.
    destruct (FString_eqb y x) eqn:E; [|reflexivity].
    rewrite (Hf y x E) in Fy. congruence.
Qed.

Lemma ForallOrdPairs_apart_Contains (p : FString) (l : list FString) :
  Forall (fun q => FString_eqb p q = false) l ->
  TSet_Contains FString_eqb p l = false.
Proof.
  induction 1 as [|x l Hx _ IH]; simpl; [reflexivity|]. now rewrite Hx.
Qed.

(** The containers of the levels, in terms of lists *)

Lemma TMultiMap_GetKeys_Distinct (m : list (FString * FString)) :
  forall seen,
    TMultiMap_GetKeys FString_eqb m seen
    = filter (fun n => negb (TSet_Contains FString_eqb n seen))
        (FString_Distinct (map fst m)).
Proof.
  induction m as [|[k v] m IH]; intros seen; simpl; [reflexivity|].
  destruct (TSet_Contains FString_eqb k seen) eqn:C; simpl.
  - rewrite IH, filter_filter. apply filter_ext. intros y.
    destruct (FString_eqb y k) eqn:E; simpl; [|now rewrite andb_true_r].
    rewrite (FString_Contains_set_eqv y k seen E), C. reflexivity.
  - f_equal. rewrite IH, filter_comm, filter_filter. apply filter_ext.
    intros y. rewrite TSet_Contains_app. simpl.
    rewrite orb_false_r, negb_orb. apply andb_comm.
Qed.

Lemma TMultiMap_GetKeys_all (m : list (FString * FString)) :
  TMultiMap_GetKeys FString_eqb m [] = FString_Distinct (map fst m).
Proof.
  rewrite TMultiMap_GetKeys_Distinct. simpl.
  induction (FString_Distinct (map fst m)) as [|x l IH]; simpl; congruence.
Qed.

Lemma TMultiMap_MultiFind_named (k : FString) (m : list (FString * FString)) :
  TMultiMap_MultiFind FString_eqb k m = LevelPathsNamed k m.
Proof.
  unfold LevelPathsNamed. induction m as [|[k' v] m IH]; simpl; [reflexivity|].
  destruct (FString_eqb k k'); simpl; now rewrite IH.
Qed.

Lemma LevelPathsNamed_In (k v : FString) (m : list (FString * FString)) :
  In v (LevelPathsNamed k m)
  <-> exists k', In (k', v) m /\ FString_eqb k k' = true.
Proof.
  unfold LevelPathsNamed. rewrite <- in_rev, in_map_iff. split.
  - intros ([k' v'] & <- & H). apply filter_In in H. now exists k'.
  - intros (k' & H & E). exists (k', v). split; [reflexivity|].
    apply filter_In. auto.
Qed.

Lemma NumberedLevelNames_combine (LevelName : FString) (LevelPaths : list FString) :
  forall i,
    NumberedLevelNames LevelName LevelPaths i
    = map (fun Numbered =>
             ((LevelName ++ "Ind" ++ FString_FromInt (fst Numbered))%string,
              snd Numbered))
        (combine (seq i (List.length LevelPaths)) LevelPaths).
Proof.
  induction LevelPaths as [|p ps IH]; intros i; simpl; [reflexivity|].
  now rewrite IH.
Qed.

Lemma LevelDisplayNames_spec (Levels : list (FString * FString)) :
  LevelDisplayNames Levels = SublevelComponents Levels.
Proof.
  unfold LevelDisplayNames, SublevelComponents.
  rewrite TMultiMap_GetKeys_all.
  assert (H : forall k, In k (FString_Distinct (map fst Levels)) ->
                        LevelPathsNamed k Levels <> []).
  { intros k Hk. apply FString_Distinct_incl, in_map_iff in Hk.
    destruct Hk as ([k' v] & <- & Hin). simpl.
    assert (X : In v (LevelPathsNamed k' Levels)).
    { apply LevelPathsNamed_In. exists k'. split; [exact Hin|].
      apply FString_eqb_refl. }
    intros E. now rewrite E in X. }
  induction (FString_Distinct (map fst Levels)) as [|k Keys IH]; [reflexivity|].
  cbn [flat_map]. rewrite IH by (intros k' Hk'; apply H; now right).
  f_equal. unfold TMultiMap_Num, TMultiMap_FindRef.
  rewrite TMultiMap_MultiFind_named.
  specialize (H k (or_introl eq_refl)).
  destruct (LevelPathsNamed k Levels) as [|p [|q l]]; [contradiction | reflexivity |].
  change (1 <? List.length (p :: q :: l))%nat with true. cbv iota.
  apply NumberedLevelNames_combine.
Qed.

Lemma combine_seq_In {A : Type} (x : A) (l : list A) :
  forall i, In x l -> exists n, In (n, x) (combine (seq i (List.length l)) l).
Proof.
  induction l as [|y l IH]; intros i H; [destruct H|].
  destruct H as [<-|H]; simpl.
  - exists i. now left.
  - destruct (IH (S i) H) as (n & Hn). exists n. now right.
Qed.

Lemma SublevelComponents_paths (Levels : list (FString * FString)) (p : FString) :
  In p (map snd (SublevelComponents Levels)) <-> In p (map snd Levels).
Proof.
  unfold SublevelComponents. rewrite in_map_iff. split.
  - intros ([n q] & <- & H). simpl. apply in_flat_map in H.
    destruct H as (k & _ & H).
    assert (X : In q (LevelPathsNamed k Levels)).
    { destruct (LevelPathsNamed k Levels) as [|a [|b l]] eqn:E.
      - destruct H.
      - destruct H as [H|[]]. injection H as _ <-. now left.
      - apply in_map_iff in H. destruct H as ([i r] & H & Hin).
        injection H as _ <-. now apply in_combine_r in Hin. }
    apply LevelPathsNamed_In in X. destruct X as (k' & X & _).
    apply in_map_iff. now exists (k', q).
  - intros H. apply in_map_iff in H. destruct H as ([k v] & <- & H). simpl.
    assert (C : TSet_Contains FString_eqb k (FString_Distinct (map fst Levels)) = true).
    { rewrite FString_Distinct_Contains.
      apply (TSet_Contains_exists_eqv FString_eqb). exists k.
      split; [|apply FString_eqb_refl]. apply in_map_iff. now exists (k, v). }
    apply (TSet_Contains_exists_eqv FString_eqb) in C.
    destruct C as (k0 & Hk0 & E).
    assert (X : In v (LevelPathsNamed k0 Levels)).
    { apply LevelPathsNamed_In. exists k. split; [exact H|].
      now rewrite FString_eqb_sym. }
    destruct (LevelPathsNamed k0 Levels) as [|a [|b l]] eqn:EL.
    + destruct X.
    + destruct X as [->|[]]. exists (k0, v). split; [reflexivity|].
      apply in_flat_map. exists k0. split; [exact Hk0|]. rewrite EL. now left.
    + destruct (combine_seq_In v (a :: b :: l) 0 X) as (i & Hi).
      exists ((k0 ++ "Ind" ++ FString_FromInt i)%string, v). split; [reflexivity|].
      apply in_flat_map. exists k0. split; [exact Hk0|]. rewrite EL.
      exact (in_map
               (fun Numbered : nat * FString =>
                  ((k0 ++ "Ind" ++ FString_FromInt (fst Numbered))%string,
                   snd Numbered)) _ _ Hi).
Qed.

(** The two loops as one pass *)

Lemma WriteNamedLevelComponents_app (a b : list (FString * FString)) :
  forall w g st,
    WriteNamedLevelComponents (a ++ b) w g st
    = bind (WriteNamedLevelComponents a w g st)
        (fun r => WriteNamedLevelComponents b (fst (fst r)) (snd (fst r)) (snd r)).
Proof.
  induction a as [|[n p] a IH]; intros w g st; simpl; [reflexivity|].
  destruct (LevelComponentId p g st) as [e|[[id g1] st1]]; simpl; [reflexivity|].
  apply IH.
Qed.

Lemma WriteNumberedLevelComponents_named (LevelName : FString)
  (LevelPaths : list FString) :
  forall i w g st,
    WriteNumberedLevelComponents LevelName LevelPaths i w g st
    = WriteNamedLevelComponents (NumberedLevelNames LevelName LevelPaths i) w g st.
Proof.
  induction LevelPaths as [|p ps IH]; intros i w g st; simpl; [reflexivity|].
  destruct (LevelComponentId p g st) as [e|[[id g1] st1]]; simpl; [reflexivity|].
  apply IH.
Qed.

Lemma WriteLevelComponents_named (Levels : list (FString * FString))
  (Keys : list FString) :
  forall w g st,
    WriteLevelComponents Keys Levels w g st
    = WriteNamedLevelComponents
        (flat_map
           (fun LevelName =>
              if (1 <? TMultiMap_Num FString_eqb LevelName Levels)%nat
              then
                NumberedLevelNames LevelName
                  (TMultiMap_MultiFind FString_eqb LevelName Levels) 0
              else
                [(LevelName, TMultiMap_FindRef FString_eqb "None" LevelName Levels)])
           Keys) w g st.
Proof.
  induction Keys as [|k Keys IH]; intros w g st; [reflexivity|].
  cbn [WriteLevelComponents flat_map].
  rewrite WriteNamedLevelComponents_app.
  destruct (1 <? TMultiMap_Num FString_eqb k Levels)%nat.
  - rewrite WriteNumberedLevelComponents_named.
    destruct (WriteNamedLevelComponents _ w g st) as [e|[[w1 g1] st1]];
      simpl; [reflexivity | apply IH].
  - simpl.
    destruct (LevelComponentId _ g st) as [e|[[id g1] st1]];
      simpl; [reflexivity | apply IH].
Qed.

Lemma WriteLevelComponents_display (Levels : list (FString * FString)) w g st :
  WriteLevelComponents (TMultiMap_GetKeys FString_eqb Levels []) Levels w g st
  = WriteNamedLevelComponents (SublevelComponents Levels) w g st.
Proof. rewrite <- LevelDisplayNames_spec. apply WriteLevelComponents_named. Qed.

Lemma LevelComponentId_inv (LevelPath : FString) g st id g' st' :
  LevelComponentId LevelPath g st = Ok (id, g', st') ->
  let old := TMap_FindRef FString_eqb 0 LevelPath (LevelPathToComponentId st) in
  (old <> 0 /\ id = old /\ g' = g /\ st' = st)
  \/ (old = 0 /\ id = CurrentId g /\ CurrentId g' = CurrentId g + 1
      /\ CurrentId g < MAX_COMPONENT_ID
      /\ st' = set_LevelPathToComponentId
                 (TMap_Add FString_eqb LevelPath id (LevelPathToComponentId st)) st).
Proof.
  unfold LevelComponentId. cbv zeta.
  destruct (TMap_FindRef FString_eqb 0 LevelPath (LevelPathToComponentId st) =? 0) eqn:E.
  - apply Z.eqb_eq in E. intros H. right.
    destruct (FComponentIdGenerator_Next g) as [e|[n g1]] eqn:EN; [discriminate|].
    simpl in H. injection H as <- <- <-.
    apply Next_inv in EN. destruct EN as (-> & ? & ?). auto.
  - apply Z.eqb_neq in E. intros H. injection H as <- <- <-. left. auto.
Qed.


Lemma FindRef_zero_respects (Ids : list (FString * Worker_ComponentId))
  (a b : FString) :
  FString_eqb a b = true ->
  (TMap_FindRef FString_eqb 0 a Ids =? 0) = (TMap_FindRef FString_eqb 0 b Ids =? 0).
Proof. intros H. now rewrite (FString_FindRef_eqv 0 a b Ids H). Qed.

Lemma UnassignedPaths_assigned (n p : FString) (Cs : list (FString * FString))
  (Ids : list (FString * Worker_ComponentId)) :
  TMap_FindRef FString_eqb 0 p Ids <> 0 ->
  UnassignedPaths ((n, p) :: Cs) Ids = UnassignedPaths Cs Ids.
Proof.
  intros H. unfold UnassignedPaths. simpl.
  now destruct (Z.eqb_spec (TMap_FindRef FString_eqb 0 p Ids) 0).
Qed.

Lemma UnassignedPaths_minted (n p : FString) (Cs : list (FString * FString))
  (Ids : list (FString * Worker_ComponentId)) (id : Worker_ComponentId) :
  TMap_FindRef FString_eqb 0 p Ids = 0 ->
  id <> 0 ->
  UnassignedPaths ((n, p) :: Cs) Ids
  = p :: UnassignedPaths Cs (TMap_Add FString_eqb p id Ids).
Proof.
  intros H Hid. unfold UnassignedPaths. simpl. rewrite H. simpl. f_equal.
  rewrite <- FString_Distinct_filter
    by (intros a b; apply FString_neqb_respects).
  rewrite filter_filter. f_equal. apply filter_ext. intros q.
  destruct (FString_eqb q p) eqn:E; simpl.
  - rewrite (FString_FindRef_Add_same 0 q p id Ids E).
    symmetry. now apply Z.eqb_neq.
  - now rewrite (FString_FindRef_Add_other 0 q p id Ids E).
Qed.

Lemma UnassignedPaths_Contains (p : FString) (Cs : list (FString * FString))
  (Ids : list (FString * Worker_ComponentId)) :
  TSet_Contains FString_eqb p (UnassignedPaths Cs Ids)
  = TSet_Contains FString_eqb p (map snd Cs)
    && (TMap_FindRef FString_eqb 0 p Ids =? 0).
Proof.
  unfold UnassignedPaths. rewrite FString_Distinct_Contains.
  apply TSet_Contains_filter. apply FindRef_zero_respects.
Qed.

Lemma TSet_Contains_same_elements (p : FString) (a b : list FString) :
  (forall x, In x a <-> In x b) ->
  TSet_Contains FString_eqb p a = TSet_Contains FString_eqb p b.
Proof.
  intros H.
  destruct (TSet_Contains FString_eqb p a) eqn:A,
           (TSet_Contains FString_eqb p b) eqn:B; try reflexivity.
  - apply (TSet_Contains_exists_eqv FString_eqb) in A.
    destruct A as (k & Hk & E).
    assert (X : TSet_Contains FString_eqb p b = true).
    { apply (TSet_Contains_exists_eqv FString_eqb). exists k.
      split; [now apply H | exact E]. }
    congruence.
  - apply (TSet_Contains_exists_eqv FString_eqb) in B.
    destruct B as (k & Hk & E).
    assert (X : TSet_Contains FString_eqb p a = true).
    { apply (TSet_Contains_exists_eqv FString_eqb). exists k.
      split; [now apply H | exact E]. }
    congruence.
Qed.

(** The pass mints one id for each path that has none, once whatever its
    case, in order of first occurrence, and changes nothing else. *)
Lemma WriteNamedLevelComponents_inv (Components : list (FString * FString)) :
  forall w g st w' g' st',
    0 < CurrentId g ->
    WriteNamedLevelComponents Components w g st = Ok (w', g', st') ->
    CurrentId g'
    = CurrentId g
      + Z.of_nat (List.length (UnassignedPaths Components (LevelPathToComponentId st)))
    /\ (forall i p,
          nth_error (UnassignedPaths Components (LevelPathToComponentId st)) i
          = Some p ->
          TMap_Find FString_eqb p (LevelPathToComponentId st')
          = Some (CurrentId g + Z.of_nat i))
    /\ (forall p,
          TSet_Contains FString_eqb p
            (UnassignedPaths Components (LevelPathToComponentId st)) = false ->
          TMap_Find FString_eqb p (LevelPathToComponentId st')
          = TMap_Find FString_eqb p (LevelPathToComponentId st))
    /\ st' = set_LevelPathToComponentId (LevelPathToComponentId st') st
    /\ w' = SublevelsText Components
              (fun p => TMap_FindRef FString_eqb 0 p (LevelPathToComponentId st')) w.
Proof.
  induction Components as [|[n p] Cs IH]; intros w g st w' g' st' HN H.
  - injection H as <- <- <-. conj_split.
    + simpl. lia.
    + intros [|i] q E; discriminate.
    + reflexivity.
    + now destruct st.
    + reflexivity.
  - simpl in H.
    destruct (LevelComponentId p g st) as [e|[[id g1] st1]] eqn:E; [discriminate|].
    simpl in H. apply LevelComponentId_inv in E. cbv zeta in E.
    destruct E as [(Hold & -> & -> & ->)|(Hold & -> & Hg1 & Hmax & ->)].
    + destruct (IH _ _ _ _ _ _ HN H) as (HC & HI & HU & HS & HW).
      rewrite (UnassignedPaths_assigned n p Cs _ Hold).
      assert (Hp : TSet_Contains FString_eqb p
                     (UnassignedPaths Cs (LevelPathToComponentId st)) = false).
      { rewrite UnassignedPaths_Contains.
        destruct (Z.eqb_spec
                    (TMap_FindRef FString_eqb 0 p (LevelPathToComponentId st)) 0);
          [contradiction | apply andb_false_r]. }
      conj_split; auto.
      rewrite HW. unfold SublevelsText. simpl. do 2 f_equal.
      unfold TMap_FindRef. now rewrite (HU p Hp).
    + assert (HN1 : 0 < CurrentId g1) by lia.
      assert (Hid : CurrentId g <> 0) by lia.
      destruct (IH _ _ _ _ _ _ HN1 H) as (HC & HI & HU & HS & HW).
      cbn [LevelPathToComponentId set_LevelPathToComponentId] in HC, HI, HU, HS.
      rewrite (UnassignedPaths_minted n p Cs _ (CurrentId g) Hold Hid).
      assert (Hp : TSet_Contains FString_eqb p
                     (UnassignedPaths Cs
                        (TMap_Add FString_eqb p (CurrentId g)
                           (LevelPathToComponentId st))) = false).
      { rewrite UnassignedPaths_Contains.
        rewrite (FString_FindRef_Add_same 0 p p _ _ (FString_eqb_refl p)).
        destruct (Z.eqb_spec (CurrentId g) 0); [contradiction | apply andb_false_r]. }
      assert (Hfind : TMap_Find FString_eqb p (LevelPathToComponentId st')
                      = Some (CurrentId g)).
      { rewrite (HU p Hp). apply FString_Find_Add_same, FString_eqb_refl. }
      conj_split.
      * rewrite HC, Hg1. simpl List.length. lia.
      * intros [|i] q Hq; simpl in Hq.
        -- injection Hq as <-. rewrite Hfind. f_equal. lia.
        -- rewrite (HI i q Hq). f_equal. lia.
      * intros q Hq. simpl in Hq. apply orb_false_iff in Hq.
        destruct Hq as [Hq1 Hq2]. rewrite (HU q Hq2).
        now apply FString_Find_Add_other.
      * rewrite HS at 1. reflexivity.
      * rewrite HW. unfold SublevelsText. simpl. do 2 f_equal.
        unfold TMap_FindRef. now rewrite Hfind.
Qed.

Lemma WriteNamedLevelComponents_total (Components : list (FString * FString)) :
  forall w g st,
    CurrentId g + Z.of_nat (List.length Components) <= MAX_COMPONENT_ID ->
    exists r, WriteNamedLevelComponents Components w g st = Ok r.
Proof.
  induction Components as [|[n p] Cs IH]; intros w g st H.
  - now eexists.
  - simpl. unfold LevelComponentId.
    destruct (TMap_FindRef FString_eqb 0 p (LevelPathToComponentId st) =? 0).
    + rewrite Next_total by (simpl List.length in H; lia). simpl.
      apply IH. simpl in *. lia.
    + simpl. apply IH. simpl in *. lia.
Qed.

(** The text of the two files, line by line *)

Lemma WriteLevelComponent_lines (w : FCodeWriter) (Name : FString)
  (Id : Worker_ComponentId) (LevelPath : FString) :
  Writer_Scope w = 0%nat ->
  Writer_Scope (WriteLevelComponent w Name Id LevelPath) = 0%nat
  /\ Writer_Output (WriteLevelComponent w Name Id LevelPath)
     = Writer_Output w
       ++ [(0%nat, "");
           (0%nat, "// " ++ LevelPath);
           (0%nat, "component " ++ UnrealNameToSchemaComponentName Name ++ " {");
           (1%nat, "id = " ++ FString_FromId Id ++ ";");
           (0%nat, "}")]%string.
Proof.
  intros H. unfold WriteLevelComponent, Writer_PrintNewLine, Writer_Print,
    Writer_Indent, Writer_Outdent. cbn. rewrite H. split; [reflexivity|].
  rewrite <- !app_assoc. reflexivity.
Qed.

Lemma SublevelsText_lines (Components : list (FString * FString))
  (Ids : FString -> Worker_ComponentId) :
  forall w,
    Writer_Scope w = 0%nat ->
    Writer_Output (SublevelsText Components Ids w)
    = Writer_Output w
      ++ flat_map
           (fun Component =>
              [(0%nat, "");
               (0%nat, "// " ++ snd Component);
               (0%nat,
                "component " ++ UnrealNameToSchemaComponentName (fst Component)
                ++ " {");
               (1%nat, "id = " ++ FString_FromId (Ids (snd Component)) ++ ";");
               (0%nat, "}")]%string)
           Components.
Proof.
  induction Components as [|[n p] Cs IH]; intros w H; simpl.
  - now rewrite app_nil_r.
  - destruct (WriteLevelComponent_lines w n (Ids p) p H) as [HS HO].
    unfold SublevelsText in IH |- *. cbn [fold_left fst snd].
    rewrite (IH _ HS), HO, <- app_assoc. reflexivity.
Qed.

Lemma SublevelsText_file (Components : list (FString * FString))
  (Ids : FString -> Worker_ComponentId) :
  Writer_Output (SublevelsText Components Ids SublevelsHeader)
  = SublevelsFile Components Ids.
Proof. now rewrite SublevelsText_lines. Qed.

Lemma NCDText_lines (Entries : list (float * Worker_ComponentId)) :
  forall w,
    Writer_Scope w = 0%nat ->
    Writer_Output (NCDText Entries w)
    = Writer_Output w
      ++ flat_map
           (fun Entry =>
              [(0%nat, "");
               (0%nat, "// distance " ++ NCDKeyAsText (fst Entry));
               (0%nat,
                "component "
                ++ UnrealNameToSchemaComponentName
                     ("NetCullDistanceSquared" ++ NCDKeyAsInteger (fst Entry))
                ++ " {");
               (1%nat, "id = " ++ FString_FromId (snd Entry) ++ ";");
               (0%nat, "}")]%string)
           Entries.
Proof.
  induction Entries as [|[k v] Es IH]; intros w H; simpl.
  - now rewrite app_nil_r.
  - unfold NCDText in IH |- *. cbn [fold_left fst snd].
    rewrite IH.
    + unfold Writer_PrintNewLine, Writer_Print, Writer_Indent, Writer_Outdent.
      cbn. rewrite H, <- !app_assoc. reflexivity.
    + unfold Writer_PrintNewLine, Writer_Print, Writer_Indent, Writer_Outdent.
      cbn. exact H.
Qed.

Lemma NCDText_file (Entries : list (float * Worker_ComponentId)) :
  Writer_Output (NCDText Entries NCDHeader) = NCDFile Entries.
Proof. now rewrite NCDText_lines. Qed.

Lemma Writer_WriteToFile_content (FileName : FString) (w : FCodeWriter)
  (env : Env) (world world' : World) :
  Writer_WriteToFile FileName w env world = Ok world' ->
  TMap_Find String.eqb FileName (World_SchemaFiles world') = Some (Writer_Output w).
Proof.
  intros H. apply Writer_WriteToFile_inv in H. destruct H as (_ & ->). simpl.
  apply (TMap_Find_Add_eq _ String_eqb_reflect).
Qed.

Lemma Writer_WriteToFile_total (FileName : FString) (w : FCodeWriter)
  (env : Env) (world : World) :
  Env_WriteToFile env FileName = true ->
  exists world', Writer_WriteToFile FileName w env world = Ok world'.
Proof. intros H. unfold Writer_WriteToFile. rewrite H. now eexists. Qed.

Lemma WriteNCDComponents_inv (Entries : list (float * Worker_ComponentId)) :
  forall w g Entries' w' g',
    WriteNCDComponents Entries w g = Ok (Entries', w', g') ->
    map fst Entries' = map fst Entries
    /\ CurrentId g' = CurrentId g + Z.of_nat (UnassignedCount Entries)
    /\ (forall i Key Value,
          nth_error Entries i = Some (Key, Value) ->
          nth_error Entries' i
          = Some (Key,
                  if Value =? 0
                  then CurrentId g + Z.of_nat (UnassignedCount (firstn i Entries))
                  else Value))
    /\ w' = NCDText Entries' w.
Proof.
  induction Entries as [|[k v] Es IH]; intros w g Entries' w' g' H.
  - injection H as <- <- <-. conj_split; try reflexivity.
    + unfold UnassignedCount. simpl. lia.
    + intros [|i] ? ? E; discriminate.
  - cbn [WriteNCDComponents] in H. cbv zeta in H.
    destruct (if v =? 0 then FComponentIdGenerator_Next g else Ok (v, g))
      as [e|[v1 g1]] eqn:EV; [discriminate|].
    cbn [bind] in H.
    match type of H with
    | bind (WriteNCDComponents Es ?w0 g1) _ = _ =>
        destruct (WriteNCDComponents Es w0 g1) as [e|[[Es1 w1] g2]] eqn:ER;
        [discriminate|]
    end.
    cbn [bind] in H. injection H as <- <- <-.
    destruct (IH _ _ _ _ _ ER) as (HK & HC & HV & HW).
    assert (HG : v1 = (if v =? 0 then CurrentId g else v)
                 /\ CurrentId g1
                    = CurrentId g + (if v =? 0 then 1 else 0)).
    { destruct (v =? 0).
      - apply Next_inv in EV. destruct EV as (-> & -> & _). split; lia.
      - injection EV as <- <-. split; lia. }
    destruct HG as [-> HG1]. conj_split.
    + simpl. now rewrite HK.
    + rewrite HC, HG1. unfold UnassignedCount. simpl.
      destruct (v =? 0); simpl List.length; lia.
    + intros [|i] Key Value E; simpl in E.
      * injection E as <- <-. simpl. f_equal. f_equal.
        destruct (v =? 0); [|reflexivity]. unfold UnassignedCount. simpl. lia.
      * simpl. rewrite (HV i Key Value E). do 2 f_equal.
        destruct (Value =? 0); [|reflexivity].
        rewrite HG1. unfold UnassignedCount. simpl.
        destruct (v =? 0); simpl List.length; lia.
    + rewrite HW. reflexivity.
Qed.

Lemma WriteNCDComponents_total (Entries : list (float * Worker_ComponentId)) :
  forall w g,
    CurrentId g + Z.of_nat (List.length Entries) <= MAX_COMPONENT_ID ->
    exists r, WriteNCDComponents Entries w g = Ok r.
Proof.
  induction Entries as [|[k v] Es IH]; intros w g H.
  - now eexists.
  - cbn [WriteNCDComponents]. cbv zeta. simpl List.length in H.
    destruct (v =? 0).
    + rewrite Next_total by lia. unfold Ok. cbn [bind].
      match goal with
      | |- context [WriteNCDComponents Es ?w0 ?g0] =>
          destruct (IH w0 g0) as ([[Es1 w1] g2] & E); [simpl; lia|]
      end.
      rewrite E. unfold Ok. cbn [bind]. now eexists.
    + unfold Ok. cbn [bind].
      match goal with
      | |- context [WriteNCDComponents Es ?w0 ?g0] =>
          destruct (IH w0 g0) as ([[Es1 w1] g2] & E); [lia|]
      end.
      rewrite E. unfold Ok. cbn [bind]. now eexists.
Qed.


(** C9.  [GenerateSchemaForSublevels], started from a positive counter,
    returns when the ids suffice and the file can be written, and then:
    the level paths without a non-zero id, each once whatever its case
    and in the order of the file ([UnassignedPaths]), are pairwise
    different and are exactly the given paths that had no id; they got
    consecutive new ids from the counter on, one each, and the counter
    advanced by their number; every other key of the map keeps the entry
    it had, so an id assigned before is reused and the map stays keyed by
    level path.  The file holds, after its three header lines, five lines
    per component of [SublevelComponents]: a level name held by one path
    under that name, a level name held by several paths under
    [<LevelName>Ind<i>], counting from the path added last, each with the
    id its path has in the map.  [GenerateSchemaForNCDs] keeps the keys
    of the distance map, keeps every non-zero id and gives the entries
    without id consecutive new ids, one each, which are the ids in the
    lines of its file. *)
Theorem C9_one_id_per_level_path_and_distance :
  forall (SchemaOutputPath : FString) (LevelNamesToPaths : list (FString * FString))
         (env : Env) (st : GeneratorState) (world : World),
    0 < NextAvailableComponentId st ->
    (NextAvailableComponentId st
     + Z.of_nat (List.length (SublevelComponents LevelNamesToPaths))
     <= MAX_COMPONENT_ID ->
     Env_WriteToFile env (SchemaOutputPath ++ "Sublevels/sublevels.schema")%string
     = true ->
     exists r,
       GenerateSchemaForSublevels SchemaOutputPath LevelNamesToPaths env st world
       = Ok r)
    /\ (forall st' world',
          GenerateSchemaForSublevels SchemaOutputPath LevelNamesToPaths env st world
          = Ok (st', world') ->
          ForallOrdPairs
            (fun LevelPath1 LevelPath2 => FString_eqb LevelPath1 LevelPath2 = false)
            (UnassignedPaths (SublevelComponents LevelNamesToPaths)
               (LevelPathToComponentId st))
          /\ (forall p,
                TSet_Contains FString_eqb p
                  (UnassignedPaths (SublevelComponents LevelNamesToPaths)
                     (LevelPathToComponentId st))
                = TSet_Contains FString_eqb p (map snd LevelNamesToPaths)
                  && (TMap_FindRef FString_eqb 0 p (LevelPathToComponentId st) =? 0))
          /\ NextAvailableComponentId st'
             = NextAvailableComponentId st
               + Z.of_nat
                   (List.length
                      (UnassignedPaths (SublevelComponents LevelNamesToPaths)
                         (LevelPathToComponentId st)))
          /\ (forall i p,
                nth_error
                  (UnassignedPaths (SublevelComponents LevelNamesToPaths)
                     (LevelPathToComponentId st)) i
                = Some p ->
                TMap_Find FString_eqb p (LevelPathToComponentId st')
                = Some (NextAvailableComponentId st + Z.of_nat i))
          /\ (forall p,
                TSet_Contains FString_eqb p
                  (UnassignedPaths (SublevelComponents LevelNamesToPaths)
                     (LevelPathToComponentId st))
                = false ->
                TMap_Find FString_eqb p (LevelPathToComponentId st')
                = TMap_Find FString_eqb p (LevelPathToComponentId st))
          /\ TMap_Find String.eqb
               (SchemaOutputPath ++ "Sublevels/sublevels.schema")%string
               (World_SchemaFiles world')
             = Some
                 (SublevelsFile (SublevelComponents LevelNamesToPaths)
                    (fun p =>
                       TMap_FindRef FString_eqb 0 p (LevelPathToComponentId st'))))
    /\ (NextAvailableComponentId st
        + Z.of_nat (List.length (NetCullDistanceToComponentId st))
        <= MAX_COMPONENT_ID ->
        Env_WriteToFile env
          (SchemaOutputPath ++ "NetCullDistance/ncdcomponents.schema")%string
        = true ->
        exists r, GenerateSchemaForNCDs SchemaOutputPath env st world = Ok r)
    /\ (forall st' world',
          GenerateSchemaForNCDs SchemaOutputPath env st world = Ok (st', world') ->
          map fst (NetCullDistanceToComponentId st')
          = map fst (NetCullDistanceToComponentId st)
          /\ NextAvailableComponentId st'
             = NextAvailableComponentId st
               + Z.of_nat (UnassignedCount (NetCullDistanceToComponentId st))
          /\ (forall i Key Value,
                nth_error (NetCullDistanceToComponentId st) i = Some (Key, Value) ->
                nth_error (NetCullDistanceToComponentId st') i
                = Some (Key,
                        if Value =? 0
                        then NextAvailableComponentId st
                             + Z.of_nat
                                 (UnassignedCount
                                    (firstn i (NetCullDistanceToComponentId st)))
                        else Value))
          /\ TMap_Find String.eqb
               (SchemaOutputPath ++ "NetCullDistance/ncdcomponents.schema")%string
               (World_SchemaFiles world')
             = Some (NCDFile (NetCullDistanceToComponentId st'))).
Proof.
  intros Path Levels env st world HN. conj_split.
  - intros HB HF. unfold GenerateSchemaForSublevels.
    rewrite WriteLevelComponents_display.
    destruct (WriteNamedLevelComponents_total (SublevelComponents Levels)
                SublevelsHeader (mkGenerator (NextAvailableComponentId st)) st HB)
      as ([[w g] st1] & E).
    destruct (Writer_WriteToFile_total _ w env world HF) as (world1 & EW).
    unfold Ok in *. rewrite E. cbn [bind]. rewrite EW. cbn [bind]. now eexists.
  - intros st' world' H. unfold GenerateSchemaForSublevels in H.
    rewrite WriteLevelComponents_display in H.
    destruct (WriteNamedLevelComponents (SublevelComponents Levels) SublevelsHeader
                (mkGenerator (NextAvailableComponentId st)) st)
      as [e|[[w g] st1]] eqn:E; [discriminate|].
    cbn [bind] in H.
    destruct (Writer_WriteToFile _ w env world) as [e|world1] eqn:EW;
      [discriminate|].
    cbn [bind] in H. injection H as <- <-.
    apply WriteNamedLevelComponents_inv in E; [|exact HN].
    destruct E as (HC & HI & HU & HS & HW).
    cbn [CurrentId] in *. conj_split; auto.
    + apply FString_Distinct_apart.
    + intros p. rewrite UnassignedPaths_Contains. f_equal.
      apply TSet_Contains_same_elements. apply SublevelComponents_paths.
    + rewrite (Writer_WriteToFile_content _ _ _ _ _ EW), HW.
      now rewrite SublevelsText_file.
  - intros HB HF. unfold GenerateSchemaForNCDs.
    destruct (WriteNCDComponents_total (NetCullDistanceToComponentId st) NCDHeader
                (mkGenerator (NextAvailableComponentId st)) HB)
      as ([[Es w] g] & E).
    destruct (Writer_WriteToFile_total _ w env world HF) as (world1 & EW).
    unfold Ok in *. rewrite E. cbn [bind]. rewrite EW. cbn [bind]. now eexists.
  - intros st' world' H. unfold GenerateSchemaForNCDs in H.
    destruct (WriteNCDComponents (NetCullDistanceToComponentId st) NCDHeader
                (mkGenerator (NextAvailableComponentId st)))
      as [e|[[Es w] g]] eqn:E; [discriminate|].
    cbn [bind] in H.
    destruct (Writer_WriteToFile _ w env world) as [e|world1] eqn:EW;
      [discriminate|].
    cbn [bind] in H. injection H as <- <-.
    apply WriteNCDComponents_inv in E.
    destruct E as (HK & HC & HV & HW). cbn [CurrentId] in *.
    conj_split; auto.
    rewrite (Writer_WriteToFile_content _ _ _ _ _ EW), HW.
    now rewrite NCDText_file.
Qed.
(** ** Class names: the search for an unused schema name *)

Lemma FindUnusedSchemaName_spec (Names : list (FString * FString))
  (ClassName : FString) (Fuel : nat) :
  forall SchemaName Suffix,
    let r := FindUnusedSchemaName Fuel Names ClassName SchemaName Suffix in
    (TMap_Contains FString_eqb r Names = false
     /\ ((r = SchemaName /\ TMap_Contains FString_eqb SchemaName Names = false)
         \/ (TMap_Contains FString_eqb SchemaName Names = true
             /\ exists j, (Suffix < j)%nat
                          /\ r = (UnrealNameToSchemaName ClassName false
                                  ++ FString_FromInt j)%string)))
    \/ (TMap_Contains FString_eqb SchemaName Names = true
        /\ forall j, (Suffix < j < Suffix + Fuel)%nat ->
                     TMap_Contains FString_eqb
                       (UnrealNameToSchemaName ClassName false
                        ++ FString_FromInt j)%string Names = true).
Proof.
  induction Fuel as [|Fuel IH]; intros SchemaName Suffix; cbv zeta.
  - simpl. destruct (TMap_Contains FString_eqb SchemaName Names) eqn:C.
    + right. split; [reflexivity|]. intros j Hj. lia.
    + left. split; [now rewrite ?C|]. left. split; [reflexivity | now rewrite ?C].
  - simpl. destruct (TMap_Contains FString_eqb SchemaName Names) eqn:C.
    + specialize (IH (UnrealNameToSchemaName ClassName false
                      ++ FString_FromInt (S Suffix))%string (S Suffix)).
      cbv zeta in IH.
      destruct IH as [(NC & [(E & _)|(_ & j & Hj & E)])|(C' & HA)].
      * left. split; [exact NC|]. right. split; [reflexivity|].
        exists (S Suffix). split; [lia | exact E].
      * left. split; [exact NC|]. right. split; [reflexivity|].
        exists j. split; [lia | exact E].
      * right. split; [reflexivity|]. intros j Hj.
        destruct (Nat.eq_dec j (S Suffix)) as [->|NE]; [exact C'|].
        apply HA. lia.
    + left. split; [now rewrite ?C|]. left. split; [reflexivity | now rewrite ?C].
Qed.

Lemma suffixed_names_NoDup (Base : FString) (start len : nat) :
  NoDup (map (fun j => FString_ToLower (Base ++ FString_FromInt j)%string)
           (seq start len)).
Proof.
  apply Finite.Injective_map_NoDup; [|apply seq_NoDup].
  intros a b E. apply FString_eqb_ToLower in E.
  apply (FString_eqb_suffix_inj Base Base a b (FString_eqb_refl Base) E).
Qed.

Lemma TMap_Contains_ToLower {V : Type} (k : FString) (m : list (FString * V)) :
  TMap_Contains FString_eqb k m = true ->
  In (FString_ToLower k) (map FString_ToLower (TMap_Keys m)).
Proof.
  unfold TMap_Contains. destruct (TMap_Find FString_eqb k m) as [v|] eqn:E;
    [|discriminate].
  intros _. apply (TMap_Find_Some_In FString_eqb) in E.
  destruct E as (k' & Hin & Hk). apply FString_eqb_ToLower in Hk. rewrite Hk.
  apply in_map. unfold TMap_Keys. apply in_map_iff. now exists (k', v).
Qed.

(** The fuel [ValidateClassName] gives the search is enough: the name it
    finds is held by no class. *)
Lemma FindUnusedSchemaName_unused (Names : list (FString * FString))
  (ClassName SchemaName : FString) :
  let r :=
    FindUnusedSchemaName (S (S (List.length Names))) Names ClassName SchemaName 0 in
  TMap_Contains FString_eqb r Names = false
  /\ ((r = SchemaName /\ TMap_Contains FString_eqb SchemaName Names = false)
      \/ (TMap_Contains FString_eqb SchemaName Names = true
          /\ exists j, (0 < j)%nat
                       /\ r = (UnrealNameToSchemaName ClassName false
                               ++ FString_FromInt j)%string)).
Proof.
  cbv zeta.
  destruct (FindUnusedSchemaName_spec Names ClassName (S (S (List.length Names)))
              SchemaName 0%nat) as [H|[_ H]]; [exact H | exfalso].
  set (Base := UnrealNameToSchemaName ClassName false) in *.
  set (l := map (fun j => FString_ToLower (Base ++ FString_FromInt j)%string)
                (seq 1 (S (List.length Names)))).
  assert (HI : incl l (map FString_ToLower (TMap_Keys Names))).
  { intros x Hx. subst l. apply in_map_iff in Hx. destruct Hx as (j & <- & Hj).
    apply in_seq in Hj. apply TMap_Contains_ToLower. apply H. lia. }
  pose proof (NoDup_incl_length (suffixed_names_NoDup Base 1 (S (List.length Names))) HI)
    as HL.
  unfold TMap_Keys in HL. rewrite !length_map, length_seq in HL. lia.
Qed.
(** ** Class names: what one class adds to the tables *)

Lemma SameDatabase_refl st : SameDatabase st st.
Proof. unfold SameDatabase. auto 10. Qed.

Lemma SameDatabase_trans st1 st2 st3 :
  SameDatabase st1 st2 -> SameDatabase st2 st3 -> SameDatabase st1 st3.
Proof. unfold SameDatabase. intuition congruence. Qed.

Lemma NamesPersist_refl st : NamesPersist st st.
Proof. unfold NamesPersist. auto. Qed.

Lemma NamesPersist_trans st1 st2 st3 :
  NamesPersist st1 st2 -> NamesPersist st2 st3 -> NamesPersist st1 st3.
Proof. unfold NamesPersist. intros (A & B & C) (A' & B' & C'). auto 10. Qed.

Lemma CheckSchemaNameValidity_fields Name Identifier Category st :
  let st' := snd (CheckSchemaNameValidity Name Identifier Category st) in
  ClassPathToSchemaName st' = ClassPathToSchemaName st
  /\ SchemaNameToClassPath st' = SchemaNameToClassPath st
  /\ PotentialSchemaNameCollisions st' = PotentialSchemaNameCollisions st
  /\ SchemaGeneratedClasses st' = SchemaGeneratedClasses st
  /\ SameDatabase st st'.
Proof.
  unfold CheckSchemaNameValidity, SameDatabase.
  destruct (FString_IsEmpty Name); [simpl; auto 12|].
  destruct (FString_StartsWithDigit Name); simpl; auto 12.
Qed.

Lemma AddPotentialNameCollision_fields d c g st :
  let st' := AddPotentialNameCollision d c g st in
  ClassPathToSchemaName st' = ClassPathToSchemaName st
  /\ SchemaNameToClassPath st' = SchemaNameToClassPath st
  /\ SchemaGeneratedClasses st' = SchemaGeneratedClasses st
  /\ SameDatabase st st'
  /\ (forall k e,
        TSet_Contains FString_eqb e
          (TMap_FindRef FString_eqb [] k (PotentialSchemaNameCollisions st)) = true ->
        TSet_Contains FString_eqb e
          (TMap_FindRef FString_eqb [] k (PotentialSchemaNameCollisions st')) = true)
  /\ (forall k,
        FString_eqb k d = true ->
        TSet_Contains FString_eqb (CollisionEntry c g)
          (TMap_FindRef FString_eqb [] k (PotentialSchemaNameCollisions st')) = true).
Proof.
  unfold AddPotentialNameCollision, SameDatabase. cbv zeta. simpl. conj_split; auto.
  - intros k e H. rewrite FString_FindRef_FindOrAdd.
    destruct (FString_eqb k d) eqn:E; [|exact H].
    rewrite FString_Contains_Emplace.
    rewrite (FString_FindRef_eqv [] k d _ E) in H. rewrite H. apply orb_true_r.
  - intros k E. rewrite FString_FindRef_FindOrAdd, E, FString_Contains_Emplace.
    unfold CollisionEntry. now rewrite FString_eqb_refl.
Qed.

Lemma TMap_Contains_Find_None {V : Type} (k : FString) (m : list (FString * V)) :
  TMap_Contains FString_eqb k m = false <-> TMap_Find FString_eqb k m = None.
Proof.
  unfold TMap_Contains. destruct (TMap_Find FString_eqb k m); split; congruence.
Qed.

Lemma TMap_Contains_Find_Some {V : Type} (k : FString) (v : V)
  (m : list (FString * V)) :
  TMap_Find FString_eqb k m = Some v -> TMap_Contains FString_eqb k m = true.
Proof. unfold TMap_Contains. now intros ->. Qed.

(** What [ValidateClassName] does to the tables: nothing when the class
    path already has a schema name; otherwise the class gets a name no
    class holds, which is the desired name when that is free and a
    suffixed name when it is taken, and is entered in the collision table
    under the desired name. *)
Lemma ValidateClassName_names (TypeInfo : FUnrealType) b st :
  let st' := snd (ValidateClassName TypeInfo b st) in
  let ClassPath := UClass_PathName (TypeInfo_Type TypeInfo) in
  let ClassName := UClass_Name (TypeInfo_Type TypeInfo) in
  let Desired := UnrealNameToSchemaName ClassName true in
  SameDatabase st st'
  /\ SchemaGeneratedClasses st' = SchemaGeneratedClasses st
  /\ NamesPersist st st'
  /\ (forall p, TMap_Contains FString_eqb p (ClassPathToSchemaName st') = true ->
                TMap_Contains FString_eqb p (ClassPathToSchemaName st) = true
                \/ FString_eqb p ClassPath = true)
  /\ (forall n, TMap_Contains FString_eqb n (SchemaNameToClassPath st') = true ->
                TMap_Contains FString_eqb n (SchemaNameToClassPath st) = true
                \/ exists r,
                     TMap_Contains FString_eqb ClassPath (ClassPathToSchemaName st) = false
                     /\ TMap_Find FString_eqb ClassPath (ClassPathToSchemaName st')
                        = Some r
                     /\ FString_eqb n r = true)
  /\ (TMap_Contains FString_eqb ClassPath (ClassPathToSchemaName st) = true ->
      ClassPathToSchemaName st' = ClassPathToSchemaName st
      /\ SchemaNameToClassPath st' = SchemaNameToClassPath st
      /\ PotentialSchemaNameCollisions st' = PotentialSchemaNameCollisions st)
  /\ (TMap_Contains FString_eqb ClassPath (ClassPathToSchemaName st) = false ->
      exists r,
        TMap_Find FString_eqb ClassPath (ClassPathToSchemaName st') = Some r
        /\ TMap_Find FString_eqb r (SchemaNameToClassPath st') = Some ClassPath
        /\ TMap_Contains FString_eqb r (SchemaNameToClassPath st) = false
        /\ ((r = Desired
             /\ TMap_Contains FString_eqb Desired (SchemaNameToClassPath st) = false)
            \/ (TMap_Contains FString_eqb Desired (SchemaNameToClassPath st) = true
                /\ exists j, (0 < j)%nat
                             /\ r = (UnrealNameToSchemaName ClassName false
                                     ++ FString_FromInt j)%string))
        /\ TSet_Contains FString_eqb (CollisionEntry ClassPath r)
             (TMap_FindRef FString_eqb [] Desired (PotentialSchemaNameCollisions st'))
           = true
        /\ ClassPathToSchemaName st'
           = TMap_Add FString_eqb ClassPath r (ClassPathToSchemaName st)
        /\ SchemaNameToClassPath st'
           = TMap_Add FString_eqb r ClassPath (SchemaNameToClassPath st)).
Proof.
  cbv zeta. unfold ValidateClassName.
  pose proof (CheckSchemaNameValidity_fields
                (UnrealNameToSchemaName (UClass_Name (TypeInfo_Type TypeInfo)) true)
                (UClass_PathName (TypeInfo_Type TypeInfo)) "Class" st) as HF.
  destruct (CheckSchemaNameValidity _ _ _ st) as [bValid st1].
  cbv zeta in HF. cbn [snd] in HF. destruct HF as (F1 & F2 & F3 & F4 & F5).
  set (ClassPath := UClass_PathName (TypeInfo_Type TypeInfo)) in *.
  set (ClassName := UClass_Name (TypeInfo_Type TypeInfo)) in *.
  set (Desired := UnrealNameToSchemaName ClassName true) in *.
  rewrite F1.
  destruct (TMap_Contains FString_eqb ClassPath (ClassPathToSchemaName st)) eqn:C;
    cbn [snd].
  - conj_split; auto.
    + unfold NamesPersist. rewrite F1, F2, F3. auto.
    + intros p. rewrite F1. auto.
    + intros n. rewrite F2. auto.
    + discriminate.
  - pose proof (FindUnusedSchemaName_unused (SchemaNameToClassPath st1)
                  ClassName Desired) as HU.
    cbv zeta in HU.
    set (r := FindUnusedSchemaName _ (SchemaNameToClassPath st1) ClassName Desired 0) in *.
    rewrite F2 in HU. destruct HU as (HU1 & HU2).
    set (st2 := set_ClassPathToSchemaName _ st1).
    set (st3 := set_SchemaNameToClassPath _ st2).
    set (st4 := if FString_eqb Desired r then st3 else _).
    assert (H3 : ClassPathToSchemaName st3
                 = TMap_Add FString_eqb ClassPath r (ClassPathToSchemaName st)
                 /\ SchemaNameToClassPath st3
                    = TMap_Add FString_eqb r ClassPath (SchemaNameToClassPath st)
                 /\ PotentialSchemaNameCollisions st3 = PotentialSchemaNameCollisions st
                 /\ SchemaGeneratedClasses st3 = SchemaGeneratedClasses st
                 /\ SameDatabase st st3).
    { subst st3 st2. unfold SameDatabase in *. cbn.
      rewrite ?F1, ?F2, ?F3, ?F4. intuition congruence. }
    destruct H3 as (G1 & G2 & G3 & G4 & G5).
    assert (H4 : ClassPathToSchemaName st4 = ClassPathToSchemaName st3
                 /\ SchemaNameToClassPath st4 = SchemaNameToClassPath st3
                 /\ SchemaGeneratedClasses st4 = SchemaGeneratedClasses st3
                 /\ SameDatabase st3 st4
                 /\ (forall k e,
                       TSet_Contains FString_eqb e
                         (TMap_FindRef FString_eqb [] k
                            (PotentialSchemaNameCollisions st3)) = true ->
                       TSet_Contains FString_eqb e
                         (TMap_FindRef FString_eqb [] k
                            (PotentialSchemaNameCollisions st4)) = true)
                 /\ (FString_eqb Desired r = false ->
                     TSet_Contains FString_eqb (CollisionEntry ClassPath r)
                       (TMap_FindRef FString_eqb [] Desired
                          (PotentialSchemaNameCollisions st4)) = true)).
    { subst st4. destruct (FString_eqb Desired r) eqn:E.
      - conj_split; auto using SameDatabase_refl. discriminate.
      - destruct (AddPotentialNameCollision_fields Desired ClassPath r st3)
          as (A1 & A2 & A3 & A4 & A5 & A6).
        conj_split; auto. intros _. apply A6, FString_eqb_refl. }
    destruct H4 as (K1 & K2 & K3 & K4 & K5 & K6).
    destruct (AddPotentialNameCollision_fields r ClassPath r st4)
      as (A1 & A2 & A3 & A4 & A5 & A6).
    cbv zeta in A1, A2, A3, A4, A5, A6.
    set (st5 := AddPotentialNameCollision r ClassPath r st4) in *.
    assert (HFind : TMap_Find FString_eqb ClassPath (ClassPathToSchemaName st5)
                    = Some r).
    { rewrite A1, K1, G1. apply FString_Find_Add_same, FString_eqb_refl. }
    conj_split.
    + eapply SameDatabase_trans; [exact G5|].
      eapply SameDatabase_trans; [exact K4 | exact A4].
    + congruence.
    + unfold NamesPersist. rewrite A1, A2, K1, K2, G1, G2. conj_split.
      * intros p n H. rewrite FString_Find_Add_other; [exact H|].
        destruct (FString_eqb p ClassPath) eqn:E; [|reflexivity].
        rewrite (FString_Find_eqv p ClassPath _ E) in H.
        apply TMap_Contains_Find_Some in H. congruence.
      * intros n p H. rewrite FString_Find_Add_other; [exact H|].
        destruct (FString_eqb n r) eqn:E; [|reflexivity].
        rewrite (FString_Find_eqv n r _ E) in H.
        apply TMap_Contains_Find_Some in H. congruence.
      * intros k e H. apply A5, K5. now rewrite G3.
    + intros p. rewrite A1, K1, G1.
      destruct (FString_eqb p ClassPath) eqn:E; [auto|].
      rewrite (FString_Contains_Add_other p ClassPath r _ E). auto.
    + intros n. rewrite A2, K2, G2.
      destruct (FString_eqb n r) eqn:E.
      * intros _. right. exists r. auto.
      * rewrite (FString_Contains_Add_other n r ClassPath _ E). auto.
    + discriminate.
    + intros _. exists r. rewrite A2, K2, G2. conj_split.
      * exact HFind.
      * apply FString_Find_Add_same, FString_eqb_refl.
      * exact HU1.
      * exact HU2.
      * destruct (FString_eqb Desired r) eqn:E; [now apply A6|].
        apply A5, K6. reflexivity.
      * now rewrite A1, K1, G1.
      * reflexivity.
Qed.


Lemma SameButLog_refl st : SameButLog st st.
Proof. unfold SameButLog. auto using SameDatabase_refl. Qed.

Lemma SameButLog_trans st1 st2 st3 :
  SameButLog st1 st2 -> SameButLog st2 st3 -> SameButLog st1 st3.
Proof.
  unfold SameButLog. intros (A & B & C & D & E) (A' & B' & C' & D' & E').
  conj_split; try congruence. eapply SameDatabase_trans; eauto.
Qed.

Lemma UE_LOG_SameButLog e st : SameButLog st (UE_LOG e st).
Proof. unfold SameButLog, SameDatabase. simpl. auto 12. Qed.

Lemma CheckSchemaNameValidity_SameButLog Name Identifier Category st :
  SameButLog st (snd (CheckSchemaNameValidity Name Identifier Category st)).
Proof. apply CheckSchemaNameValidity_fields. Qed.

Lemma CheckNamesInScope_SameButLog Category CollisionCategory Items :
  forall Names b st,
    SameButLog st
      (snd (CheckNamesInScope Category CollisionCategory Items Names b st)).
Proof.
  induction Items as [|[n p] Items IH]; intros Names b st.
  - apply SameButLog_refl.
  - cbn [CheckNamesInScope].
    pose proof (CheckSchemaNameValidity_SameButLog n p Category st) as H1.
    destruct (CheckSchemaNameValidity n p Category st) as [bValid st1].
    cbn [snd] in H1.
    destruct (TMap_Find FString_eqb n Names).
    + eapply SameButLog_trans; [exact H1|].
      eapply SameButLog_trans; [apply UE_LOG_SameButLog | apply IH].
    + eapply SameButLog_trans; [exact H1 | apply IH].
Qed.

Lemma CheckIdentifierNameValidity_SameButLog TypeInfo b st :
  SameButLog st (snd (CheckIdentifierNameValidity TypeInfo b st)).
Proof.
  unfold CheckIdentifierNameValidity.
  cbn [fold_left GetAllReplicatedPropertyGroups fst snd].
  pose proof (CheckNamesInScope_SameButLog "Replicated property" "Replicated property"
                (ReplicatedDataNames TypeInfo REP_MultiClient) [] b st) as H1.
  destruct (CheckNamesInScope _ _ (ReplicatedDataNames TypeInfo REP_MultiClient) [] b st)
    as [b1 st1].
  cbn [fst snd] in *.
  pose proof (CheckNamesInScope_SameButLog "Replicated property" "Replicated property"
                (ReplicatedDataNames TypeInfo REP_SingleClient) [] b1 st1) as H2.
  destruct (CheckNamesInScope _ _ (ReplicatedDataNames TypeInfo REP_SingleClient) [] b1 st1)
    as [b2 st2].
  cbn [fst snd] in *.
  pose proof (CheckNamesInScope_SameButLog "Handover property" "Handover data"
                (HandoverDataNames TypeInfo) [] b2 st2) as H3.
  destruct (CheckNamesInScope _ _ (HandoverDataNames TypeInfo) [] b2 st2) as [b3 st3].
  cbn [fst snd] in *.
  eapply SameButLog_trans; [exact H1|].
  eapply SameButLog_trans; [exact H2|].
  eapply SameButLog_trans; [exact H3|].
  apply CheckNamesInScope_SameButLog.
Qed.

Lemma CheckAllIdentifierNames_SameButLog TypeInfos :
  forall b st, SameButLog st (snd (CheckAllIdentifierNames TypeInfos b st)).
Proof.
  unfold CheckAllIdentifierNames.
  induction TypeInfos as [|T Ts IH]; intros b st; simpl.
  - apply SameButLog_refl.
  - pose proof (CheckIdentifierNameValidity_SameButLog T b st) as H.
    destruct (CheckIdentifierNameValidity T b st) as [b1 st1]. cbn [fst snd] in *.
    eapply SameButLog_trans; [exact H | apply IH].
Qed.

Lemma LogClassNameCollisions_SameButLog st :
  SameButLog st (LogClassNameCollisions st).
Proof.
  unfold LogClassNameCollisions.
  generalize (PotentialSchemaNameCollisions st). intros l.
  revert st. induction l as [|c l IH]; intros st; simpl.
  - apply SameButLog_refl.
  - destruct (1 <? List.length (snd c))%nat; [|apply IH].
    eapply SameButLog_trans; [apply UE_LOG_SameButLog | apply IH].
Qed.

Lemma ValidateClassNames_persist (TypeInfos : list FUnrealType) :
  forall b st,
    let st' := snd (ValidateClassNames TypeInfos b st) in
    SameDatabase st st'
    /\ SchemaGeneratedClasses st' = SchemaGeneratedClasses st
    /\ NamesPersist st st'
    /\ (forall p,
          TMap_Contains FString_eqb p (ClassPathToSchemaName st') = true ->
          TMap_Contains FString_eqb p (ClassPathToSchemaName st) = true
          \/ exists T, In T TypeInfos
                       /\ FString_eqb p (UClass_PathName (TypeInfo_Type T)) = true).
Proof.
  unfold ValidateClassNames.
  induction TypeInfos as [|T Ts IH]; intros b st; cbv zeta; simpl.
  - conj_split; auto using SameDatabase_refl, NamesPersist_refl.
  - pose proof (ValidateClassName_names T b st) as H. cbv zeta in H.
    destruct (ValidateClassName T b st) as [b1 st1]. cbn [fst snd] in *.
    destruct H as (H1 & H2 & H3 & H4 & _).
    specialize (IH b1 st1). cbv zeta in IH. destruct IH as (I1 & I2 & I3 & I4).
    conj_split.
    + eapply SameDatabase_trans; eauto.
    + congruence.
    + eapply NamesPersist_trans; eauto.
    + intros p Hp. apply I4 in Hp. destruct Hp as [Hp|(T' & HT' & Hp)].
      * apply H4 in Hp. destruct Hp as [Hp|Hp]; [auto|]. right. exists T. auto.
      * right. exists T'. auto.
Qed.


Lemma ValidateClassNames_cons (T : FUnrealType) (Ts : list FUnrealType) b st :
  ValidateClassNames (T :: Ts) b st
  = ValidateClassNames Ts (fst (ValidateClassName T b st))
      (snd (ValidateClassName T b st)).
Proof.
  unfold ValidateClassNames. simpl. now destruct (ValidateClassName T b st).
Qed.

(** ** Ids given to classes *)

Lemma ReuseOrMintComponentId_inv Existing g id g' :
  ReuseOrMintComponentId Existing g = Ok (id, g') ->
  (Existing <> 0 /\ id = Existing /\ g' = g)
  \/ (Existing = 0 /\ id = CurrentId g /\ CurrentId g' = CurrentId g + 1
      /\ CurrentId g < MAX_COMPONENT_ID).
Proof.
  unfold ReuseOrMintComponentId, INVALID_COMPONENT_ID.
  destruct (Existing =? 0) eqn:E.
  - apply Z.eqb_eq in E. intros H. apply Next_inv in H. right. tauto.
  - apply Z.eqb_neq in E. intros H. injection H as <- <-. left. auto.
Qed.

Lemma AssignSchemaComponents_inv Existing g Components g' :
  AssignSchemaComponents Existing g = Ok (Components, g') ->
  CurrentId g <= CurrentId g'
  /\ (forall t, SchemaComponents_at Existing t <> 0 ->
                SchemaComponents_at Components t = SchemaComponents_at Existing t)
  /\ (forall id, In id (ComponentIdsOf Components) ->
                 (id <> 0 /\ In id (ComponentIdsOf Existing))
                 \/ CurrentId g <= id < CurrentId g').
Proof.
  unfold AssignSchemaComponents. intros H.
  destruct (ReuseOrMintComponentId (Component_Data Existing) g)
    as [e|[d g1]] eqn:E1; [discriminate|]. cbn [bind] in H.
  destruct (ReuseOrMintComponentId (Component_OwnerOnly Existing) g1)
    as [e|[o g2]] eqn:E2; [discriminate|]. cbn [bind] in H.
  destruct (ReuseOrMintComponentId (Component_Handover Existing) g2)
    as [e|[h g3]] eqn:E3; [discriminate|]. cbn [bind] in H.
  injection H as <- <-.
  apply ReuseOrMintComponentId_inv in E1, E2, E3.
  unfold ComponentIdsOf. simpl. conj_split.
  - intuition (subst; lia).
  - intros [] Ht; simpl in *; intuition congruence.
  - intros id [<-|[<-|[<-|[]]]].
    + destruct E1 as [(? & -> & ->)|(? & -> & ? & ?)]; [left; auto|right].
      intuition (subst; lia).
    + destruct E2 as [(? & -> & ->)|(? & -> & ? & ?)]; [left; auto|right].
      intuition (subst; lia).
    + destruct E3 as [(? & -> & ->)|(? & -> & ? & ?)]; [left; auto 6|right].
      intuition (subst; lia).
Qed.

Lemma NoComponents_ids (id : Z) : In id (ComponentIdsOf NoComponents) -> id = 0.
Proof. unfold ComponentIdsOf. simpl. intuition. Qed.

Lemma ComponentsKept_refl (c : FSchemaComponents) : ComponentsKept c c.
Proof. now intros t _. Qed.

Lemma ComponentsKept_NoComponents (c : FSchemaComponents) :
  ComponentsKept NoComponents c.
Proof. intros [] H; now contradiction H. Qed.

Lemma AssignActorSubobjects_inv Subobjects Existing :
  forall g Data g',
    AssignActorSubobjects Subobjects Existing g = Ok (Data, g') ->
    CurrentId g <= CurrentId g'
    /\ (forall id,
          In id (flat_map
                   (fun Entry => ComponentIdsOf (ActorSubobject_SchemaComponents (snd Entry)))
                   Data) ->
          In id (flat_map
                   (fun Entry => ComponentIdsOf (ActorSubobject_SchemaComponents (snd Entry)))
                   Existing)
          \/ CurrentId g <= id < CurrentId g')
    /\ map fst Data = map fst Subobjects
    /\ (forall Offset OldData NewData,
          TMap_Find Z.eqb Offset Existing = Some OldData ->
          TMap_Find Z.eqb Offset Data = Some NewData ->
          ComponentsKept (ActorSubobject_SchemaComponents OldData)
            (ActorSubobject_SchemaComponents NewData)).
Proof.
  induction Subobjects as [|[Offset Sub] Rest IH]; intros g Data g' H.
  - injection H as <- <-. conj_split; [lia | intros id [] | reflexivity |].
    intros ? ? ? _ X. discriminate X.
  - cbn [AssignActorSubobjects] in H. cbv zeta in H.
    match type of H with
    | bind (AssignSchemaComponents ?ex g) _ = _ =>
        set (Ex := ex) in *;
        destruct (AssignSchemaComponents Ex g) as [e|[c g1]] eqn:E1; [discriminate|]
    end.
    cbn [bind] in H.
    destruct (AssignActorSubobjects Rest Existing g1) as [e|[d g2]] eqn:E2;
      [discriminate|].
    cbn [bind] in H. injection H as <- <-.
    apply AssignSchemaComponents_inv in E1. destruct E1 as (M1 & K1 & I1).
    apply IH in E2. destruct E2 as (M2 & I2 & S2 & K2).
    conj_split.
    + lia.
    + intros id Hid. cbn [flat_map snd] in Hid.
      cbn [ActorSubobject_SchemaComponents] in Hid.
      apply in_app_iff in Hid. destruct Hid as [Hid|Hid].
      * apply I1 in Hid. destruct Hid as [(NZ & Hid)|Hid]; [left | right; lia].
        subst Ex. destruct (TMap_Find Z.eqb Offset Existing) as [Data|] eqn:F.
        -- apply (TMap_Find_In _ Z_eqb_reflect) in F.
           apply in_flat_map. exists (Offset, Data). split; [exact F | exact Hid].
        -- apply NoComponents_ids in Hid. contradiction.
      * apply I2 in Hid. destruct Hid as [Hid|Hid]; [now left | right; lia].
    + simpl. now rewrite S2.
    + intros Offset' OldData NewData HO HN. cbn [TMap_Find] in HN.
      destruct (Z.eqb_spec Offset' Offset) as [->|NE].
      * injection HN as <-. cbn [ActorSubobject_SchemaComponents].
        subst Ex. rewrite HO in K1. exact K1.
      * exact (K2 Offset' OldData NewData HO HN).
Qed.

Lemma AssignDynamicSubobjects_inv Count :
  forall Existing g Data g',
    AssignDynamicSubobjects Count Existing g = Ok (Data, g') ->
    CurrentId g <= CurrentId g'
    /\ (forall id,
          In id (flat_map (fun Dynamic => ComponentIdsOf (Dynamic_SchemaComponents Dynamic))
                   Data) ->
          In id (flat_map (fun Dynamic => ComponentIdsOf (Dynamic_SchemaComponents Dynamic))
                   Existing)
          \/ CurrentId g <= id < CurrentId g')
    /\ List.length Data = Count
    /\ (forall Slot OldData NewData,
          nth_error Existing Slot = Some OldData ->
          nth_error Data Slot = Some NewData ->
          ComponentsKept (Dynamic_SchemaComponents OldData)
            (Dynamic_SchemaComponents NewData)).
Proof.
  induction Count as [|Count IH]; intros Existing g Data g' H.
  - injection H as <- <-. conj_split; [lia | intros id [] | reflexivity |].
    intros [|?] ? ? _ X; discriminate X.
  - cbn [AssignDynamicSubobjects] in H. cbv zeta in H.
    match type of H with
    | bind (AssignSchemaComponents ?ex g) _ = _ =>
        set (Ex := ex) in *;
        destruct (AssignSchemaComponents Ex g) as [e|[c g1]] eqn:E1; [discriminate|]
    end.
    cbn [bind] in H.
    destruct (AssignDynamicSubobjects Count (tl Existing) g1) as [e|[d g2]] eqn:E2;
      [discriminate|].
    cbn [bind] in H. injection H as <- <-.
    apply AssignSchemaComponents_inv in E1. destruct E1 as (M1 & K1 & I1).
    apply IH in E2. destruct E2 as (M2 & I2 & L2 & K2).
    conj_split.
    + lia.
    + intros id Hid. cbn [flat_map Dynamic_SchemaComponents] in Hid.
      apply in_app_iff in Hid. destruct Hid as [Hid|Hid].
      * apply I1 in Hid. destruct Hid as [(NZ & Hid)|Hid]; [left | right; lia].
        subst Ex. destruct Existing as [|Data Existing].
        -- apply NoComponents_ids in Hid. contradiction.
        -- cbn [flat_map]. apply in_app_iff. now left.
      * apply I2 in Hid. destruct Hid as [Hid|Hid]; [left | right; lia].
        destruct Existing as [|Data Existing]; [destruct Hid|].
        cbn [flat_map]. apply in_app_iff. now right.
    + simpl. now rewrite L2.
    + intros [|Slot] OldData NewData HO HN.
      * destruct Existing as [|Data Existing]; [discriminate|].
        injection HO as <-. injection HN as <-. exact K1.
      * destruct Existing as [|Data Existing]; [discriminate|].
        exact (K2 Slot OldData NewData HO HN).
Qed.


Lemma RegisterSchemaComponents_frame Components st :
  RegisterSchemaComponents Components st
  = set_SchemaComponentTypeToComponents
      (SchemaComponentTypeToComponents (RegisterSchemaComponents Components st)) st.
Proof. destruct st. reflexivity. Qed.

Lemma RegisterAll_frame {A : Type} (f : A -> FSchemaComponents) (l : list A) :
  forall st,
    fold_left (fun s x => RegisterSchemaComponents (f x) s) l st
    = set_SchemaComponentTypeToComponents
        (SchemaComponentTypeToComponents
           (fold_left (fun s x => RegisterSchemaComponents (f x) s) l st)) st.
Proof.
  induction l as [|x l IH]; intros st; simpl.
  - now destruct st.
  - rewrite IH at 1. rewrite RegisterSchemaComponents_frame at 1. reflexivity.
Qed.

Lemma FString_Find_Add_refl {V : Type} (k : FString) (v : V)
  (m : list (FString * V)) :
  TMap_Find FString_eqb k (TMap_Add FString_eqb k v m) = Some v.
Proof. apply FString_Find_Add_same, FString_eqb_refl. Qed.

Lemma GenerateActorSchema_step g Class TypeInfo SchemaPath env st world g' st' world' :
  GenerateActorSchema g Class TypeInfo SchemaPath env st world = Ok (g', st', world') ->
  ClassStep (UClass_PathName Class) g st g' st'
  /\ exists r',
       TMap_Find FString_eqb (UClass_PathName Class) (ActorClassPathToSchema st')
       = Some r'
       /\ map fst (Actor_SubobjectData r') = map fst (GetAllSubobjects TypeInfo).
Proof.
  unfold GenerateActorSchema. cbv zeta. intros H.
  set (P := UClass_PathName Class) in *.
  match type of H with
  | bind (AssignSchemaComponents ?ex g) _ = _ =>
      set (Ex := ex) in *;
      destruct (AssignSchemaComponents Ex g) as [e|[c g1]] eqn:E1; [discriminate|]
  end.
  cbn [bind] in H.
  match type of H with
  | bind (AssignActorSubobjects ?subs ?ex g1) _ = _ =>
      set (ExSub := ex) in *;
      destruct (AssignActorSubobjects subs ExSub g1) as [e|[d g2]] eqn:E2;
      [discriminate|]
  end.
  cbn [bind] in H.
  match type of H with
  | bind (Writer_WriteToFile ?f ?w env world) _ = _ =>
      destruct (Writer_WriteToFile f w env world) as [e|world1]; [discriminate|]
  end.
  cbn [bind] in H. injection H as <- <- _.
  apply AssignSchemaComponents_inv in E1. destruct E1 as (M1 & K1 & I1).
  apply AssignActorSubobjects_inv in E2. destruct E2 as (M2 & I2 & S2 & K2).
  rewrite (RegisterAll_frame
             (fun Entry : Z * FActorSpecificSubobjectSchemaData =>
                ActorSubobject_SchemaComponents (snd Entry))).
  rewrite RegisterSchemaComponents_frame.
  unfold ClassStep, SameOutsideClasses, ClassComponentIds, HasSchema.
  cbn [ActorClassPathToSchema SubobjectClassPathToSchema ClassPathToSchemaName
       SchemaNameToClassPath PotentialSchemaNameCollisions SchemaGeneratedClasses
       NextAvailableComponentId LevelPathToComponentId NetCullDistanceToComponentId
       set_ActorClassPathToSchema set_SchemaComponentTypeToComponents].
  rewrite FString_Find_Add_refl.
  split; [conj_split; try reflexivity|].
  - lia.
  - intros q NE. split; [|reflexivity].
    now apply FString_Find_Add_other.
  - intros id.
    rewrite !in_app_iff. unfold ActorRecordIds at 1.
    cbn [Actor_SchemaComponents Actor_SubobjectData]. rewrite in_app_iff.
    intros [[Hid|Hid]|Hid].
    + apply I1 in Hid. destruct Hid as [(NZ & Hid)|Hid]; [left; left | right; lia].
      subst Ex. destruct (TMap_Find FString_eqb P (ActorClassPathToSchema st)).
      * unfold ActorRecordIds. apply in_app_iff. now left.
      * apply NoComponents_ids in Hid. contradiction.
    + apply I2 in Hid. destruct Hid as [Hid|Hid]; [left; left | right; lia].
      subst ExSub. destruct (TMap_Find FString_eqb P (ActorClassPathToSchema st)).
      * unfold ActorRecordIds. apply in_app_iff. now right.
      * destruct Hid.
    + left. now right.
  - intros r Hr.
    eexists. split; [reflexivity|]. unfold ActorRecordKept.
    cbn [Actor_SchemaComponents Actor_SubobjectData].
    subst Ex ExSub. rewrite Hr in K1, K2. split; [exact K1 | exact K2].
  - intros r Hr. exists r. split; [exact Hr|]. intros i a b Ha Hb.
    rewrite Ha in Hb. injection Hb as <-. apply ComponentsKept_refl.
  - unfold TMap_Contains at 1. now rewrite FString_Find_Add_refl.
  - eexists. split; [reflexivity|]. exact S2.
Qed.

Lemma GenerateSubobjectSchema_step g Class TypeInfo SchemaPath env st world g' st' world' :
  GenerateSubobjectSchema g Class TypeInfo SchemaPath env st world = Ok (g', st', world') ->
  ClassStep (UClass_PathName Class) g st g' st'
  /\ exists r',
       TMap_Find FString_eqb (UClass_PathName Class) (SubobjectClassPathToSchema st')
       = Some r'
       /\ List.length (Subobject_DynamicSubobjectComponents r')
          = MaxDynamicallyAttachedSubobjectsPerClass.
Proof.
  unfold GenerateSubobjectSchema. cbv zeta. intros H.
  set (P := UClass_PathName Class) in *.
  match type of H with
  | bind (AssignDynamicSubobjects ?n ?ex g) _ = _ =>
      set (Ex := ex) in *;
      destruct (AssignDynamicSubobjects n Ex g) as [e|[d g1]] eqn:E1;
      [discriminate|]
  end.
  cbn [bind] in H.
  match type of H with
  | bind (Writer_WriteToFile ?f ?w env world) _ = _ =>
      destruct (Writer_WriteToFile f w env world) as [e|world1]; [discriminate|]
  end.
  cbn [bind] in H. injection H as <- <- _.
  apply AssignDynamicSubobjects_inv in E1. destruct E1 as (M1 & I1 & L1 & K1).
  rewrite (RegisterAll_frame Dynamic_SchemaComponents).
  unfold ClassStep, SameOutsideClasses, ClassComponentIds, HasSchema.
  cbn [ActorClassPathToSchema SubobjectClassPathToSchema ClassPathToSchemaName
       SchemaNameToClassPath PotentialSchemaNameCollisions SchemaGeneratedClasses
       NextAvailableComponentId LevelPathToComponentId NetCullDistanceToComponentId
       set_SubobjectClassPathToSchema set_SchemaComponentTypeToComponents].
  rewrite FString_Find_Add_refl.
  split; [conj_split; try reflexivity|].
  - exact M1.
  - intros q NE. split; [reflexivity|].
    now apply FString_Find_Add_other.
  - intros id.
    rewrite !in_app_iff. unfold SubobjectRecordIds at 1.
    cbn [Subobject_DynamicSubobjectComponents].
    intros [Hid|Hid]; [left; now left|].
    apply I1 in Hid. destruct Hid as [Hid|Hid]; [left; right | right; lia].
    subst Ex. destruct (TMap_Find FString_eqb P (SubobjectClassPathToSchema st)).
    + exact Hid.
    + destruct Hid.
  - intros r Hr. exists r. split; [exact Hr|]. split.
    + apply ComponentsKept_refl.
    + intros o a b Ha Hb. rewrite Ha in Hb. injection Hb as <-.
      apply ComponentsKept_refl.
  - intros r Hr. eexists. split; [reflexivity|]. unfold SubobjectRecordKept.
    cbn [Subobject_DynamicSubobjectComponents]. subst Ex. rewrite Hr in K1.
    exact K1.
  - unfold TMap_Contains at 2. rewrite FString_Find_Add_refl.
    apply orb_true_r.
  - eexists. split; [reflexivity|]. exact L1.
Qed.

Lemma GenerateCompleteSchemaFromClass_step SchemaPath g TypeInfo env st world
  g' st' world' :
  GenerateCompleteSchemaFromClass SchemaPath g TypeInfo env st world
  = Ok (g', st', world') ->
  ClassStep (UClass_PathName (TypeInfo_Type TypeInfo)) g st g' st'.
Proof.
  unfold GenerateCompleteSchemaFromClass. cbv zeta.
  destruct (UClass_IsActor (TypeInfo_Type TypeInfo)); intros H.
  - now apply GenerateActorSchema_step in H.
  - now apply GenerateSubobjectSchema_step in H.
Qed.

Lemma GenerateCompleteSchemaFromClass_shape SchemaPath g TypeInfo env st world
  g' st' world' :
  GenerateCompleteSchemaFromClass SchemaPath g TypeInfo env st world
  = Ok (g', st', world') ->
  ClassRecordShape (TypeInfo_Type TypeInfo) st'.
Proof.
  unfold GenerateCompleteSchemaFromClass, ClassRecordShape. cbv zeta.
  destruct (UClass_IsActor (TypeInfo_Type TypeInfo)); intros H.
  - apply GenerateActorSchema_step in H. exact (proj2 H).
  - apply GenerateSubobjectSchema_step in H. exact (proj2 H).
Qed.

Lemma ClassComponentIds_ext st st' q :
  TMap_Find FString_eqb q (ActorClassPathToSchema st')
  = TMap_Find FString_eqb q (ActorClassPathToSchema st) ->
  TMap_Find FString_eqb q (SubobjectClassPathToSchema st')
  = TMap_Find FString_eqb q (SubobjectClassPathToSchema st) ->
  ClassComponentIds st' q = ClassComponentIds st q
  /\ HasSchema st' q = HasSchema st q.
Proof.
  intros A B. unfold ClassComponentIds, HasSchema, TMap_Contains.
  now rewrite A, B.
Qed.

Lemma ClassComponentIds_eqv st q P :
  FString_eqb q P = true ->
  ClassComponentIds st q = ClassComponentIds st P
  /\ HasSchema st q = HasSchema st P.
Proof.
  intros E. unfold ClassComponentIds, HasSchema, TMap_Contains.
  now rewrite !(FString_Find_eqv q P _ E).
Qed.

Lemma SameOutsideClasses_refl st : SameOutsideClasses st st.
Proof. unfold SameOutsideClasses. auto 10. Qed.

Lemma SameOutsideClasses_trans st1 st2 st3 :
  SameOutsideClasses st1 st2 -> SameOutsideClasses st2 st3 ->
  SameOutsideClasses st1 st3.
Proof. unfold SameOutsideClasses. intuition congruence. Qed.

Lemma ClassStep_HasSchema P g st g' st' q :
  ClassStep P g st g' st' -> HasSchema st q = true -> HasSchema st' q = true.
Proof.
  intros (_ & _ & HQ & _ & _ & _ & HP) H.
  destruct (FString_eqb q P) eqn:E.
  - now rewrite (proj2 (ClassComponentIds_eqv st' q P E)).
  - destruct (HQ q E) as [A B].
    now rewrite (proj2 (ClassComponentIds_ext st st' q A B)).
Qed.

Lemma ClassStep_ids P g st g' st' q id :
  ClassStep P g st g' st' ->
  In id (ClassComponentIds st' q) ->
  In id (ClassComponentIds st q) \/ CurrentId g <= id < CurrentId g'.
Proof.
  intros (_ & _ & HQ & HI & _) H.
  destruct (FString_eqb q P) eqn:E.
  - rewrite (proj1 (ClassComponentIds_eqv st' q P E)) in H.
    rewrite (proj1 (ClassComponentIds_eqv st q P E)). now apply HI.
  - destruct (HQ q E) as [A B].
    rewrite (proj1 (ClassComponentIds_ext st st' q A B)) in H. now left.
Qed.

Lemma ActorRecordKept_refl r : ActorRecordKept r r.
Proof.
  split; [apply ComponentsKept_refl|].
  intros o a b Ha Hb. rewrite Ha in Hb. injection Hb as <-.
  apply ComponentsKept_refl.
Qed.

Lemma SubobjectRecordKept_refl r : SubobjectRecordKept r r.
Proof.
  intros i a b Ha Hb. rewrite Ha in Hb. injection Hb as <-.
  apply ComponentsKept_refl.
Qed.

Lemma ComponentsKept_trans a b c :
  ComponentsKept a b -> ComponentsKept b c -> ComponentsKept a c.
Proof.
  intros H1 H2 t Ht. rewrite <- (H1 t Ht). apply H2. now rewrite (H1 t Ht).
Qed.

Lemma ClassStep_actor P g st g' st' q r :
  ClassStep P g st g' st' ->
  TMap_Find FString_eqb q (ActorClassPathToSchema st) = Some r ->
  exists r',
    TMap_Find FString_eqb q (ActorClassPathToSchema st') = Some r'
    /\ ActorRecordKept r r'.
Proof.
  intros (_ & _ & HQ & _ & HA & _) H.
  destruct (FString_eqb q P) eqn:E.
  - rewrite (FString_Find_eqv q P _ E) in H.
    destruct (HA r H) as (r' & Hr' & K). exists r'.
    rewrite (FString_Find_eqv q P _ E). auto.
  - destruct (HQ q E) as [A _]. exists r. rewrite A.
    split; [exact H | apply ActorRecordKept_refl].
Qed.

Lemma ClassStep_subobject P g st g' st' q r :
  ClassStep P g st g' st' ->
  TMap_Find FString_eqb q (SubobjectClassPathToSchema st) = Some r ->
  exists r',
    TMap_Find FString_eqb q (SubobjectClassPathToSchema st') = Some r'
    /\ SubobjectRecordKept r r'.
Proof.
  intros (_ & _ & HQ & _ & _ & HS & _) H.
  destruct (FString_eqb q P) eqn:E.
  - rewrite (FString_Find_eqv q P _ E) in H.
    destruct (HS r H) as (r' & Hr' & K). exists r'.
    rewrite (FString_Find_eqv q P _ E). auto.
  - destruct (HQ q E) as [_ B]. exists r. rewrite B.
    split; [exact H | apply SubobjectRecordKept_refl].
Qed.

(** Generating the schema of a list of classes: the counter does not go
    back, the ids of an actor that were set stay, every recorded id was
    there before or is new, and every class of the list has a record. *)
Lemma GenerateSchemaFromClasses_inv (TypeInfos : list FUnrealType)
  (SchemaPath : FString) (env : Env) :
  forall g st world g' st' world',
    GenerateSchemaFromClasses TypeInfos SchemaPath g env st world
    = Ok (g', st', world') ->
    CurrentId g <= CurrentId g'
    /\ SameOutsideClasses st st'
    /\ (forall q r,
          TMap_Find FString_eqb q (ActorClassPathToSchema st) = Some r ->
          exists r',
            TMap_Find FString_eqb q (ActorClassPathToSchema st') = Some r'
            /\ ComponentsKept (Actor_SchemaComponents r) (Actor_SchemaComponents r'))
    /\ (forall q id,
          In id (ClassComponentIds st' q) ->
          In id (ClassComponentIds st q) \/ CurrentId g <= id < CurrentId g')
    /\ (forall q, HasSchema st q = true -> HasSchema st' q = true)
    /\ (forall T, In T TypeInfos ->
                  HasSchema st' (UClass_PathName (TypeInfo_Type T)) = true).
Proof.
  induction TypeInfos as [|T Ts IH]; intros g st world g' st' world' H.
  - injection H as <- <- _.
    split; [lia|]. split; [apply SameOutsideClasses_refl|].
    split; [intros q r Hr; exists r; split; [exact Hr | apply ComponentsKept_refl]|].
    split; [intros q id Hid; now left|].
    split; [auto | intros T []].
  - cbn [GenerateSchemaFromClasses] in H.
    destruct (GenerateCompleteSchemaFromClass SchemaPath g T env st world)
      as [e|[[g1 st1] world1]] eqn:E; [discriminate|].
    cbn [bind] in H.
    apply GenerateCompleteSchemaFromClass_step in E.
    destruct (IH _ _ _ _ _ _ H) as (M & S & A & I & HS & HT).
    pose proof E as (M1 & S1 & _ & _ & _ & _ & HP).
    conj_split.
    + lia.
    + eapply SameOutsideClasses_trans; eauto.
    + intros q r Hr.
      destruct (ClassStep_actor _ _ _ _ _ q r E Hr) as (r1 & Hr1 & K1 & _).
      destruct (A q r1 Hr1) as (r' & Hr' & K').
      exists r'. split; [exact Hr'|]. eapply ComponentsKept_trans; eauto.
    + intros q id Hid. apply I in Hid. destruct Hid as [Hid|Hid]; [|right; lia].
      apply (ClassStep_ids _ _ _ _ _ q id E) in Hid.
      destruct Hid as [Hid|Hid]; [now left | right; lia].
    + intros q Hq. apply HS. eapply ClassStep_HasSchema; eauto.
    + intros T' [<-|HIn]; [apply HS; exact HP | now apply HT].
Qed.

(** A class path that is the path of none of the classes keeps its
    records. *)
Lemma GenerateSchemaFromClasses_untouched (TypeInfos : list FUnrealType)
  (SchemaPath : FString) (env : Env) (q : FString) :
  Forall (fun T => FString_eqb q (UClass_PathName (TypeInfo_Type T)) = false)
    TypeInfos ->
  forall g st world g' st' world',
    GenerateSchemaFromClasses TypeInfos SchemaPath g env st world
    = Ok (g', st', world') ->
    TMap_Find FString_eqb q (ActorClassPathToSchema st')
    = TMap_Find FString_eqb q (ActorClassPathToSchema st)
    /\ TMap_Find FString_eqb q (SubobjectClassPathToSchema st')
       = TMap_Find FString_eqb q (SubobjectClassPathToSchema st).
Proof.
  induction 1 as [|T Ts HT HTs IH]; intros g st world g' st' world' H.
  - injection H as <- <- _. auto.
  - cbn [GenerateSchemaFromClasses] in H.
    destruct (GenerateCompleteSchemaFromClass SchemaPath g T env st world)
      as [e|[[g1 st1] world1]] eqn:E; [discriminate|].
    cbn [bind] in H.
    apply GenerateCompleteSchemaFromClass_step in E.
    destruct E as (_ & _ & HQ & _).
    destruct (HQ q HT) as [A B].
    destruct (IH _ _ _ _ _ _ H) as [A' B']. split; congruence.
Qed.

(** When the classes have pairwise different paths, each record is
    rewritten at most once: what was set in a record stays, and each class
    is left with the record its own step made. *)
Lemma GenerateSchemaFromClasses_kept (TypeInfos : list FUnrealType)
  (SchemaPath : FString) (env : Env) :
  ForallOrdPairs
    (fun T1 T2 =>
       FString_eqb (UClass_PathName (TypeInfo_Type T1))
         (UClass_PathName (TypeInfo_Type T2)) = false) TypeInfos ->
  forall g st world g' st' world',
    GenerateSchemaFromClasses TypeInfos SchemaPath g env st world
    = Ok (g', st', world') ->
    (forall q r,
       TMap_Find FString_eqb q (ActorClassPathToSchema st) = Some r ->
       exists r',
         TMap_Find FString_eqb q (ActorClassPathToSchema st') = Some r'
         /\ ActorRecordKept r r')
    /\ (forall q r,
          TMap_Find FString_eqb q (SubobjectClassPathToSchema st) = Some r ->
          exists r',
            TMap_Find FString_eqb q (SubobjectClassPathToSchema st') = Some r'
            /\ SubobjectRecordKept r r')
    /\ (forall T, In T TypeInfos -> ClassRecordShape (TypeInfo_Type T) st').
Proof.
  induction 1 as [|T Ts HT HTs IH]; intros g st world g' st' world' H.
  - injection H as <- <- _. conj_split.
    + intros q r Hr. exists r. split; [exact Hr | apply ActorRecordKept_refl].
    + intros q r Hr. exists r. split; [exact Hr | apply SubobjectRecordKept_refl].
    + intros T [].
  - cbn [GenerateSchemaFromClasses] in H.
    destruct (GenerateCompleteSchemaFromClass SchemaPath g T env st world)
      as [e|[[g1 st1] world1]] eqn:E; [discriminate|].
    cbn [bind] in H.
    pose proof (GenerateCompleteSchemaFromClass_shape _ _ _ _ _ _ _ _ _ E) as HShape.
    apply GenerateCompleteSchemaFromClass_step in E.
    set (P := UClass_PathName (TypeInfo_Type T)) in *.
    destruct (IH _ _ _ _ _ _ H) as (KA & KS & KT).
    assert (HU : forall q, FString_eqb q P = true ->
                 TMap_Find FString_eqb q (ActorClassPathToSchema st')
                 = TMap_Find FString_eqb q (ActorClassPathToSchema st1)
                 /\ TMap_Find FString_eqb q (SubobjectClassPathToSchema st')
                    = TMap_Find FString_eqb q (SubobjectClassPathToSchema st1)).
    { intros q Eq.
      apply (GenerateSchemaFromClasses_untouched Ts SchemaPath env q)
        with (g := g1) (world := world1) (g' := g') (world' := world');
        [|exact H].
      rewrite Forall_forall in HT |- *. intros T' HT'.
      rewrite (FString_eqb_congr_l q P _ Eq). now apply HT. }
    conj_split.
    + intros q r Hr.
      destruct (ClassStep_actor _ _ _ _ _ q r E Hr) as (r1 & Hr1 & K1).
      destruct (FString_eqb q P) eqn:Eq.
      * exists r1. rewrite (proj1 (HU q Eq)). auto.
      * destruct E as (_ & _ & HQ & _). destruct (HQ q Eq) as [A _].
        apply KA. congruence.
    + intros q r Hr.
      destruct (ClassStep_subobject _ _ _ _ _ q r E Hr) as (r1 & Hr1 & K1).
      destruct (FString_eqb q P) eqn:Eq.
      * exists r1. rewrite (proj2 (HU q Eq)). auto.
      * destruct E as (_ & _ & HQ & _). destruct (HQ q Eq) as [_ B].
        apply KS. congruence.
    + intros T' [<-|HIn]; [|now apply KT].
      unfold ClassRecordShape in HShape |- *. fold P in HShape |- *.
      destruct (HU P (FString_eqb_refl P)) as [A B].
      destruct (UClass_IsActor (TypeInfo_Type T)); [rewrite A | rewrite B];
        exact HShape.
Qed.

(** Two class paths whose ids so far are new ones and differ keep
    different ids. *)
Lemma GenerateSchemaFromClasses_disjoint (TypeInfos : list FUnrealType)
  (SchemaPath : FString) (env : Env) (P Q : FString) (lo : Z) :
  FString_eqb P Q = false ->
  forall g st world g' st' world',
    GenerateSchemaFromClasses TypeInfos SchemaPath g env st world
    = Ok (g', st', world') ->
    lo <= CurrentId g ->
    (forall id, In id (ClassComponentIds st P) -> lo <= id < CurrentId g) ->
    (forall id, In id (ClassComponentIds st Q) -> lo <= id < CurrentId g) ->
    (forall id, In id (ClassComponentIds st P) -> ~ In id (ClassComponentIds st Q)) ->
    forall id, In id (ClassComponentIds st' P) -> ~ In id (ClassComponentIds st' Q).
Proof.
  intros NE.
  induction TypeInfos as [|T Ts IH]; intros g st world g' st' world' H HL BP BQ D.
  - injection H as <- <- _. exact D.
  - cbn [GenerateSchemaFromClasses] in H.
    destruct (GenerateCompleteSchemaFromClass SchemaPath g T env st world)
      as [e|[[g1 st1] world1]] eqn:E; [discriminate|].
    cbn [bind] in H.
    apply GenerateCompleteSchemaFromClass_step in E.
    pose proof E as (M1 & _ & HQ & _).
    set (R := UClass_PathName (TypeInfo_Type T)) in *.
    apply (IH _ _ _ _ _ _ H).
    + lia.
    + intros id Hid. apply (ClassStep_ids _ _ _ _ _ P id E) in Hid.
      destruct Hid as [Hid|Hid]; [apply BP in Hid|]; lia.
    + intros id Hid. apply (ClassStep_ids _ _ _ _ _ Q id E) in Hid.
      destruct Hid as [Hid|Hid]; [apply BQ in Hid|]; lia.
    + intros id HP' HQ'.
      destruct (FString_eqb P R) eqn:EP.
      * assert (NQ : FString_eqb Q R = false).
        { rewrite <- (FString_eqb_congr_r P R Q EP).
          now rewrite FString_eqb_sym. }
        destruct (HQ Q NQ) as [A B].
        rewrite (proj1 (ClassComponentIds_ext st st1 Q A B)) in HQ'.
        apply (ClassStep_ids _ _ _ _ _ P id E) in HP'.
        destruct HP' as [HP'|HP']; [exact (D id HP' HQ')|].
        apply BQ in HQ'. lia.
      * destruct (HQ P EP) as [A B].
        rewrite (proj1 (ClassComponentIds_ext st st1 P A B)) in HP'.
        apply (ClassStep_ids _ _ _ _ _ Q id E) in HQ'.
        destruct HQ' as [HQ'|HQ']; [exact (D id HP' HQ')|].
        apply BP in HP'. lia.
Qed.
(** ** A run over a set of classes *)

Lemma TSet_Contains_keys_Contains {V : Type} (p : FString) (m : list (FString * V)) :
  TSet_Contains FString_eqb p (map fst m) = TMap_Contains FString_eqb p m.
Proof.
  unfold TMap_Contains. induction m as [|[k v] m IH]; simpl; [reflexivity|].
  destruct (FString_eqb p k); [reflexivity | exact IH].
Qed.

Lemma ResolveClassPathToSchemaName_fields ClassPath SchemaName st :
  let st' := ResolveClassPathToSchemaName ClassPath SchemaName st in
  SameDatabase st st'
  /\ (forall p, TMap_Contains FString_eqb p (ClassPathToSchemaName st') = true ->
                TMap_Contains FString_eqb p (ClassPathToSchemaName st) = true
                \/ FString_eqb p ClassPath = true)
  /\ (forall n, TMap_Contains FString_eqb n (SchemaNameToClassPath st') = true ->
                TMap_Contains FString_eqb n (SchemaNameToClassPath st) = true
                \/ FString_eqb n SchemaName = true).
Proof.
  cbv zeta. unfold ResolveClassPathToSchemaName.
  destruct (FString_IsEmpty SchemaName); [auto using SameDatabase_refl|].
  set (st2 := set_SchemaNameToClassPath _ _).
  set (D := UnrealNameToSchemaName (GetAssetName ClassPath) false).
  set (st3 := if FString_eqb D SchemaName then st2 else _).
  assert (H3 : ClassPathToSchemaName st3
               = TMap_Add FString_eqb ClassPath SchemaName (ClassPathToSchemaName st)
               /\ SchemaNameToClassPath st3
                  = TMap_Add FString_eqb SchemaName ClassPath (SchemaNameToClassPath st)
               /\ SameDatabase st st3).
  { subst st3. destruct (FString_eqb D SchemaName);
      unfold SameDatabase; cbn; auto 10. }
  destruct H3 as (A & B & C).
  destruct (AddPotentialNameCollision_fields SchemaName ClassPath SchemaName st3)
    as (A1 & A2 & _ & A4 & _).
  cbv zeta in A1, A2, A4. rewrite A1, A2, A, B. conj_split.
  - eapply SameDatabase_trans; eauto.
  - intros p. destruct (FString_eqb p ClassPath) eqn:E; [auto|].
    rewrite (FString_Contains_Add_other p ClassPath SchemaName _ E). auto.
  - intros n. destruct (FString_eqb n SchemaName) eqn:E; [auto|].
    rewrite (FString_Contains_Add_other n SchemaName ClassPath _ E). auto.
Qed.

Lemma ResolveAll_fields {A : Type} (name : A -> FString) (l : list (FString * A)) :
  forall st,
    let st' :=
      fold_left
        (fun s Entry => ResolveClassPathToSchemaName (fst Entry) (name (snd Entry)) s)
        l st in
    SameDatabase st st'
    /\ (forall p, TMap_Contains FString_eqb p (ClassPathToSchemaName st') = true ->
                  TMap_Contains FString_eqb p (ClassPathToSchemaName st) = true
                  \/ TSet_Contains FString_eqb p (map fst l) = true)
    /\ (forall n, TMap_Contains FString_eqb n (SchemaNameToClassPath st') = true ->
                  TMap_Contains FString_eqb n (SchemaNameToClassPath st) = true
                  \/ TSet_Contains FString_eqb n
                       (map (fun Entry => name (snd Entry)) l) = true).
Proof.
  induction l as [|[p0 d] l IH]; intros st; cbv zeta; simpl.
  - auto using SameDatabase_refl.
  - destruct (ResolveClassPathToSchemaName_fields p0 (name d) st) as (S1 & P1 & N1).
    destruct (IH (ResolveClassPathToSchemaName p0 (name d) st)) as (S2 & P2 & N2).
    conj_split.
    + eapply SameDatabase_trans; eauto.
    + intros p Hp. apply P2 in Hp. destruct Hp as [Hp|Hp].
      * apply P1 in Hp. destruct Hp as [Hp|Hp]; [auto|]. right. now rewrite Hp.
      * right. rewrite Hp. apply orb_true_r.
    + intros n Hn. apply N2 in Hn. destruct Hn as [Hn|Hn].
      * apply N1 in Hn. destruct Hn as [Hn|Hn]; [auto|]. right. now rewrite Hn.
      * right. rewrite Hn. apply orb_true_r.
Qed.

(** After [ResetUsedNames] the tables hold names of database records only. *)
Lemma ResetUsedNames_tables st :
  SameDatabase st (ResetUsedNames st)
  /\ (forall p,
        TMap_Contains FString_eqb p (ClassPathToSchemaName (ResetUsedNames st)) = true ->
        HasSchema st p = true)
  /\ (forall n,
        TMap_Contains FString_eqb n (SchemaNameToClassPath (ResetUsedNames st)) = true ->
        TSet_Contains FString_eqb n
          (map (fun Entry => Actor_GeneratedSchemaName (snd Entry))
             (ActorClassPathToSchema st)
           ++ map (fun Entry => Subobject_GeneratedSchemaName (snd Entry))
                (SubobjectClassPathToSchema st)) = true).
Proof.
  unfold ResetUsedNames.
  set (st0 := set_PotentialSchemaNameCollisions [] _).
  destruct (ResolveAll_fields Actor_GeneratedSchemaName (ActorClassPathToSchema st0) st0)
    as (S1 & P1 & N1).
  set (st1 := fold_left _ (ActorClassPathToSchema st0) st0) in *.
  destruct (ResolveAll_fields Subobject_GeneratedSchemaName
              (SubobjectClassPathToSchema st1) st1) as (S2 & P2 & N2).
  assert (S0 : SameDatabase st st0) by (unfold SameDatabase; cbn; auto 10).
  assert (E1 : SubobjectClassPathToSchema st1 = SubobjectClassPathToSchema st).
  { destruct S1 as (_ & -> & _). reflexivity. }
  conj_split.
  - exact (SameDatabase_trans _ _ _ S0 (SameDatabase_trans _ _ _ S1 S2)).
  - intros p Hp. unfold HasSchema. apply orb_true_iff.
    rewrite <- !TSet_Contains_keys_Contains.
    apply P2 in Hp. destruct Hp as [Hp|Hp].
    + apply P1 in Hp. destruct Hp as [Hp|Hp]; [discriminate Hp | now left].
    + right. now rewrite <- E1.
  - intros n Hn. rewrite TSet_Contains_app. apply orb_true_iff.
    apply N2 in Hn. destruct Hn as [Hn|Hn].
    + apply N1 in Hn. destruct Hn as [Hn|Hn]; [discriminate Hn | now left].
    + right. now rewrite <- E1.
Qed.

Lemma ValidateIdentifierNames_names TypeInfos st :
  SameButLog (snd (ValidateClassNames TypeInfos true st))
    (snd (ValidateIdentifierNames TypeInfos st))
  /\ SameDatabase st (snd (ValidateIdentifierNames TypeInfos st))
  /\ SchemaGeneratedClasses (snd (ValidateIdentifierNames TypeInfos st))
     = SchemaGeneratedClasses st.
Proof.
  unfold ValidateIdentifierNames.
  pose proof (ValidateClassNames_persist TypeInfos true st) as H. cbv zeta in H.
  destruct (ValidateClassNames TypeInfos true st) as [b1 st1]. cbn [snd] in *.
  destruct H as (D & G & _).
  assert (L : SameButLog st1
                (snd (CheckAllIdentifierNames TypeInfos b1 (LogClassNameCollisions st1)))).
  { eapply SameButLog_trans;
      [apply LogClassNameCollisions_SameButLog
      | apply CheckAllIdentifierNames_SameButLog]. }
  split; [exact L|]. destruct L as (_ & _ & _ & G' & D').
  split; [eapply SameDatabase_trans; eauto | congruence].
Qed.



Lemma ClassComponentIds_SameDatabase st st' q :
  SameDatabase st st' ->
  ClassComponentIds st' q = ClassComponentIds st q
  /\ HasSchema st' q = HasSchema st q.
Proof.
  intros (A & B & _). apply ClassComponentIds_ext; congruence.
Qed.

Lemma flat_map_Permutation_In {A B : Type} (f : A -> list B) (l l' : list A) (x : B) :
  Permutation l l' -> In x (flat_map f l) -> In x (flat_map f l').
Proof.
  intros HP H. apply in_flat_map in H. destruct H as (a & Ha & Hx).
  apply in_flat_map. exists a. split; [|exact Hx].
  eapply Permutation_in; eauto.
Qed.

(** Classes with different paths, under [ClassPathsApart], have paths
    that differ also when case is ignored. *)
Lemma ClassPathsApart_added (Classes added : list UClass) :
  ClassPathsApart Classes ->
  incl added (Classes ++ flat_map UClass_ObjectGraph Classes) ->
  NoDup (map UClass_PathName added) ->
  ForallOrdPairs
    (fun T1 T2 =>
       FString_eqb (UClass_PathName (TypeInfo_Type T1))
         (UClass_PathName (TypeInfo_Type T2)) = false)
    (map CreateUnrealTypeInfo added).
Proof.
  intros HA. induction added as [|c added IH]; intros HI HN; simpl; constructor.
  - apply Forall_forall. intros T HT. apply in_map_iff in HT.
    destruct HT as (c' & <- & Hc'). cbn [TypeInfo_Type CreateUnrealTypeInfo].
    destruct (FString_eqb (UClass_PathName c) (UClass_PathName c')) eqn:E;
      [exfalso | reflexivity].
    simpl in HN. apply NoDup_cons_iff in HN. destruct HN as [HN _]. apply HN.
    rewrite (HA c c' (HI c (or_introl eq_refl)) (HI c' (or_intror Hc')) E).
    now apply in_map.
  - apply IH.
    + intros x Hx. apply HI. now right.
    + simpl in HN. now apply NoDup_cons_iff in HN.
Qed.

(** What a successful run over a class set leaves behind. *)
Lemma SpatialGDKGenerateSchemaForClasses_inv (Classes : list UClass)
  (SchemaOutputPath : FString) (env : Env) (st : GeneratorState) (world : World)
  st' world' :
  SpatialGDKGenerateSchemaForClasses Classes SchemaOutputPath env st world
  = Ok (true, st', world') ->
  exists added,
    CollectTypeInfos (Sort_by UClass_PathName Classes) [] (ResetUsedNames st)
    = (map CreateUnrealTypeInfo added,
       set_SchemaGeneratedClasses (SchemaGeneratedClasses st ++ added)
         (ResetUsedNames st))
    /\ ClassPathToSchemaName st'
       = ClassPathToSchemaName
           (snd (ValidateClassNames (map CreateUnrealTypeInfo added) true
                   (set_SchemaGeneratedClasses (SchemaGeneratedClasses st ++ added)
                      (ResetUsedNames st))))
    /\ PotentialSchemaNameCollisions st'
       = PotentialSchemaNameCollisions
           (snd (ValidateClassNames (map CreateUnrealTypeInfo added) true
                   (set_SchemaGeneratedClasses (SchemaGeneratedClasses st ++ added)
                      (ResetUsedNames st))))
    /\ NextAvailableComponentId st <= NextAvailableComponentId st'
    /\ (forall q r,
          TMap_Find FString_eqb q (ActorClassPathToSchema st) = Some r ->
          exists r',
            TMap_Find FString_eqb q (ActorClassPathToSchema st') = Some r'
            /\ ComponentsKept (Actor_SchemaComponents r) (Actor_SchemaComponents r'))
    /\ (forall q id,
          In id (ClassComponentIds st' q) ->
          In id (ClassComponentIds st q)
          \/ NextAvailableComponentId st <= id < NextAvailableComponentId st')
    /\ (forall c, In c added -> HasSchema st' (UClass_PathName c) = true)
    /\ (forall P Q,
          FString_eqb P Q = false ->
          ClassComponentIds st P = [] -> ClassComponentIds st Q = [] ->
          forall id, In id (ClassComponentIds st' P) ->
                     ~ In id (ClassComponentIds st' Q))
    /\ LevelPathToComponentId st' = LevelPathToComponentId st
    /\ NetCullDistanceToComponentId st' = NetCullDistanceToComponentId st
    /\ (forall c, In c Classes ->
                  TSet_Contains UClass_eqb c (SchemaGeneratedClasses st ++ added) = true)
    /\ NoDup (map UClass_PathName added)
    /\ (forall c, In c added ->
                  TSet_Contains UClass_eqb c (SchemaGeneratedClasses st) = false)
    /\ (forall c Rest,
          Sort_by UClass_PathName Classes = c :: Rest ->
          TSet_Contains UClass_eqb c (SchemaGeneratedClasses st) = false ->
          exists added',
            added = c :: added'
            /\ incl added' (UClass_ObjectGraph c ++ Rest
                            ++ flat_map UClass_ObjectGraph Rest))
    /\ incl added (Classes ++ flat_map UClass_ObjectGraph Classes)
    /\ (forall q,
          (forall c, In c added -> FString_eqb q (UClass_PathName c) = false) ->
          TMap_Find FString_eqb q (ActorClassPathToSchema st')
          = TMap_Find FString_eqb q (ActorClassPathToSchema st)
          /\ TMap_Find FString_eqb q (SubobjectClassPathToSchema st')
             = TMap_Find FString_eqb q (SubobjectClassPathToSchema st))
    /\ (ClassPathsApart Classes ->
        (forall q r,
           TMap_Find FString_eqb q (ActorClassPathToSchema st) = Some r ->
           exists r',
             TMap_Find FString_eqb q (ActorClassPathToSchema st') = Some r'
             /\ ActorRecordKept r r')
        /\ (forall q r,
              TMap_Find FString_eqb q (SubobjectClassPathToSchema st) = Some r ->
              exists r',
                TMap_Find FString_eqb q (SubobjectClassPathToSchema st') = Some r'
                /\ SubobjectRecordKept r r')
        /\ (forall c, In c added -> ClassRecordShape c st')).
Proof.
  unfold SpatialGDKGenerateSchemaForClasses. intros H.
  destruct (CollectTypeInfos_added (Sort_by UClass_PathName Classes) []
              (ResetUsedNames st)) as (added & EC & CI & CK & CN & CF & CH).
  rewrite ResetUsedNames_SchemaGeneratedClasses in EC, CK, CF, CH. cbn [app] in EC.
  rewrite EC in H. exists added. split; [exact EC|].
  set (Ts := map CreateUnrealTypeInfo added) in *.
  set (st2 := set_SchemaGeneratedClasses _ (ResetUsedNames st)) in *.
  destruct (ValidateIdentifierNames_names Ts st2) as (LN & DV & _).
  destruct (ValidateIdentifierNames Ts st2) as [bValid st3]. cbn [snd] in LN, DV.
  destruct bValid; cbn [negb] in H; [|discriminate].
  destruct (Env_CollapseRelativeDirectories env _) as [Path2|]; [|discriminate].
  match type of H with
  | bind (GenerateSchemaFromClasses Ts Path2 _ env ?s4 world) _ = _ =>
      set (st4 := s4) in *
  end.
  destruct (GenerateSchemaFromClasses Ts Path2
              (mkGenerator (NextAvailableComponentId st4)) env st4 world)
    as [e|[[g st5] world1]] eqn:EG; [discriminate|].
  cbn [bind] in H. injection H as <- _.
  assert (D4 : SameDatabase st st4).
  { destruct (ResetUsedNames_tables st) as (D1 & _).
    assert (D2 : SameDatabase (ResetUsedNames st) st2)
      by (subst st2; unfold SameDatabase; cbn; auto 10).
    assert (D3 : SameDatabase st3 st4)
      by (subst st4; unfold SameDatabase; cbn; auto 10).
    exact (SameDatabase_trans _ _ _ D1
             (SameDatabase_trans _ _ _ D2 (SameDatabase_trans _ _ _ DV D3))). }
  assert (N4 : ClassPathToSchemaName st4
               = ClassPathToSchemaName (snd (ValidateClassNames Ts true st2))
               /\ PotentialSchemaNameCollisions st4
                  = PotentialSchemaNameCollisions (snd (ValidateClassNames Ts true st2))).
  { destruct LN as (A & _ & C & _). subst st4. cbn. auto. }
  pose proof (GenerateSchemaFromClasses_inv _ _ _ _ _ _ _ _ _ EG)
    as (M & S & A & I & _ & HT).
  pose proof D4 as (DA & DS & DN & _).
  cbn [CurrentId FComponentIdGenerator_Peek fst] in *.
  assert (Ids : forall s q,
             ClassComponentIds (set_NextAvailableComponentId s st5) q
             = ClassComponentIds st5 q) by reflexivity.
  assert (CI' : incl added (Classes ++ flat_map UClass_ObjectGraph Classes)).
  { intros x Hx. apply CI in Hx. rewrite in_app_iff in Hx |- *.
    destruct Hx as [Hx|Hx].
    - left. eapply Permutation_in; [apply Sort_by_Permutation | exact Hx].
    - right. eapply flat_map_Permutation_In; [apply Sort_by_Permutation | exact Hx]. }
  destruct S as (S1 & _ & S3 & _ & _ & S6 & S7).
  cbn [ClassPathToSchemaName PotentialSchemaNameCollisions NextAvailableComponentId
       ActorClassPathToSchema SubobjectClassPathToSchema
       LevelPathToComponentId NetCullDistanceToComponentId
       set_NextAvailableComponentId].
  conj_split.
  - rewrite S1. tauto.
  - rewrite S3. tauto.
  - lia.
  - intros q r Hr. apply A. rewrite DA. exact Hr.
  - intros q id Hid. rewrite Ids in Hid. apply I in Hid.
    rewrite (proj1 (ClassComponentIds_SameDatabase _ _ q D4)) in Hid.
    destruct Hid as [Hid|Hid]; [now left | right; lia].
  - intros c Hc. unfold HasSchema. cbn.
    apply (HT (CreateUnrealTypeInfo c)). subst Ts. now apply in_map.
  - intros P Q NE EP EQ id. rewrite !Ids.
    apply (GenerateSchemaFromClasses_disjoint Ts Path2 env P Q
             (NextAvailableComponentId st4) NE _ _ _ _ _ _ EG).
    + cbn. lia.
    + intros x. rewrite (proj1 (ClassComponentIds_SameDatabase _ _ P D4)), EP.
      intros [].
    + intros x. rewrite (proj1 (ClassComponentIds_SameDatabase _ _ Q D4)), EQ.
      intros [].
    + intros x. rewrite (proj1 (ClassComponentIds_SameDatabase _ _ P D4)), EP.
      intros [].
  - destruct D4 as (_ & _ & _ & _ & D5 & _). congruence.
  - destruct D4 as (_ & _ & _ & _ & _ & D6). congruence.
  - intros c Hc. apply CK.
    eapply Permutation_in; [symmetry; apply Sort_by_Permutation | exact Hc].
  - exact CN.
  - exact CF.
  - exact CH.
  - exact CI'.
  - intros q Hq. rewrite <- DA, <- DS.
    apply (GenerateSchemaFromClasses_untouched Ts Path2 env q)
      with (g := mkGenerator (NextAvailableComponentId st4)) (world := world)
           (g' := g) (world' := world1); [|exact EG].
    apply Forall_forall. intros T HTs. subst Ts. apply in_map_iff in HTs.
    destruct HTs as (c & <- & Hc). now apply Hq.
  - intros HApart.
    pose proof (ClassPathsApart_added Classes added HApart CI' CN) as HP.
    destruct (GenerateSchemaFromClasses_kept Ts Path2 env HP _ _ _ _ _ _ EG)
      as (KA & KS & KT).
    conj_split.
    + intros q r Hr. apply KA. rewrite DA. exact Hr.
    + intros q r Hr. apply KS. rewrite DS. exact Hr.
    + intros c Hc.
      assert (X : ClassRecordShape (TypeInfo_Type (CreateUnrealTypeInfo c)) st5).
      { apply KT. subst Ts. now apply in_map. }
      exact X.
Qed.


Lemma LoadGeneratorStateFromSchemaDatabase_loaded (world : World)
  (st0 st : GeneratorState) (File : FDatabaseFile) (SchemaDatabase : USchemaDatabase) :
  World_DatabaseFile world = Some File ->
  DatabaseFile_Asset File = Some SchemaDatabase ->
  LoadGeneratorStateFromSchemaDatabase world st0 = (true, st) ->
  ActorClassPathToSchema st = DB_ActorClassPathToSchema SchemaDatabase
  /\ SubobjectClassPathToSchema st = DB_SubobjectClassPathToSchema SchemaDatabase
  /\ NextAvailableComponentId st = DB_NextAvailableComponentId SchemaDatabase
  /\ LevelPathToComponentId st = DB_LevelPathToComponentId SchemaDatabase
  /\ NetCullDistanceToComponentId st = DB_NetCullDistanceToComponentId SchemaDatabase
  /\ SchemaGeneratedClasses st = SchemaGeneratedClasses st0.
Proof.
  intros HF HA. unfold LoadGeneratorStateFromSchemaDatabase, IsAssetReadOnly.
  rewrite HF. destruct (DatabaseFile_bIsReadOnly File); [discriminate|].
  rewrite HA.
  match goal with |- context [if ?c then _ else _] => destruct c end;
    [discriminate|].
  intros H. injection H as <-. cbn. auto 10.
Qed.

Lemma DatabaseComponentIds_class (SchemaDatabase : USchemaDatabase)
  (st : GeneratorState) (q : FString) (id : Z) :
  ActorClassPathToSchema st = DB_ActorClassPathToSchema SchemaDatabase ->
  SubobjectClassPathToSchema st = DB_SubobjectClassPathToSchema SchemaDatabase ->
  In id (ClassComponentIds st q) -> In id (DatabaseComponentIds SchemaDatabase).
Proof.
  intros EA ES. unfold ClassComponentIds, DatabaseComponentIds.
  rewrite EA, ES, !in_app_iff. intros [H|H].
  - destruct (TMap_Find FString_eqb q (DB_ActorClassPathToSchema SchemaDatabase))
      as [d|] eqn:F; [|destruct H].
    apply (TMap_Find_Some_In FString_eqb) in F. destruct F as (q' & F & _).
    left. apply in_flat_map. now exists (q', d).
  - destruct (TMap_Find FString_eqb q (DB_SubobjectClassPathToSchema SchemaDatabase))
      as [d|] eqn:F; [|destruct H].
    apply (TMap_Find_Some_In FString_eqb) in F. destruct F as (q' & F & _).
    right. left. apply in_flat_map. now exists (q', d).
Qed.

(** C1.  A run that starts from a loaded database and succeeds, over
    classes no two of which have paths that differ in case only: for
    every actor class path of the database, each component id that was
    set stays, the actor's own and those of each static subobject (by
    offset) the record still has; for every subobject class path of the
    database, the ids that were set in each slot for dynamic subobjects
    stay; the records of a path that is the path of no class of the run
    are as they were; a class of the run not generated earlier in the
    session is left with a record that has an entry for each of its
    static subobjects, or a slot for each dynamic subobject allowed; and a
    class of the run that the database does not know, and that was not
    generated earlier in the session, ends with a record whose ids are
    all at least the database's NextAvailableComponentId, below the new
    counter, and were held by nothing in the database (whose ids are below
    its NextAvailableComponentId). *)
Theorem C1_loaded_ids_kept_and_new_class_gets_unused_ids :
  forall (env : Env) (world : World) (st0 st : GeneratorState)
         (File : FDatabaseFile) (SchemaDatabase : USchemaDatabase)
         (Classes : list UClass) (SchemaOutputPath : FString) (B : UClass)
         (st' : GeneratorState) (world' : World),
    World_DatabaseFile world = Some File ->
    DatabaseFile_Asset File = Some SchemaDatabase ->
    LoadGeneratorStateFromSchemaDatabase world st0 = (true, st) ->
    ClassPathsApart Classes ->
    In B Classes ->
    TSet_Contains UClass_eqb B (SchemaGeneratedClasses st0) = false ->
    TMap_Find FString_eqb (UClass_PathName B)
      (DB_ActorClassPathToSchema SchemaDatabase) = None ->
    TMap_Find FString_eqb (UClass_PathName B)
      (DB_SubobjectClassPathToSchema SchemaDatabase) = None ->
    (forall id, In id (DatabaseComponentIds SchemaDatabase) ->
                id < DB_NextAvailableComponentId SchemaDatabase) ->
    SpatialGDKGenerateSchemaForClasses Classes SchemaOutputPath env st world
    = Ok (true, st', world') ->
    (forall A rA,
       TMap_Find FString_eqb A (DB_ActorClassPathToSchema SchemaDatabase) = Some rA ->
       exists rA',
         TMap_Find FString_eqb A (ActorClassPathToSchema st') = Some rA'
         /\ ActorRecordKept rA rA')
    /\ (forall S rS,
          TMap_Find FString_eqb S (DB_SubobjectClassPathToSchema SchemaDatabase)
          = Some rS ->
          exists rS',
            TMap_Find FString_eqb S (SubobjectClassPathToSchema st') = Some rS'
            /\ SubobjectRecordKept rS rS')
    /\ (forall ClassPath,
          (forall Class,
             In Class (Classes ++ flat_map UClass_ObjectGraph Classes) ->
             FString_eqb ClassPath (UClass_PathName Class) = false) ->
          TMap_Find FString_eqb ClassPath (ActorClassPathToSchema st')
          = TMap_Find FString_eqb ClassPath (DB_ActorClassPathToSchema SchemaDatabase)
          /\ TMap_Find FString_eqb ClassPath (SubobjectClassPathToSchema st')
             = TMap_Find FString_eqb ClassPath
                 (DB_SubobjectClassPathToSchema SchemaDatabase))
    /\ (forall Class,
          In Class Classes ->
          TSet_Contains UClass_eqb Class (SchemaGeneratedClasses st0) = false ->
          (forall Other,
             In Other (Classes ++ flat_map UClass_ObjectGraph Classes) ->
             UClass_PathName Other = UClass_PathName Class -> Other = Class) ->
          ClassRecordShape Class st')
    /\ HasSchema st' (UClass_PathName B) = true
    /\ (forall id,
          In id (ClassComponentIds st' (UClass_PathName B)) ->
          DB_NextAvailableComponentId SchemaDatabase <= id
          /\ id < NextAvailableComponentId st'
          /\ ~ In id (DatabaseComponentIds SchemaDatabase)).
Proof.
  intros env world st0 st File SchemaDatabase Classes SchemaOutputPath B st' world'
         HF HA HL HApart HB HG HBA HBS HWF HRun.
  destruct (LoadGeneratorStateFromSchemaDatabase_loaded _ _ _ _ _ HF HA HL)
    as (EA & ES & EN & _ & _ & EG).
  destruct (SpatialGDKGenerateSchemaForClasses_inv _ _ _ _ _ _ _ HRun)
    as (added & _ & _ & _ & HM & _ & HI & HT & _ & _ & _ & CK & _ & _ & _ & CI
        & HU & HKept).
  destruct (HKept HApart) as (KA & KS & KShape).
  assert (HB0 : ClassComponentIds st (UClass_PathName B) = []).
  { unfold ClassComponentIds. now rewrite EA, ES, HBA, HBS. }
  assert (HAdded : forall Class,
             In Class Classes ->
             TSet_Contains UClass_eqb Class (SchemaGeneratedClasses st0) = false ->
             exists c, In c added /\ UClass_PathName c = UClass_PathName Class).
  { intros Class HC HN. specialize (CK Class HC). rewrite TSet_Contains_app in CK.
    rewrite EG, HN in CK. cbn [orb] in CK.
    apply TSet_Contains_exists in CK. destruct CK as (c & Hc & Ec).
    apply UClass_eqb_path in Ec. exists c. split; [exact Hc | now symmetry]. }
  conj_split.
  - intros A rA HrA. apply KA. now rewrite EA.
  - intros S rS HrS. apply KS. now rewrite ES.
  - intros q Hq. rewrite <- EA, <- ES. apply HU.
    intros c Hc. apply Hq. now apply CI.
  - intros Class HC HN HId. destruct (HAdded Class HC HN) as (c & Hc & Ec).
    rewrite <- (HId c (CI c Hc) Ec). now apply KShape.
  - destruct (HAdded B HB HG) as (c & Hc & Ec). rewrite <- Ec. now apply HT.
  - intros id Hid. apply HI in Hid. rewrite HB0, EN in Hid.
    destruct Hid as [[]|Hid].
    conj_split; [lia | lia |].
    intros HD. apply HWF in HD. lia.
Qed.
(** ** The path order, and classes whose names collide *)





(** ** The log is write-only

    No function of the generator reads the log: run from two states that
    differ at most in their logs, each returns the same value and leaves
    states that differ at most in their logs. *)

Lemma SameButLog_sym s1 s2 : SameButLog s1 s2 -> SameButLog s2 s1.
Proof. unfold SameButLog, SameDatabase. intuition congruence. Qed.

Ltac same_fields s1 s2 H :=
  unfold SameButLog, SameDatabase in H; destruct s1, s2; cbn in H;
  destruct H as (? & ? & ? & ? & ? & ? & ? & ? & ? & ?); subst.

Ltac same_done :=
  repeat split; unfold SameButLog, SameDatabase; cbn; auto 12.

Lemma UE_LOG_respects e1 e2 s1 s2 :
  SameButLog s1 s2 -> SameButLog (UE_LOG e1 s1) (UE_LOG e2 s2).
Proof. intros H. same_fields s1 s2 H. same_done. Qed.

Lemma AddPotentialNameCollision_respects D P G s1 s2 :
  SameButLog s1 s2 ->
  SameButLog (AddPotentialNameCollision D P G s1) (AddPotentialNameCollision D P G s2).
Proof. intros H. same_fields s1 s2 H. same_done. Qed.

Lemma ResolveClassPathToSchemaName_respects P N s1 s2 :
  SameButLog s1 s2 ->
  SameButLog (ResolveClassPathToSchemaName P N s1) (ResolveClassPathToSchemaName P N s2).
Proof.
  intros H. same_fields s1 s2 H. unfold ResolveClassPathToSchemaName.
  destruct (FString_IsEmpty N); [same_done|].
  cbn. destruct (FString_eqb _ N); same_done.
Qed.

Lemma fold_left_respects {X : Type} (G : GeneratorState -> X -> GeneratorState)
  (l : list X) :
  (forall x s1 s2, SameButLog s1 s2 -> SameButLog (G s1 x) (G s2 x)) ->
  forall s1 s2, SameButLog s1 s2 -> SameButLog (fold_left G l s1) (fold_left G l s2).
Proof.
  intros HG. induction l as [|x l IH]; intros s1 s2 H; cbn; [exact H|].
  apply IH, HG, H.
Qed.

Lemma fold_left_RespectsLog {X B : Type}
  (F : X -> B -> GeneratorState -> B * GeneratorState) (l : list X) :
  (forall x b, RespectsLog (F x b)) ->
  forall b,
    RespectsLog (fun st => fold_left (fun acc x => F x (fst acc) (snd acc)) l (b, st)).
Proof.
  intros HF. induction l as [|x l IH]; intros b s1 s2 H; cbn.
  - split; [reflexivity | exact H].
  - destruct (HF x b s1 s2 H) as [HB HS].
    destruct (F x b s1) as [b1 t1], (F x b s2) as [b2 t2]. cbn in HB, HS. subst b2.
    apply (IH b1 t1 t2 HS).
Qed.

Lemma ResetUsedNames_respects s1 s2 :
  SchemaGeneratedClasses s2 = SchemaGeneratedClasses s1 ->
  SameDatabase s1 s2 ->
  SameButLog (ResetUsedNames s1) (ResetUsedNames s2).
Proof.
  intros HG H. unfold ResetUsedNames.
  assert (H0 : SameButLog
                 (set_PotentialSchemaNameCollisions []
                    (set_SchemaNameToClassPath [] (set_ClassPathToSchemaName [] s1)))
                 (set_PotentialSchemaNameCollisions []
                    (set_SchemaNameToClassPath [] (set_ClassPathToSchemaName [] s2)))).
  { unfold SameDatabase in H. destruct s1, s2. cbn in H, HG.
    destruct H as (? & ? & ? & ? & ? & ?). subst. same_done. }
  cbv zeta.
  set (t1 := set_PotentialSchemaNameCollisions []
               (set_SchemaNameToClassPath [] (set_ClassPathToSchemaName [] s1))) in *.
  set (t2 := set_PotentialSchemaNameCollisions []
               (set_SchemaNameToClassPath [] (set_ClassPathToSchemaName [] s2))) in *.
  assert (EA : ActorClassPathToSchema t2 = ActorClassPathToSchema t1) by apply H0.
  rewrite EA.
  set (G1 := fun s Entry => ResolveClassPathToSchemaName (fst Entry)
                              (Actor_GeneratedSchemaName (snd Entry)) s).
  assert (H1 : SameButLog (fold_left G1 (ActorClassPathToSchema t1) t1)
                 (fold_left G1 (ActorClassPathToSchema t1) t2)).
  { apply fold_left_respects; [|exact H0].
    intros x a b. apply ResolveClassPathToSchemaName_respects. }
  set (u1 := fold_left G1 (ActorClassPathToSchema t1) t1) in *.
  set (u2 := fold_left G1 (ActorClassPathToSchema t1) t2) in *.
  assert (ES : SubobjectClassPathToSchema u2 = SubobjectClassPathToSchema u1)
    by apply H1.
  rewrite ES.
  apply fold_left_respects; [|exact H1].
  intros x a b. apply ResolveClassPathToSchemaName_respects.
Qed.

Lemma CheckSchemaNameValidity_respects Name Identifier Category :
  RespectsLog (CheckSchemaNameValidity Name Identifier Category).
Proof.
  intros s1 s2 H. unfold CheckSchemaNameValidity.
  destruct (FString_IsEmpty Name);
    [split; [reflexivity | now apply UE_LOG_respects]|].
  destruct (FString_StartsWithDigit Name);
    [split; [reflexivity | now apply UE_LOG_respects]|].
  split; [reflexivity | exact H].
Qed.

Lemma CheckNamesInScope_respects Category CollisionCategory Items :
  forall Names b, RespectsLog (CheckNamesInScope Category CollisionCategory Items Names b).
Proof.
  induction Items as [|[n p] Items IH]; intros Names b s1 s2 H; cbn.
  - split; [reflexivity | exact H].
  - destruct (CheckSchemaNameValidity_respects n p Category s1 s2 H) as [HB HS].
    destruct (CheckSchemaNameValidity n p Category s1) as [b1 t1],
             (CheckSchemaNameValidity n p Category s2) as [b2 t2].
    cbn in HB, HS. subst b2.
    destruct (TMap_Find FString_eqb n Names).
    + apply IH. now apply UE_LOG_respects.
    + apply IH. exact HS.
Qed.

Lemma CheckIdentifierNameValidity_respects TypeInfo b :
  RespectsLog (CheckIdentifierNameValidity TypeInfo b).
Proof.
  intros s1 s2 H. unfold CheckIdentifierNameValidity.
  pose proof (fold_left_RespectsLog
                (fun Group b0 st =>
                   CheckNamesInScope "Replicated property" "Replicated property"
                     (ReplicatedDataNames TypeInfo Group) [] b0 st)
                GetAllReplicatedPropertyGroups
                (fun x b0 => CheckNamesInScope_respects _ _ _ [] b0) b s1 s2 H)
    as [HB HS].
  cbv beta in HB, HS.
  destruct (fold_left _ GetAllReplicatedPropertyGroups (b, s1)) as [b1 t1].
  destruct (fold_left _ GetAllReplicatedPropertyGroups (b, s2)) as [b2 t2].
  cbn in HB, HS. subst b2.
  destruct (CheckNamesInScope_respects "Handover property" "Handover data"
              (HandoverDataNames TypeInfo) [] b1 t1 t2 HS) as [HB' HS'].
  destruct (CheckNamesInScope "Handover property" "Handover data" _ [] b1 t1)
    as [b3 t3].
  destruct (CheckNamesInScope "Handover property" "Handover data" _ [] b1 t2)
    as [b4 t4].
  cbn in HB', HS'. subst b4.
  now apply CheckNamesInScope_respects.
Qed.

Lemma ValidateClassName_respects TypeInfo b :
  RespectsLog (ValidateClassName TypeInfo b).
Proof.
  intros s1 s2 H. unfold ValidateClassName. cbv zeta.
  destruct (CheckSchemaNameValidity_respects
              (UnrealNameToSchemaName (UClass_Name (TypeInfo_Type TypeInfo)) true)
              (UClass_PathName (TypeInfo_Type TypeInfo)) "Class" s1 s2 H) as [HB HS].
  destruct (CheckSchemaNameValidity _ _ "Class" s1) as [b1 t1].
  destruct (CheckSchemaNameValidity _ _ "Class" s2) as [b2 t2].
  cbn in HB, HS. subst b2. same_fields t1 t2 HS. cbn.
  destruct (TMap_Contains FString_eqb _ _); [same_done|].
  destruct (FString_eqb _ _); same_done.
Qed.

Lemma ValidateIdentifierNames_respects TypeInfos :
  RespectsLog (ValidateIdentifierNames TypeInfos).
Proof.
  intros s1 s2 H. unfold ValidateIdentifierNames, ValidateClassNames.
  destruct (fold_left_RespectsLog ValidateClassName TypeInfos
              ValidateClassName_respects true s1 s2 H) as [HB HS].
  cbv beta in HB, HS.
  destruct (fold_left _ TypeInfos (true, s1)) as [b1 t1].
  destruct (fold_left _ TypeInfos (true, s2)) as [b2 t2].
  cbn in HB, HS. subst b2.
  apply (fold_left_RespectsLog CheckIdentifierNameValidity TypeInfos
           CheckIdentifierNameValidity_respects b1).
  unfold LogClassNameCollisions.
  assert (EP : PotentialSchemaNameCollisions t2 = PotentialSchemaNameCollisions t1)
    by apply HS.
  rewrite EP. apply fold_left_respects; [|exact HS].
  intros x a c Hac. destruct (1 <? List.length (snd x))%nat; [|exact Hac].
  now apply UE_LOG_respects.
Qed.

Lemma VisitNestedClasses_respects Nested :
  forall TypeInfos, RespectsLog (VisitNestedClasses Nested TypeInfos).
Proof.
  induction Nested as [|c Nested IH]; intros TypeInfos s1 s2 H; cbn.
  - split; [reflexivity | exact H].
  - assert (EG : SchemaGeneratedClasses s2 = SchemaGeneratedClasses s1) by apply H.
    rewrite EG.
    destruct (negb (TSet_Contains UClass_eqb c (SchemaGeneratedClasses s1))
              && IsSupportedClass c); apply IH; [|exact H].
    same_fields s1 s2 H. same_done.
Qed.

Lemma CollectTypeInfos_respects Classes :
  forall TypeInfos, RespectsLog (CollectTypeInfos Classes TypeInfos).
Proof.
  induction Classes as [|c Classes IH]; intros TypeInfos s1 s2 H; cbn.
  - split; [reflexivity | exact H].
  - assert (EG : SchemaGeneratedClasses s2 = SchemaGeneratedClasses s1) by apply H.
    rewrite EG.
    destruct (TSet_Contains UClass_eqb c (SchemaGeneratedClasses s1));
      [apply IH; exact H|].
    assert (H1 : SameButLog
                   (set_SchemaGeneratedClasses (SchemaGeneratedClasses s1 ++ [c]) s1)
                   (set_SchemaGeneratedClasses (SchemaGeneratedClasses s1 ++ [c]) s2)).
    { same_fields s1 s2 H. same_done. }
    destruct (VisitNestedClasses_respects
                (VisitAllObjects (CreateUnrealTypeInfo c))
                (TypeInfos ++ [CreateUnrealTypeInfo c]) _ _ H1) as [HB HS].
    destruct (VisitNestedClasses _ _
                (set_SchemaGeneratedClasses (SchemaGeneratedClasses s1 ++ [c]) s1))
      as [T1 t1].
    destruct (VisitNestedClasses _ _
                (set_SchemaGeneratedClasses (SchemaGeneratedClasses s1 ++ [c]) s2))
      as [T2 t2].
    cbn in HB, HS. subst T2. apply IH. exact HS.
Qed.

Lemma RegisterSchemaComponents_respects Components s1 s2 :
  SameButLog s1 s2 ->
  SameButLog (RegisterSchemaComponents Components s1)
    (RegisterSchemaComponents Components s2).
Proof.
  intros H. unfold RegisterSchemaComponents.
  apply fold_left_respects; [|exact H].
  intros x a b Hab. unfold RegisteredComponents.
  same_fields a b Hab. same_done.
Qed.

Lemma SameOutcome_Ok {X : Type} (x : X) s1 s2 (w : World) :
  SameButLog s1 s2 -> SameOutcome (Ok (x, s1, w)) (Ok (x, s2, w)).
Proof. intros H. cbn. auto. Qed.

Lemma GenerateActorSchema_respects IdGenerator Class TypeInfo SchemaPath env world s1 s2 :
  SameButLog s1 s2 ->
  SameOutcome (GenerateActorSchema IdGenerator Class TypeInfo SchemaPath env s1 world)
    (GenerateActorSchema IdGenerator Class TypeInfo SchemaPath env s2 world).
Proof.
  intros H. unfold GenerateActorSchema. cbv zeta.
  assert (EA : ActorClassPathToSchema s2 = ActorClassPathToSchema s1) by apply H.
  assert (EN : ClassPathToSchemaName s2 = ClassPathToSchemaName s1) by apply H.
  rewrite EA, EN.
  destruct (AssignSchemaComponents _ IdGenerator) as [e|[Components g1]];
    [reflexivity|].
  unfold Ok. cbn [bind].
  destruct (AssignActorSubobjects _ _ g1) as [e|[SubobjectData g2]];
    [reflexivity|].
  unfold Ok. cbn [bind].
  destruct (Writer_WriteToFile _ _ env world) as [e|world1]; [reflexivity|].
  cbn [bind]. apply SameOutcome_Ok.
  set (G := fun s (Entry : Z * FActorSpecificSubobjectSchemaData) =>
              RegisterSchemaComponents (ActorSubobject_SchemaComponents (snd Entry)) s).
  assert (H1 : SameButLog
                 (fold_left G SubobjectData (RegisterSchemaComponents Components s1))
                 (fold_left G SubobjectData (RegisterSchemaComponents Components s2))).
  { apply fold_left_respects.
    - intros x a b. apply RegisterSchemaComponents_respects.
    - now apply RegisterSchemaComponents_respects. }
  set (t1 := fold_left G SubobjectData (RegisterSchemaComponents Components s1)) in *.
  set (t2 := fold_left G SubobjectData (RegisterSchemaComponents Components s2)) in *.
  clearbody t1 t2. same_fields t1 t2 H1. same_done.
Qed.

Lemma GenerateSubobjectSchema_respects IdGenerator Class TypeInfo SchemaPath env world
  s1 s2 :
  SameButLog s1 s2 ->
  SameOutcome (GenerateSubobjectSchema IdGenerator Class TypeInfo SchemaPath env s1 world)
    (GenerateSubobjectSchema IdGenerator Class TypeInfo SchemaPath env s2 world).
Proof.
  intros H. unfold GenerateSubobjectSchema. cbv zeta.
  assert (EA : SubobjectClassPathToSchema s2 = SubobjectClassPathToSchema s1)
    by apply H.
  assert (EN : ClassPathToSchemaName s2 = ClassPathToSchemaName s1) by apply H.
  rewrite EA, EN.
  destruct (AssignDynamicSubobjects _ _ IdGenerator) as [e|[DynamicData g1]];
    [reflexivity|].
  unfold Ok. cbn [bind].
  destruct (Writer_WriteToFile _ _ env world) as [e|world1]; [reflexivity|].
  cbn [bind]. apply SameOutcome_Ok.
  set (G := fun s (Data : FDynamicSubobjectSchemaData) =>
              RegisterSchemaComponents (Dynamic_SchemaComponents Data) s).
  assert (H1 : SameButLog (fold_left G DynamicData s1) (fold_left G DynamicData s2)).
  { apply fold_left_respects; [|exact H].
    intros x a b. apply RegisterSchemaComponents_respects. }
  set (t1 := fold_left G DynamicData s1) in *.
  set (t2 := fold_left G DynamicData s2) in *.
  clearbody t1 t2. same_fields t1 t2 H1. same_done.
Qed.

Lemma GenerateSchemaFromClasses_respects TypeInfos CombinedSchemaPath env :
  forall IdGenerator world s1 s2,
    SameButLog s1 s2 ->
    SameOutcome
      (GenerateSchemaFromClasses TypeInfos CombinedSchemaPath IdGenerator env s1 world)
      (GenerateSchemaFromClasses TypeInfos CombinedSchemaPath IdGenerator env s2 world).
Proof.
  induction TypeInfos as [|T TypeInfos IH]; intros g world s1 s2 H;
    cbn [GenerateSchemaFromClasses].
  - now apply SameOutcome_Ok.
  - assert (HC : SameOutcome
                   (GenerateCompleteSchemaFromClass CombinedSchemaPath g T env s1 world)
                   (GenerateCompleteSchemaFromClass CombinedSchemaPath g T env s2 world)).
    { unfold GenerateCompleteSchemaFromClass. cbv zeta.
      destruct (UClass_IsActor (TypeInfo_Type T));
        [now apply GenerateActorSchema_respects
        | now apply GenerateSubobjectSchema_respects]. }
    destruct (GenerateCompleteSchemaFromClass CombinedSchemaPath g T env s1 world)
      as [e1|[[g1 t1] w1]],
      (GenerateCompleteSchemaFromClass CombinedSchemaPath g T env s2 world)
      as [e2|[[g2 t2] w2]]; cbn in HC; try contradiction.
    + cbn. exact HC.
    + destruct HC as (-> & HS & ->). cbn [bind]. now apply IH.
Qed.

Lemma SpatialGDKGenerateSchemaForClasses_respects Classes SchemaOutputPath env world
  s1 s2 :
  SchemaGeneratedClasses s2 = SchemaGeneratedClasses s1 ->
  SameDatabase s1 s2 ->
  SameOutcome (SpatialGDKGenerateSchemaForClasses Classes SchemaOutputPath env s1 world)
    (SpatialGDKGenerateSchemaForClasses Classes SchemaOutputPath env s2 world).
Proof.
  intros HC H. unfold SpatialGDKGenerateSchemaForClasses. cbv zeta.
  pose proof (ResetUsedNames_respects _ _ HC H) as H1.
  destruct (CollectTypeInfos_respects (Sort_by UClass_PathName Classes) [] _ _ H1)
    as [HB HS].
  destruct (CollectTypeInfos _ [] (ResetUsedNames s1)) as [T1 t1].
  destruct (CollectTypeInfos _ [] (ResetUsedNames s2)) as [T2 t2].
  cbn in HB, HS. subst T2.
  destruct (ValidateIdentifierNames_respects T1 _ _ HS) as [HB' HS'].
  destruct (ValidateIdentifierNames T1 t1) as [b1 u1].
  destruct (ValidateIdentifierNames T1 t2) as [b2 u2].
  cbn in HB', HS'. subst b2.
  destruct b1; cbn [negb]; [|now apply SameOutcome_Ok].
  destruct (Env_CollapseRelativeDirectories env _) as [Path2|].
  - pose proof (UE_LOG_respects
                  (Display_SchemaPath
                     (if FString_IsEmpty SchemaOutputPath
                      then Env_GeneratedSchemaOutputFolder env
                      else SchemaOutputPath))
                  (Display_SchemaPath
                     (if FString_IsEmpty SchemaOutputPath
                      then Env_GeneratedSchemaOutputFolder env
                      else SchemaOutputPath)) _ _ HS') as HL.
    assert (EN : NextAvailableComponentId (UE_LOG (Display_SchemaPath
                     (if FString_IsEmpty SchemaOutputPath
                      then Env_GeneratedSchemaOutputFolder env
                      else SchemaOutputPath)) u2)
                 = NextAvailableComponentId (UE_LOG (Display_SchemaPath
                     (if FString_IsEmpty SchemaOutputPath
                      then Env_GeneratedSchemaOutputFolder env
                      else SchemaOutputPath)) u1)) by apply HL.
    rewrite EN.
    pose proof (GenerateSchemaFromClasses_respects T1 Path2 env
                  (mkGenerator (NextAvailableComponentId (UE_LOG (Display_SchemaPath
                     (if FString_IsEmpty SchemaOutputPath
                      then Env_GeneratedSchemaOutputFolder env
                      else SchemaOutputPath)) u1))) world _ _ HL) as HG.
    destruct (GenerateSchemaFromClasses T1 Path2 _ env (UE_LOG _ u1) world)
      as [e1|[[g1 v1] w1]],
      (GenerateSchemaFromClasses T1 Path2 _ env (UE_LOG _ u2) world)
      as [e2|[[g2 v2] w2]]; cbn in HG; try contradiction.
    + cbn. exact HG.
    + destruct HG as (-> & HV & ->). cbn [bind]. apply SameOutcome_Ok.
      same_fields v1 v2 HV. same_done.
  - apply SameOutcome_Ok. apply UE_LOG_respects. now apply UE_LOG_respects.
Qed.

(** ** Sorting by path has one result per set of classes *)

Lemma InKeyOrder_unique {A : Type} (key : A -> FString) (l1 : list A) :
  forall l2,
    (forall a b, In a l1 -> In b l1 -> FString_eqb (key a) (key b) = true -> a = b) ->
    InKeyOrder key l1 -> InKeyOrder key l2 ->
    Permutation l1 l2 -> l1 = l2.
Proof.
  unfold InKeyOrder.
  induction l1 as [|a l1 IH]; intros l2 HA S1 S2 HP.
  - apply Permutation_nil in HP. now subst.
  - destruct l2 as [|b l2]; [symmetry in HP; now apply Permutation_nil in HP|].
    inversion S1 as [|? ? S1' F1]; subst. inversion S2 as [|? ? S2' F2]; subst.
    rewrite Forall_forall in F1, F2.
    assert (E : a = b).
    { assert (Ha : In a (b :: l2))
        by (eapply Permutation_in; [exact HP | now left]).
      assert (Hb : In b (a :: l1))
        by (eapply Permutation_in; [symmetry; exact HP | now left]).
      destruct Ha as [Ha|Ha]; [now symmetry|].
      destruct Hb as [Hb|Hb]; [exact Hb|].
      pose proof (F1 _ Hb) as L1. pose proof (F2 _ Ha) as L2.
      apply HA; [now left | now right |].
      destruct (FString_eqb (key a) (key b)) eqn:E; [reflexivity|].
      destruct (FString_lt_total _ _ E); congruence. }
    subst b. f_equal. apply IH; [| exact S1' | exact S2' |].
    + intros x y Hx Hy. apply HA; now right.
    + now apply Permutation_cons_inv in HP.
Qed.

Lemma Sort_by_unique {A : Type} (key : A -> FString) (l1 l2 : list A) :
  Permutation l1 l2 ->
  (forall a b, In a l1 -> In b l1 -> FString_eqb (key a) (key b) = true -> a = b) ->
  Sort_by key l1 = Sort_by key l2.
Proof.
  intros HP HA. apply (InKeyOrder_unique key).
  - intros a b Ha Hb. apply HA.
    + eapply Permutation_in; [apply Sort_by_Permutation | exact Ha].
    + eapply Permutation_in; [apply Sort_by_Permutation | exact Hb].
  - apply Sort_by_InKeyOrder.
  - apply Sort_by_InKeyOrder.
  - rewrite !Sort_by_Permutation. exact HP.
Qed.

(** C7.  Two runs over the same set of classes, no two of which have
    paths that are the same when case is ignored, given in any two
    orders, each from a state that [ResetSchemaGeneratorState] emptied
    (whatever the session held before), with the same environment and
    files: both fail alike, or both return the same flag, leave the same
    schema files and database file, and states equal in every field but
    the log, so every class path has the same component ids in both. *)
Theorem C7_runs_from_an_empty_database_agree :
  forall (env : Env) (world : World) (st1 st2 : GeneratorState)
         (Classes1 Classes2 : list UClass) (SchemaOutputPath : FString),
    Permutation Classes1 Classes2 ->
    (forall Class1 Class2,
       In Class1 Classes1 -> In Class2 Classes1 ->
       FString_eqb (UClass_PathName Class1) (UClass_PathName Class2) = true ->
       Class1 = Class2) ->
    SameOutcome
      (SpatialGDKGenerateSchemaForClasses Classes1 SchemaOutputPath env
         (ResetSchemaGeneratorState st1) world)
      (SpatialGDKGenerateSchemaForClasses Classes2 SchemaOutputPath env
         (ResetSchemaGeneratorState st2) world)
    /\ (forall b1 s1 w1 b2 s2 w2,
          SpatialGDKGenerateSchemaForClasses Classes1 SchemaOutputPath env
            (ResetSchemaGeneratorState st1) world = Ok (b1, s1, w1) ->
          SpatialGDKGenerateSchemaForClasses Classes2 SchemaOutputPath env
            (ResetSchemaGeneratorState st2) world = Ok (b2, s2, w2) ->
          b1 = b2
          /\ World_SchemaFiles w1 = World_SchemaFiles w2
          /\ NextAvailableComponentId s1 = NextAvailableComponentId s2
          /\ forall ClassPath,
               ClassComponentIds s1 ClassPath = ClassComponentIds s2 ClassPath).
Proof.
  intros env world st1 st2 Classes1 Classes2 SchemaOutputPath HP HN.
  assert (HS : SameOutcome
      (SpatialGDKGenerateSchemaForClasses Classes1 SchemaOutputPath env
         (ResetSchemaGeneratorState st1) world)
      (SpatialGDKGenerateSchemaForClasses Classes2 SchemaOutputPath env
         (ResetSchemaGeneratorState st2) world)).
  { (* the two class lists are sorted into one list *)
    assert (E : SpatialGDKGenerateSchemaForClasses Classes2 SchemaOutputPath env
                  (ResetSchemaGeneratorState st2) world
                = SpatialGDKGenerateSchemaForClasses Classes1 SchemaOutputPath env
                    (ResetSchemaGeneratorState st2) world).
    { unfold SpatialGDKGenerateSchemaForClasses.
      now rewrite (Sort_by_unique UClass_PathName Classes1 Classes2 HP HN). }
    rewrite E.
    (* and the two emptied states hold the same database *)
    apply SpatialGDKGenerateSchemaForClasses_respects; [reflexivity|].
    unfold SameDatabase. cbn. auto 8. }
  split; [exact HS|].
  intros b1 s1 w1 b2 s2 w2 E1 E2. rewrite E1, E2 in HS. cbn in HS.
  destruct HS as (Hb & HL & Hw).
  split; [exact Hb|]. split; [now rewrite Hw|].
  destruct HL as (_ & _ & _ & _ & HA & HSub & HNext & _).
  split; [now rewrite HNext|].
  intros ClassPath. unfold ClassComponentIds. now rewrite HA, HSub.
Qed.

(** * Further properties of the generator *)

(** ** The map from component ids to class paths *)

Section MapFolds.
Context {K V : Type} (eqb : K -> K -> bool).
Hypothesis eqb_spec : forall a b, reflect (a = b) (eqb a b).

Lemma TMap_AddAll_app (a b : list (K * V)) (m : list (K * V)) :
  TMap_AddAll eqb (a ++ b) m = TMap_AddAll eqb b (TMap_AddAll eqb a m).
Proof. apply fold_left_app. Qed.

Lemma TMap_AddAll_flat_map {X : Type} (f : X -> list (K * V)) (l : list X) :
  forall m,
    fold_left (fun acc x => TMap_AddAll eqb (f x) acc) l m
    = TMap_AddAll eqb (flat_map f l) m.
Proof.
  induction l as [|x l IH]; intros m; cbn [fold_left flat_map]; [reflexivity|].
  rewrite IH. symmetry. apply TMap_AddAll_app.
Qed.

Lemma TMap_Find_AddAll (k : K) (Pairs : list (K * V)) :
  forall m,
    TMap_Find eqb k (TMap_AddAll eqb Pairs m)
    = match TMap_Find eqb k (rev Pairs) with
      | Some v => Some v
      | None => TMap_Find eqb k m
      end.
Proof.
  induction Pairs as [|[k0 v0] Pairs IH]; intros m; cbn; [reflexivity|].
  unfold TMap_AddAll in *. cbn. rewrite IH.
  assert (HF : forall a b : list (K * V),
             TMap_Find eqb k (a ++ b)
             = match TMap_Find eqb k a with
               | Some v => Some v
               | None => TMap_Find eqb k b
               end).
  { induction a as [|[k1 v1] a IHa]; intros b; cbn; [reflexivity|].
    destruct (eqb k k1); [reflexivity | apply IHa]. }
  rewrite HF. destruct (TMap_Find eqb k (rev Pairs)); [reflexivity|].
  cbn. destruct (eqb_spec k k0) as [->|NE].
  - apply (TMap_Find_Add_eq eqb eqb_spec).
  - now apply (TMap_Find_Add_neq eqb eqb_spec).
Qed.

Lemma TMap_Add_NoDup (k : K) (v : V) (m : list (K * V)) :
  NoDup (map fst m) -> NoDup (map fst (TMap_Add eqb k v m)).
Proof.
  induction m as [|[k0 v0] m IH]; cbn; intros HN.
  - constructor; [intros [] | constructor].
  - inversion HN as [|x xs Hout HN']; subst.
    destruct (eqb_spec k k0) as [->|NE]; cbn; [now constructor|].
    constructor; [|now apply IH].
    intros Hin. apply Hout.
    pose proof (TMap_Keys_Add eqb eqb_spec k v m) as HK. unfold TMap_Keys in HK.
    destruct (TMap_Contains eqb k m); rewrite HK in Hin; [exact Hin|].
    apply in_app_iff in Hin. destruct Hin as [Hin|[E|[]]]; [exact Hin | congruence].
Qed.

Lemma TMap_AddAll_NoDup (Pairs : list (K * V)) :
  forall m, NoDup (map fst m) -> NoDup (map fst (TMap_AddAll eqb Pairs m)).
Proof.
  induction Pairs as [|p Pairs IH]; intros m HN; cbn; [exact HN|].
  apply IH. now apply TMap_Add_NoDup.
Qed.

Lemma TMap_Find_Remove (k k0 : K) (m : list (K * V)) :
  TMap_Find eqb k (TMap_Remove eqb k0 m)
  = if eqb k k0 then None else TMap_Find eqb k m.
Proof.
  induction m as [|[k1 v1] m IH]; cbn; [now destruct (eqb k k0)|].
  destruct (eqb_spec k0 k1) as [->|NE].
  - rewrite IH. destruct (eqb_spec k k1); reflexivity.
  - cbn. rewrite IH. destruct (eqb_spec k k1) as [->|NE1]; [|reflexivity].
    destruct (eqb_spec k1 k0); [congruence | reflexivity].
Qed.

Lemma TMap_Remove_incl (k0 : K) (m : list (K * V)) :
  incl (TMap_Remove eqb k0 m) m.
Proof.
  induction m as [|[k1 v1] m IH]; cbn; [easy|].
  destruct (eqb k0 k1).
  - now apply incl_tl.
  - apply incl_cons; [now left | now apply incl_tl].
Qed.

Lemma TMap_Remove_NoDup (k0 : K) (m : list (K * V)) :
  NoDup (map fst m) -> NoDup (map fst (TMap_Remove eqb k0 m)).
Proof.
  induction m as [|[k1 v1] m IH]; cbn; intros HN; [constructor|].
  inversion HN as [|x xs Hout HN']; subst.
  destruct (eqb k0 k1); [now apply IH|].
  cbn. constructor; [|now apply IH].
  intros Hin. apply Hout. apply in_map_iff in Hin.
  destruct Hin as ([k2 v2] & E & Hin). cbn in E. subst k2.
  apply in_map_iff. exists (k1, v2). split; [reflexivity|].
  now apply TMap_Remove_incl in Hin.
Qed.

End MapFolds.

Lemma fold_left_ext {A B : Type} (f g : A -> B -> A) (l : list B) :
  (forall a x, f a x = g a x) -> forall a, fold_left f l a = fold_left g l a.
Proof.
  intros H. induction l as [|x l IH]; intros a; cbn; [reflexivity|].
  now rewrite H, IH.
Qed.

Lemma CreateComponentIdToClassPathMap_pairs st :
  CreateComponentIdToClassPathMap st
  = TMap_Remove Z.eqb INVALID_COMPONENT_ID
      (TMap_AddAll Z.eqb (ComponentClassPathPairs st) []).
Proof.
  unfold CreateComponentIdToClassPathMap, ComponentClassPathPairs. cbv zeta.
  rewrite TMap_AddAll_app.
  rewrite <- (TMap_AddAll_flat_map Z.eqb
                (fun SubobjectSchemaData : FString * FSubobjectSchemaData =>
                   flat_map
                     (fun DynamicSubobjectData =>
                        SchemaComponentsClassPaths
                          (Dynamic_SchemaComponents DynamicSubobjectData)
                          (fst SubobjectSchemaData))
                     (Subobject_DynamicSubobjectComponents (snd SubobjectSchemaData)))).
  rewrite <- (TMap_AddAll_flat_map Z.eqb
                (fun ActorSchemaData : FString * FActorSchemaData =>
                   SchemaComponentsClassPaths
                     (Actor_SchemaComponents (snd ActorSchemaData))
                     (fst ActorSchemaData)
                   ++ flat_map
                        (fun SubobjectSchemaData =>
                           SchemaComponentsClassPaths
                             (ActorSubobject_SchemaComponents (snd SubobjectSchemaData))
                             (ActorSubobject_ClassPath (snd SubobjectSchemaData)))
                        (Actor_SubobjectData (snd ActorSchemaData)))).
  f_equal.
  rewrite (fold_left_ext _
             (fun acc (ActorSchemaData : FString * FActorSchemaData) =>
                TMap_AddAll Z.eqb
                  (SchemaComponentsClassPaths
                     (Actor_SchemaComponents (snd ActorSchemaData))
                     (fst ActorSchemaData)
                   ++ flat_map
                        (fun SubobjectSchemaData =>
                           SchemaComponentsClassPaths
                             (ActorSubobject_SchemaComponents (snd SubobjectSchemaData))
                             (ActorSubobject_ClassPath (snd SubobjectSchemaData)))
                        (Actor_SubobjectData (snd ActorSchemaData))) acc)
             (ActorClassPathToSchema st)).
  - apply fold_left_ext. intros acc Entry.
    now rewrite <- (TMap_AddAll_flat_map Z.eqb).
  - intros acc Entry.
    now rewrite TMap_AddAll_app, <- (TMap_AddAll_flat_map Z.eqb).
Qed.

(** X1.  [CreateComponentIdToClassPathMap] has one entry per component id,
    none for the invalid id 0, and gives every other id the class path of
    the last record holding it, in the order actors (own components, then
    static subobjects) and subobject classes are gone through; an id no
    record holds has no entry.  So a valid id that the records give to one
    class path only is mapped to that path. *)
Theorem ComponentIdToClassPath_last_holder_wins :
  forall (st : GeneratorState),
    NoDup (map fst (CreateComponentIdToClassPathMap st))
    /\ (forall (ComponentId : Worker_ComponentId),
          TMap_Find Z.eqb ComponentId (CreateComponentIdToClassPathMap st)
          = if ComponentId =? INVALID_COMPONENT_ID then None
            else TMap_Find Z.eqb ComponentId (rev (ComponentClassPathPairs st)))
    /\ (forall (ComponentId : Worker_ComponentId) (ClassPath : FString),
          ComponentId <> INVALID_COMPONENT_ID ->
          In (ComponentId, ClassPath) (ComponentClassPathPairs st) ->
          (forall Other,
             In (ComponentId, Other) (ComponentClassPathPairs st) ->
             Other = ClassPath) ->
          TMap_Find Z.eqb ComponentId (CreateComponentIdToClassPathMap st)
          = Some ClassPath).
Proof.
  intros st. rewrite CreateComponentIdToClassPathMap_pairs.
  assert (HF : forall ComponentId,
             TMap_Find Z.eqb ComponentId
               (TMap_Remove Z.eqb INVALID_COMPONENT_ID
                  (TMap_AddAll Z.eqb (ComponentClassPathPairs st) []))
             = if ComponentId =? INVALID_COMPONENT_ID then None
               else TMap_Find Z.eqb ComponentId (rev (ComponentClassPathPairs st))).
  { intros ComponentId.
    rewrite (TMap_Find_Remove Z.eqb Z_eqb_reflect).
    destruct (ComponentId =? INVALID_COMPONENT_ID); [reflexivity|].
    rewrite (TMap_Find_AddAll Z.eqb Z_eqb_reflect).
    now destruct (TMap_Find Z.eqb ComponentId (rev (ComponentClassPathPairs st))). }
  split; [|split; [exact HF|]].
  - apply (TMap_Remove_NoDup Z.eqb), (TMap_AddAll_NoDup Z.eqb Z_eqb_reflect).
    constructor.
  - intros ComponentId ClassPath Hid Hin Honly. rewrite HF.
    destruct (Z.eqb_spec ComponentId INVALID_COMPONENT_ID) as [E|_]; [contradiction|].
    destruct (TMap_Find Z.eqb ComponentId (rev (ComponentClassPathPairs st)))
      as [Found|] eqn:F.
    + apply (TMap_Find_In Z.eqb Z_eqb_reflect) in F. apply in_rev in F.
      f_equal. now apply Honly.
    + exfalso. apply (TMap_Find_None_keys Z.eqb Z_eqb_reflect) in F. apply F.
      unfold TMap_Keys. apply in_map_iff. exists (ComponentId, ClassPath).
      split; [reflexivity | now apply in_rev in Hin].
Qed.

(** ** Saving, then loading *)

Lemma TSet_FromArray_NoDup_from (Ids : list Worker_ComponentId) :
  forall s,
    NoDup (s ++ Ids) ->
    fold_left (fun s0 Id => TSet_Add Z.eqb Id s0) Ids s = s ++ Ids.
Proof.
  induction Ids as [|x Ids IH]; intros s HN; cbn.
  - now rewrite app_nil_r.
  - assert (HC : TSet_Contains Z.eqb x s = false).
    { destruct (TSet_Contains Z.eqb x s) eqn:C; [|reflexivity].
      apply (TSet_Contains_In Z.eqb Z_eqb_reflect) in C.
      apply NoDup_remove_2 in HN. exfalso. apply HN.
      apply in_app_iff. now left. }
    unfold TSet_Add at 2. rewrite HC.
    rewrite IH; rewrite <- app_assoc; [reflexivity | exact HN].
Qed.

Lemma TSet_FromArray_NoDup (Ids : list Worker_ComponentId) :
  NoDup Ids -> TSet_FromArray Ids = Ids.
Proof. intros HN. apply (TSet_FromArray_NoDup_from Ids []). exact HN. Qed.

(** X2.  [SaveSchemaDatabase] reads the three id sets with
    [operator[]]: from a state that lacks one of them the check fails and
    nothing comes back.  From a state that has them, when the package
    write succeeds it returns true and leaves the schema files alone, and
    a following [LoadGeneratorStateFromSchemaDatabase], in any session,
    brings back what was saved: the counter, the class and level maps
    with their entries in key order, the distance map, and the three id
    sets (as they were, when they held no id twice).  That load answers
    false exactly when the saved state had an actor record while its
    counter was the starting constant.  The loading session keeps its
    generated classes and name tables. *)
Theorem SaveSchemaDatabase_then_load_restores_state :
  forall (env : Env) (st st0 : GeneratorState) (world : World),
    ((exists ComponentType,
        TMap_Find ESchemaComponentType_eqb ComponentType
          (SchemaComponentTypeToComponents st) = None) ->
     SaveSchemaDatabase env st world = inl CheckFailed)
    /\ (forall Data OwnerOnly Handover : list Worker_ComponentId,
          TMap_Find ESchemaComponentType_eqb SCHEMA_Data
            (SchemaComponentTypeToComponents st) = Some Data ->
          TMap_Find ESchemaComponentType_eqb SCHEMA_OwnerOnly
            (SchemaComponentTypeToComponents st) = Some OwnerOnly ->
          TMap_Find ESchemaComponentType_eqb SCHEMA_Handover
            (SchemaComponentTypeToComponents st) = Some Handover ->
          Env_SavePackage env = true ->
          exists st1 world1 st2,
            SaveSchemaDatabase env st world = Ok (true, st1, world1)
            /\ World_SchemaFiles world1 = World_SchemaFiles world
            /\ LoadGeneratorStateFromSchemaDatabase world1 st0
               = (negb ((0 <? List.length (ActorClassPathToSchema st))%nat
                        && (NextAvailableComponentId st
                            =? STARTING_GENERATED_COMPONENT_ID)),
                  st2)
            /\ NextAvailableComponentId st2 = NextAvailableComponentId st
            /\ Permutation (ActorClassPathToSchema st2) (ActorClassPathToSchema st)
            /\ InKeyOrder fst (ActorClassPathToSchema st2)
            /\ Permutation (SubobjectClassPathToSchema st2)
                 (SubobjectClassPathToSchema st)
            /\ InKeyOrder fst (SubobjectClassPathToSchema st2)
            /\ Permutation (LevelPathToComponentId st2) (LevelPathToComponentId st)
            /\ InKeyOrder fst (LevelPathToComponentId st2)
            /\ NetCullDistanceToComponentId st2 = NetCullDistanceToComponentId st
            /\ SchemaComponentTypeToComponents st2
               = [(SCHEMA_Data, TSet_FromArray Data);
                  (SCHEMA_OwnerOnly, TSet_FromArray OwnerOnly);
                  (SCHEMA_Handover, TSet_FromArray Handover)]
            /\ (NoDup Data -> NoDup OwnerOnly -> NoDup Handover ->
                SchemaComponentTypeToComponents st2
                = [(SCHEMA_Data, Data); (SCHEMA_OwnerOnly, OwnerOnly);
                   (SCHEMA_Handover, Handover)])
            /\ SchemaGeneratedClasses st2 = SchemaGeneratedClasses st0
            /\ ClassPathToSchemaName st2 = ClassPathToSchemaName st0
            /\ SchemaNameToClassPath st2 = SchemaNameToClassPath st0
            /\ PotentialSchemaNameCollisions st2 = PotentialSchemaNameCollisions st0).
Proof.
  intros env st st0 world. split.
  - intros (ComponentType & HNone).
    unfold SaveSchemaDatabase, ComponentsOfType, TMap_FindChecked.
    cbn [SchemaComponentTypeToComponents set_LevelPathToComponentId
         set_SubobjectClassPathToSchema set_ActorClassPathToSchema].
    destruct (TMap_Find ESchemaComponentType_eqb SCHEMA_Data
                (SchemaComponentTypeToComponents st)) as [Data|] eqn:E1;
      [|reflexivity].
    destruct (TMap_Find ESchemaComponentType_eqb SCHEMA_OwnerOnly
                (SchemaComponentTypeToComponents st)) as [OwnerOnly|] eqn:E2;
      [|reflexivity].
    destruct (TMap_Find ESchemaComponentType_eqb SCHEMA_Handover
                (SchemaComponentTypeToComponents st)) as [Handover|] eqn:E3;
      [|reflexivity].
    destruct ComponentType; congruence.
  - intros Data OwnerOnly Handover HD1 HD2 HD3 HSave.
    unfold SaveSchemaDatabase, ComponentsOfType, TMap_FindChecked.
    cbn [SchemaComponentTypeToComponents set_LevelPathToComponentId
         set_SubobjectClassPathToSchema set_ActorClassPathToSchema].
    rewrite HD1, HD2, HD3, HSave. cbn [bind Ok negb].
    destruct (match Env_DescriptorFile env with
              | Some (Some Bytes) => _
              | Some None => _
              | None => _
              end) as [Hash st4] eqn:EH.
    eexists. eexists. eexists. split; [reflexivity|]. split; [reflexivity|].
    unfold LoadGeneratorStateFromSchemaDatabase, IsAssetReadOnly.
    cbn -[Sort_by TSet_FromArray CreateComponentIdToClassPathMap Nat.ltb Z.eqb].
    assert (EL : List.length (Sort_by fst (ActorClassPathToSchema st))
                 = List.length (ActorClassPathToSchema st)).
    { apply Permutation_length, Sort_by_Permutation. }
    rewrite EL.
    destruct ((0 <? List.length (ActorClassPathToSchema st))%nat
              && (NextAvailableComponentId st =? STARTING_GENERATED_COMPONENT_ID));
      cbn [negb];
      (split; [reflexivity|]);
      cbn -[Sort_by TSet_FromArray];
      (split; [reflexivity|]);
      (split; [apply Sort_by_Permutation|]);
      (split; [apply Sort_by_InKeyOrder|]);
      (split; [apply Sort_by_Permutation|]);
      (split; [apply Sort_by_InKeyOrder|]);
      (split; [apply Sort_by_Permutation|]);
      (split; [apply Sort_by_InKeyOrder|]);
      (split; [reflexivity|]);
      (split; [reflexivity|]);
      (split; [intros N1 N2 N3; now rewrite !TSet_FromArray_NoDup|]);
      repeat split.
Qed.
(** ** The supported classes *)

Lemma TSet_Add_UClass_NoDup (c : UClass) (s : list UClass) :
  NoDup (map UClass_PathName s) ->
  NoDup (map UClass_PathName (TSet_Add UClass_eqb c s)).
Proof.
  intros HN. unfold TSet_Add.
  destruct (TSet_Contains UClass_eqb c s) eqn:C; [exact HN|].
  rewrite map_app. cbn.
  eapply Permutation_NoDup; [apply Permutation_cons_append|].
  constructor; [|exact HN].
  intros Hin. apply in_map_iff in Hin. destruct Hin as (x & E & Hx).
  assert (HC : TSet_Contains UClass_eqb c s = true).
  { apply TSet_Contains_exists. exists x. split; [exact Hx|].
    apply UClass_eqb_path. now symmetry. }
  congruence.
Qed.

Lemma TSet_Add_Contains {K : Type} (eqb : K -> K -> bool) (k x : K) (s : list K) :
  TSet_Contains eqb k s = true -> TSet_Contains eqb k (TSet_Add eqb x s) = true.
Proof.
  intros H. unfold TSet_Add. destruct (TSet_Contains eqb x s); [exact H|].
  rewrite TSet_Contains_app, H. reflexivity.
Qed.

Lemma TSet_Add_Contains_self (c : UClass) (s : list UClass) :
  TSet_Contains UClass_eqb c (TSet_Add UClass_eqb c s) = true.
Proof.
  unfold TSet_Add. destruct (TSet_Contains UClass_eqb c s) eqn:C; [exact C|].
  rewrite TSet_Contains_app. cbn. rewrite UClass_eqb_refl. apply orb_true_r.
Qed.

Lemma TSet_Add_In_inv {K : Type} (eqb : K -> K -> bool) (k x : K) (s : list K) :
  In k (TSet_Add eqb x s) -> In k s \/ k = x.
Proof.
  unfold TSet_Add. destruct (TSet_Contains eqb x s); [now left|].
  rewrite in_app_iff. intros [H|[H|[]]]; auto.
Qed.

(** X3.  [GetAllSupportedClasses] returns classes of its input that
    [IsSupportedClass] accepts, holds every accepted class of the input,
    and holds no class twice. *)
Theorem GetAllSupportedClasses_exactly_the_supported :
  forall (AllClasses : list UClass),
    (forall c, In c (GetAllSupportedClasses AllClasses) ->
               In c AllClasses /\ IsSupportedClass c = true)
    /\ (forall c, In c AllClasses -> IsSupportedClass c = true ->
                  TSet_Contains UClass_eqb c (GetAllSupportedClasses AllClasses) = true)
    /\ NoDup (map UClass_PathName (GetAllSupportedClasses AllClasses)).
Proof.
  intros AllClasses. unfold GetAllSupportedClasses.
  set (Step := fun (Classes : list UClass) ClassIt =>
                 if IsSupportedClass ClassIt then TSet_Add UClass_eqb ClassIt Classes
                 else Classes).
  assert (H : forall l acc,
             (forall c, In c (fold_left Step l acc) ->
                        In c acc \/ (In c l /\ IsSupportedClass c = true))
             /\ (forall c, TSet_Contains UClass_eqb c acc = true ->
                           TSet_Contains UClass_eqb c (fold_left Step l acc) = true)
             /\ (forall c, In c l -> IsSupportedClass c = true ->
                           TSet_Contains UClass_eqb c (fold_left Step l acc) = true)
             /\ (NoDup (map UClass_PathName acc) ->
                 NoDup (map UClass_PathName (fold_left Step l acc)))).
  { induction l as [|x l IH]; intros acc; cbn [fold_left].
    - split; [auto|]. split; [auto|]. split; [intros c []|auto].
    - destruct (IH (Step acc x)) as (I1 & I2 & I3 & I4).
      split; [|split; [|split]].
      + intros c Hc. apply I1 in Hc. destruct Hc as [Hc|[Hc Hs]].
        * unfold Step in Hc. destruct (IsSupportedClass x) eqn:S.
          -- apply TSet_Add_In_inv in Hc. destruct Hc as [Hc| ->]; [now left|].
             right. split; [now left | exact S].
          -- now left.
        * right. split; [now right | exact Hs].
      + intros c Hc. apply I2. unfold Step.
        destruct (IsSupportedClass x); [now apply TSet_Add_Contains | exact Hc].
      + intros c [<-|Hc] Hs; [|now apply I3].
        apply I2. unfold Step. rewrite Hs. apply TSet_Add_Contains_self.
      + intros HN. apply I4. unfold Step.
        destruct (IsSupportedClass x); [now apply TSet_Add_UClass_NoDup | exact HN]. }
  destruct (H AllClasses []) as (H1 & _ & H3 & H4).
  split; [|split].
  - intros c Hc. apply H1 in Hc. destruct Hc as [[]|Hc]. exact Hc.
  - exact H3.
  - apply H4. constructor.
Qed.

(** ** Schema names stay distinct *)

Lemma TMap_Contains_Find {K V : Type} (eqb : K -> K -> bool) (k : K)
  (m : list (K * V)) :
  TMap_Contains eqb k m = true <-> exists v, TMap_Find eqb k m = Some v.
Proof.
  unfold TMap_Contains. destruct (TMap_Find eqb k m) as [v|].
  - split; [intros _; now exists v | reflexivity].
  - split; [discriminate | intros (v & H); discriminate].
Qed.

Lemma ValidateClassName_keeps_names_distinct (TypeInfo : FUnrealType) b st :
  SchemaNamesInUse st ->
  SchemaNamesDistinct st ->
  SchemaNamesInUse (snd (ValidateClassName TypeInfo b st))
  /\ SchemaNamesDistinct (snd (ValidateClassName TypeInfo b st))
  /\ NamesPersist st (snd (ValidateClassName TypeInfo b st))
  /\ TMap_Contains FString_eqb (UClass_PathName (TypeInfo_Type TypeInfo))
       (ClassPathToSchemaName (snd (ValidateClassName TypeInfo b st))) = true.
Proof.
  intros HU HD.
  destruct (ValidateClassName_names TypeInfo b st)
    as (_ & _ & HP & HC & _ & _ & HNew).
  set (st' := snd (ValidateClassName TypeInfo b st)) in *.
  set (ClassPath := UClass_PathName (TypeInfo_Type TypeInfo)) in *.
  destruct HP as (PC & PS & PK).
  (* a class path that had a name keeps it, and the name stays in use *)
  assert (Old : forall p n,
             TMap_Contains FString_eqb p (ClassPathToSchemaName st) = true ->
             TMap_Find FString_eqb p (ClassPathToSchemaName st') = Some n ->
             TMap_Find FString_eqb p (ClassPathToSchemaName st) = Some n
             /\ TMap_Contains FString_eqb n (SchemaNameToClassPath st) = true).
  { intros p n Hp Hn. apply TMap_Contains_Find in Hp. destruct Hp as (n0 & Hn0).
    pose proof (PC _ _ Hn0) as Hn0'. rewrite Hn in Hn0'. injection Hn0' as ->.
    split; [exact Hn0 | now apply (HU p)]. }
  assert (Used : forall n,
             TMap_Contains FString_eqb n (SchemaNameToClassPath st) = true ->
             TMap_Contains FString_eqb n (SchemaNameToClassPath st') = true).
  { intros n Hn. apply TMap_Contains_Find in Hn. destruct Hn as (p & Hp).
    apply TMap_Contains_Find. exists p. now apply PS. }
  destruct (TMap_Contains FString_eqb ClassPath (ClassPathToSchemaName st)) eqn:C.
  - (* the class has its name already *)
    assert (AllOld : forall p n,
               TMap_Find FString_eqb p (ClassPathToSchemaName st') = Some n ->
               TMap_Contains FString_eqb p (ClassPathToSchemaName st) = true).
    { intros p n Hn.
      destruct (HC p) as [H|H]; [|exact H|].
      - apply TMap_Contains_Find. now exists n.
      - now rewrite (FString_Contains_eqv p ClassPath _ H). }
    split; [|split; [|split]].
    + intros p n Hn. apply Used. eapply Old; [eapply AllOld|]; eassumption.
    + intros p q n m Hp Hq.
      apply (HD p q n m); eapply Old; try eassumption; eapply AllOld; eassumption.
    + repeat split; assumption.
    + apply TMap_Contains_Find in C. destruct C as (n0 & Hn0).
      apply TMap_Contains_Find. exists n0. now apply PC.
  - (* the class gets a name no class holds *)
    destruct (HNew eq_refl) as (r & Fr & Fs & Fresh & _).
    assert (Cases : forall p n,
               TMap_Find FString_eqb p (ClassPathToSchemaName st') = Some n ->
               (TMap_Contains FString_eqb p (ClassPathToSchemaName st) = true
                /\ TMap_Find FString_eqb p (ClassPathToSchemaName st) = Some n
                /\ TMap_Contains FString_eqb n (SchemaNameToClassPath st) = true)
               \/ (FString_eqb p ClassPath = true /\ n = r)).
    { intros p n Hn.
      destruct (HC p) as [H|H].
      - apply TMap_Contains_Find. now exists n.
      - left. split; [exact H|]. now apply Old.
      - right. split; [exact H|].
        rewrite (FString_Find_eqv p ClassPath _ H) in Hn. congruence. }
    assert (Apart : forall n,
               TMap_Contains FString_eqb n (SchemaNameToClassPath st) = true ->
               FString_eqb n r = true -> False).
    { intros n Hn E. rewrite (FString_Contains_eqv n r _ E) in Hn. congruence. }
    split; [|split; [|split]].
    + intros p n Hn. destruct (Cases p n Hn) as [(_ & _ & H)|(_ & ->)].
      * now apply Used.
      * apply TMap_Contains_Find. now exists ClassPath.
    + intros p q n m Hp Hq E.
      destruct (Cases p n Hp) as [(_ & Hp1 & Hp2)|(Ep & En)],
               (Cases q m Hq) as [(_ & Hq1 & Hq2)|(Eq & Em)].
      * now apply (HD p q n m).
      * subst m. exfalso. exact (Apart n Hp2 E).
      * subst n. exfalso. rewrite FString_eqb_sym in E. exact (Apart m Hq2 E).
      * rewrite (FString_eqb_congr_l p ClassPath q Ep).
        now rewrite FString_eqb_sym.
    + repeat split; assumption.
    + apply TMap_Contains_Find. now exists r.
Qed.

(** X4.  Name resolution never gives two class paths the same schema
    name, names and paths being compared without case as the tables
    compare them: when the names held at the start are distinct and are
    all keys of [SchemaNameToClassPath], the same is true after
    [ValidateIdentifierNames], whatever it returns; every class of the run
    then has a schema name, and a class path that had a name keeps it. *)
Theorem ValidateIdentifierNames_keeps_schema_names_distinct :
  forall (TypeInfos : list FUnrealType) (st : GeneratorState),
    SchemaNamesInUse st ->
    SchemaNamesDistinct st ->
    SchemaNamesInUse (snd (ValidateIdentifierNames TypeInfos st))
    /\ SchemaNamesDistinct (snd (ValidateIdentifierNames TypeInfos st))
    /\ (forall TypeInfo,
          In TypeInfo TypeInfos ->
          TMap_Contains FString_eqb (UClass_PathName (TypeInfo_Type TypeInfo))
            (ClassPathToSchemaName (snd (ValidateIdentifierNames TypeInfos st)))
          = true)
    /\ (forall ClassPath SchemaName,
          TMap_Find FString_eqb ClassPath (ClassPathToSchemaName st) = Some SchemaName ->
          TMap_Find FString_eqb ClassPath
            (ClassPathToSchemaName (snd (ValidateIdentifierNames TypeInfos st)))
          = Some SchemaName).
Proof.
  intros TypeInfos st HU HD.
  destruct (ValidateIdentifierNames_names TypeInfos st) as ((ECP & ESN & _) & _).
  assert (H : forall Ts b s,
             SchemaNamesInUse s -> SchemaNamesDistinct s ->
             SchemaNamesInUse (snd (ValidateClassNames Ts b s))
             /\ SchemaNamesDistinct (snd (ValidateClassNames Ts b s))
             /\ NamesPersist s (snd (ValidateClassNames Ts b s))
             /\ forall T, In T Ts ->
                          TMap_Contains FString_eqb (UClass_PathName (TypeInfo_Type T))
                            (ClassPathToSchemaName (snd (ValidateClassNames Ts b s)))
                          = true).
  { induction Ts as [|T Ts IH]; intros b s HUs HDs.
    - cbn. split; [exact HUs|]. split; [exact HDs|].
      split; [apply NamesPersist_refl | intros T []].
    - rewrite ValidateClassNames_cons.
      destruct (ValidateClassName_keeps_names_distinct T b s HUs HDs)
        as (U1 & D1 & P1 & C1).
      destruct (IH (fst (ValidateClassName T b s)) _ U1 D1) as (U2 & D2 & P2 & C2).
      split; [exact U2|]. split; [exact D2|].
      split; [eapply NamesPersist_trans; eassumption|].
      intros T' [<-|HT]; [|now apply C2].
      apply TMap_Contains_Find in C1. destruct C1 as (n & Hn).
      apply TMap_Contains_Find. exists n. now apply P2. }
  destruct (H TypeInfos true st HU HD) as (U & D & (PC & _) & C).
  unfold SchemaNamesInUse, SchemaNamesDistinct in *.
  rewrite ECP, ESN. auto.
Qed.

(** ** The name tables after [ResetUsedNames] *)

Lemma SameButNames_refl s : SameButNames s s.
Proof. unfold SameButNames, SameDatabase. auto 10. Qed.

Lemma SameButNames_trans s1 s2 s3 :
  SameButNames s1 s2 -> SameButNames s2 s3 -> SameButNames s1 s3.
Proof. unfold SameButNames, SameDatabase. intuition congruence. Qed.

Lemma ResolveClassPathToSchemaName_tables ClassPath SchemaName s :
  ClassPathToSchemaName (ResolveClassPathToSchemaName ClassPath SchemaName s)
  = (if FString_IsEmpty SchemaName then ClassPathToSchemaName s
     else TMap_Add FString_eqb ClassPath SchemaName (ClassPathToSchemaName s))
  /\ SchemaNameToClassPath (ResolveClassPathToSchemaName ClassPath SchemaName s)
     = (if FString_IsEmpty SchemaName then SchemaNameToClassPath s
        else TMap_Add FString_eqb SchemaName ClassPath (SchemaNameToClassPath s))
  /\ SameButNames s (ResolveClassPathToSchemaName ClassPath SchemaName s).
Proof.
  unfold ResolveClassPathToSchemaName.
  destruct (FString_IsEmpty SchemaName).
  - split; [reflexivity|]. split; [reflexivity | apply SameButNames_refl].
  - cbv zeta. unfold SameButNames, SameDatabase.
    destruct (FString_eqb _ SchemaName); cbn; auto 12.
Qed.

Lemma ResolveAll_tables (Records : list (FString * FString)) :
  forall s,
    ClassPathToSchemaName
      (fold_left (fun s0 Record =>
                    ResolveClassPathToSchemaName (fst Record) (snd Record) s0)
         Records s)
    = TMap_AddAll FString_eqb
        (filter (fun Record => negb (FString_IsEmpty (snd Record))) Records)
        (ClassPathToSchemaName s)
    /\ SchemaNameToClassPath
         (fold_left (fun s0 Record =>
                       ResolveClassPathToSchemaName (fst Record) (snd Record) s0)
            Records s)
       = TMap_AddAll FString_eqb
           (map (fun Record => (snd Record, fst Record))
              (filter (fun Record => negb (FString_IsEmpty (snd Record))) Records))
           (SchemaNameToClassPath s)
    /\ SameButNames s
         (fold_left (fun s0 Record =>
                       ResolveClassPathToSchemaName (fst Record) (snd Record) s0)
            Records s).
Proof.
  induction Records as [|[p n] Records IH]; intros s; cbn [fold_left filter].
  - split; [reflexivity|]. split; [reflexivity | apply SameButNames_refl].
  - destruct (ResolveClassPathToSchemaName_tables p n s) as (E1 & E2 & E3).
    destruct (IH (ResolveClassPathToSchemaName p n s)) as (I1 & I2 & I3).
    cbn [fst snd] in *. rewrite I1, I2, E1, E2.
    split; [|split; [|eapply SameButNames_trans; eassumption]];
      now destruct (FString_IsEmpty n).
Qed.

Lemma fold_left_map_arg {A B C : Type} (f : A -> C -> A) (g : B -> C) (l : list B) :
  forall a, fold_left f (map g l) a = fold_left (fun a0 x => f a0 (g x)) l a.
Proof. induction l as [|x l IH]; intros a; cbn; [reflexivity | apply IH]. Qed.

Lemma ResetUsedNames_records st :
  ClassPathToSchemaName (ResetUsedNames st)
  = TMap_AddAll FString_eqb (NamedRecords st) []
  /\ SchemaNameToClassPath (ResetUsedNames st)
     = TMap_AddAll FString_eqb
         (map (fun Record => (snd Record, fst Record)) (NamedRecords st)) []
  /\ SameButNames st (ResetUsedNames st).
Proof.
  unfold ResetUsedNames, NamedRecords. cbv zeta.
  set (st0 := set_PotentialSchemaNameCollisions []
                (set_SchemaNameToClassPath [] (set_ClassPathToSchemaName [] st))).
  assert (H0 : SameButNames st st0)
    by (unfold SameButNames, SameDatabase; cbn; auto 10).
  change (ActorClassPathToSchema st0) with (ActorClassPathToSchema st).
  pose proof (ResolveAll_tables
                (map (fun Entry : FString * FActorSchemaData =>
                        (fst Entry, Actor_GeneratedSchemaName (snd Entry)))
                   (ActorClassPathToSchema st)) st0) as (A1 & A2 & A3).
  rewrite fold_left_map_arg in A1, A2, A3. cbn [fst snd] in A1, A2, A3.
  set (st1 := fold_left _ (ActorClassPathToSchema st) st0) in *.
  assert (ES : SubobjectClassPathToSchema st1 = SubobjectClassPathToSchema st).
  { destruct A3 as (_ & (_ & E & _) & _). exact E. }
  rewrite ES.
  pose proof (ResolveAll_tables
                (map (fun Entry : FString * FSubobjectSchemaData =>
                        (fst Entry, Subobject_GeneratedSchemaName (snd Entry)))
                   (SubobjectClassPathToSchema st)) st1) as (B1 & B2 & B3).
  rewrite fold_left_map_arg in B1, B2, B3. cbn [fst snd] in B1, B2, B3.
  rewrite B1, B2, A1, A2, filter_app, map_app, !TMap_AddAll_app.
  split; [reflexivity|]. split; [reflexivity|].
  eapply SameButNames_trans; [exact H0|].
  eapply SameButNames_trans; eassumption.
Qed.

Lemma FString_Find_AddAll {V : Type} (k : FString) (Pairs : list (FString * V)) :
  forall m,
    TMap_Find FString_eqb k (TMap_AddAll FString_eqb Pairs m)
    = match TMap_Find FString_eqb k (rev Pairs) with
      | Some v => Some v
      | None => TMap_Find FString_eqb k m
      end.
Proof.
  induction Pairs as [|[k0 v0] Pairs IH]; intros m; cbn; [reflexivity|].
  unfold TMap_AddAll in *. cbn. rewrite IH.
  assert (HF : forall a b : list (FString * V),
             TMap_Find FString_eqb k (a ++ b)
             = match TMap_Find FString_eqb k a with
               | Some v => Some v
               | None => TMap_Find FString_eqb k b
               end).
  { induction a as [|[k1 v1] a IHa]; intros b; cbn; [reflexivity|].
    destruct (FString_eqb k k1); [reflexivity | apply IHa]. }
  rewrite HF. destruct (TMap_Find FString_eqb k (rev Pairs)); [reflexivity|].
  cbn. destruct (FString_eqb k k0) eqn:E.
  - now apply FString_Find_Add_same.
  - now apply FString_Find_Add_other.
Qed.

(** X5.  [ResetUsedNames] rebuilds the name tables from the database
    records alone: a class path gets the schema name of the last record
    that has it as key and carries a name (actors before subobject
    classes), a schema name leads back to the class path of the last
    record carrying it, and records without a name are passed over; keys
    are looked up without case, as the tables do.  Each name given is a
    key of [SchemaNameToClassPath]; nothing but the three name tables
    changes; and doing it twice is doing it once. *)
Theorem ResetUsedNames_rebuilds_names_from_records :
  forall (st : GeneratorState),
    (forall ClassPath,
       TMap_Find FString_eqb ClassPath (ClassPathToSchemaName (ResetUsedNames st))
       = TMap_Find FString_eqb ClassPath (rev (NamedRecords st)))
    /\ (forall SchemaName,
          TMap_Find FString_eqb SchemaName (SchemaNameToClassPath (ResetUsedNames st))
          = TMap_Find FString_eqb SchemaName
              (rev (map (fun Record => (snd Record, fst Record)) (NamedRecords st))))
    /\ SchemaNamesInUse (ResetUsedNames st)
    /\ SameButNames st (ResetUsedNames st)
    /\ ResetUsedNames (ResetUsedNames st) = ResetUsedNames st.
Proof.
  intros st. destruct (ResetUsedNames_records st) as (ECP & ESN & HS).
  assert (HCP : forall ClassPath,
             TMap_Find FString_eqb ClassPath (ClassPathToSchemaName (ResetUsedNames st))
             = TMap_Find FString_eqb ClassPath (rev (NamedRecords st))).
  { intros p. rewrite ECP, FString_Find_AddAll.
    now destruct (TMap_Find FString_eqb p (rev (NamedRecords st))). }
  assert (HSN : forall SchemaName,
             TMap_Find FString_eqb SchemaName (SchemaNameToClassPath (ResetUsedNames st))
             = TMap_Find FString_eqb SchemaName
                 (rev (map (fun Record => (snd Record, fst Record))
                         (NamedRecords st)))).
  { intros n. rewrite ESN, FString_Find_AddAll.
    now destruct (TMap_Find FString_eqb n (rev (map _ (NamedRecords st)))). }
  split; [exact HCP|]. split; [exact HSN|]. split; [|split; [exact HS|]].
  - (* a name given to a class path is carried by a record *)
    intros p n Hn. rewrite HCP in Hn.
    apply (TMap_Find_Some_In FString_eqb) in Hn. destruct Hn as (p' & Hn & _).
    apply in_rev in Hn.
    unfold TMap_Contains. rewrite HSN.
    assert (HC : TMap_Contains FString_eqb n
                   (rev (map (fun Record : FString * FString =>
                                (snd Record, fst Record)) (NamedRecords st)))
                 = true).
    { apply (TMap_In_Contains FString_eqb n n p'); [|apply FString_eqb_refl].
      apply in_rev. rewrite rev_involutive.
      apply in_map_iff. now exists (p', n). }
    exact HC.
  - (* the tables depend on the records only *)
    unfold ResetUsedNames. cbv zeta.
    fold (ResetUsedNames st).
    destruct HS as (E1 & (E2 & E3 & E4 & E5 & E6 & E7) & E8).
    assert (E0 : set_PotentialSchemaNameCollisions []
                   (set_SchemaNameToClassPath []
                      (set_ClassPathToSchemaName [] (ResetUsedNames st)))
                 = set_PotentialSchemaNameCollisions []
                     (set_SchemaNameToClassPath []
                        (set_ClassPathToSchemaName [] st))).
    { unfold set_PotentialSchemaNameCollisions, set_SchemaNameToClassPath,
        set_ClassPathToSchemaName. cbn. congruence. }
    rewrite E0. reflexivity.
Qed.
(** ** Validation accepts exactly the well-formed runs *)

Lemma CheckSchemaNameValidity_clean Name Identifier Category st :
  NameWellFormed Name ->
  CheckSchemaNameValidity Name Identifier Category st = (true, st).
Proof.
  intros (HE & HD). unfold CheckSchemaNameValidity.
  destruct (FString_IsEmpty Name) eqn:E.
  - apply FString_IsEmpty_true in E. contradiction.
  - now rewrite HD.
Qed.

Lemma CheckNamesInScope_clean {X : Type} (NameOf PathOf : X -> FString)
  (Category CollisionCategory : FString) (Items : list X) :
  forall Names b st,
    NamesWellFormed NameOf Items ->
    (forall Item, In Item Items -> TMap_Find FString_eqb (NameOf Item) Names = None) ->
    fst (CheckNamesInScope Category CollisionCategory
           (map (fun Item => (NameOf Item, PathOf Item)) Items) Names b st) = b.
Proof.
  induction Items as [|x Items IH]; intros Names b st (HW & HN) HF; cbn;
    [reflexivity|].
  rewrite CheckSchemaNameValidity_clean by (apply HW; now left).
  rewrite (HF x) by now left.
  inversion HN as [|? ? Hout HN']; subst.
  apply IH.
  - split; [|exact HN']. intros y Hin. apply HW. now right.
  - intros y Hin.
    rewrite FString_Find_Add_other.
    + apply HF. now right.
    + rewrite Forall_forall in Hout. rewrite FString_eqb_sym. now apply Hout.
Qed.

Lemma CheckIdentifierNameValidity_clean TypeInfo b st :
  TypeInfoWellFormed TypeInfo ->
  fst (CheckIdentifierNameValidity TypeInfo b st) = b.
Proof.
  intros (_ & HR & HH & HS). unfold CheckIdentifierNameValidity.
  cbn [GetAllReplicatedPropertyGroups fold_left fst snd].
  unfold ReplicatedDataNames, HandoverDataNames, SubobjectNames,
    GetFlatRepData, GetFlatHandoverData, GetAllSubobjects.
  set (Class := TypeInfo_Type TypeInfo) in *.
  pose proof (CheckNamesInScope_clean SchemaFieldName Property_PathName
                "Replicated property" "Replicated property"
                (UClass_RepData Class REP_MultiClient) [] b st
                (HR REP_MultiClient) (fun _ _ => eq_refl)) as E1.
  destruct (CheckNamesInScope "Replicated property" "Replicated property"
              _ [] b st) as [b1 st1].
  cbn [fst snd] in *. subst b1.
  pose proof (CheckNamesInScope_clean SchemaFieldName Property_PathName
                "Replicated property" "Replicated property"
                (UClass_RepData Class REP_SingleClient) [] b st1
                (HR REP_SingleClient) (fun _ _ => eq_refl)) as E2.
  destruct (CheckNamesInScope "Replicated property" "Replicated property"
              _ [] b st1) as [b2 st2].
  cbn [fst snd] in *. subst b2.
  pose proof (CheckNamesInScope_clean SchemaFieldName Property_PathName
                "Handover property" "Handover data"
                (UClass_HandoverData Class) [] b st2 HH (fun _ _ => eq_refl)) as E3.
  destruct (CheckNamesInScope "Handover property" "Handover data"
              _ [] b st2) as [b3 st3].
  cbn [fst snd] in *. subst b3.
  apply (CheckNamesInScope_clean SubobjectSchemaName
           (fun It : Z * FSubobject => Subobject_ObjectPathName (snd It))
           "Subobject" "Subobject" (UClass_Subobjects Class) [] b st3 HS).
  reflexivity.
Qed.

Lemma ValidateClassName_clean TypeInfo b st :
  TypeInfoWellFormed TypeInfo ->
  fst (ValidateClassName TypeInfo b st) = b.
Proof.
  intros (HC & _). unfold ValidateClassName. cbv zeta.
  rewrite CheckSchemaNameValidity_clean by exact HC.
  now destruct (TMap_Contains FString_eqb _ (ClassPathToSchemaName st)).
Qed.

Lemma ForallOrdPairs_prefixes {A : Type} (R : A -> A -> Prop) (l : list A) :
  (forall Before x After, l = Before ++ x :: After -> forall y, In y Before -> R y x) ->
  ForallOrdPairs R l.
Proof.
  induction l as [|a l IH]; intros H; constructor.
  - apply Forall_forall. intros x Hx. apply in_split in Hx.
    destruct Hx as (l1 & l2 & ->).
    apply (H (a :: l1) x l2); [reflexivity | now left].
  - apply IH. intros Before x After -> y Hy.
    apply (H (a :: Before) x After); [reflexivity | now right].
Qed.

(** The first item of a list that has a given name. *)
Lemma first_with_name {X : Type} (NameOf : X -> FString) (Name : FString)
  (l : list X) :
  (exists y, In y l /\ FString_eqb Name (NameOf y) = true) ->
  exists Earlier First Later,
    l = Earlier ++ First :: Later
    /\ FString_eqb Name (NameOf First) = true
    /\ forall Other, In Other Earlier -> FString_eqb Name (NameOf Other) = false.
Proof.
  induction l as [|a l IH]; intros (y & Hy & E); [destruct Hy|].
  destruct (FString_eqb Name (NameOf a)) eqn:Ea.
  - exists [], a, l. split; [reflexivity|]. split; [exact Ea | intros ? []].
  - destruct IH as (Earlier & First & Later & -> & EF & HO).
    + destruct Hy as [->|Hy]; [congruence|]. now exists y.
    + exists (a :: Earlier), First, Later. split; [reflexivity|].
      split; [exact EF|]. intros Other [<-|HIn]; [exact Ea | now apply HO].
Qed.

Lemma NamesReported_clean {X : Type} (NameOf PathOf : X -> FString)
  Category CollisionCategory (Items : list X) log :
  NamesReported NameOf PathOf Category CollisionCategory Items log ->
  existsb LogEntry_IsError log = false ->
  NamesWellFormed NameOf Items.
Proof.
  intros HR HE.
  assert (NoErr : forall e, In e log -> LogEntry_IsError e = true -> False).
  { intros e Hin He. pose proof (existsb_IsError_In e log Hin He). congruence. }
  split.
  - intros x Hin. apply in_split in Hin. destruct Hin as (Before & After & E).
    destruct (HR Before x After E) as (H1 & H2 & _). split.
    + intros Hx. eapply NoErr; [now apply H1 | reflexivity].
    + destruct (FString_StartsWithDigit (NameOf x)) eqn:D; [|reflexivity].
      exfalso. eapply NoErr; [now apply H2 | reflexivity].
  - apply ForallOrdPairs_prefixes. intros Before x After E y Hy.
    destruct (FString_eqb (NameOf y) (NameOf x)) eqn:Eyx; [exfalso | reflexivity].
    destruct (HR Before x After E) as (_ & _ & H3).
    destruct (first_with_name NameOf (NameOf x) Before) as (Ea & F & La & EB & EF & HO).
    { exists y. split; [exact Hy|]. now rewrite FString_eqb_sym. }
    eapply NoErr; [exact (H3 Ea F La EB EF HO) | reflexivity].
Qed.

(** X6.  [ValidateIdentifierNames] returns true exactly when every class
    of the run is well formed: its sanitized class name, and the names of
    its replicated properties, handover properties and subobjects, are not
    empty and do not start with a digit, and no two of the replicated
    properties of one group, of the handover properties, or of the
    subobjects have names that are the same when case is ignored.  Names
    already in the name tables make no difference. *)
Theorem ValidateIdentifierNames_accepts_exactly_well_formed_classes :
  forall (TypeInfos : list FUnrealType) (st : GeneratorState),
    fst (ValidateIdentifierNames TypeInfos st) = true
    <-> forall TypeInfo, In TypeInfo TypeInfos -> TypeInfoWellFormed TypeInfo.
Proof.
  intros TypeInfos st. split.
  - (* a violation would have its error line, and fail the run *)
    intros HT TypeInfo Hin.
    destruct (ValidateIdentifierNames_LogStep TypeInfos st)
      as (classes & collisions & members & (_ & HB) & HC & _ & HM).
    rewrite HT in HB. cbn [andb] in HB. symmetry in HB.
    apply negb_true_iff in HB. rewrite !existsb_app in HB.
    apply orb_false_iff in HB. destruct HB as (E1 & HB).
    apply orb_false_iff in HB. destruct HB as (_ & E3).
    assert (NoErr : forall e, In e classes -> LogEntry_IsError e = true -> False).
    { intros e He Hs. pose proof (existsb_IsError_In e classes He Hs). congruence. }
    destruct (HC TypeInfo Hin) as (C1 & C2).
    destruct (HM TypeInfo Hin) as (M1 & M2 & M3).
    split; [split|split; [|split]].
    + intros E. eapply NoErr; [now apply C1 | reflexivity].
    + destruct (FString_StartsWithDigit _) eqn:D; [|reflexivity].
      exfalso. eapply NoErr; [now apply C2 | reflexivity].
    + intros Group. eapply NamesReported_clean; [apply M1 | exact E3].
    + eapply NamesReported_clean; [apply M2 | exact E3].
    + eapply NamesReported_clean; [apply M3 | exact E3].
  - (* no step of the two loops lowers the flag *)
    intros HW. unfold ValidateIdentifierNames.
    assert (H1 : forall Ts b s,
               (forall T, In T Ts -> TypeInfoWellFormed T) ->
               fst (ValidateClassNames Ts b s) = b).
    { induction Ts as [|T Ts IH]; intros b s HTs; [reflexivity|].
      rewrite ValidateClassNames_cons, IH.
      - apply ValidateClassName_clean, HTs. now left.
      - intros T' HT'. apply HTs. now right. }
    assert (H2 : forall Ts b s,
               (forall T, In T Ts -> TypeInfoWellFormed T) ->
               fst (CheckAllIdentifierNames Ts b s) = b).
    { unfold CheckAllIdentifierNames.
      induction Ts as [|T Ts IH]; intros b s HTs; [reflexivity|].
      cbn [fold_left fst snd].
      pose proof (CheckIdentifierNameValidity_clean T b s (HTs T (or_introl eq_refl)))
        as E.
      destruct (CheckIdentifierNameValidity T b s) as [b1 s1]. cbn in E. subst b1.
      apply IH. intros T' HT'. apply HTs. now right. }
    pose proof (H1 TypeInfos true st HW) as E1.
    destruct (ValidateClassNames TypeInfos true st) as [b1 st1]. cbn in E1. subst b1.
    now apply H2.
Qed.

(** ** A run over classes that fails *)

Lemma SameDatabase_UE_LOG e st : SameDatabase st (UE_LOG e st).
Proof. unfold SameDatabase. cbn. auto 10. Qed.

Lemma CollectTypeInfos_SameButClasses Classes TypeInfos st :
  SameDatabase st (snd (CollectTypeInfos Classes TypeInfos st))
  /\ Log (snd (CollectTypeInfos Classes TypeInfos st)) = Log st.
Proof.
  destruct (CollectTypeInfos_added Classes TypeInfos st) as (added & E & _).
  rewrite E. unfold SameDatabase. cbn. auto 10.
Qed.

(** X7.  When [SpatialGDKGenerateSchemaForClasses] returns false it has
    written no file and has changed nothing that is saved: the class
    records, the id sets, the level and distance maps and the counter are
    as before.  The log then has a new name-validation error, or the line
    for an invalid schema path. *)
Theorem SpatialGDKGenerateSchemaForClasses_failure_changes_nothing_saved :
  forall (Classes : list UClass) (SchemaOutputPath : FString) (env : Env)
         (st st' : GeneratorState) (world world' : World),
    SpatialGDKGenerateSchemaForClasses Classes SchemaOutputPath env st world
    = Ok (false, st', world') ->
    world' = world
    /\ SameDatabase st st'
    /\ exists new,
         Log st' = Log st ++ new
         /\ (existsb LogEntry_IsError new = true
             \/ In (Error_InvalidSchemaPath
                      (if FString_IsEmpty SchemaOutputPath
                       then Env_GeneratedSchemaOutputFolder env
                       else SchemaOutputPath)) new).
Proof.
  intros Classes SchemaOutputPath env st st' world world'.
  unfold SpatialGDKGenerateSchemaForClasses. cbv zeta.
  destruct (ResetUsedNames_records st) as (_ & _ & (_ & D0 & L0)).
  destruct (CollectTypeInfos_SameButClasses (Sort_by UClass_PathName Classes) []
              (ResetUsedNames st)) as (D1 & L1).
  destruct (CollectTypeInfos (Sort_by UClass_PathName Classes) [] (ResetUsedNames st))
    as [TypeInfos st2].
  cbn [snd] in D1, L1.
  destruct (ValidateIdentifierNames_names TypeInfos st2) as (_ & D2 & _).
  destruct (ValidateIdentifierNames_LogStep TypeInfos st2)
    as (classes & collisions & members & (L2 & B2) & _).
  destruct (ValidateIdentifierNames TypeInfos st2) as [bValid st3].
  cbn [fst snd] in D2, L2, B2.
  assert (D3 : SameDatabase st st3).
  { eapply SameDatabase_trans; [exact D0|].
    eapply SameDatabase_trans; [exact D1 | exact D2]. }
  assert (L3 : Log st3 = Log st ++ classes ++ collisions ++ members)
    by (rewrite L2, L1, L0; reflexivity).
  destruct bValid; cbn [negb].
  - destruct (Env_CollapseRelativeDirectories env _) as [Path2|].
    + destruct (GenerateSchemaFromClasses TypeInfos Path2 _ env _ world)
        as [e|[[g st5] world1]]; cbn [bind]; intros H; [discriminate H|].
      unfold Ok in H. injection H as Hb _ _. discriminate Hb.
    + intros H. unfold Ok in H. injection H as <- <-.
      split; [reflexivity|]. split.
      * eapply SameDatabase_trans; [exact D3|].
        eapply SameDatabase_trans; apply SameDatabase_UE_LOG.
      * eexists. split.
        -- cbn. rewrite L3, <- !app_assoc. reflexivity.
        -- right. rewrite !in_app_iff. right. right. right. right. now left.
  - intros H. unfold Ok in H. injection H as <- <-.
    split; [reflexivity|]. split; [exact D3|].
    exists (classes ++ collisions ++ members). split; [exact L3|].
    left. cbn [andb] in B2. symmetry in B2. now apply negb_false_iff in B2.
Qed.

(** ** Calling the run again in the same session *)

Lemma CollectTypeInfos_all_generated Classes :
  forall TypeInfos st,
    (forall c, In c Classes ->
               TSet_Contains UClass_eqb c (SchemaGeneratedClasses st) = true) ->
    CollectTypeInfos Classes TypeInfos st = (TypeInfos, st).
Proof.
  induction Classes as [|c Classes IH]; intros TypeInfos st H; cbn; [reflexivity|].
  rewrite (H c) by now left. apply IH. intros c' Hc'. apply H. now right.
Qed.

Lemma SpatialGDKGenerateSchemaForClasses_classes_generated Classes SchemaOutputPath
  env st world b st' world' :
  SpatialGDKGenerateSchemaForClasses Classes SchemaOutputPath env st world
  = Ok (b, st', world') ->
  forall c, In c Classes ->
            TSet_Contains UClass_eqb c (SchemaGeneratedClasses st') = true.
Proof.
  unfold SpatialGDKGenerateSchemaForClasses. cbv zeta.
  destruct (CollectTypeInfos_added (Sort_by UClass_PathName Classes) []
              (ResetUsedNames st)) as (added & E & _ & CK & _).
  rewrite E. cbn [app].
  set (st2 := set_SchemaGeneratedClasses _ (ResetUsedNames st)) in *.
  assert (G2 : forall c, In c Classes ->
                         TSet_Contains UClass_eqb c (SchemaGeneratedClasses st2) = true).
  { intros c Hc. apply CK.
    eapply Permutation_in; [symmetry; apply Sort_by_Permutation | exact Hc]. }
  destruct (ValidateIdentifierNames_names (map CreateUnrealTypeInfo added) st2)
    as (_ & _ & G3).
  destruct (ValidateIdentifierNames (map CreateUnrealTypeInfo added) st2)
    as [bValid st3].
  cbn [snd] in G3.
  destruct bValid; cbn [negb].
  - destruct (Env_CollapseRelativeDirectories env _) as [Path2|].
    + destruct (GenerateSchemaFromClasses _ Path2 _ env _ world)
        as [e|[[g st5] world1]] eqn:EG; cbn [bind]; intros H; [discriminate H|].
      unfold Ok in H. injection H as _ <- _.
      apply GenerateSchemaFromClasses_inv in EG.
      destruct EG as (_ & (_ & _ & _ & G5 & _) & _).
      intros c Hc. cbn. rewrite G5. cbn. rewrite G3. now apply G2.
    + intros H. unfold Ok in H. injection H as _ <- _.
      intros c Hc. cbn. rewrite G3. now apply G2.
  - intros H. unfold Ok in H. injection H as _ <- _.
    intros c Hc. rewrite G3. now apply G2.
Qed.

(** X8.  [SpatialGDKGenerateSchemaForClasses] remembers the classes it was
    given, whatever it returned: called again with the same classes in the
    same session (and a schema path that is valid), it returns true,
    writes no file, and leaves the class records, the id sets, the maps
    and the counter as the first call left them.  So a second call does
    not repeat a validation failure of the first. *)
Theorem SpatialGDKGenerateSchemaForClasses_again_generates_nothing :
  forall (Classes : list UClass) (SchemaOutputPath : FString) (env : Env)
         (st st1 : GeneratorState) (world world1 : World) (b : bool),
    SpatialGDKGenerateSchemaForClasses Classes SchemaOutputPath env st world
    = Ok (b, st1, world1) ->
    Env_CollapseRelativeDirectories env
      (if FString_IsEmpty SchemaOutputPath
       then Env_GeneratedSchemaOutputFolder env
       else SchemaOutputPath) <> None ->
    exists st2,
      SpatialGDKGenerateSchemaForClasses Classes SchemaOutputPath env st1 world1
      = Ok (true, st2, world1)
      /\ SameDatabase st1 st2
      /\ SchemaGeneratedClasses st2 = SchemaGeneratedClasses st1.
Proof.
  intros Classes SchemaOutputPath env st st1 world world1 b HRun HPath.
  pose proof (SpatialGDKGenerateSchemaForClasses_classes_generated
                _ _ _ _ _ _ _ _ HRun) as HG.
  unfold SpatialGDKGenerateSchemaForClasses. cbv zeta.
  rewrite CollectTypeInfos_all_generated.
  2:{ intros c Hc. rewrite ResetUsedNames_SchemaGeneratedClasses. apply HG.
      eapply Permutation_in; [apply Sort_by_Permutation | exact Hc]. }
  unfold ValidateIdentifierNames, ValidateClassNames, CheckAllIdentifierNames.
  cbn [fold_left negb].
  destruct (Env_CollapseRelativeDirectories env _) as [Path2|]; [|contradiction].
  cbn [GenerateSchemaFromClasses]. unfold Ok. cbn [bind].
  eexists. split; [reflexivity|].
  destruct (ResetUsedNames_records st1) as (_ & _ & (G0 & D0 & _)).
  destruct (LogClassNameCollisions_SameButLog (ResetUsedNames st1))
    as (_ & _ & _ & G1 & D1).
  split.
  - eapply SameDatabase_trans; [exact D0|].
    eapply SameDatabase_trans; [exact D1|].
    unfold SameDatabase. cbn. auto 10.
  - cbn. rewrite G1. exact G0.
Qed.

(** ** Running the sublevel and distance steps again *)

Lemma TMap_Add_idem {K V : Type} (eqb : K -> K -> bool)
  (eqb_spec : forall a b, reflect (a = b) (eqb a b)) (k : K) (v : V)
  (m : list (K * V)) :
  TMap_Add eqb k v (TMap_Add eqb k v m) = TMap_Add eqb k v m.
Proof.
  induction m as [|[k0 v0] m IH]; cbn.
  - now destruct (eqb_spec k k).
  - destruct (eqb_spec k k0) as [->|NE]; cbn.
    + now destruct (eqb_spec k0 k0).
    + destruct (eqb_spec k k0); [contradiction|]. now rewrite IH.
Qed.

Lemma Writer_WriteToFile_idem FileName w env world world1 :
  Writer_WriteToFile FileName w env world = Ok world1 ->
  Writer_WriteToFile FileName w env world1 = Ok world1.
Proof.
  intros H. apply Writer_WriteToFile_inv in H. destruct H as (HF & ->).
  unfold Writer_WriteToFile. rewrite HF. cbn.
  now rewrite (TMap_Add_idem String.eqb String_eqb_reflect).
Qed.

Lemma set_NextAvailableComponentId_same st :
  set_NextAvailableComponentId (NextAvailableComponentId st) st = st.
Proof. now destruct st. Qed.

Lemma WriteNamedLevelComponents_assigned (Components : list (FString * FString)) :
  forall w g st,
    (forall p, In p (map snd Components) ->
               TMap_FindRef FString_eqb 0 p (LevelPathToComponentId st) <> 0) ->
    WriteNamedLevelComponents Components w g st
    = Ok (SublevelsText Components
            (fun p => TMap_FindRef FString_eqb 0 p (LevelPathToComponentId st)) w,
          g, st).
Proof.
  induction Components as [|[n p] Components IH]; intros w g st H; [reflexivity|].
  cbn [WriteNamedLevelComponents]. unfold LevelComponentId.
  destruct (Z.eqb_spec (TMap_FindRef FString_eqb 0 p (LevelPathToComponentId st)) 0)
    as [E|_]; [exfalso; apply (H p); [now left | exact E]|].
  unfold Ok. cbn [bind]. rewrite IH by (intros q Hq; apply H; now right).
  reflexivity.
Qed.

Lemma TSet_Contains_In_true (p : FString) (l : list FString) :
  In p l -> TSet_Contains FString_eqb p l = true.
Proof.
  intros H. apply (TSet_Contains_exists_eqv FString_eqb). exists p.
  split; [exact H | apply FString_eqb_refl].
Qed.

Lemma WriteNamedLevelComponents_all_assigned (Components : list (FString * FString))
  w g st w' g' st' :
  0 < CurrentId g ->
  WriteNamedLevelComponents Components w g st = Ok (w', g', st') ->
  forall p, In p (map snd Components) ->
            TMap_FindRef FString_eqb 0 p (LevelPathToComponentId st') <> 0.
Proof.
  intros HG E p Hp.
  destruct (WriteNamedLevelComponents_inv Components w g st w' g' st' HG E)
    as (_ & HI & HU & _).
  unfold TMap_FindRef.
  destruct (TSet_Contains FString_eqb p
              (UnassignedPaths Components (LevelPathToComponentId st))) eqn:C.
  - apply (TSet_Contains_exists_eqv FString_eqb) in C.
    destruct C as (q & Hq & Eq).
    apply In_nth_error in Hq. destruct Hq as (i & Hi).
    rewrite (FString_Find_eqv p q _ Eq), (HI i q Hi). lia.
  - rewrite (HU p C). rewrite UnassignedPaths_Contains in C.
    rewrite (TSet_Contains_In_true p _ Hp) in C. cbn [andb] in C.
    apply Z.eqb_neq in C. exact C.
Qed.

(** X9.  After [GenerateSchemaForSublevels] has run from a positive
    counter, every level path it was given has a non-zero component id
    (looked up without case, as the map does), and running it again on the
    same levels changes nothing: no id is minted, the counter and the map
    stay as they are, and the file is written with the same text. *)
Theorem GenerateSchemaForSublevels_again_changes_nothing :
  forall (SchemaOutputPath : FString) (LevelNamesToPaths : list (FString * FString))
         (env : Env) (st st1 : GeneratorState) (world world1 : World),
    0 < NextAvailableComponentId st ->
    GenerateSchemaForSublevels SchemaOutputPath LevelNamesToPaths env st world
    = Ok (st1, world1) ->
    (forall LevelPath,
       In LevelPath (map snd LevelNamesToPaths) ->
       TMap_FindRef FString_eqb 0 LevelPath (LevelPathToComponentId st1) <> 0)
    /\ GenerateSchemaForSublevels SchemaOutputPath LevelNamesToPaths env st1 world1
       = Ok (st1, world1).
Proof.
  intros Path Levels env st st1 world world1 HN H.
  unfold GenerateSchemaForSublevels in H.
  rewrite WriteLevelComponents_display in H.
  destruct (WriteNamedLevelComponents (SublevelComponents Levels) SublevelsHeader
              (mkGenerator (NextAvailableComponentId st)) st)
    as [e|[[w g] st']] eqn:E; [discriminate|].
  cbn [bind] in H.
  destruct (Writer_WriteToFile _ w env world) as [e|world2] eqn:EW; [discriminate|].
  cbn [bind] in H. unfold Ok in H. injection H as <- <-.
  pose proof (WriteNamedLevelComponents_all_assigned _ _
                (mkGenerator (NextAvailableComponentId st)) _ _ _ _ HN E) as HA.
  destruct (WriteNamedLevelComponents_inv _ _
              (mkGenerator (NextAvailableComponentId st)) _ _ _ _ HN E)
    as (_ & _ & _ & _ & HW).
  split.
  - intros p Hp. cbn. apply HA. now apply SublevelComponents_paths.
  - unfold GenerateSchemaForSublevels.
    rewrite WriteLevelComponents_display, WriteNamedLevelComponents_assigned.
    + unfold Ok. cbn [bind FComponentIdGenerator_Peek fst CurrentId].
      rewrite set_NextAvailableComponentId_same.
      cbn [LevelPathToComponentId set_NextAvailableComponentId].
      rewrite <- HW, (Writer_WriteToFile_idem _ _ _ _ _ EW). reflexivity.
    + intros p Hp. cbn. now apply HA.
Qed.

Lemma WriteNCDComponents_assigned (Entries : list (float * Worker_ComponentId)) :
  forall w g,
    (forall Entry, In Entry Entries -> snd Entry <> 0) ->
    WriteNCDComponents Entries w g = Ok (Entries, NCDText Entries w, g).
Proof.
  induction Entries as [|[Key Value] Entries IH]; intros w g H; [reflexivity|].
  cbn [WriteNCDComponents].
  destruct (Z.eqb_spec Value 0) as [E|_];
    [exfalso; apply (H (Key, Value)); [now left | exact E]|].
  unfold Ok. cbn [bind]. rewrite IH by (intros e He; apply H; now right).
  reflexivity.
Qed.

(** X10.  After [GenerateSchemaForNCDs] has run from a positive counter,
    every net cull distance has a non-zero component id, and running it
    again changes nothing: the map and the counter stay as they are and
    the file is written with the same text. *)
Theorem GenerateSchemaForNCDs_again_changes_nothing :
  forall (SchemaOutputPath : FString) (env : Env) (st st1 : GeneratorState)
         (world world1 : World),
    0 < NextAvailableComponentId st ->
    GenerateSchemaForNCDs SchemaOutputPath env st world = Ok (st1, world1) ->
    (forall Entry, In Entry (NetCullDistanceToComponentId st1) -> snd Entry <> 0)
    /\ GenerateSchemaForNCDs SchemaOutputPath env st1 world1 = Ok (st1, world1).
Proof.
  intros Path env st st1 world world1 HN H.
  unfold GenerateSchemaForNCDs in H.
  destruct (WriteNCDComponents (NetCullDistanceToComponentId st) NCDHeader
              (mkGenerator (NextAvailableComponentId st)))
    as [e|[[Es w] g]] eqn:E; [discriminate|].
  cbn [bind] in H.
  destruct (Writer_WriteToFile _ w env world) as [e|world2] eqn:EW; [discriminate|].
  cbn [bind] in H. unfold Ok in H. injection H as <- <-.
  destruct (WriteNCDComponents_inv _ _ _ _ _ _ E) as (HK & _ & HV & HW).
  cbn [CurrentId] in HV.
  assert (HA : forall Entry, In Entry Es -> snd Entry <> 0).
  { intros [Key Value] Hin. apply In_nth_error in Hin. destruct Hin as (i & Hi).
    assert (HL : (i < List.length (NetCullDistanceToComponentId st))%nat).
    { rewrite <- (length_map fst), <- HK, length_map.
      apply nth_error_Some. congruence. }
    destruct (nth_error (NetCullDistanceToComponentId st) i) as [[Key0 Value0]|] eqn:E0;
      [|apply nth_error_None in E0; lia].
    rewrite (HV i Key0 Value0 E0) in Hi. injection Hi as <- <-. cbn.
    destruct (Z.eqb_spec Value0 0); lia. }
  split.
  - intros Entry Hin. cbn in Hin. now apply HA.
  - unfold GenerateSchemaForNCDs.
    cbn [NetCullDistanceToComponentId set_NextAvailableComponentId
         set_NetCullDistanceToComponentId NextAvailableComponentId].
    rewrite WriteNCDComponents_assigned by exact HA.
    unfold Ok. cbn [bind FComponentIdGenerator_Peek fst CurrentId].
    rewrite <- HW, (Writer_WriteToFile_idem _ _ _ _ _ EW). reflexivity.
Qed.

(** ** The object listener *)

Lemma NotifyUObjectCreated_step (c : UClass) (L : FObjectListener) :
  let L' := NotifyUObjectCreated c L in
  incl (VisitedClasses L) (VisitedClasses L')
  /\ incl (UnsupportedClasses L) (UnsupportedClasses L')
  /\ (forall p, In p (VisitedClasses L') ->
                In p (VisitedClasses L)
                \/ (p = UClass_PathName c /\ IsSupportedClass c = true
                    /\ ~ In p (UnsupportedClasses L)))
  /\ (forall p, In p (UnsupportedClasses L') ->
                In p (UnsupportedClasses L)
                \/ (p = UClass_PathName c /\ IsSupportedClass c = false
                    /\ ~ In p (VisitedClasses L)))
  /\ (In (UClass_PathName c) (VisitedClasses L')
      \/ In (UClass_PathName c) (UnsupportedClasses L')).
Proof.
  unfold NotifyUObjectCreated. cbv zeta.
  destruct (TSet_Contains String.eqb (UClass_PathName c) (UnsupportedClasses L)) eqn:CU.
  - apply (TSet_Contains_In String.eqb String_eqb_reflect) in CU.
    repeat split; auto using incl_refl.
  - assert (NU : ~ In (UClass_PathName c) (UnsupportedClasses L)).
    { intros H. apply (TSet_Contains_In String.eqb String_eqb_reflect) in H.
      congruence. }
    destruct (TSet_Contains String.eqb (UClass_PathName c) (VisitedClasses L)) eqn:CV;
      cbn [negb].
    + apply (TSet_Contains_In String.eqb String_eqb_reflect) in CV.
      repeat split; auto using incl_refl.
    + assert (NV : ~ In (UClass_PathName c) (VisitedClasses L)).
      { intros H. apply (TSet_Contains_In String.eqb String_eqb_reflect) in H.
        congruence. }
      unfold TSet_Add. rewrite CU, CV.
      destruct (IsSupportedClass c) eqn:S; cbn;
        (split; [auto using incl_refl, incl_appl|]);
        (split; [auto using incl_refl, incl_appl|]);
        (split; [intros p Hp; try rewrite in_app_iff in Hp; cbn in Hp;
                 intuition (subst; auto)|]);
        (split; [intros p Hp; try rewrite in_app_iff in Hp; cbn in Hp;
                 intuition (subst; auto)|]);
        rewrite in_app_iff; cbn; auto.
Qed.

Lemma NotifyUObjectsCreated_inv (ObjectClasses : list UClass) :
  forall (L : FObjectListener),
    (forall p, In p (VisitedClasses L) -> ~ In p (UnsupportedClasses L)) ->
    let L' := NotifyUObjectsCreated ObjectClasses L in
    incl (VisitedClasses L) (VisitedClasses L')
    /\ incl (UnsupportedClasses L) (UnsupportedClasses L')
    /\ (forall p, In p (VisitedClasses L') ->
                  In p (VisitedClasses L)
                  \/ exists c, In c ObjectClasses /\ UClass_PathName c = p
                               /\ IsSupportedClass c = true)
    /\ (forall p, In p (UnsupportedClasses L') ->
                  In p (UnsupportedClasses L)
                  \/ exists c, In c ObjectClasses /\ UClass_PathName c = p
                               /\ IsSupportedClass c = false)
    /\ (forall c, In c ObjectClasses ->
                  In (UClass_PathName c) (VisitedClasses L')
                  \/ In (UClass_PathName c) (UnsupportedClasses L'))
    /\ (forall p, In p (VisitedClasses L') -> ~ In p (UnsupportedClasses L')).
Proof.
  induction ObjectClasses as [|c Cs IH]; intros L HD; cbn [NotifyUObjectsCreated fold_left].
  - repeat split; auto using incl_refl. intros c [].
  - destruct (NotifyUObjectCreated_step c L) as (S1 & S2 & S3 & S4 & S5).
    cbv zeta in *.
    assert (HD1 : forall p, In p (VisitedClasses (NotifyUObjectCreated c L)) ->
                            ~ In p (UnsupportedClasses (NotifyUObjectCreated c L))).
    { intros p HV HU.
      destruct (S3 p HV) as [V|(E1 & SV & NU)], (S4 p HU) as [U|(E2 & SU & NV)].
      - exact (HD p V U).
      - contradiction.
      - contradiction.
      - congruence. }
    destruct (IH (NotifyUObjectCreated c L) HD1) as (I1 & I2 & I3 & I4 & I5 & I6).
    fold (NotifyUObjectsCreated Cs (NotifyUObjectCreated c L)) in *.
    split; [eapply incl_tran; eassumption|].
    split; [eapply incl_tran; eassumption|].
    split; [|split; [|split; [|exact I6]]].
    + intros p Hp. destruct (I3 p Hp) as [H|(c' & Hc' & E & S)].
      * destruct (S3 p H) as [V|(-> & SV & _)]; [now left|].
        right. exists c. split; [now left | split; [reflexivity | exact SV]].
      * right. exists c'. split; [now right | split; assumption].
    + intros p Hp. destruct (I4 p Hp) as [H|(c' & Hc' & E & S)].
      * destruct (S4 p H) as [U|(-> & SU & _)]; [now left|].
        right. exists c. split; [now left | split; [reflexivity | exact SU]].
      * right. exists c'. split; [now right | split; assumption].
    + intros c' [<-|Hc']; [|now apply I5].
      destruct S5 as [V|U]; [left; now apply I1 | right; now apply I2].
Qed.

(** X11.  A listener that starts with no class marked unsupported puts
    the class of every created object in the visited set or in the
    unsupported set, never in both.  What the visited set gains is the
    path of a created object's class that [IsSupportedClass] accepted;
    what the unsupported set holds is the path of one it refused; neither
    set loses a class. *)
Theorem FObjectListener_sorts_every_created_class :
  forall (ObjectClasses : list UClass) (ReferencedClasses : list FString),
    let Listener :=
      NotifyUObjectsCreated ObjectClasses (mkListener ReferencedClasses []) in
    incl ReferencedClasses (VisitedClasses Listener)
    /\ (forall p, In p (VisitedClasses Listener) ->
                  In p ReferencedClasses
                  \/ exists c, In c ObjectClasses /\ UClass_PathName c = p
                               /\ IsSupportedClass c = true)
    /\ (forall p, In p (UnsupportedClasses Listener) ->
                  exists c, In c ObjectClasses /\ UClass_PathName c = p
                            /\ IsSupportedClass c = false)
    /\ (forall c, In c ObjectClasses ->
                  In (UClass_PathName c) (VisitedClasses Listener)
                  \/ In (UClass_PathName c) (UnsupportedClasses Listener))
    /\ (forall p, In p (VisitedClasses Listener) ->
                  ~ In p (UnsupportedClasses Listener)).
Proof.
  intros ObjectClasses ReferencedClasses Listener.
  destruct (NotifyUObjectsCreated_inv ObjectClasses (mkListener ReferencedClasses []))
    as (I1 & _ & I3 & I4 & I5 & I6); [intros p _ []|].
  fold Listener in I1, I3, I4, I5, I6. cbn in I1, I3, I4.
  split; [exact I1|]. split; [exact I3|]. split; [|split; [exact I5 | exact I6]].
  intros p Hp. destruct (I4 p Hp) as [[]|H]. exact H.
Qed.

(** ** The commandlet *)

Lemma RefreshSchemaFiles_database (Path : FString) (env : Env)
  (st : GeneratorState) (world : World) :
  World_DatabaseFile (snd (RefreshSchemaFiles Path env st world))
  = World_DatabaseFile world.
Proof.
  unfold RefreshSchemaFiles.
  repeat match goal with
         | |- context [if ?c then _ else _] => destruct c; try reflexivity
         end.
Qed.

Lemma CopyWellKnownSchemaFiles_database cook GDKDir CoreDir env st world :
  World_DatabaseFile (snd (CopyWellKnownSchemaFiles cook GDKDir CoreDir env st world))
  = World_DatabaseFile world.
Proof.
  unfold CopyWellKnownSchemaFiles, CopyDirectoryTree.
  pose proof (RefreshSchemaFiles_database GDKDir env st world) as E1.
  destruct (RefreshSchemaFiles GDKDir env st world) as [[b1 st1] world1].
  cbn [snd] in E1.
  match goal with
  | |- context [RefreshSchemaFiles CoreDir env st1 ?w] =>
      pose proof (RefreshSchemaFiles_database CoreDir env st1 w) as E2;
      destruct (RefreshSchemaFiles CoreDir env st1 w) as [[b2 st2] world3]
  end.
  cbn in E2 |- *. congruence.
Qed.

Lemma CookAndGenerateSchema_LoadState_database env st world :
  World_DatabaseFile (snd (CookAndGenerateSchema_LoadState env st world))
  = World_DatabaseFile world.
Proof.
  unfold CookAndGenerateSchema_LoadState, ResetSchemaGeneratorStateAndCleanupFolders.
  destruct (LoadGeneratorStateFromSchemaDatabase world st) as [bLoaded st1].
  destruct bLoaded; cbn [negb]; [reflexivity|].
  pose proof (RefreshSchemaFiles_database (Env_GeneratedSchemaOutputFolder env) env
                (ResetSchemaGeneratorState st1) world) as E.
  now destruct (RefreshSchemaFiles _ env (ResetSchemaGeneratorState st1) world)
    as [[b st2] world1].
Qed.

Lemma GenerateSchemaInBatches_database cook (ReferencedClasses : list FString) :
  forall Classes env st world Classes' lines st' world',
    GenerateSchemaInBatches cook ReferencedClasses Classes env st world
    = Ok (Classes', lines, st', world') ->
    World_DatabaseFile world' = World_DatabaseFile world.
Proof.
  induction ReferencedClasses as [|SoftPath Rest IH];
    intros Classes env st world Classes' lines st' world' H;
    cbn [GenerateSchemaInBatches] in H.
  - unfold Ok in H. now injection H as _ _ _ <-.
  - destruct (Cook_TryLoadClass cook SoftPath) as [LoadedClass|].
    + cbv zeta in H.
      destruct (BatchSize <=? _)%nat; [|now apply IH in H].
      bind_inv H. destruct p as [[b st1] world1].
      apply SpatialGDKGenerateSchemaForClasses_database in E.
      apply IH in H. congruence.
    + bind_inv H. destruct p as [[[Classes1 lines1] st1] world1].
      unfold Ok in H. injection H as _ _ _ <-. now apply IH in E.
Qed.

(** X12.  What [UCookAndGenerateSchemaCommandlet::Main] returns.  With a
    read-only database package it returns 0 and touches neither the
    generator's tables nor any file.  Otherwise it returns the cook's
    result when the schema compiler and the package write both succeed,
    and the database package then holds the generator state; it returns 0
    and leaves the database package as it was when one of the two fails.
    Whether a batch of classes passed name validation plays no part. *)
Theorem CookAndGenerateSchema_Main_outcome :
  forall (cook : FCookRun) (env : Env) (st st' : GeneratorState)
         (world world' : World) (code : Z) (lines : list FCommandletLogLine),
    UCookAndGenerateSchemaCommandlet_Main cook env st world
    = Ok (code, lines, st', world') ->
    (IsAssetReadOnly world = true ->
     code = 0 /\ world' = world /\ SameButLog st st')
    /\ (IsAssetReadOnly world = false ->
        code = (if SchemaCompilerSucceeds env && Env_SavePackage env
                then Cook_Result cook else 0)
        /\ (SchemaCompilerSucceeds env && Env_SavePackage env = false ->
            World_DatabaseFile world' = World_DatabaseFile world)
        /\ (SchemaCompilerSucceeds env && Env_SavePackage env = true ->
            exists SchemaDatabase,
              World_DatabaseFile world'
              = Some (mkDatabaseFile false (Some SchemaDatabase))
              /\ DB_NextAvailableComponentId SchemaDatabase
                 = NextAvailableComponentId st'
              /\ DB_ActorClassPathToSchema SchemaDatabase
                 = ActorClassPathToSchema st'
              /\ DB_SubobjectClassPathToSchema SchemaDatabase
                 = SubobjectClassPathToSchema st'
              /\ DB_LevelPathToComponentId SchemaDatabase
                 = LevelPathToComponentId st'
              /\ DB_NetCullDistanceToComponentId SchemaDatabase
                 = NetCullDistanceToComponentId st')).
Proof.
  intros cook env st st' world world' code lines H.
  unfold UCookAndGenerateSchemaCommandlet_Main in H. cbv zeta in H.
  destruct (IsAssetReadOnly world) eqn:RO.
  - unfold Ok in H. injection H as <- _ <- <-.
    split; [|discriminate]. intros _.
    split; [reflexivity|]. split; [reflexivity | apply UE_LOG_SameButLog].
  - split; [discriminate|]. intros _.
    pose proof (CopyWellKnownSchemaFiles_database cook GDKSchemaCopyDir
                  CoreSDKSchemaCopyDir env st world) as D1.
    destruct (CopyWellKnownSchemaFiles cook GDKSchemaCopyDir CoreSDKSchemaCopyDir
                env st world) as [[lines1 st1] world1].
    pose proof (RefreshSchemaFiles_database (Env_GeneratedSchemaOutputFolder env)
                  env st1 world1) as D2.
    destruct (RefreshSchemaFiles (Env_GeneratedSchemaOutputFolder env) env st1 world1)
      as [[b2 st2] world2].
    pose proof (CookAndGenerateSchema_LoadState_database env st2 world2) as D3.
    destruct (CookAndGenerateSchema_LoadState env st2 world2) as [st3 world3].
    cbn [snd] in D1, D2, D3.
    bind_inv H. destruct p as [[[Classes lines2] st4] world4].
    apply GenerateSchemaInBatches_database in E.
    bind_inv H. destruct p as [[b5 st5] world5].
    apply SpatialGDKGenerateSchemaForClasses_database in E0.
    bind_inv H. destruct p as [st6 world6].
    apply GenerateSchemaForSublevels_database in E1.
    bind_inv H. rename w into world7. unfold GenerateSchemaForRPCEndpoints in E2.
    apply Writer_WriteToFile_database in E2.
    bind_inv H. destruct p as [st7 world8].
    apply GenerateSchemaForNCDs_database in E3.
    assert (D8 : World_DatabaseFile world8 = World_DatabaseFile world) by congruence.
    pose proof (RunSchemaCompiler_result env st7) as Hc.
    destruct (RunSchemaCompiler env st7) as [bCompiled st8]. cbn [fst] in Hc.
    rewrite <- Hc.
    destruct bCompiled; cbn [negb andb] in H |- *.
    2:{ unfold Ok in H. injection H as <- _ _ <-.
        split; [reflexivity|]. split; [intros _; exact D8 | discriminate]. }
    bind_inv H. destruct p as [[bSaved st9] world9].
    pose proof (SaveSchemaDatabase_inv _ _ _ _ _ _ E4) as (_ & _ & _ & _ & _ & _ & Hs).
    unfold SaveSchemaDatabase in E4.
    repeat (bind_inv E4).
    destruct (Env_SavePackage env); subst bSaved; cbn [negb] in H, E4.
    + destruct (Env_DescriptorFile env) as [[Bytes|]|];
        unfold Ok in H, E4; injection E4 as <- <-; injection H as <- _ <- <-;
        (split; [reflexivity|]); (split; [discriminate|]); intros _;
        eexists; (split; [reflexivity|]); cbn; repeat split; reflexivity.
    + destruct (Env_DescriptorFile env) as [[Bytes|]|];
        unfold Ok in H, E4; injection E4 as <- <-; injection H as <- _ _ <-;
        (split; [reflexivity|]); (split; [intros _; exact D8 | discriminate]).
Qed.

(** ** The batches of the commandlet *)

Lemma TSet_Add_length {K : Type} (eqb : K -> K -> bool) (k : K) (s : list K) :
  (List.length s <= List.length (TSet_Add eqb k s) <= S (List.length s))%nat.
Proof.
  unfold TSet_Add. destruct (TSet_Contains eqb k s); [lia|].
  rewrite length_app. cbn. lia.
Qed.

Lemma TSet_Add_UClass_new (c : UClass) (s : list UClass) :
  ~ In (UClass_PathName c) (map UClass_PathName s) ->
  TSet_Add UClass_eqb c s = s ++ [c].
Proof.
  intros H. unfold TSet_Add.
  destruct (TSet_Contains UClass_eqb c s) eqn:C; [|reflexivity].
  apply TSet_Contains_exists in C. destruct C as (x & Hx & E).
  apply UClass_eqb_path in E. exfalso. apply H. rewrite E. now apply in_map.
Qed.

Lemma CookBatches_sizes cook (ReferencedClasses : list FString) :
  forall Classes,
    (List.length Classes < BatchSize)%nat ->
    Forall (fun Batch => List.length Batch = BatchSize)
      (fst (CookBatches cook ReferencedClasses Classes))
    /\ (List.length (snd (CookBatches cook ReferencedClasses Classes)) < BatchSize)%nat.
Proof.
  induction ReferencedClasses as [|SoftPath Rest IH]; intros Classes HL;
    cbn [CookBatches].
  - split; [constructor | exact HL].
  - destruct (Cook_TryLoadClass cook SoftPath) as [LoadedClass|]; [|now apply IH].
    cbv zeta. pose proof (TSet_Add_length UClass_eqb LoadedClass Classes) as HA.
    destruct (Nat.leb_spec BatchSize
                (List.length (TSet_Add UClass_eqb LoadedClass Classes))) as [HF|HF].
    + destruct (IH []) as (I1 & I2); [unfold BatchSize; cbn; lia|].
      cbn [fst snd]. split; [|exact I2]. constructor; [lia | exact I1].
    + now apply IH.
Qed.

Lemma CookBatches_concat cook (ReferencedClasses : list FString) :
  forall Classes,
    NoDup (map UClass_PathName (Classes ++ ReloadedClasses cook ReferencedClasses)) ->
    List.concat (fst (CookBatches cook ReferencedClasses Classes))
    ++ snd (CookBatches cook ReferencedClasses Classes)
    = Classes ++ ReloadedClasses cook ReferencedClasses.
Proof.
  induction ReferencedClasses as [|SoftPath Rest IH]; intros Classes HN;
    cbn [CookBatches ReloadedClasses flat_map] in *.
  - now rewrite app_nil_r.
  - fold (ReloadedClasses cook Rest) in *.
    destruct (Cook_TryLoadClass cook SoftPath) as [LoadedClass|];
      [|cbn [app] in *; now apply IH].
    cbn [app] in HN. cbv zeta.
    assert (EA : TSet_Add UClass_eqb LoadedClass Classes = Classes ++ [LoadedClass]).
    { apply TSet_Add_UClass_new. intros Hin.
      rewrite map_app in HN. cbn in HN. apply NoDup_remove_2 in HN.
      apply HN. apply in_app_iff. now left. }
    rewrite EA.
    assert (HN1 : NoDup (map UClass_PathName
                           ((Classes ++ [LoadedClass]) ++ ReloadedClasses cook Rest)))
      by (rewrite <- app_assoc; exact HN).
    destruct (BatchSize <=? List.length (Classes ++ [LoadedClass]))%nat.
    + cbn [fst snd List.concat]. rewrite <- !app_assoc. f_equal. cbn [app]. f_equal.
      apply (IH []). cbn [app].
      rewrite map_app in HN1. now apply NoDup_app_remove_l in HN1.
    + rewrite IH by exact HN1. now rewrite <- app_assoc.
Qed.

(** X13.  The loop of the commandlet over the sorted class paths hands the
    reloaded classes to [SpatialGDKGenerateSchemaForClasses] in batches of
    exactly [BatchSize] classes, one call per batch in order, and leaves
    fewer than [BatchSize] classes for the call after the loop; a path
    that fails to reload gives a warning and nothing else.  When the
    reloaded classes have pairwise different paths, the batches and the
    rest, put end to end, are the reloaded classes in their sorted order:
    none is dropped, repeated or moved. *)
Theorem GenerateSchemaInBatches_hands_over_every_class_once :
  forall (cook : FCookRun) (ReferencedClasses : list FString) (env : Env)
         (st : GeneratorState) (world : World),
    GenerateSchemaInBatches cook ReferencedClasses [] env st world
    = (let* (st', world') :=
         GenerateSchemaForBatches (fst (CookBatches cook ReferencedClasses []))
           env st world in
       Ok (snd (CookBatches cook ReferencedClasses []),
           map Warning_FailedToReload
             (filter (fun SoftPath =>
                        match Cook_TryLoadClass cook SoftPath with
                        | Some _ => false
                        | None => true
                        end) ReferencedClasses),
           st', world'))
    /\ Forall (fun Batch => List.length Batch = BatchSize)
         (fst (CookBatches cook ReferencedClasses []))
    /\ (List.length (snd (CookBatches cook ReferencedClasses [])) < BatchSize)%nat
    /\ (NoDup (map UClass_PathName (ReloadedClasses cook ReferencedClasses)) ->
        List.concat (fst (CookBatches cook ReferencedClasses []))
        ++ snd (CookBatches cook ReferencedClasses [])
        = ReloadedClasses cook ReferencedClasses).
Proof.
  intros cook ReferencedClasses env st world.
  split; [|split; [|split]].
  - generalize (@nil UClass) as Classes. revert st world.
    induction ReferencedClasses as [|SoftPath Rest IH]; intros st world Classes;
      cbn [GenerateSchemaInBatches CookBatches filter map].
    + reflexivity.
    + destruct (Cook_TryLoadClass cook SoftPath) as [LoadedClass|].
      * cbv zeta.
        destruct (BatchSize <=? _)%nat; [|apply IH].
        cbn [fst snd GenerateSchemaForBatches].
        destruct (SpatialGDKGenerateSchemaForClasses _ "" env st world)
          as [e|[[b st1] world1]]; cbn [bind]; [reflexivity | apply IH].
      * rewrite IH. cbn [map].
        now destruct (GenerateSchemaForBatches _ env st world) as [e|[st1 world1]].
  - apply CookBatches_sizes. unfold BatchSize. cbn. lia.
  - apply CookBatches_sizes. unfold BatchSize. cbn. lia.
  - intros HN. now apply (CookBatches_concat cook ReferencedClasses []).
Qed.

(** ** Deleting the database, loading the database *)

(** X14.  [DeleteSchemaDatabase] answers true exactly when no database
    package is left: there was none, or the package was writable and the
    file system deleted it.  After that answer
    [GeneratedSchemaDatabaseExists] is false and
    [LoadGeneratorStateFromSchemaDatabase] answers false without logging
    and without touching the generator state.  When it answers false the
    package is still there, it says why in one error line, and a read-only
    package is never deleted.  The schema files are not touched. *)
Theorem DeleteSchemaDatabase_true_means_no_database_is_left :
  forall (bDeleteFile : bool) (world : World) (st : GeneratorState),
    (fst (fst (DeleteSchemaDatabase bDeleteFile world)) = true
     <-> World_DatabaseFile (snd (DeleteSchemaDatabase bDeleteFile world)) = None)
    /\ (fst (fst (DeleteSchemaDatabase bDeleteFile world)) = true ->
        snd (fst (DeleteSchemaDatabase bDeleteFile world)) = []
        /\ GeneratedSchemaDatabaseExists
             (snd (DeleteSchemaDatabase bDeleteFile world)) = false
        /\ LoadGeneratorStateFromSchemaDatabase
             (snd (DeleteSchemaDatabase bDeleteFile world)) st = (false, st))
    /\ (fst (fst (DeleteSchemaDatabase bDeleteFile world)) = false ->
        snd (DeleteSchemaDatabase bDeleteFile world) = world
        /\ GeneratedSchemaDatabaseExists world = true
        /\ (IsAssetReadOnly world = true \/ bDeleteFile = false)
        /\ List.length (snd (fst (DeleteSchemaDatabase bDeleteFile world))) = 1%nat)
    /\ (IsAssetReadOnly world = true ->
        DeleteSchemaDatabase bDeleteFile world
        = (false, [Error_DatabaseReadOnlyNotDeleted], world))
    /\ World_SchemaFiles (snd (DeleteSchemaDatabase bDeleteFile world))
       = World_SchemaFiles world.
Proof.
  intros bDeleteFile world st.
  unfold DeleteSchemaDatabase, GeneratedSchemaDatabaseExists,
    LoadGeneratorStateFromSchemaDatabase, IsAssetReadOnly.
  destruct (World_DatabaseFile world) as [File|] eqn:EF.
  - destruct (DatabaseFile_bIsReadOnly File) eqn:RO; cbn.
    + rewrite EF. repeat split; try discriminate; auto.
    + destruct bDeleteFile; cbn; rewrite ?EF;
        repeat split; try discriminate; auto.
  - cbn. rewrite EF. repeat split; try discriminate; auto.
Qed.

(** X15.  [LoadGeneratorStateFromSchemaDatabase] answers true exactly when
    the database package exists, is writable, loads as a schema database,
    and is not one that has actor records while its counter is still the
    starting constant.  When the package is missing, read-only or does not
    load, the generator state is left as it was but for the log; when the
    package loads, the state holds its maps and counter whatever the
    answer, so that after the answer false for an old database the state
    has to be reset. *)
Theorem LoadGeneratorStateFromSchemaDatabase_answer :
  forall (world : World) (st : GeneratorState),
    (fst (LoadGeneratorStateFromSchemaDatabase world st) = true
     <-> exists File SchemaDatabase,
           World_DatabaseFile world = Some File
           /\ DatabaseFile_bIsReadOnly File = false
           /\ DatabaseFile_Asset File = Some SchemaDatabase
           /\ (DB_ActorClassPathToSchema SchemaDatabase = []
               \/ DB_NextAvailableComponentId SchemaDatabase
                  <> STARTING_GENERATED_COMPONENT_ID))
    /\ ((World_DatabaseFile world = None
         \/ IsAssetReadOnly world = true
         \/ exists File, World_DatabaseFile world = Some File
                         /\ DatabaseFile_Asset File = None) ->
        fst (LoadGeneratorStateFromSchemaDatabase world st) = false
        /\ SameButLog st (snd (LoadGeneratorStateFromSchemaDatabase world st)))
    /\ (forall File SchemaDatabase,
          World_DatabaseFile world = Some File ->
          DatabaseFile_bIsReadOnly File = false ->
          DatabaseFile_Asset File = Some SchemaDatabase ->
          let st' := snd (LoadGeneratorStateFromSchemaDatabase world st) in
          ActorClassPathToSchema st' = DB_ActorClassPathToSchema SchemaDatabase
          /\ SubobjectClassPathToSchema st'
             = DB_SubobjectClassPathToSchema SchemaDatabase
          /\ NextAvailableComponentId st'
             = DB_NextAvailableComponentId SchemaDatabase
          /\ LevelPathToComponentId st' = DB_LevelPathToComponentId SchemaDatabase
          /\ NetCullDistanceToComponentId st'
             = DB_NetCullDistanceToComponentId SchemaDatabase
          /\ Log st' = Log st).
Proof.
  intros world st.
  unfold LoadGeneratorStateFromSchemaDatabase, IsAssetReadOnly.
  destruct (World_DatabaseFile world) as [File|] eqn:EF.
  - destruct (DatabaseFile_bIsReadOnly File) eqn:RO.
    + split; [|split].
      * split; [discriminate|].
        intros (F & D & E1 & E2 & _). injection E1 as <-. congruence.
      * intros _. split; [reflexivity | apply UE_LOG_SameButLog].
      * intros F D E1 E2. injection E1 as <-. congruence.
    + destruct (DatabaseFile_Asset File) as [SchemaDatabase|] eqn:EA.
      * cbn [ActorClassPathToSchema NextAvailableComponentId].
        destruct (DB_ActorClassPathToSchema SchemaDatabase) as [|Entry Entries] eqn:EM;
          cbn [List.length Nat.ltb Nat.leb andb].
        -- split; [|split].
           ++ split; [|reflexivity]. intros _. exists File, SchemaDatabase.
              repeat split; auto.
           ++ intros [H|[H|(F & E1 & E2)]]; try discriminate.
              injection E1 as <-. congruence.
           ++ intros F D E1 _ E2. injection E1 as <-. rewrite EA in E2.
              injection E2 as <-. cbn. rewrite EM. repeat split.
        -- destruct (Z.eqb_spec (DB_NextAvailableComponentId SchemaDatabase)
                       STARTING_GENERATED_COMPONENT_ID) as [EN|NE].
           ++ split; [|split].
              ** split; [discriminate|].
                 intros (F & D & E1 & _ & E2 & [E3|E3]).
                 --- injection E1 as <-. rewrite EA in E2. injection E2 as <-.
                     congruence.
                 --- injection E1 as <-. rewrite EA in E2. injection E2 as <-.
                     contradiction.
              ** intros [H|[H|(F & E1 & E2)]]; try discriminate.
                 injection E1 as <-. congruence.
              ** intros F D E1 _ E2. injection E1 as <-. rewrite EA in E2.
                 injection E2 as <-. cbn. rewrite EM. repeat split.
           ++ split; [|split].
              ** split; [|reflexivity]. intros _. exists File, SchemaDatabase.
                 repeat split; auto.
              ** intros [H|[H|(F & E1 & E2)]]; try discriminate.
                 injection E1 as <-. congruence.
              ** intros F D E1 _ E2. injection E1 as <-. rewrite EA in E2.
                 injection E2 as <-. cbn. rewrite EM. repeat split.
      * split; [|split].
        -- split; [discriminate|].
           intros (F & D & E1 & _ & E2 & _). injection E1 as <-. congruence.
        -- intros _. split; [reflexivity | apply UE_LOG_SameButLog].
        -- intros F D E1 _ E2. injection E1 as <-. congruence.
  - split; [|split].
    + split; [discriminate|]. intros (F & D & E1 & _). discriminate.
    + intros _. split; [reflexivity | apply SameButLog_refl].
    + intros F D E1. discriminate.
Qed.

(** ** Level and distance ids do not clash *)

(** X16.  [GenerateSchemaForSublevels] keeps the level ids in order: when
    every id of the level map was below the counter and no two level
    paths shared a valid id, the same is true afterwards (level paths
    being looked up and compared without case, as the map does).  An
    entry of the map is as before, or it belongs to a level of the run
    and its id is at least the old counter, so that it differs from every
    id that was below that counter; the counter does not go down and the
    distance map is not touched. *)
Theorem GenerateSchemaForSublevels_keeps_level_ids_apart :
  forall (SchemaOutputPath : FString) (LevelNamesToPaths : list (FString * FString))
         (env : Env) (st st1 : GeneratorState) (world world1 : World),
    0 < NextAvailableComponentId st ->
    LevelIdsBelowCounter st ->
    LevelIdsApart st ->
    GenerateSchemaForSublevels SchemaOutputPath LevelNamesToPaths env st world
    = Ok (st1, world1) ->
    LevelIdsBelowCounter st1
    /\ LevelIdsApart st1
    /\ NextAvailableComponentId st <= NextAvailableComponentId st1
    /\ (forall LevelPath ComponentId,
          TMap_Find FString_eqb LevelPath (LevelPathToComponentId st1)
          = Some ComponentId ->
          TMap_Find FString_eqb LevelPath (LevelPathToComponentId st)
          = Some ComponentId
          \/ ((exists Given,
                 In Given (map snd LevelNamesToPaths)
                 /\ FString_eqb LevelPath Given = true)
              /\ NextAvailableComponentId st <= ComponentId))
    /\ NetCullDistanceToComponentId st1 = NetCullDistanceToComponentId st.
Proof.
  intros Path Levels env st st1 world world1 HN HB HA H.
  unfold GenerateSchemaForSublevels in H.
  rewrite WriteLevelComponents_display in H.
  destruct (WriteNamedLevelComponents (SublevelComponents Levels) SublevelsHeader
              (mkGenerator (NextAvailableComponentId st)) st)
    as [e|[[w g] st']] eqn:E; [discriminate|].
  cbn [bind] in H.
  destruct (Writer_WriteToFile _ w env world) as [e|world2] eqn:EW; [discriminate|].
  cbn [bind] in H. unfold Ok in H. injection H as <- <-.
  destruct (WriteNamedLevelComponents_inv _ _
              (mkGenerator (NextAvailableComponentId st)) _ _ _ _ HN E)
    as (HC & HI & HU & HS & _).
  set (minted := UnassignedPaths (SublevelComponents Levels)
                   (LevelPathToComponentId st)) in *.
  assert (HD : NetCullDistanceToComponentId st'
               = NetCullDistanceToComponentId st)
    by (rewrite HS; now destruct st).
  assert (HL : forall x, LevelPathToComponentId (set_NextAvailableComponentId x st')
                         = LevelPathToComponentId st') by now destruct st'.
  assert (HX : forall x, NextAvailableComponentId (set_NextAvailableComponentId x st')
                         = x) by now destruct st'.
  assert (HY : forall x, NetCullDistanceToComponentId
                           (set_NextAvailableComponentId x st')
                         = NetCullDistanceToComponentId st') by now destruct st'.
  cbn [CurrentId] in *.
  unfold LevelIdsBelowCounter, LevelIdsApart.
  cbn [FComponentIdGenerator_Peek fst]. rewrite HL, HX, HY.
  (* an entry is an old one, or was minted in this run *)
  assert (Cases : forall p id,
             TMap_Find FString_eqb p (LevelPathToComponentId st') = Some id ->
             (TSet_Contains FString_eqb p minted = false
              /\ TMap_Find FString_eqb p (LevelPathToComponentId st) = Some id)
             \/ (exists i q, nth_error minted i = Some q
                             /\ FString_eqb p q = true
                             /\ id = NextAvailableComponentId st + Z.of_nat i
                             /\ (i < List.length minted)%nat)).
  { intros p id Hp. destruct (TSet_Contains FString_eqb p minted) eqn:C.
    - right. apply (TSet_Contains_exists_eqv FString_eqb) in C.
      destruct C as (q & Hq & Eq).
      apply In_nth_error in Hq. destruct Hq as (i & Hi). exists i, q.
      split; [exact Hi|]. split; [exact Eq|]. split.
      + rewrite (FString_Find_eqv p q _ Eq), (HI i q Hi) in Hp. congruence.
      + apply nth_error_Some. congruence.
    - left. split; [reflexivity|]. now rewrite <- (HU p C). }
  split; [|split; [|split; [|split]]].
  - intros p id Hp. destruct (Cases p id Hp) as [(_ & Old)|(i & q & _ & _ & -> & Hi)].
    + apply HB in Old. lia.
    + lia.
  - intros p q id Hp Hq Hid.
    destruct (Cases p id Hp) as [(_ & OldP)|(i & p' & Hi & Ep & Ei & _)],
             (Cases q id Hq) as [(_ & OldQ)|(j & q' & Hj & Eq & Ej & _)].
    + now apply (HA p q id).
    + apply HB in OldP. lia.
    + apply HB in OldQ. lia.
    + assert (i = j) by lia. subst j.
      assert (p' = q') by congruence. subst q'.
      rewrite (FString_eqb_congr_l p p' q Ep). now rewrite FString_eqb_sym.
  - lia.
  - intros p id Hp. destruct (Cases p id Hp) as [(_ & Old)|(i & q & Hi & Eq & -> & _)].
    + now left.
    + right. split; [|lia]. exists q. split; [|exact Eq].
      apply nth_error_In in Hi.
      apply SublevelComponents_paths.
      apply FString_Distinct_incl in Hi. apply filter_In in Hi. tauto.
  - exact HD.
Qed.

Lemma UnassignedCount_firstn_S (Entries : list (float * Worker_ComponentId)) :
  forall i Key,
    nth_error Entries i = Some (Key, 0) ->
    UnassignedCount (firstn (S i) Entries) = S (UnassignedCount (firstn i Entries)).
Proof.
  unfold UnassignedCount.
  induction Entries as [|[k v] Entries IH]; intros [|i] Key H; cbn in H;
    try discriminate.
  - injection H as -> ->. reflexivity.
  - cbn [firstn filter snd] in *. specialize (IH i Key H).
    destruct (v =? 0); cbn [List.length]; cbn [firstn] in IH; lia.
Qed.

Lemma UnassignedCount_firstn_le (Entries : list (float * Worker_ComponentId)) :
  forall i j,
    (i <= j)%nat ->
    (UnassignedCount (firstn i Entries) <= UnassignedCount (firstn j Entries))%nat.
Proof.
  unfold UnassignedCount.
  induction Entries as [|[k v] Entries IH]; intros i j Hij.
  - rewrite !firstn_nil. lia.
  - destruct i as [|i]; [cbn; lia|].
    destruct j as [|j]; [lia|].
    cbn [firstn filter snd]. specialize (IH i j ltac:(lia)).
    destruct (v =? 0); cbn [List.length]; lia.
Qed.

Lemma UnassignedCount_firstn_all (Entries : list (float * Worker_ComponentId)) (i : nat) :
  (UnassignedCount (firstn i Entries) <= UnassignedCount Entries)%nat.
Proof.
  destruct (Nat.le_gt_cases i (List.length Entries)) as [H|H].
  - rewrite <- (firstn_all Entries) at 2. now apply UnassignedCount_firstn_le.
  - rewrite firstn_all2 by lia. lia.
Qed.

(** X17.  [GenerateSchemaForNCDs] keeps the distance ids in order: when
    every id of the distance map was below the counter and no two entries
    shared a valid id, the same is true afterwards.  An entry is as
    before, or it had no id and got one that is at least the old counter;
    the counter does not go down and the level map is not touched. *)
Theorem GenerateSchemaForNCDs_keeps_distance_ids_apart :
  forall (SchemaOutputPath : FString) (env : Env) (st st1 : GeneratorState)
         (world world1 : World),
    0 < NextAvailableComponentId st ->
    NCDIdsBelowCounter st ->
    NCDIdsApart st ->
    GenerateSchemaForNCDs SchemaOutputPath env st world = Ok (st1, world1) ->
    NCDIdsBelowCounter st1
    /\ NCDIdsApart st1
    /\ NextAvailableComponentId st <= NextAvailableComponentId st1
    /\ (forall i Key ComponentId,
          nth_error (NetCullDistanceToComponentId st1) i = Some (Key, ComponentId) ->
          nth_error (NetCullDistanceToComponentId st) i = Some (Key, ComponentId)
          \/ (nth_error (NetCullDistanceToComponentId st) i
              = Some (Key, INVALID_COMPONENT_ID)
              /\ NextAvailableComponentId st <= ComponentId))
    /\ LevelPathToComponentId st1 = LevelPathToComponentId st.
Proof.
  intros Path env st st1 world world1 HN HB HA H.
  unfold GenerateSchemaForNCDs in H.
  destruct (WriteNCDComponents (NetCullDistanceToComponentId st) NCDHeader
              (mkGenerator (NextAvailableComponentId st)))
    as [e|[[Es w] g]] eqn:E; [discriminate|].
  cbn [bind] in H.
  destruct (Writer_WriteToFile _ w env world) as [e|world2] eqn:EW; [discriminate|].
  cbn [bind] in H. unfold Ok in H. injection H as <- <-.
  destruct (WriteNCDComponents_inv _ _ _ _ _ _ E) as (HK & HC & HV & _).
  cbn [CurrentId] in *.
  cbn [FComponentIdGenerator_Peek fst LevelPathToComponentId
       NextAvailableComponentId set_NextAvailableComponentId
       set_NetCullDistanceToComponentId NetCullDistanceToComponentId].
  unfold NCDIdsBelowCounter, NCDIdsApart in *.
  cbn [FComponentIdGenerator_Peek fst LevelPathToComponentId
       NextAvailableComponentId set_NextAvailableComponentId
       set_NetCullDistanceToComponentId NetCullDistanceToComponentId].
  set (Old := NetCullDistanceToComponentId st) in *.
  (* what stands at a position of the new map *)
  assert (Cases : forall i Key id,
             nth_error Es i = Some (Key, id) ->
             (nth_error Old i = Some (Key, id) /\ id <> 0)
             \/ (nth_error Old i = Some (Key, 0)
                 /\ id = NextAvailableComponentId st
                         + Z.of_nat (UnassignedCount (firstn i Old)))).
  { intros i Key id Hi.
    assert (HL : (i < List.length Old)%nat).
    { rewrite <- (length_map fst), <- HK, length_map.
      apply nth_error_Some. congruence. }
    destruct (nth_error Old i) as [[Key0 Value0]|] eqn:E0;
      [|apply nth_error_None in E0; lia].
    rewrite (HV i Key0 Value0 E0) in Hi. injection Hi as <- <-.
    destruct (Z.eqb_spec Value0 0) as [->|NZ]; [now right | now left]. }
  split; [|split; [|split; [|split]]].
  - intros [Key id] Hin. cbn [snd]. apply In_nth_error in Hin.
    destruct Hin as (i & Hi).
    destruct (Cases i Key id Hi) as [(HO & _)|(HO & ->)].
    + apply nth_error_In in HO. apply HB in HO. cbn in HO. lia.
    + pose proof (UnassignedCount_firstn_S Old i Key HO) as H1.
      pose proof (UnassignedCount_firstn_all Old (S i)) as H2. lia.
  - intros i j Key1 Key2 id Hi Hj Hid.
    destruct (Cases i Key1 id Hi) as [(Oi & _)|(Oi & Ei)],
             (Cases j Key2 id Hj) as [(Oj & _)|(Oj & Ej)].
    + now apply (HA i j Key1 Key2 id).
    + apply nth_error_In in Oi. apply HB in Oi. cbn in Oi. lia.
    + apply nth_error_In in Oj. apply HB in Oj. cbn in Oj. lia.
    + destruct (Nat.lt_trichotomy i j) as [L|[L|L]]; [|exact L|].
      * pose proof (UnassignedCount_firstn_S Old i Key1 Oi) as H1.
        pose proof (UnassignedCount_firstn_le Old (S i) j ltac:(lia)) as H2. lia.
      * pose proof (UnassignedCount_firstn_S Old j Key2 Oj) as H1.
        pose proof (UnassignedCount_firstn_le Old (S j) i ltac:(lia)) as H2. lia.
  - lia.
  - intros i Key id Hi.
    destruct (Cases i Key id Hi) as [(HO & _)|(HO & ->)]; [now left|].
    right. split; [exact HO | lia].
  - reflexivity.
Qed.

End SchemaGenerator.

(** * Examples

    Closed instances: the collaborators are given concrete values and the
    definitions are run on concrete classes. *)

(** Modelled from the spec: the name sanitizers of Utils/DataTypeUtilities
    are not among the sources.  The spec (4.1): the sanitizer strips all
    characters outside [A-Za-z0-9_], and in the strict mode used for class
    names it removes underscores too. *)
Definition IsAlphanumeric (c : ascii) : bool :=
  let n := nat_of_ascii c in
  ((48 <=? n) && (n <=? 57) || (65 <=? n) && (n <=? 90)
   || (97 <=? n) && (n <=? 122))%nat.

Fixpoint AlphanumericSanitization (bStrict : bool) (s : FString) : FString :=
  match s with
  | EmptyString => EmptyString
  | String c r =>
      if IsAlphanumeric c || (negb bStrict && Ascii.eqb c "_")
      then String c (AlphanumericSanitization bStrict r)
      else AlphanumericSanitization bStrict r
  end.

Definition Example_UnrealNameToSchemaName (Name : FString) (bStrict : bool) : FString :=
  AlphanumericSanitization bStrict Name.

Definition Example_UnrealNameToSchemaComponentName (Name : FString) : FString :=
  AlphanumericSanitization true Name.

Definition Example_SchemaFieldName (Property : FUnrealProperty) : FString :=
  AlphanumericSanitization false (Property_Name Property).

(** The asset name of an object path: what follows its last dot. *)
Fixpoint Example_GetAssetName (Path : FString) : FString :=
  match Path with
  | EmptyString => EmptyString
  | String c r =>
      if FString_Contains r "." then Example_GetAssetName r
      else if Ascii.eqb c "." then r else Path
  end.

Definition Example_STARTING_GENERATED_COMPONENT_ID : Worker_ComponentId := 10000.

(** A stand-in for the hash: never zero, so that a zero hash in a database
    can only be the default. *)
Definition Example_CityHash32 (Bytes : list Z) : Z :=
  1 + fold_left (fun Hash Byte => (Hash * 31 + Byte) mod 4294967295) Bytes 7.

Definition Example_Env : Env :=
  mkEnv (fun _ => true) (fun _ => false) (fun _ => true) (fun _ => true)
    (fun Path => Some Path) "schema/unreal/generated/" [] 0
    (Some (Some [1; 2; 3])) true [] [].

Definition Example_World : World Z := mkWorld Z [] None.

Definition Example_Class (Name PathName : FString) (bActor : bool)
  (MultiClient SingleClient Handover : list FUnrealProperty) : UClass :=
  mkUClass true false true false false bActor Name PathName
    (fun Group =>
       match Group with
       | REP_MultiClient => MultiClient
       | REP_SingleClient => SingleClient
       end)
    Handover [] [].

Definition Example_State : GeneratorState Z :=
  InitialGeneratorState Z Example_STARTING_GENERATED_COMPONENT_ID.

Definition Example_SpatialGDKGenerateSchema (env : Env) (st : GeneratorState Z)
  (world : World Z) : Result (bool * GeneratorState Z * World Z) :=
  SpatialGDKGenerateSchema Z Example_UnrealNameToSchemaName
    Example_UnrealNameToSchemaComponentName Example_SchemaFieldName
    Example_GetAssetName [] Example_CityHash32 FString_FromId FString_FromId
    3 [] env st world.

Definition Example_WithClasses (env : Env) (Classes : list UClass) : Env :=
  mkEnv (Env_WriteToFile env) (Env_DirectoryExists env)
    (Env_DeleteDirectoryRecursively env) (Env_CreateDirectoryTree env)
    (Env_CollapseRelativeDirectories env) (Env_GeneratedSchemaOutputFolder env)
    (Env_CommandLineSwitches env) (Env_SchemaCompilerExitCode env)
    (Env_DescriptorFile env) (Env_SavePackage env) (Env_LevelNamesToPaths env)
    Classes.

Definition Example_ReadOnlyDisk (env : Env) : Env :=
  mkEnv (fun _ => false) (Env_DirectoryExists env)
    (Env_DeleteDirectoryRecursively env) (Env_CreateDirectoryTree env)
    (Env_CollapseRelativeDirectories env) (Env_GeneratedSchemaOutputFolder env)
    (Env_CommandLineSwitches env) (Env_SchemaCompilerExitCode env)
    (Env_DescriptorFile env) (Env_SavePackage env) (Env_LevelNamesToPaths env)
    (Env_AllClasses env).

(** A pawn with a property replicated to everyone and another replicated
    to its owner only; both names sanitize to [TeamId]. *)
Definition Example_TeamId : FUnrealProperty :=
  mkProperty "TeamId" "/Game/Pawn.Pawn_C:TeamId".

Definition Example_Team_Id : FUnrealProperty :=
  mkProperty "Team Id" "/Game/Pawn.Pawn_C:Team Id".

Definition Example_Pawn : UClass :=
  Example_Class "Pawn_C" "/Game/Pawn.Pawn_C" true
    [Example_TeamId] [Example_Team_Id] [].

(** The same two properties, both replicated to everyone. *)
Definition Example_PawnOneGroup : UClass :=
  Example_Class "Pawn_C" "/Game/Pawn.Pawn_C" true
    [Example_TeamId; Example_Team_Id] [] [].

(** A class with one replicated and one handover property. *)
Definition Example_PlayerPawn : UClass :=
  Example_Class "PlayerPawn" "/Script/Game.PlayerPawn" true
    [mkProperty "Health" "/Script/Game.PlayerPawn:Health"] []
    [mkProperty "TeamId" "/Script/Game.PlayerPawn:TeamId"].


Definition Example_NoDescriptor (env : Env) : Env :=
  mkEnv (Env_WriteToFile env) (Env_DirectoryExists env)
    (Env_DeleteDirectoryRecursively env) (Env_CreateDirectoryTree env)
    (Env_CollapseRelativeDirectories env) (Env_GeneratedSchemaOutputFolder env)
    (Env_CommandLineSwitches env) (Env_SchemaCompilerExitCode env)
    None (Env_SavePackage env) (Env_LevelNamesToPaths env)
    (Env_AllClasses env).

(** A database written before ids were kept across runs: it has an actor
    record, and its counter is still the starting constant. *)
Definition Example_StaleDatabase : USchemaDatabase Z :=
  mkDatabase Z Example_STARTING_GENERATED_COMPONENT_ID
    [("/Script/Game.PlayerPawn",
      mkActorSchemaData "PlayerPawn" (mkComponents 10000 10001 10002) [])]
    [] [] [] [] [10000] [10001] [10002] [] [] 0.

Definition Example_StaleWorld : World Z :=
  mkWorld Z [] (Some (mkDatabaseFile Z false (Some Example_StaleDatabase))).

(** Three sublevels, two of them named [Arena]; the lobby had its id
    before.  Two net cull distances, one still without id. *)
Definition Example_Levels : list (FString * FString) :=
  [("Arena", "/Game/Maps/A/Arena"); ("Arena", "/Game/Maps/B/Arena");
   ("Lobby", "/Game/Maps/Lobby")].

Definition Example_LevelState : GeneratorState Z :=
  mkState Z [] [] [] 10005 [] [("/Game/Maps/Lobby", 10000)] [] [] []
    [(15000, 10001); (20000, 0)] [].

Definition Example_SpatialGDKGenerateSchemaForClasses (Classes : list UClass)
  (env : Env) (st : GeneratorState Z) (world : World Z)
  : Result (bool * GeneratorState Z * World Z) :=
  SpatialGDKGenerateSchemaForClasses Z Example_UnrealNameToSchemaName
    Example_UnrealNameToSchemaComponentName Example_SchemaFieldName
    Example_GetAssetName [] 3 Classes "" env st world.

(** The database an earlier run over [Example_PlayerPawn] left. *)
Definition Example_Database : USchemaDatabase Z :=
  mkDatabase Z 10003
    [("/Script/Game.PlayerPawn",
      mkActorSchemaData "PlayerPawn" (mkComponents 10000 10001 10002) [])]
    [] [] [] [(10000, "/Script/Game.PlayerPawn")] [10000] [10001] [10002] [] [] 0.

Definition Example_DatabaseFile : FDatabaseFile Z :=
  mkDatabaseFile Z false (Some Example_Database).

Definition Example_LoadedWorld : World Z := mkWorld Z [] (Some Example_DatabaseFile).

Definition Example_LoadedState : GeneratorState Z :=
  snd (LoadGeneratorStateFromSchemaDatabase Z Example_STARTING_GENERATED_COMPONENT_ID
         Example_LoadedWorld Example_State).

(** Three classes named [Foo] in different packages. *)
Definition Example_FooA : UClass :=
  Example_Class "Foo" "/Game/A.Foo" true [] [] [].

Definition Example_FooB : UClass :=
  Example_Class "Foo" "/Game/B.Foo" true [] [] [].


(** What an earlier session left in memory: classes seen, names taken and
    a log. *)
Definition Example_UsedState : GeneratorState Z :=
  mkState Z [Example_Pawn] [] [] 10050 [] []
    [("/Game/Old.Old", "Old")] [("Old", "/Game/Old.Old")] [] []
    [Error_SchemaCompilerFailed].

(** A cook that creates one object, of the class [Example_PawnOneGroup],
    whose names do not pass validation, and returns 7. *)
Definition Example_CookRun : FCookRun :=
  mkCookRun [] [Example_PawnOneGroup] 7 (fun ReferencedClasses => ReferencedClasses)
    (fun SoftPath =>
       if String.eqb SoftPath "/Game/Pawn.Pawn_C"
       then Some Example_PawnOneGroup else None)
    (true, []) (true, []) "0.00".


(** ** Instances of the claims *)

Lemma C2_witness :
  (exists ids g',
     FComponentIdGenerator_NextN 3 (mkGenerator 10000) = Ok (ids, g'))
  /\ NoDup [10000; 10001; 10002]
  /\ Forall (fun id => 10000 <= id) [10000; 10001; 10002].
Proof.
  pose proof (C2_generator_values_unique_and_bounded 10000 3) as [T P].
  split.
  - apply T. vm_compute. discriminate.
  - specialize (P [10000; 10001; 10002] (mkGenerator 10003) eq_refl).
    destruct P as (P1 & P2 & _). split; assumption.
Defined.

(** C4, as stated, fails: the two properties of [Example_Pawn] sanitize to
    the same field name, yet generation over the class set that holds the
    pawn returns true, logs no error and writes the pawn's schema file,
    because the two properties are in different replication groups; so
    does the whole run over the classes in memory. *)
Lemma C4_counterexample :
  Example_SchemaFieldName Example_TeamId = Example_SchemaFieldName Example_Team_Id
  /\ Property_Name Example_TeamId <> Property_Name Example_Team_Id
  /\ In Example_TeamId (UClass_RepData Example_Pawn REP_MultiClient)
  /\ In Example_Team_Id (UClass_RepData Example_Pawn REP_SingleClient)
  /\ (exists st' world',
        Example_SpatialGDKGenerateSchemaForClasses [Example_Pawn]
          Example_Env Example_State Example_World
        = Ok (true, st', world')
        /\ TMap_Contains String.eqb "schema/unreal/generated/PawnC.schema"
             (World_SchemaFiles Z world') = true
        /\ existsb LogEntry_IsError (Log Z st') = false)
  /\ exists st' world',
       Example_SpatialGDKGenerateSchema
         (Example_WithClasses Example_Env [Example_Pawn]) Example_State Example_World
       = Ok (true, st', world')
       /\ TMap_Contains String.eqb "schema/unreal/generated/PawnC.schema"
            (World_SchemaFiles Z world') = true
       /\ existsb LogEntry_IsError (Log Z st') = false.
Proof.
  split; [reflexivity|]. split; [discriminate|].
  split; [now left|]. split; [now left|].
  split; eexists; eexists; (split; [vm_compute; reflexivity|]);
    split; reflexivity.
Qed.

Lemma C4_witness :
  exists st',
    Example_SpatialGDKGenerateSchemaForClasses [Example_PlayerPawn; Example_PawnOneGroup]
      Example_Env Example_State Example_World
    = Ok (false, st', Example_World)
    /\ exists Existing,
         In (Error_NameCollision "Replicated property" "TeamId" Existing
               "/Game/Pawn.Pawn_C:Team Id") (Log Z st').
Proof.
  apply (C4_property_collision_in_one_group_aborts_run Z
           Example_UnrealNameToSchemaName Example_UnrealNameToSchemaComponentName
           Example_SchemaFieldName Example_GetAssetName [] 3
           [Example_PlayerPawn; Example_PawnOneGroup] ""
           Example_Env Example_State Example_World Example_PawnOneGroup
           REP_MultiClient [] Example_TeamId [] Example_Team_Id []).
  - right. left. reflexivity.
  - reflexivity.
  - intros Other H E. cbn in H.
    destruct H as [<-|[<-|[]]]; [discriminate E | reflexivity].
  - reflexivity.
  - reflexivity.
Defined.

Lemma C5_witness :
  fst (LoadGeneratorStateFromSchemaDatabase Z Example_STARTING_GENERATED_COMPONENT_ID
         Example_StaleWorld Example_State) = false
  /\ ActorClassPathToSchema Z
       (fst (CookAndGenerateSchema_LoadState Z Example_STARTING_GENERATED_COMPONENT_ID
               Example_Env Example_State Example_StaleWorld)) = [].
Proof.
  destruct (C5_stale_database_rejected Z Example_STARTING_GENERATED_COMPONENT_ID
              Example_Env Example_StaleWorld Example_State
              (mkDatabaseFile Z false (Some Example_StaleDatabase))
              Example_StaleDatabase eq_refl eq_refl)
    as (H1 & _ & H2 & _).
  - discriminate.
  - reflexivity.
  - split; assumption.
Defined.



Lemma C10_witness :
  exists st' SchemaDatabase,
    SaveSchemaDatabase Z Example_CityHash32 (Example_NoDescriptor Example_Env)
      (ResetSchemaGeneratorState Z Example_STARTING_GENERATED_COMPONENT_ID
         Example_LevelState)
      Example_World
    = Ok (true, st',
          mkWorld Z [] (Some (mkDatabaseFile Z false (Some SchemaDatabase))))
    /\ DB_SchemaDescriptorHash Z SchemaDatabase = 0
    /\ DB_DataComponentIds Z SchemaDatabase = [].
Proof.
  destruct (C10_unreadable_descriptor_saves_hash_zero Z Example_CityHash32
              (Example_NoDescriptor Example_Env)
              (ResetSchemaGeneratorState Z Example_STARTING_GENERATED_COMPONENT_ID
                 Example_LevelState)
              Example_World [] [] [] eq_refl eq_refl eq_refl
              (or_introl eq_refl) eq_refl)
    as (st' & SchemaDatabase & H1 & H2 & _ & _ & _ & _ & _ & _ & _ & _ & H3 & _).
  exists st', SchemaDatabase. split; [exact H1|]. split; assumption.
Defined.

Lemma C9_witness :
  exists st' world',
    GenerateSchemaForSublevels Z Example_UnrealNameToSchemaComponentName
      "schema/" Example_Levels Example_Env Example_LevelState Example_World
    = Ok (st', world')
    /\ SublevelComponents Example_Levels
       = [("ArenaInd0", "/Game/Maps/B/Arena"); ("ArenaInd1", "/Game/Maps/A/Arena");
          ("Lobby", "/Game/Maps/Lobby")]
    /\ NextAvailableComponentId Z st' = 10007
    /\ TMap_Find FString_eqb "/Game/Maps/Lobby" (LevelPathToComponentId Z st')
       = Some 10000
    /\ TMap_Find FString_eqb "/Game/Maps/B/Arena" (LevelPathToComponentId Z st')
       = Some 10005
    /\ TMap_Find FString_eqb "/Game/Maps/A/Arena" (LevelPathToComponentId Z st')
       = Some 10006
    /\ TMap_Find String.eqb "schema/Sublevels/sublevels.schema"
         (World_SchemaFiles Z world')
       = Some
           (SublevelsFile Example_UnrealNameToSchemaComponentName
              (SublevelComponents Example_Levels)
              (fun LevelPath =>
                 TMap_FindRef FString_eqb 0 LevelPath (LevelPathToComponentId Z st')))
    /\ exists r,
         GenerateSchemaForNCDs Z Example_UnrealNameToSchemaComponentName
           FString_FromId FString_FromId "schema/" Example_Env
           Example_LevelState Example_World
         = Ok r.
Proof.
  destruct (C9_one_id_per_level_path_and_distance Z
              Example_UnrealNameToSchemaComponentName FString_FromId FString_FromId
              "schema/" Example_Levels Example_Env Example_LevelState Example_World)
    as (T1 & P1 & T2 & _).
  - reflexivity.
  - destruct T1 as ([st' world'] & E);
      [vm_compute; discriminate | reflexivity |].
    destruct (P1 st' world' E) as (_ & _ & HN & HI & HU & HF).
    exists st', world'.
    split; [exact E|]. split; [reflexivity|]. split; [exact HN|].
    split; [|split; [|split; [|split]]].
    + rewrite (HU "/Game/Maps/Lobby"); reflexivity.
    + exact (HI 0%nat "/Game/Maps/B/Arena" eq_refl).
    + exact (HI 1%nat "/Game/Maps/A/Arena" eq_refl).
    + exact HF.
    + apply T2; [vm_compute; discriminate | reflexivity].
Defined.

Lemma C1_witness :
  exists st' world',
    Example_SpatialGDKGenerateSchemaForClasses [Example_PlayerPawn; Example_Pawn]
      Example_Env Example_LoadedState Example_LoadedWorld
    = Ok (true, st', world')
    /\ (exists rA',
          TMap_Find FString_eqb "/Script/Game.PlayerPawn" (ActorClassPathToSchema Z st')
          = Some rA'
          /\ forall t,
               SchemaComponents_at (Actor_SchemaComponents rA') t
               = SchemaComponents_at (mkComponents 10000 10001 10002) t)
    /\ HasSchema Z st' "/Game/Pawn.Pawn_C" = true
    /\ Forall (fun id => 10003 <= id) (ClassComponentIds Z st' "/Game/Pawn.Pawn_C").
Proof.
  unfold Example_SpatialGDKGenerateSchemaForClasses.
  match goal with
  | |- context [?run = Ok _] => destruct run as [e|[[b st'] world']] eqn:E
  end; [vm_compute in E; discriminate E|].
  assert (Hb : true = b) by (pose proof E as E'; vm_compute in E'; congruence).
  destruct Hb. exists st', world'. split; [reflexivity|].
  destruct (C1_loaded_ids_kept_and_new_class_gets_unused_ids Z
              Example_UnrealNameToSchemaName Example_UnrealNameToSchemaComponentName
              Example_SchemaFieldName Example_GetAssetName
              Example_STARTING_GENERATED_COMPONENT_ID [] 3
              Example_Env Example_LoadedWorld Example_State Example_LoadedState
              Example_DatabaseFile Example_Database
              [Example_PlayerPawn; Example_Pawn] "" Example_Pawn st' world'
              eq_refl eq_refl)
    as (HA & _ & _ & _ & HS & Ids).
  - vm_compute. reflexivity.
  - intros Class1 Class2 H1 H2 EP. cbn in H1, H2.
    destruct H1 as [<-|[<-|[]]], H2 as [<-|[<-|[]]];
      solve [reflexivity | vm_compute in EP; discriminate EP].
  - right. left. reflexivity.
  - reflexivity.
  - reflexivity.
  - reflexivity.
  - intros id H. vm_compute in H.
    repeat (destruct H as [H|H]; [subst id; reflexivity|]). destruct H.
  - exact E.
  - destruct (HA "/Script/Game.PlayerPawn"
                (mkActorSchemaData "PlayerPawn" (mkComponents 10000 10001 10002) [])
                eq_refl)
      as (rA' & F & Keep & _).
    split; [|split].
    + exists rA'. split; [exact F|].
      intros t. apply Keep. destruct t; discriminate.
    + exact HS.
    + apply Forall_forall. intros id Hin. exact (proj1 (Ids id Hin)).
Defined.



Lemma C7_witness :
  exists b s1 w1 s2 w2,
    Example_SpatialGDKGenerateSchemaForClasses [Example_Pawn; Example_PlayerPawn]
      Example_Env
      (ResetSchemaGeneratorState Z Example_STARTING_GENERATED_COMPONENT_ID Example_State)
      Example_World
    = Ok (b, s1, w1)
    /\ Example_SpatialGDKGenerateSchemaForClasses [Example_PlayerPawn; Example_Pawn]
         Example_Env
         (ResetSchemaGeneratorState Z Example_STARTING_GENERATED_COMPONENT_ID
            Example_UsedState)
         Example_World
       = Ok (b, s2, w2)
    /\ World_SchemaFiles Z w1 = World_SchemaFiles Z w2
    /\ NextAvailableComponentId Z s1 = NextAvailableComponentId Z s2
    /\ ClassComponentIds Z s1 "/Game/Pawn.Pawn_C"
       = ClassComponentIds Z s2 "/Game/Pawn.Pawn_C".
Proof.
  unfold Example_SpatialGDKGenerateSchemaForClasses.
  match goal with
  | |- context [?run1 = Ok _ /\ ?run2 = Ok _ /\ _] =>
      destruct run1 as [e1|[[b1 s1] w1]] eqn:E1;
      [vm_compute in E1; discriminate E1|];
      destruct run2 as [e2|[[b2 s2] w2]] eqn:E2;
      [vm_compute in E2; discriminate E2|]
  end.
  destruct (C7_runs_from_an_empty_database_agree Z
              Example_UnrealNameToSchemaName Example_UnrealNameToSchemaComponentName
              Example_SchemaFieldName Example_GetAssetName
              Example_STARTING_GENERATED_COMPONENT_ID [] 3
              Example_Env Example_World Example_State Example_UsedState
              [Example_Pawn; Example_PlayerPawn] [Example_PlayerPawn; Example_Pawn] "")
    as (_ & Agree).
  - apply perm_swap.
  - intros Class1 Class2 H1 H2 EP. cbn in H1, H2.
    destruct H1 as [<-|[<-|[]]], H2 as [<-|[<-|[]]];
      solve [reflexivity | vm_compute in EP; discriminate EP].
  - destruct (Agree b1 s1 w1 b2 s2 w2 E1 E2) as (Hb & HW & HN & HI).
    destruct Hb. exists b1, s1, w1, s2, w2.
    split; [reflexivity|]. split; [reflexivity|].
    split; [exact HW|]. split; [exact HN | apply HI].
Defined.
(** ** Instances of the further properties *)

Lemma X2_witness :
  SaveSchemaDatabase Z Example_CityHash32 Example_Env Example_LevelState Example_World
  = inl CheckFailed
  /\ exists st1 world1 st2,
       SaveSchemaDatabase Z Example_CityHash32 Example_Env
         (ResetSchemaGeneratorState Z Example_STARTING_GENERATED_COMPONENT_ID
            Example_LevelState)
         Example_World
       = Ok (true, st1, world1)
       /\ LoadGeneratorStateFromSchemaDatabase Z Example_STARTING_GENERATED_COMPONENT_ID
            world1 Example_UsedState
          = (true, st2)
       /\ NextAvailableComponentId Z st2 = 10000
       /\ SchemaComponentTypeToComponents Z st2
          = [(SCHEMA_Data, []); (SCHEMA_OwnerOnly, []); (SCHEMA_Handover, [])]
       /\ SchemaGeneratedClasses Z st2 = [Example_Pawn].
Proof.
  split.
  - apply (SaveSchemaDatabase_then_load_restores_state Z
             Example_STARTING_GENERATED_COMPONENT_ID Example_CityHash32
             Example_Env Example_LevelState Example_UsedState Example_World).
    exists SCHEMA_Data. reflexivity.
  - destruct (SaveSchemaDatabase_then_load_restores_state Z
                Example_STARTING_GENERATED_COMPONENT_ID Example_CityHash32
                Example_Env
                (ResetSchemaGeneratorState Z Example_STARTING_GENERATED_COMPONENT_ID
                   Example_LevelState)
                Example_UsedState Example_World)
      as (_ & H).
    destruct (H [] [] [] eq_refl eq_refl eq_refl eq_refl)
      as (st1 & world1 & st2 & H1 & _ & H2 & H3 & _ & _ & _ & _ & _ & _ & _
          & H4 & _ & H5 & _).
    exists st1, world1, st2.
    split; [exact H1|]. split; [exact H2|]. split; [exact H3|].
    split; [exact H4 | exact H5].
Defined.

Lemma X4_witness :
  TMap_Contains FString_eqb "/Game/B.Foo"
    (ClassPathToSchemaName Z
       (snd (ValidateIdentifierNames Z Example_UnrealNameToSchemaName
               Example_UnrealNameToSchemaComponentName Example_SchemaFieldName
               [CreateUnrealTypeInfo Example_FooA; CreateUnrealTypeInfo Example_FooB]
               Example_UsedState))) = true
  /\ TMap_Find FString_eqb "/Game/Old.Old"
       (ClassPathToSchemaName Z
          (snd (ValidateIdentifierNames Z Example_UnrealNameToSchemaName
                  Example_UnrealNameToSchemaComponentName Example_SchemaFieldName
                  [CreateUnrealTypeInfo Example_FooA; CreateUnrealTypeInfo Example_FooB]
                  Example_UsedState))) = Some "Old"%string
  /\ SchemaNamesDistinct Z
       (snd (ValidateIdentifierNames Z Example_UnrealNameToSchemaName
               Example_UnrealNameToSchemaComponentName Example_SchemaFieldName
               [CreateUnrealTypeInfo Example_FooA; CreateUnrealTypeInfo Example_FooB]
               Example_UsedState)).
Proof.
  destruct (ValidateIdentifierNames_keeps_schema_names_distinct Z
              Example_UnrealNameToSchemaName Example_UnrealNameToSchemaComponentName
              Example_SchemaFieldName Example_GetAssetName
              [CreateUnrealTypeInfo Example_FooA; CreateUnrealTypeInfo Example_FooB]
              Example_UsedState)
    as (_ & HD & HC & HK).
  - intros p n H.
    cbn [TMap_Find ClassPathToSchemaName Example_UsedState] in H.
    destruct (FString_eqb p "/Game/Old.Old"); [|discriminate H].
    injection H as <-. reflexivity.
  - intros p q n m Hp Hq _.
    cbn [TMap_Find ClassPathToSchemaName Example_UsedState] in Hp, Hq.
    destruct (FString_eqb p "/Game/Old.Old") eqn:Ep; [|discriminate Hp].
    destruct (FString_eqb q "/Game/Old.Old") eqn:Eq; [|discriminate Hq].
    rewrite (FString_eqb_congr_l p "/Game/Old.Old" q Ep).
    now rewrite FString_eqb_sym.
  - split; [|split; [|exact HD]].
    + apply (HC (CreateUnrealTypeInfo Example_FooB)). right. left. reflexivity.
    + apply HK. reflexivity.
Defined.

Lemma X7_witness :
  exists st',
    Example_SpatialGDKGenerateSchemaForClasses [Example_PawnOneGroup]
      Example_Env Example_State Example_World
    = Ok (false, st', Example_World)
    /\ NextAvailableComponentId Z st' = 10000
    /\ ActorClassPathToSchema Z st' = [].
Proof.
  unfold Example_SpatialGDKGenerateSchemaForClasses.
  match goal with
  | |- context [?run = Ok _] => destruct run as [e|[[b st'] world']] eqn:E
  end; [vm_compute in E; discriminate E|].
  assert (Hb : false = b) by (pose proof E as E'; vm_compute in E'; congruence).
  destruct Hb.
  destruct (SpatialGDKGenerateSchemaForClasses_failure_changes_nothing_saved Z
              Example_UnrealNameToSchemaName Example_UnrealNameToSchemaComponentName
              Example_SchemaFieldName Example_GetAssetName [] 3
              [Example_PawnOneGroup] "" Example_Env Example_State st'
              Example_World world' E)
    as (HW & (HA & _ & HN & _) & _).
  exists st'. destruct HW.
  split; [reflexivity|]. split; [exact HN | exact HA].
Defined.

Lemma X8_witness :
  exists st1 world1 st2,
    Example_SpatialGDKGenerateSchemaForClasses [Example_PawnOneGroup]
      Example_Env Example_State Example_World
    = Ok (false, st1, world1)
    /\ Example_SpatialGDKGenerateSchemaForClasses [Example_PawnOneGroup]
         Example_Env st1 world1
       = Ok (true, st2, world1)
    /\ NextAvailableComponentId Z st2 = NextAvailableComponentId Z st1.
Proof.
  unfold Example_SpatialGDKGenerateSchemaForClasses.
  match goal with
  | |- context [?run = Ok _] => destruct run as [e|[[b st1] world1]] eqn:E
  end; [vm_compute in E; discriminate E|].
  assert (Hb : false = b) by (pose proof E as E'; vm_compute in E'; congruence).
  destruct Hb.
  destruct (SpatialGDKGenerateSchemaForClasses_again_generates_nothing Z
              Example_UnrealNameToSchemaName Example_UnrealNameToSchemaComponentName
              Example_SchemaFieldName Example_GetAssetName [] 3
              [Example_PawnOneGroup] "" Example_Env Example_State st1
              Example_World world1 false E)
    as (st2 & E2 & (_ & _ & HN & _) & _).
  - discriminate.
  - exists st1, world1, st2.
    split; [reflexivity|]. split; [exact E2 | exact HN].
Defined.

Lemma X9_witness :
  exists st1 world1,
    GenerateSchemaForSublevels Z Example_UnrealNameToSchemaComponentName
      "schema/" Example_Levels Example_Env Example_LevelState Example_World
    = Ok (st1, world1)
    /\ GenerateSchemaForSublevels Z Example_UnrealNameToSchemaComponentName
         "schema/" Example_Levels Example_Env st1 world1
       = Ok (st1, world1)
    /\ TMap_FindRef FString_eqb 0 "/Game/Maps/A/Arena" (LevelPathToComponentId Z st1)
       <> 0.
Proof.
  destruct (GenerateSchemaForSublevels Z Example_UnrealNameToSchemaComponentName
              "schema/" Example_Levels Example_Env Example_LevelState Example_World)
    as [e|[st1 world1]] eqn:E; [vm_compute in E; discriminate E|].
  destruct (GenerateSchemaForSublevels_again_changes_nothing Z
              Example_UnrealNameToSchemaComponentName "schema/" Example_Levels Example_Env
              Example_LevelState st1 Example_World world1 eq_refl E)
    as (H1 & H2).
  exists st1, world1.
  split; [reflexivity|]. split; [exact H2|].
  apply H1. left. reflexivity.
Defined.

Lemma X10_witness :
  exists st1 world1,
    GenerateSchemaForNCDs Z Example_UnrealNameToSchemaComponentName
      FString_FromId FString_FromId "schema/" Example_Env Example_LevelState
      Example_World
    = Ok (st1, world1)
    /\ GenerateSchemaForNCDs Z Example_UnrealNameToSchemaComponentName
         FString_FromId FString_FromId "schema/" Example_Env st1 world1
       = Ok (st1, world1)
    /\ ~ In (20000, 0) (NetCullDistanceToComponentId Z st1).
Proof.
  destruct (GenerateSchemaForNCDs Z Example_UnrealNameToSchemaComponentName
              FString_FromId FString_FromId "schema/" Example_Env Example_LevelState
              Example_World)
    as [e|[st1 world1]] eqn:E; [vm_compute in E; discriminate E|].
  destruct (GenerateSchemaForNCDs_again_changes_nothing Z
              Example_UnrealNameToSchemaComponentName FString_FromId FString_FromId
              "schema/" Example_Env Example_LevelState st1 Example_World world1
              eq_refl E)
    as (H1 & H2).
  exists st1, world1.
  split; [reflexivity|]. split; [exact H2|].
  intros Hin. apply (H1 _ Hin). reflexivity.
Defined.

Lemma X12_witness :
  exists lines st' world' SchemaDatabase,
    UCookAndGenerateSchemaCommandlet_Main Z Example_UnrealNameToSchemaName
      Example_UnrealNameToSchemaComponentName Example_SchemaFieldName
      Example_GetAssetName Example_STARTING_GENERATED_COMPONENT_ID []
      Example_CityHash32 FString_FromId FString_FromId 3 []
      Example_CookRun Example_Env Example_State Example_World
    = Ok (7, lines, st', world')
    /\ existsb LogEntry_IsError (Log Z st') = true
    /\ World_DatabaseFile Z world'
       = Some (mkDatabaseFile Z false (Some SchemaDatabase))
    /\ DB_NextAvailableComponentId Z SchemaDatabase = NextAvailableComponentId Z st'.
Proof.
  match goal with
  | |- context [?run = Ok _] =>
      destruct run as [e|[[[code lines] st'] world']] eqn:E
  end; [vm_compute in E; discriminate E|].
  assert (Hc : 7 = code) by (pose proof E as E'; vm_compute in E'; congruence).
  assert (HL : existsb LogEntry_IsError (Log Z st') = true)
    by (pose proof E as E'; vm_compute in E'; injection E' as _ _ <- _; reflexivity).
  destruct Hc.
  destruct (CookAndGenerateSchema_Main_outcome Z
              Example_UnrealNameToSchemaName Example_UnrealNameToSchemaComponentName
              Example_SchemaFieldName Example_GetAssetName
              Example_STARTING_GENERATED_COMPONENT_ID [] Example_CityHash32
              FString_FromId FString_FromId 3 []
              Example_CookRun Example_Env Example_State st'
              Example_World world' 7 lines E)
    as (_ & H).
  destruct (H eq_refl) as (_ & _ & HS).
  destruct (HS eq_refl) as (SchemaDatabase & HF & HN & _).
  exists lines, st', world', SchemaDatabase.
  split; [reflexivity|]. split; [exact HL|]. split; [exact HF | exact HN].
Defined.

Lemma X16_witness :
  exists st1 world1,
    GenerateSchemaForSublevels Z Example_UnrealNameToSchemaComponentName
      "schema/" Example_Levels Example_Env Example_LevelState Example_World
    = Ok (st1, world1)
    /\ LevelIdsBelowCounter Z st1
    /\ LevelIdsApart Z st1
    /\ 10005 <= NextAvailableComponentId Z st1.
Proof.
  destruct (GenerateSchemaForSublevels Z Example_UnrealNameToSchemaComponentName
              "schema/" Example_Levels Example_Env Example_LevelState Example_World)
    as [e|[st1 world1]] eqn:E; [vm_compute in E; discriminate E|].
  destruct (GenerateSchemaForSublevels_keeps_level_ids_apart Z
              Example_UnrealNameToSchemaName Example_UnrealNameToSchemaComponentName
              Example_GetAssetName "schema/" Example_Levels Example_Env
              Example_LevelState st1 Example_World world1 eq_refl)
    as (H1 & H2 & H3 & _).
  - intros p id H.
    cbn [TMap_Find LevelPathToComponentId Example_LevelState] in H.
    destruct (FString_eqb p "/Game/Maps/Lobby"); [|discriminate H].
    injection H as <-. reflexivity.
  - intros p q id Hp Hq _.
    cbn [TMap_Find LevelPathToComponentId Example_LevelState] in Hp, Hq.
    destruct (FString_eqb p "/Game/Maps/Lobby") eqn:Ep; [|discriminate Hp].
    destruct (FString_eqb q "/Game/Maps/Lobby") eqn:Eq; [|discriminate Hq].
    rewrite (FString_eqb_congr_l p "/Game/Maps/Lobby" q Ep).
    now rewrite FString_eqb_sym.
  - exact E.
  - exists st1, world1.
    split; [reflexivity|]. split; [exact H1|]. split; [exact H2 | exact H3].
Defined.

Lemma X17_witness :
  exists st1 world1,
    GenerateSchemaForNCDs Z Example_UnrealNameToSchemaComponentName
      FString_FromId FString_FromId "schema/" Example_Env Example_LevelState
      Example_World
    = Ok (st1, world1)
    /\ NCDIdsBelowCounter Z st1
    /\ NCDIdsApart Z st1
    /\ 10005 <= NextAvailableComponentId Z st1.
Proof.
  destruct (GenerateSchemaForNCDs Z Example_UnrealNameToSchemaComponentName
              FString_FromId FString_FromId "schema/" Example_Env Example_LevelState
              Example_World)
    as [e|[st1 world1]] eqn:E; [vm_compute in E; discriminate E|].
  destruct (GenerateSchemaForNCDs_keeps_distance_ids_apart Z
              Example_UnrealNameToSchemaComponentName FString_FromId FString_FromId
              "schema/" Example_Env Example_LevelState st1 Example_World world1
              eq_refl)
    as (H1 & H2 & H3 & _).
  - intros Entry [<-|[<-|[]]]; reflexivity.
  - intros i j Key1 Key2 id Hi Hj Hid.
    destruct i as [|[|[|i]]], j as [|[|[|j]]]; cbn in Hi, Hj;
      try discriminate; try reflexivity;
      injection Hi as _ <-; injection Hj as _ Hj';
      solve [discriminate Hj' | exfalso; apply Hid; reflexivity].
  - exact E.
  - exists st1, world1.
    split; [reflexivity|]. split; [exact H1|]. split; [exact H2 | exact H3].
Defined.

